(** * aurman: the dependency-resolution core of [aurman/classes.py]

    A shallow embedding of the package model ([Package]), the system index
    ([System]), the recursive solver ([Package.solutions_for_dep_problem],
    [Package.dep_solving]) and the plan selector
    ([System.hypothetical_append_packages_to_system],
    [System.validate_and_choose_solution]), together with the properties
    established about them. *)

From stdpp Require Import base decidable option list strings gmap sets.
From Stdlib Require Import Ascii Lia.

Local Open Scope string_scope.
Local Open Scope list_scope.
Set Warnings "-clear-no-such-hyp".

(** ** Python containers *)

(** A Python [dict] keeps its keys in insertion order, and that order is
    observable through [values()]: it is an association list with unique
    keys. *)
Module PyDict.
Section Dict.
Context {V : Type}.

Fixpoint get (d : list (string * V)) (k : string) : option V :=
  match d with
  | [] => None
  | (k', v) :: d' => if bool_decide (k' = k) then Some v else get d' k
  end.

Definition mem (d : list (string * V)) (k : string) : bool :=
  match get d k with Some _ => true | None => false end.

(** [d[k] = v]: an existing key keeps its position, a new one goes last. *)
Fixpoint set (d : list (string * V)) (k : string) (v : V) : list (string * V) :=
  match d with
  | [] => [(k, v)]
  | (k', v') :: d' =>
      if bool_decide (k' = k) then (k', v) :: d' else (k', v') :: set d' k v
  end.

(** [del d[k]]; [None] stands for the [KeyError] of an absent key. *)
Fixpoint del (d : list (string * V)) (k : string) : option (list (string * V)) :=
  match d with
  | [] => None
  | (k', v') :: d' =>
      if bool_decide (k' = k) then Some d'
      else match del d' k with
           | Some d'' => Some ((k', v') :: d'')
           | None => None
           end
  end.

Definition values (d : list (string * V)) : list V := map snd d.
Definition keys (d : list (string * V)) : list string := map fst d.
End Dict.
End PyDict.

(** ** Packages *)

Inductive PossibleTypes : Type :=
| REPO_PACKAGE
| AUR_PACKAGE
| DEVEL_PACKAGE
| PACKAGE_NOT_REPO_NOT_AUR.

(** The attributes of [Package] the resolution core reads.  The sequences the
    code guards with [is not None] are options; [provides] and [conflicts] are
    iterated without such a guard and every loader sets them, so they are
    lists.  ([optdepends], [replaces], [pkgbase] and [install_reason] are never
    read by the functions below.) *)
Record Package : Type := mkPackage {
  name : string;
  version : string;
  depends : option (list string);
  conflicts : list string;
  required_by : option (list string);
  provides : list string;
  makedepends : option (list string);
  checkdepends : option (list string);
  type_of : PossibleTypes
}.

(** [Package.__eq__]: name and version. *)
Definition pkg_eqb (p q : Package) : bool :=
  bool_decide (name p = name q) && bool_decide (version p = version q).

(** [p in l] for a list of packages. *)
Definition pkg_in (p : Package) (l : list Package) : bool :=
  existsb (pkg_eqb p) l.

Definition is_repo (p : Package) : bool :=
  match type_of p with REPO_PACKAGE => true | _ => false end.

(** [Package.relevant_deps] *)
Definition relevant_deps (self : Package) : list string :=
  let to_return := [] in
  let to_return :=
    match depends self with Some d => to_return ++ d | None => to_return end in
  let to_return :=
    match makedepends self with Some d => to_return ++ d | None => to_return end in
  let to_return :=
    match checkdepends self with Some d => to_return ++ d | None => to_return end in
  to_return.

(** ** Errors and outcomes *)

(** The first two are [InvalidInput] in the source; [KeyError] is what
    [del d[k]] raises for an absent key and [EOFError] what [input()] raises
    when the user's input has ended. *)
Inductive exn : Type :=
| PackageAlreadyKnown (p : Package)
| NoValidSolutionsFound
| KeyError (k : string)
| EOFError.

(** The result of running a piece of code under a step budget. *)
Inductive outcome (A : Type) : Type :=
| Done (a : A)
| Raised (e : exn)
| OutOfFuel.
Arguments Done {A} a.
Arguments Raised {A} e.
Arguments OutOfFuel {A}.

Definition is_done {A} (o : outcome A) : bool :=
  match o with Done _ => true | _ => false end.

Definition terminates {A} (o : outcome A) : Prop := o <> OutOfFuel.

(** ** The system index *)

Record System : Type := mkSystemRecord {
  all_packages_dict : list (string * Package);
  repo_packages_list : list Package;
  aur_packages_list : list Package;
  devel_packages_list : list Package;
  not_repo_not_aur_packages_list : list Package;
  provides_dict : list (string * list Package);
  conflicts_dict : list (string * list Package)
}.

Definition empty_system : System :=
  mkSystemRecord [] [] [] [] [] [] [].

(** ** Solver state *)

(** [DepAlgoSolution] *)
Record DepAlgoSolution : Type := mkSolution {
  packages_in_solution : list Package;
  visited_packages : list Package;
  visited_names : gset string;
  is_valid : bool
}.

(** [DepAlgoCycle], [DepAlgoConflict] and [DepAlgoNotProvided].  The
    [conflicting_packages] of a conflict is a Python set: a list without
    repetition up to [pkg_eqb], compared as a set. *)
Inductive DepAlgoFoundProblems : Type :=
| DepAlgoCycle (cycle_packages : list Package)
| DepAlgoConflict (conflicting_packages : list Package)
    (way_to_conflict : list Package)
| DepAlgoNotProvided (dep_not_provided : string) (package : Package).

Definition get_relevant_packages (problem : DepAlgoFoundProblems)
  : list Package :=
  match problem with
  | DepAlgoCycle cycle_packages => cycle_packages
  | DepAlgoConflict conflicting_packages _ => conflicting_packages
  | DepAlgoNotProvided _ package => [package]
  end.

(** [tuple(l1) == tuple(l2)] on packages. *)
Fixpoint pkg_list_eqb (l1 l2 : list Package) : bool :=
  match l1, l2 with
  | [], [] => true
  | p :: l1', q :: l2' => pkg_eqb p q && pkg_list_eqb l1' l2'
  | _, _ => false
  end.

(** [frozenset(s1) == frozenset(s2)] on packages. *)
Definition pkg_set_eqb (s1 s2 : list Package) : bool :=
  forallb (fun p => pkg_in p s2) s1 && forallb (fun p => pkg_in p s1) s2.

(** [s.add(p)] and [set(l)] on packages. *)
Definition pkg_set_add (p : Package) (s : list Package) : list Package :=
  if pkg_in p s then s else s ++ [p].

Definition pkg_set (l : list Package) : list Package :=
  fold_left (fun s p => pkg_set_add p s) l [].

(** The [__eq__] of the three problem classes. *)
Definition problem_eqb (x y : DepAlgoFoundProblems) : bool :=
  match x, y with
  | DepAlgoCycle l1, DepAlgoCycle l2 => pkg_list_eqb l1 l2
  | DepAlgoConflict s1 w1, DepAlgoConflict s2 w2 =>
      pkg_set_eqb s1 s2 && pkg_list_eqb w1 w2
  | DepAlgoNotProvided d1 p1, DepAlgoNotProvided d2 p2 =>
      bool_decide (d1 = d2) && pkg_eqb p1 p2
  | _, _ => false
  end.

(** [found_problems.add(x)]: the set keeps the representative it has. *)
Definition fp_add (x : DepAlgoFoundProblems) (found_problems : list DepAlgoFoundProblems)
  : list DepAlgoFoundProblems :=
  if existsb (problem_eqb x) found_problems then found_problems
  else found_problems ++ [x].

(** Truth value of a list. *)
Definition nonempty {A} (l : list A) : bool :=
  match l with [] => false | _ => true end.

(** Sequencing of outcomes. *)
#[global] Instance outcome_bind : MBind outcome := fun A B k o =>
  match o with
  | Done a => k a
  | Raised e => Raised e
  | OutOfFuel => OutOfFuel
  end.

#[global] Instance outcome_ret : MRet outcome := fun A a => Done a.

(** ** Sets of packages and the user's terminal *)

Definition pkg_set_union (s1 s2 : list Package) : list Package :=
  fold_left (fun s p => pkg_set_add p s) s2 s1.

(** [s1 ^ s2] *)
Definition pkg_set_symdiff (s1 s2 : list Package) : list Package :=
  filter (fun p => pkg_in p s2 = false) s1
  ++ filter (fun p => pkg_in p s1 = false) s2.

(** [set.intersection] of the given sets *)
Definition pkg_set_intersection (sets : list (list Package)) : list Package :=
  match sets with
  | [] => []
  | s :: rest => filter (fun p => forallb (pkg_in p) rest = true) s
  end.

(** [names.sort()] *)
Fixpoint insert_name (x : string) (l : list string) : list string :=
  match l with
  | [] => [x]
  | y :: l' => if String.leb x y then x :: l else y :: insert_name x l'
  end.

Definition sort_names (l : list string) : list string :=
  fold_right insert_name [] l.

(** What passes between [validate_and_choose_solution] and the user. *)
Inductive event : Type :=
| PrintDifferentSolutionsFound (count : nat)
| PrintSolution (number : nat) (installed_names removed_names : list string)
| Prompt (answer : option Z)
| PrintChoiceNotValid.

(** ** Objects

    A store of [System] objects; references are positions, and a new object
    goes to the end of the store. *)
Definition St (A : Type) : Type := list System -> list System * outcome A.

#[global] Instance St_ret : MRet St := fun A a h => (h, Done a).

#[global] Instance St_bind : MBind St := fun A B k m h =>
  match m h with
  | (h', Done a) => k a h'
  | (h', Raised e) => (h', Raised e)
  | (h', OutOfFuel) => (h', OutOfFuel)
  end.

Definition alloc (s : System) : St nat := fun h => (h ++ [s], Done (length h)).

(** Reading through a reference; every reference the code holds was handed
    out by [alloc] or is [self], so the default is never used. *)
Definition load (l : nat) : St System :=
  fun h => (h, Done (default empty_system (h !! l))).

Definition save (l : nat) (s : System) : St unit :=
  fun h => (<[l:=s]> h, Done tt).

Definition lift {A} (o : outcome A) : St A := fun h => (h, o).

Definition raise {A} (e : exn) : St A := lift (Raised e).

(** ** A concrete instance of the helpers *)

(** The theorems below hold for every [split_name_with_versioning] and
    [version_comparison]; the examples need an instance to run on. *)
Module Utilities.

Definition is_operator_char (c : ascii) : bool :=
  bool_decide (c = "<"%char) || bool_decide (c = ">"%char)
  || bool_decide (c = "="%char).

(** The name part, and the rest from the first operator character on. *)
Fixpoint split_at_operator (s : string) : string * string :=
  match s with
  | EmptyString => (EmptyString, EmptyString)
  | String c s' =>
      if is_operator_char c then (EmptyString, s)
      else let '(n, r) := split_at_operator s' in (String c n, r)
  end.

(** Modelled from the spec: [aurman.utilities.split_name_with_versioning],
    which is not part of this file; "splits on the first occurrence of any
    of [>=], [<=], [==], [=], [>], [<] (longest match wins); absent operator
    means empty operator and version". *)
Definition split_name_with_versioning (s : string) : string * string * string :=
  let '(n, r) := split_at_operator s in
  match r with
  | String c1 (String c2 v) =>
      if bool_decide (c2 = "="%char)
      then (n, String c1 (String c2 EmptyString), v)
      else (n, String c1 EmptyString, String c2 v)
  | String c1 EmptyString => (n, String c1 EmptyString, EmptyString)
  | EmptyString => (n, EmptyString, EmptyString)
  end.

(** A stand-in for the package manager's version ordering, used by the
    examples only: versions are ordered as character strings. *)
Definition version_comparison (v1 op v2 : string) : bool :=
  match String.compare v1 v2 with
  | Eq => bool_decide (op = "=") || bool_decide (op = "==")
          || bool_decide (op = "<=") || bool_decide (op = ">=")
  | Lt => bool_decide (op = "<") || bool_decide (op = "<=")
  | Gt => bool_decide (op = ">") || bool_decide (op = ">=")
  end.

End Utilities.

(** ** Example packages *)
Module Examples.

(** A package with its dependencies, conflicts and provides, and no other
    optional attribute. *)
Definition pkg (n v : string) (t : PossibleTypes) (deps confl prov : list string)
  : Package :=
  mkPackage n v (Some deps) confl None prov None None t.

(** Two repo packages that depend on each other. *)
Definition mesa_repo : Package := pkg "mesa" "1" REPO_PACKAGE ["libglvnd"] [] [].
Definition libglvnd_repo : Package :=
  pkg "libglvnd" "1" REPO_PACKAGE ["mesa"] [] [].

(** An AUR package that needs the first of them. *)
Definition game : Package := pkg "game" "1" AUR_PACKAGE ["mesa"] [] [].

(** Two AUR packages that depend on each other. *)
Definition a_cyclic : Package := pkg "a" "1" AUR_PACKAGE ["b"] [] [].
Definition b_cyclic : Package := pkg "b" "1" AUR_PACKAGE ["a"] [] [].

(** A package with two providers of its dependency, and a package that
    conflicts with the second provider. *)
Definition app : Package := pkg "app" "1" AUR_PACKAGE ["x"] [] [].
Definition p1 : Package := pkg "p1" "1" AUR_PACKAGE [] [] ["x"].
Definition p2 : Package := pkg "p2" "1" AUR_PACKAGE [] [] ["x"].
Definition tool : Package := pkg "tool" "1" AUR_PACKAGE [] ["p2"] [].

(** A package that provides two versions of the same name. *)
Definition jre : Package :=
  pkg "jre" "8" REPO_PACKAGE [] [] ["java-runtime=8"; "java-runtime=7"].

(** A package and one that conflicts with it. *)
Definition c : Package := pkg "c" "1" AUR_PACKAGE [] [] [].
Definition b : Package := pkg "b" "1" AUR_PACKAGE [] ["c"] [].

(** A solution that visited [c] and is invalid already, and the same
    solution still valid. *)
Definition invalid_after_c : DepAlgoSolution := mkSolution [c] [c] ∅ false.
Definition valid_after_c : DepAlgoSolution := mkSolution [c] [c] ∅ true.

(** Two versions of one package. *)
Definition a1 : Package := pkg "a" "1" AUR_PACKAGE [] [] [].
Definition a2 : Package := pkg "a" "2" AUR_PACKAGE [] [] [].

(** A chain of dependencies. *)
Definition top : Package := pkg "top" "1" AUR_PACKAGE ["mid"] [] [].
Definition mid : Package := pkg "mid" "1" AUR_PACKAGE ["low"] [] [].
Definition low : Package := pkg "low" "1" AUR_PACKAGE [] [] [].

(** A cycle of AUR packages through a provided name: [front] needs [virt],
    which [impl] provides; [impl] needs [helper], which needs [virt]. *)
Definition front : Package := pkg "front" "1" AUR_PACKAGE ["virt"] [] [].
Definition impl : Package := pkg "impl" "1" AUR_PACKAGE ["helper"] [] ["virt"].
Definition helper : Package := pkg "helper" "1" AUR_PACKAGE ["virt"] [] [].

(** An installed package, an installed package that requires it, and a new
    package that conflicts with the first. *)
Definition x_installed : Package :=
  mkPackage "x" "1" (Some []) [] (Some ["y"]) [] None None REPO_PACKAGE.
Definition y_installed : Package :=
  mkPackage "y" "1" (Some ["x"]) [] (Some []) [] None None REPO_PACKAGE.
Definition z_new : Package := pkg "z" "1" AUR_PACKAGE [] ["x"] [].

End Examples.

(** [PossibleTypes] is an [Enum]: its members are compared by identity. *)
#[global] Instance PossibleTypes_eq_dec : EqDecision PossibleTypes.
Proof. solve_decision. Defined.

Section Core.

(** The two helpers of [aurman.utilities] the core calls. *)
Variable split_name_with_versioning : string -> string * string * string.
Variable version_comparison : string -> string -> string -> bool.

(** Modelled from the spec: [aurman.utilities.strip_versioning_from_name],
    which is not part of this file; "strip(s) returns only the name
    portion" of the atom. *)
Definition strip_versioning_from_name (s : string) : string :=
  let '(n, _, _) := split_name_with_versioning s in n.

(** The first loop of [System.append_packages]: stops at the first name
    that is already known and reports it together with the state reached. *)
Fixpoint append_packages_loop (self : System) (packages : list Package)
  : System * option exn :=
  match packages with
  | [] => (self, None)
  | package :: rest =>
      if PyDict.mem (all_packages_dict self) (name package)
      then (self, Some (PackageAlreadyKnown package))
      else
        let d := PyDict.set (all_packages_dict self) (name package) package in
        let self' :=
          match type_of package with
          | REPO_PACKAGE =>
              mkSystemRecord d (repo_packages_list self ++ [package])
                (aur_packages_list self) (devel_packages_list self)
                (not_repo_not_aur_packages_list self)
                (provides_dict self) (conflicts_dict self)
          | AUR_PACKAGE =>
              mkSystemRecord d (repo_packages_list self)
                (aur_packages_list self ++ [package]) (devel_packages_list self)
                (not_repo_not_aur_packages_list self)
                (provides_dict self) (conflicts_dict self)
          | DEVEL_PACKAGE =>
              mkSystemRecord d (repo_packages_list self)
                (aur_packages_list self) (devel_packages_list self ++ [package])
                (not_repo_not_aur_packages_list self)
                (provides_dict self) (conflicts_dict self)
          | PACKAGE_NOT_REPO_NOT_AUR =>
              mkSystemRecord d (repo_packages_list self)
                (aur_packages_list self) (devel_packages_list self)
                (not_repo_not_aur_packages_list self ++ [package])
                (provides_dict self) (conflicts_dict self)
          end in
        append_packages_loop self' rest
  end.

(** [System.__append_to_x_dict], on the dictionary it is given. *)
Definition append_to_x_dict (relevant : Package -> list string)
    (dict_to_append_to : list (string * list Package))
    (packages : list Package) : list (string * list Package) :=
  fold_left (fun d package =>
    fold_left (fun d relevant_value =>
      let value_name := strip_versioning_from_name relevant_value in
      match PyDict.get d value_name with
      | Some l => PyDict.set d value_name (l ++ [package])
      | None => PyDict.set d value_name [package]
      end) (relevant package) d) packages dict_to_append_to.

(** [System.append_packages] *)
Definition append_packages (self : System) (packages : list Package)
  : outcome System :=
  match append_packages_loop self packages with
  | (_, Some e) => Raised e
  | (self', None) =>
      Done (mkSystemRecord (all_packages_dict self')
              (repo_packages_list self') (aur_packages_list self')
              (devel_packages_list self')
              (not_repo_not_aur_packages_list self')
              (append_to_x_dict provides (provides_dict self') packages)
              (append_to_x_dict conflicts (conflicts_dict self') packages))
  end.

(** [System.__init__] *)
Definition mkSystem (packages : list Package) : outcome System :=
  append_packages empty_system packages.

(** One provide of [package] against the atom, the body of the innermost
    loop of [System.provided_by]. *)
Definition provided_by_provide (dep_name dep_cmp dep_version : string)
    (package : Package) (return_list : list Package) (provide : string)
  : list Package :=
  let '(provide_name, provide_cmp, provide_version) :=
    split_name_with_versioning provide in
  if negb (bool_decide (provide_name = dep_name)) then return_list
  else if bool_decide (dep_cmp = "") then return_list ++ [package]
  else if (bool_decide (provide_cmp = "=") || bool_decide (provide_cmp = "=="))
          && version_comparison provide_version dep_cmp dep_version
       then return_list ++ [package]
  else if bool_decide (provide_cmp = "")
          && version_comparison (version package) dep_cmp dep_version
       then return_list ++ [package]
  else return_list.

(** [System.provided_by] *)
Definition provided_by (self : System) (dep : string) : list Package :=
  let '(dep_name, dep_cmp, dep_version) := split_name_with_versioning dep in
  let return_list :=
    match PyDict.get (all_packages_dict self) dep_name with
    | Some package =>
        if bool_decide (dep_cmp = "") then [package]
        else if version_comparison (version package) dep_cmp dep_version
             then [package]
        else []
    | None => []
    end in
  match PyDict.get (provides_dict self) dep_name with
  | Some possible_packages =>
      fold_left (fun return_list package =>
        if pkg_in package return_list then return_list
        else fold_left (provided_by_provide dep_name dep_cmp dep_version package)
               (provides package) return_list)
        possible_packages return_list
  | None => return_list
  end.

(** [System.conflicting_with] *)
Definition conflicting_with (self : System) (package : Package)
  : list Package :=
  let name_ := name package in
  let version_ := version package in
  let return_list :=
    match PyDict.get (all_packages_dict self) name_ with
    | Some possible_conflict_package =>
        if negb (bool_decide (version_ = version possible_conflict_package))
        then [possible_conflict_package] else []
    | None => []
    end in
  let return_list :=
    fold_left (fun return_list conflict =>
      let '(conflict_name, conflict_cmp, conflict_version) :=
        split_name_with_versioning conflict in
      match PyDict.get (all_packages_dict self) conflict_name with
      | None => return_list
      | Some possible_conflict_package =>
          if pkg_in possible_conflict_package return_list then return_list
          else if bool_decide (conflict_cmp = "")
               then return_list ++ [possible_conflict_package]
          else if version_comparison (version possible_conflict_package)
                    conflict_cmp conflict_version
               then return_list ++ [possible_conflict_package]
          else return_list
      end) (conflicts package) return_list in
  match PyDict.get (conflicts_dict self) name_ with
  | Some possible_conflict_packages =>
      fold_left (fun return_list possible_conflict_package =>
        if pkg_in possible_conflict_package return_list then return_list
        else
          fold_left (fun return_list conflict =>
            let '(conflict_name, conflict_cmp, conflict_version) :=
              split_name_with_versioning conflict in
            if negb (bool_decide (conflict_name = name_)) then return_list
            else if bool_decide (conflict_cmp = "")
                 then return_list ++ [possible_conflict_package]
            else if version_comparison version_ conflict_cmp conflict_version
                 then return_list ++ [possible_conflict_package]
            else return_list)
            (conflicts possible_conflict_package) return_list)
        possible_conflict_packages return_list
  | None => return_list
  end.

(** [System.are_all_deps_fulfilled] *)
Definition are_all_deps_fulfilled (self : System) (package : Package) : bool :=
  forallb (fun dep =>
    match provided_by self dep with [] => false | _ => true end)
    (relevant_deps package).


(** ** The solver *)

(** [list.index]: position of the first element equal to [x].  (The source
    would raise [ValueError] for an absent element; at both call sites the
    element is present, see [index_lt_length] and
    [conflicting_with_visited].) *)
Fixpoint index (x : Package) (l : list Package) : nat :=
  match l with
  | [] => 0
  | y :: l' => if pkg_eqb y x then 0 else S (index x l')
  end.

(** [min] of a non-empty list of naturals. *)
Definition list_min (l : list nat) : nat :=
  match l with
  | [] => 0
  | x :: l' => fold_left Nat.min l' x
  end.

(** The cycle recorded when [self] is met again:
    [visited_packages[index_of_self:]] with [self] appended. *)
Definition new_dep_cycle (self : Package) (solution : DepAlgoSolution)
  : DepAlgoFoundProblems :=
  let index_of_self := index self (visited_packages solution) in
  DepAlgoCycle (drop index_of_self (visited_packages solution) ++ [self]).

(** The conflict recorded for a non-empty [conflict_system]. *)
Definition new_conflict (self : Package) (solution : DepAlgoSolution)
    (conflict_system : list Package) : DepAlgoFoundProblems :=
  let min_index :=
    list_min (map (fun package => index package (visited_packages solution))
                conflict_system) in
  let way_to_conflict := drop min_index (visited_packages solution) ++ [self] in
  DepAlgoConflict (pkg_set_add self (pkg_set conflict_system)) way_to_conflict.

Section Solver.
Variable installed_system upstream_system : System.
Variable only_unfulfilled_deps : bool.
Variable deps_to_deep_check : gset string.

(** What a recursive call of [solutions_for_dep_problem] looks like from
    inside the loops. *)
Definition rec_call : Type :=
  Package -> DepAlgoSolution -> list DepAlgoFoundProblems ->
  outcome (list DepAlgoSolution * list DepAlgoFoundProblems).

(** The solutions of [current_solutions] that do not know [dep] yet are
    flagged invalid and learn it ("dep not fulfillable"). *)
Definition flag_not_provided (dep : string) (solution : DepAlgoSolution)
  : DepAlgoSolution :=
  if bool_decide (dep ∈ visited_names solution) then solution
  else mkSolution (packages_in_solution solution) (visited_packages solution)
         ({[dep]} ∪ visited_names solution) false.

(** [solution.visited_names.add(dep)] *)
Definition learn_dep (dep : string) (solution : DepAlgoSolution)
  : DepAlgoSolution :=
  mkSolution (packages_in_solution solution) (visited_packages solution)
    ({[dep]} ∪ visited_names solution) (is_valid solution).

(** "check if dep provided by one of the packages already in a solution":
    returns the extended [finished_solutions] and the
    [new_not_finished_solutions]. *)
Fixpoint split_not_finished (dep : string)
    (not_finished_solutions finished_solutions new_not_finished_solutions
       : list DepAlgoSolution)
  : outcome (list DepAlgoSolution * list DepAlgoSolution) :=
  match not_finished_solutions with
  | [] => Done (finished_solutions, new_not_finished_solutions)
  | solution :: rest =>
      let solution := learn_dep dep solution in
      sol_system ← mkSystem (packages_in_solution solution) ;
      if nonempty (provided_by sol_system dep)
      then split_not_finished dep rest (finished_solutions ++ [solution])
             new_not_finished_solutions
      else split_not_finished dep rest finished_solutions
             (new_not_finished_solutions ++ [solution])
  end.

(** "calc and append new solutions", the loop over the providers of one
    unfinished solution. *)
Fixpoint extend_with_providers (rec : rec_call) (solution : DepAlgoSolution)
    (dep_providers : list Package)
    (current_solutions : list DepAlgoSolution)
    (found_problems : list DepAlgoFoundProblems)
  : outcome (list DepAlgoSolution * list DepAlgoFoundProblems) :=
  match dep_providers with
  | [] => Done (current_solutions, found_problems)
  | dep_provider :: rest =>
      '(new, found_problems) ← rec dep_provider solution found_problems ;
      extend_with_providers rec solution rest (current_solutions ++ new)
        found_problems
  end.

(** The loop over the unfinished solutions. *)
Fixpoint extend_solutions (rec : rec_call)
    (not_finished_solutions : list DepAlgoSolution)
    (dep_providers : list Package)
    (current_solutions : list DepAlgoSolution)
    (found_problems : list DepAlgoFoundProblems)
  : outcome (list DepAlgoSolution * list DepAlgoFoundProblems) :=
  match not_finished_solutions with
  | [] => Done (current_solutions, found_problems)
  | solution :: rest =>
      '(current_solutions, found_problems) ←
        extend_with_providers rec solution dep_providers current_solutions
          found_problems ;
      extend_solutions rec rest dep_providers current_solutions found_problems
  end.

(** The body of [for dep in self.relevant_deps()]. *)
Definition dep_step (rec : rec_call) (self : Package) (dep : string)
    (current_solutions : list DepAlgoSolution)
    (found_problems : list DepAlgoFoundProblems)
  : outcome (list DepAlgoSolution * list DepAlgoFoundProblems) :=
  if only_unfulfilled_deps && nonempty (provided_by installed_system dep)
  then Done (current_solutions, found_problems)
  else
    let dep_providers := provided_by upstream_system dep in
    let dep_providers_names := map name dep_providers in
    let dep_stripped_name := strip_versioning_from_name dep in
    let '(current_solutions, found_problems) :=
      if nonempty dep_providers then (current_solutions, found_problems)
      else (map (flag_not_provided dep) current_solutions,
            fp_add (DepAlgoNotProvided dep self) found_problems) in
    let dep_providers :=
      if bool_decide (dep_stripped_name ∈ dep_providers_names)
         && negb (bool_decide (dep ∈ deps_to_deep_check))
      then filter (fun package => name package = dep_stripped_name)
             dep_providers
      else dep_providers in
    let finished_solutions :=
      filter (fun solution => dep ∈ visited_names solution)
        current_solutions in
    let not_finished_solutions :=
      filter (fun solution => dep ∉ visited_names solution)
        current_solutions in
    '(finished_solutions, not_finished_solutions) ←
      split_not_finished dep not_finished_solutions finished_solutions [] ;
    extend_solutions rec not_finished_solutions dep_providers
      finished_solutions found_problems.

(** [for dep in self.relevant_deps()] *)
Fixpoint deps_loop (rec : rec_call) (self : Package) (deps : list string)
    (current_solutions : list DepAlgoSolution)
    (found_problems : list DepAlgoFoundProblems)
  : outcome (list DepAlgoSolution * list DepAlgoFoundProblems) :=
  match deps with
  | [] => Done (current_solutions, found_problems)
  | dep :: rest =>
      '(current_solutions, found_problems) ←
        dep_step rec self dep current_solutions found_problems ;
      deps_loop rec self rest current_solutions found_problems
  end.

(** The copy of [solution] with [self] pushed on [visited_packages]. *)
Definition push_self (self : Package) (is_conflict : bool)
    (solution : DepAlgoSolution) : DepAlgoSolution :=
  mkSolution (packages_in_solution solution)
    (visited_packages solution ++ [self]) (visited_names solution)
    (if is_conflict then false else is_valid solution).

(** [solution.packages_in_solution.append(self)] *)
Definition select_self (self : Package) (solution : DepAlgoSolution)
  : DepAlgoSolution :=
  mkSolution (packages_in_solution solution ++ [self])
    (visited_packages solution) (visited_names solution) (is_valid solution).

(** [Package.solutions_for_dep_problem]; [fuel] bounds the recursion
    depth.  [found_problems] is the shared set, threaded through. *)
Fixpoint solutions_for_dep_problem (fuel : nat) (self : Package)
    (solution : DepAlgoSolution) (found_problems : list DepAlgoFoundProblems)
  : outcome (list DepAlgoSolution * list DepAlgoFoundProblems) :=
  match fuel with
  | 0 => OutOfFuel
  | S fuel =>
      if pkg_in self (packages_in_solution solution)
      then Done ([solution], found_problems)
      else if pkg_in self (visited_packages solution) && negb (is_repo self)
      then
        Done ([], if is_valid solution
                  then fp_add (new_dep_cycle self solution) found_problems
                  else found_problems)
      else if pkg_in self (visited_packages solution)
      then Done ([solution], found_problems)
      else
        sys ← mkSystem (visited_packages solution) ;
        let conflict_system := conflicting_with sys self in
        let found_problems :=
          if nonempty conflict_system && is_valid solution
          then fp_add (new_conflict self solution conflict_system)
                 found_problems
          else found_problems in
        let is_conflict := nonempty conflict_system in
        let solution := push_self self is_conflict solution in
        '(current_solutions, found_problems) ←
          deps_loop (solutions_for_dep_problem fuel) self
            (relevant_deps self) [solution] found_problems ;
        let found_problems :=
          if existsb is_valid current_solutions then [] else found_problems in
        Done (map (select_self self) current_solutions, found_problems)
  end.

(** The inner loop of a pass: one requested package against every current
    solution. *)
Fixpoint expand_package (fuel : nat) (package : Package)
    (current_solutions new_solutions : list DepAlgoSolution)
    (found_problems : list DepAlgoFoundProblems)
  : outcome (list DepAlgoSolution * list DepAlgoFoundProblems) :=
  match current_solutions with
  | [] => Done (new_solutions, found_problems)
  | solution :: rest =>
      '(sols, found_problems) ←
        solutions_for_dep_problem fuel package solution found_problems ;
      expand_package fuel package rest (new_solutions ++ sols) found_problems
  end.

(** "calc solutions": [for package in packages]. *)
Fixpoint calc_solutions (fuel : nat) (packages : list Package)
    (current_solutions : list DepAlgoSolution)
    (found_problems : list DepAlgoFoundProblems)
  : outcome (list DepAlgoSolution * list DepAlgoFoundProblems) :=
  match packages with
  | [] => Done (current_solutions, found_problems)
  | package :: rest =>
      '(current_solutions, found_problems) ←
        expand_package fuel package current_solutions [] found_problems ;
      calc_solutions fuel rest current_solutions found_problems
  end.
End Solver.

(** [deps_to_deep_check |= problem_packages_names], for every problem. *)
Definition widen (found_problems : list DepAlgoFoundProblems)
    (deps_to_deep_check : gset string) : gset string :=
  fold_left (fun deps_to_deep_check problem =>
    deps_to_deep_check ∪ list_to_set (map name (get_relevant_packages problem)))
    found_problems deps_to_deep_check.

Definition initial_solution : DepAlgoSolution := mkSolution [] [] ∅ true.

(** The [while True] loop of [Package.dep_solving]; [passes] bounds the
    number of iterations and [fuel] the recursion depth of each expansion.
    The result is the state the loop is left with. *)
Fixpoint dep_solving_loop (passes fuel : nat) (packages : list Package)
    (installed_system upstream_system : System) (only_unfulfilled_deps : bool)
    (current_solutions : list DepAlgoSolution)
    (found_problems : list DepAlgoFoundProblems)
    (deps_to_deep_check : gset string)
  : outcome (list DepAlgoSolution * list DepAlgoFoundProblems) :=
  match passes with
  | 0 => OutOfFuel
  | S passes =>
      '(current_solutions, found_problems) ←
        calc_solutions installed_system upstream_system only_unfulfilled_deps
          deps_to_deep_check fuel packages current_solutions found_problems ;
      let current_solutions := filter (fun s => is_valid s = true) current_solutions in
      if nonempty current_solutions
      then Done (current_solutions, found_problems)
      else
        let deps_to_deep_check_length := size deps_to_deep_check in
        let deps_to_deep_check := widen found_problems deps_to_deep_check in
        if bool_decide (size deps_to_deep_check = deps_to_deep_check_length)
        then Done (current_solutions, found_problems)
        else
          dep_solving_loop passes fuel packages installed_system upstream_system
            only_unfulfilled_deps [initial_solution] [] deps_to_deep_check
  end.

(** What [Package.dep_solving] leaves behind: the returned plans, the
    problems it prints for the user (if it prints), and the final content of
    its local [found_problems]. *)
Record solving_result : Type := mkSolvingResult {
  plans : list (list Package);
  printed : option (list DepAlgoFoundProblems);
  final_problems : list DepAlgoFoundProblems
}.

(** [Package.dep_solving] *)
Definition dep_solving (passes fuel : nat) (packages : list Package)
    (installed_system upstream_system : System) (only_unfulfilled_deps : bool)
  : outcome solving_result :=
  '(current_solutions, found_problems) ←
    dep_solving_loop passes fuel packages installed_system upstream_system
      only_unfulfilled_deps [initial_solution] [] ∅ ;
  let printed :=
    if nonempty found_problems && negb (nonempty current_solutions)
    then Some found_problems else None in
  Done (mkSolvingResult (map packages_in_solution current_solutions)
          printed found_problems).


(** ** The hypothetical mutator *)

(** [del self.all_packages_dict[k]]: only that dictionary of the object
    changes; the other indexes are stale until the system is rebuilt. *)
Definition with_all_packages_dict (self : System)
    (d : list (string * Package)) : System :=
  mkSystemRecord d (repo_packages_list self) (aur_packages_list self)
    (devel_packages_list self) (not_repo_not_aur_packages_list self)
    (provides_dict self) (conflicts_dict self).

Definition del_package (self : System) (k : string) : outcome System :=
  match PyDict.del (all_packages_dict self) k with
  | Some d => Done (with_all_packages_dict self d)
  | None => Raised (KeyError k)
  end.

(** [for p in l: del self.all_packages_dict[p.name]] *)
Fixpoint del_packages (self : System) (l : list Package) : outcome System :=
  match l with
  | [] => Done self
  | p :: l' => self ← del_package self (name p); del_packages self l'
  end.

(** The first loop: same-named packages are displaced and remembered. *)
Fixpoint displace (new_system : System) (packages deleted_packages : list Package)
  : outcome (System * list Package) :=
  match packages with
  | [] => Done (new_system, deleted_packages)
  | package :: rest =>
      match PyDict.get (all_packages_dict new_system) (name package) with
      | Some old =>
          new_system ← del_package new_system (name package);
          displace new_system rest (deleted_packages ++ [old])
      | None => displace new_system rest deleted_packages
      end
  end.

(** The packages of [new_system] that one of [deleted_packages] names in
    its [required_by]. *)
Definition was_required_by (new_system : System)
    (deleted_packages : list Package) : list Package :=
  flat_map (fun deleted_package =>
    match required_by deleted_package with
    | Some names =>
        omap (fun required_by => PyDict.get (all_packages_dict new_system) required_by)
          names
    | None => []
    end) deleted_packages.

(** Those of them whose dependencies are not fulfilled any more, once each. *)
Definition unfulfilled (new_system : System)
    (was_required_by_packages : list Package) : list Package :=
  fold_left (fun to_delete_packages was_required_by_package =>
    if are_all_deps_fulfilled new_system was_required_by_package
    then to_delete_packages
    else if pkg_in was_required_by_package to_delete_packages
         then to_delete_packages
    else to_delete_packages ++ [was_required_by_package])
    was_required_by_packages [].

(** [while to_delete_packages or deleted_packages] *)
Fixpoint cascade (fuel : nat) (new_system : System)
    (to_delete_packages deleted_packages : list Package) : outcome System :=
  if nonempty to_delete_packages || nonempty deleted_packages then
    match fuel with
    | 0 => OutOfFuel
    | S fuel =>
        let deleted_packages := deleted_packages ++ to_delete_packages in
        new_system ← del_packages new_system to_delete_packages;
        new_system ← mkSystem (PyDict.values (all_packages_dict new_system));
        let was_required_by_packages :=
          was_required_by new_system deleted_packages in
        let to_delete_packages :=
          unfulfilled new_system was_required_by_packages in
        cascade fuel new_system to_delete_packages []
    end
  else Done new_system.

(** The incoming packages still present whose dependencies fail. *)
Definition unfulfilled_incoming (new_system : System)
    (packages : list Package) : list Package :=
  filter (fun package =>
    PyDict.mem (all_packages_dict new_system) (name package) = true
    ∧ are_all_deps_fulfilled new_system package = false) packages.

(** The final [while True] *)
Fixpoint recheck (fuel : nat) (new_system : System) (packages : list Package)
  : outcome System :=
  match fuel with
  | 0 => OutOfFuel
  | S fuel =>
      let to_delete_packages := unfulfilled_incoming new_system packages in
      if nonempty to_delete_packages then
        new_system ← del_packages new_system to_delete_packages;
        new_system ← mkSystem (PyDict.values (all_packages_dict new_system));
        recheck fuel new_system packages
      else Done new_system
  end.

(** [System.hypothetical_append_packages_to_system], as a function of the
    value of [self]; [fuel] bounds the iterations of each of its loops. *)
Definition hypothetical_append_packages_to_system (fuel : nat) (self : System)
    (packages : list Package) : outcome System :=
  let new_system := self in
  '(new_system, deleted_packages) ← displace new_system packages [];
  new_system ← mkSystem (PyDict.values (all_packages_dict new_system));
  let to_delete_packages :=
    pkg_set (flat_map (conflicting_with new_system) packages) in
  new_system ← append_packages new_system packages;
  new_system ← cascade fuel new_system to_delete_packages deleted_packages;
  recheck fuel new_system packages.


(** *** The same code on objects

    In the source a [System] is a mutable object: [deepcopy] and
    [System(...)] create new objects, [del] and [append_packages] change
    one in place, and [new_system] is rebound from object to object.  The
    store holds the [System] objects; a reference is a position in it. *)

Definition deepcopy (self : nat) : St nat :=
  s ← load self; alloc s.

(** [self.append_packages(packages)] on the object at [self]; when it
    raises, the object keeps the packages inserted so far. *)
Definition append_packages_at (self : nat) (packages : list Package) : St unit :=
  s ← load self;
  match append_packages s packages with
  | Done s' => save self s'
  | Raised e => save self (append_packages_loop s packages).1;; raise e
  | OutOfFuel => lift OutOfFuel
  end.

(** [System(packages)] *)
Definition new_System (packages : list Package) : St nat :=
  self ← alloc empty_system;
  append_packages_at self packages;;
  mret self.

(** [del new_system.all_packages_dict[k]] *)
Definition del_package_at (new_system : nat) (k : string) : St unit :=
  s ← load new_system;
  match PyDict.del (all_packages_dict s) k with
  | Some d => save new_system (with_all_packages_dict s d)
  | None => raise (KeyError k)
  end.

Fixpoint del_packages_at (new_system : nat) (l : list Package) : St unit :=
  match l with
  | [] => mret tt
  | p :: l' => del_package_at new_system (name p);; del_packages_at new_system l'
  end.

Fixpoint displace_at (new_system : nat) (packages deleted_packages : list Package)
  : St (list Package) :=
  match packages with
  | [] => mret deleted_packages
  | package :: rest =>
      s ← load new_system;
      match PyDict.get (all_packages_dict s) (name package) with
      | Some old =>
          del_package_at new_system (name package);;
          displace_at new_system rest (deleted_packages ++ [old])
      | None => displace_at new_system rest deleted_packages
      end
  end.

(** [System(list(new_system.all_packages_dict.values()))] *)
Definition rebuild (new_system : nat) : St nat :=
  s ← load new_system;
  new_System (PyDict.values (all_packages_dict s)).

Fixpoint cascade_at (fuel : nat) (new_system : nat)
    (to_delete_packages deleted_packages : list Package) : St nat :=
  if nonempty to_delete_packages || nonempty deleted_packages then
    match fuel with
    | 0 => lift OutOfFuel
    | S fuel =>
        let deleted_packages := deleted_packages ++ to_delete_packages in
        del_packages_at new_system to_delete_packages;;
        new_system ← rebuild new_system;
        s ← load new_system;
        let was_required_by_packages := was_required_by s deleted_packages in
        let to_delete_packages := unfulfilled s was_required_by_packages in
        cascade_at fuel new_system to_delete_packages []
    end
  else mret new_system.

Fixpoint recheck_at (fuel : nat) (new_system : nat) (packages : list Package)
  : St nat :=
  match fuel with
  | 0 => lift OutOfFuel
  | S fuel =>
      s ← load new_system;
      let to_delete_packages := unfulfilled_incoming s packages in
      if nonempty to_delete_packages then
        del_packages_at new_system to_delete_packages;;
        new_system ← rebuild new_system;
        recheck_at fuel new_system packages
      else mret new_system
  end.

(** [System.hypothetical_append_packages_to_system] on the object [self]. *)
Definition hypothetical_append_packages_to_system_at (fuel : nat) (self : nat)
    (packages : list Package) : St nat :=
  new_system ← deepcopy self;
  deleted_packages ← displace_at new_system packages [];
  new_system ← rebuild new_system;
  s ← load new_system;
  let to_delete_packages := pkg_set (flat_map (conflicting_with s) packages) in
  append_packages_at new_system packages;;
  new_system ← cascade_at fuel new_system to_delete_packages deleted_packages;
  recheck_at fuel new_system packages.


(** ** The plan selector *)

(** [System.differences_between_systems]; sets of packages are lists
    without repetition.  ([set.intersection] of no set at all is a
    [TypeError] in the source; the callers pass at least one system.) *)
Definition differences_between_systems (self : System)
    (other_systems : list System)
  : (list Package * list Package) * list (list Package * list Package) :=
  let own_packages := pkg_set (PyDict.values (all_packages_dict self)) in
  let differences_tuples :=
    map (fun other_system =>
      let other_packages :=
        pkg_set (PyDict.values (all_packages_dict other_system)) in
      let difference := pkg_set_symdiff own_packages other_packages in
      (filter (fun differ => pkg_in differ own_packages = false) difference,
       filter (fun differ => pkg_in differ own_packages = true) difference))
      other_systems in
  let first_return_tuple :=
    (pkg_set_intersection (map fst differences_tuples),
     pkg_set_intersection (map snd differences_tuples)) in
  let return_list :=
    map (fun difference_tuple =>
      (filter (fun installed_package =>
                 pkg_in installed_package first_return_tuple.1 = false)
         difference_tuple.1,
       filter (fun uninstalled_package =>
                 pkg_in uninstalled_package first_return_tuple.2 = false)
         difference_tuple.2))
      differences_tuples in
  (first_return_tuple, return_list).

(** "calculating new systems and finding valid systems": the systems that
    contain every needed name, with the positions of their plans. *)
Fixpoint find_valid_systems (i : nat) (new_systems : list System)
    (needed_packages : list Package) : list System * list nat :=
  match new_systems with
  | [] => ([], [])
  | new_system :: rest =>
      let '(valid_systems, valid_solutions_indices) :=
        find_valid_systems (S i) rest needed_packages in
      if forallb (fun package =>
           PyDict.mem (all_packages_dict new_system) (name package))
           needed_packages
      then (new_system :: valid_systems, i :: valid_solutions_indices)
      else (valid_systems, valid_solutions_indices)
  end.

(** "delete duplicate resulting systems" *)
Fixpoint delete_duplicates (valid_systems : list System)
    (valid_solutions_indices : list nat)
    (differences : list (list Package * list Package))
    (diff_set : list (list Package)) : list System * list nat :=
  match valid_systems, valid_solutions_indices, differences with
  | valid_system :: systems, i :: indices, d :: differences =>
      let cont_set := pkg_set_union d.1 d.2 in
      if existsb (pkg_set_eqb cont_set) diff_set
      then delete_duplicates systems indices differences diff_set
      else
        let '(new_valid_systems, new_valid_solutions_indices) :=
          delete_duplicates systems indices differences (diff_set ++ [cont_set]) in
        (valid_system :: new_valid_systems, i :: new_valid_solutions_indices)
  | _, _, _ => ([], [])
  end.

(** "print solutions" *)
Definition print_solutions (differences : list (list Package * list Package))
  : list event :=
  imap (fun i d =>
    PrintSolution (i + 1) (sort_names (map name d.1)) (sort_names (map name d.2)))
    differences.

(** The closing [while True]: one iteration per line the user enters. *)
Fixpoint choose (solutions : list (list Package))
    (valid_solutions_indices : list nat)
    (differences : list (list Package * list Package))
    (inputs : list (option Z)) (trace : list event)
  : outcome (list Package) * list event :=
  let trace := trace ++ print_solutions differences in
  match inputs with
  | [] => (Raised EOFError, trace)
  | input :: inputs =>
      let trace := trace ++ [Prompt input] in
      match input with
      | Some user_input =>
          if bool_decide (1 ≤ user_input ≤ Z.of_nat (length valid_solutions_indices))%Z
          then
            (Done (nth (nth (Z.to_nat (user_input - 1)) valid_solutions_indices 0)
                     solutions []), trace)
          else choose solutions valid_solutions_indices differences inputs
                 (trace ++ [PrintChoiceNotValid])
      | None => choose solutions valid_solutions_indices differences inputs
                  (trace ++ [PrintChoiceNotValid])
      end
  end.

(** The new systems of the plans, in order; the first failure ends it. *)
Fixpoint new_systems_of (fuel : nat) (self : System)
    (solutions : list (list Package)) : outcome (list System) :=
  match solutions with
  | [] => Done []
  | solution :: rest =>
      new_system ← hypothetical_append_packages_to_system fuel self solution;
      new_systems ← new_systems_of fuel self rest;
      Done (new_system :: new_systems)
  end.

(** [System.validate_and_choose_solution]: the result and what passed
    between the program and the user; [inputs] are the lines the user
    enters ([None] for one that is not an integer). *)
Definition validate_and_choose_solution (fuel : nat) (self : System)
    (solutions : list (list Package)) (needed_packages : list Package)
    (inputs : list (option Z)) : outcome (list Package) * list event :=
  match new_systems_of fuel self solutions with
  | Raised e => (Raised e, [])
  | OutOfFuel => (OutOfFuel, [])
  | Done new_systems =>
      let '(valid_systems, valid_solutions_indices) :=
        find_valid_systems 0 new_systems needed_packages in
      if negb (nonempty valid_systems)
      then (Raised NoValidSolutionsFound, [])
      else if bool_decide (length valid_systems = 1)
      then (Done (nth (nth 0 valid_solutions_indices 0) solutions []), [])
      else
        let systems_differences :=
          differences_between_systems self valid_systems in
        let single_differences_count :=
          sum_list (map (fun diff_tuple =>
                           length diff_tuple.1 + length diff_tuple.2)
                      systems_differences.2) in
        if bool_decide (single_differences_count = 0)
        then (Done (nth (nth 0 valid_solutions_indices 0) solutions []), [])
        else
          let '(valid_systems, valid_solutions_indices) :=
            delete_duplicates valid_systems valid_solutions_indices
              systems_differences.2 [] in
          let systems_differences :=
            differences_between_systems self valid_systems in
          choose solutions valid_solutions_indices systems_differences.2 inputs
            [PrintDifferentSolutionsFound (length valid_systems)]
  end.


(** ** Sorting the user's input *)

(** [Package.user_input_to_categories].  [get_packages_from_aur] stands for
    the answer of the AUR to a query for the given names.  [set(user_input)]
    is a set of strings; the order in which [list(...)] enumerates it is
    whatever [elements] gives. *)
Definition user_input_to_categories
    (get_packages_from_aur : list string -> list Package)
    (user_input : list string) : list string * list string :=
  let user_input := elements (list_to_set user_input : gset string) in
  let found_in_aur_names : gset string :=
    list_to_set (map name (get_packages_from_aur user_input)) in
  fold_left (fun '(for_us, for_pacman) _user_input =>
    if bool_decide (_user_input ∈ found_in_aur_names)
    then (for_us ++ [_user_input], for_pacman)
    else (for_us, for_pacman ++ [_user_input]))
    user_input ([], []).

(** ** The constructors of packages

    Packages are built in two places.  Both loops are given here as
    functions of what the query returned; the query itself ([get_aur_info],
    [expac]) and the test [is_devel] of [aurman.aur_utilities] are left to
    the caller. *)

(** One dictionary of the AUR's answer: a key of the optional ones may be
    absent, [package_dict.get(key, [])] then gives the empty list. *)
Record aur_info : Type := mkAurInfo {
  aur_Name : string;
  aur_Version : string;
  aur_Depends : option (list string);
  aur_Conflicts : option (list string);
  aur_Provides : option (list string);
  aur_MakeDepends : option (list string);
  aur_CheckDepends : option (list string)
}.

(** [Package.get_packages_from_aur], on the answer [aur_return]. *)
Definition packages_from_aur (is_devel : string -> bool)
    (aur_return : list aur_info) : list Package :=
  map (fun package_dict =>
    let name := aur_Name package_dict in
    mkPackage name (aur_Version package_dict)
      (Some (default [] (aur_Depends package_dict)))
      (default [] (aur_Conflicts package_dict))
      None
      (default [] (aur_Provides package_dict))
      (Some (default [] (aur_MakeDepends package_dict)))
      (Some (default [] (aur_CheckDepends package_dict)))
      (if is_devel name then DEVEL_PACKAGE else AUR_PACKAGE))
    aur_return.

(** One line of [expac]'s answer, its fields split into words already;
    [expac_required_by] is there for a query of the installed packages
    ([len(splitted_line) >= 9]). *)
Record expac_line : Type := mkExpacLine {
  expac_name : string;
  expac_version : string;
  expac_depends : list string;
  expac_conflicts : list string;
  expac_provides : list string;
  expac_required_by : option (list string)
}.

(** [l.remove(x)] for an [x] that may be absent: the first occurrence
    goes. *)
Fixpoint remove_first (x : string) (l : list string) : list string :=
  match l with
  | [] => []
  | y :: l' => if bool_decide (y = x) then l' else y :: remove_first x l'
  end.

(** [Package.get_packages_from_expac], on the answer [expac_return]: neither
    [makedepends] nor [checkdepends] is passed to the constructor. *)
Definition packages_from_expac (is_devel : string -> bool)
    (packages_type : PossibleTypes) (expac_return : list expac_line)
  : list Package :=
  map (fun line =>
    let name := expac_name line in
    let type_to_set :=
      match packages_type with
      | AUR_PACKAGE | DEVEL_PACKAGE =>
          if is_devel name then DEVEL_PACKAGE else AUR_PACKAGE
      | _ => packages_type
      end in
    mkPackage name (expac_version line) (Some (expac_depends line))
      (remove_first name (expac_conflicts line))
      (expac_required_by line) (expac_provides line) None None type_to_set)
    expac_return.

(** The package comes from one of the two constructors. *)
Definition loaded (is_devel : string -> bool) (p : Package) : Prop :=
  (exists aur_return, p ∈ packages_from_aur is_devel aur_return)
  \/ (exists packages_type expac_return,
        p ∈ packages_from_expac is_devel packages_type expac_return).


(** ** Notions the properties are stated with *)

(** The dictionary [System.__init__] builds from packages with distinct
    names. *)
Definition entries (l : list Package) : list (string * Package) :=
  map (fun p => (name p, p)) l.

(** The packages a dictionary of lists holds under some key. *)
Definition listed (d : list (string * list Package)) (q : Package) : Prop :=
  exists k l, (k, l) ∈ d /\ q ∈ l.

(** The system of a list of packages with distinct names. *)
Definition system_of (packages : list Package) : System :=
  match mkSystem packages with Done s => s | _ => empty_system end.

(** The two-step rule of [System.provided_by] for one package: [q] provides
    the atom by its own name and version, or by one of its provides. *)
Definition provides_by_name (q : Package) (dep : string) : bool :=
  let '(dep_name, dep_cmp, dep_version) := split_name_with_versioning dep in
  bool_decide (name q = dep_name)
  && (bool_decide (dep_cmp = "")
      || version_comparison (version q) dep_cmp dep_version).

Definition provide_matches (q : Package) (dep provide : string) : bool :=
  let '(dep_name, dep_cmp, dep_version) := split_name_with_versioning dep in
  let '(provide_name, provide_cmp, provide_version) :=
    split_name_with_versioning provide in
  bool_decide (provide_name = dep_name)
  && (bool_decide (dep_cmp = "")
      || ((bool_decide (provide_cmp = "=") || bool_decide (provide_cmp = "=="))
          && version_comparison provide_version dep_cmp dep_version)
      || (bool_decide (provide_cmp = "")
          && version_comparison (version q) dep_cmp dep_version)).

Definition provides_dep (q : Package) (dep : string) : bool :=
  provides_by_name q dep || existsb (provide_matches q dep) (provides q).

(** ** Proof rules for the solver

    A property of [solutions_for_dep_problem] is given by a precondition on
    the solution a package is expanded against, a postcondition relating
    that solution to each solution returned, an invariant of the loop over
    the package's dependencies, and an invariant of the shared problem set.
    They are indexed by the stack of packages under expansion. *)
Section SolverSpec.
Variables installed_system upstream_system : System.
Variable only_unfulfilled_deps : bool.
Variable Pre : list Package -> Package -> DepAlgoSolution -> Prop.
Variable Post :
  list Package -> Package -> DepAlgoSolution -> DepAlgoSolution -> Prop.
Variable Inv :
  list Package -> Package -> DepAlgoSolution -> list string ->
  DepAlgoSolution -> Prop.
Variable R : list DepAlgoFoundProblems -> Prop.

(** A recursive call that establishes the postcondition. *)
Definition rec_ok (rec : rec_call) : Prop :=
  forall St p s fp sols fp',
    Pre St p s -> R fp -> rec p s fp = Done (sols, fp') ->
    Forall (Post St p s) sols /\ R fp'.

(** A recursive call that returns (or raises) on every stack of depth at
    least [d]. *)
Definition rec_total (d : nat) (rec : rec_call) : Prop :=
  forall St p s fp,
    d <= length St -> Pre St p s -> R fp -> terminates (rec p s fp).

(** One obligation per path through [solutions_for_dep_problem]. *)
Record solver_rules : Prop := {
  rule_selected : forall St self s,
    Pre St self s -> pkg_in self (packages_in_solution s) = true ->
    Post St self s s;
  rule_revisit : forall St self s,
    Pre St self s -> pkg_in self (packages_in_solution s) = false ->
    pkg_in self (visited_packages s) = true -> is_repo self = true ->
    Post St self s s;
  rule_push : forall St self s sys,
    Pre St self s -> pkg_in self (visited_packages s) = false ->
    mkSystem (visited_packages s) = Done sys ->
    Inv St self s [] (push_self self (nonempty (conflicting_with sys self)) s);
  rule_skip : forall St self s seen dep cur,
    Inv St self s seen cur -> only_unfulfilled_deps = true ->
    nonempty (provided_by installed_system dep) = true ->
    Inv St self s (seen ++ [dep]) cur;
  rule_unprovided : forall St self s seen dep cur,
    Inv St self s seen cur -> provided_by upstream_system dep = [] ->
    Inv St self s (seen ++ [dep]) (flag_not_provided dep cur);
  rule_known : forall St self s seen dep cur,
    Inv St self s seen cur -> dep ∈ visited_names cur ->
    Inv St self s (seen ++ [dep]) cur;
  rule_in_solution : forall St self s seen dep cur sys,
    Inv St self s seen cur -> dep ∉ visited_names cur ->
    mkSystem (packages_in_solution cur) = Done sys ->
    nonempty (provided_by sys dep) = true ->
    Inv St self s (seen ++ [dep]) (learn_dep dep cur);
  rule_call : forall St self s seen dep cur q,
    Inv St self s seen cur -> dep ∉ visited_names cur ->
    dep ∈ relevant_deps self -> q ∈ provided_by upstream_system dep ->
    Pre (St ++ [self]) q (learn_dep dep cur);
  rule_return : forall St self s seen dep cur q s',
    Inv St self s seen cur -> dep ∉ visited_names cur ->
    dep ∈ relevant_deps self -> q ∈ provided_by upstream_system dep ->
    Post (St ++ [self]) q (learn_dep dep cur) s' ->
    Inv St self s (seen ++ [dep]) s';
  rule_select : forall St self s cur,
    Inv St self s (relevant_deps self) cur ->
    Post St self s (select_self self cur);
  rule_cycle : forall St self s fp,
    Pre St self s -> R fp ->
    pkg_in self (packages_in_solution s) = false ->
    pkg_in self (visited_packages s) = true -> is_repo self = false ->
    is_valid s = true ->
    R (fp_add (new_dep_cycle self s) fp);
  rule_conflict : forall St self s fp sys,
    Pre St self s -> R fp -> pkg_in self (visited_packages s) = false ->
    mkSystem (visited_packages s) = Done sys ->
    nonempty (conflicting_with sys self) = true -> is_valid s = true ->
    R (fp_add (new_conflict self s (conflicting_with sys self)) fp);
  rule_not_provided : forall St self s fp dep,
    Pre St self s -> R fp -> dep ∈ relevant_deps self ->
    provided_by upstream_system dep = [] ->
    R (fp_add (DepAlgoNotProvided dep self) fp);
  rule_clear : forall St self s cur fp,
    Inv St self s (relevant_deps self) cur -> is_valid cur = true ->
    R fp -> R []
}.
End SolverSpec.

(** ** The universe of a search *)

(** What [Package.__eq__] and [__hash__] look at. *)
Definition key (p : Package) : string * string := (name p, version p).

(** Every package a system can hand out. *)
Definition system_packages (S : System) : list Package :=
  PyDict.values (all_packages_dict S) ++ concat (PyDict.values (provides_dict S)).

(** The packages a search can meet: those of the upstream system and the
    requested ones; and their names. *)
Definition universe (upstream_system : System) (packages : list Package)
  : list Package :=
  system_packages upstream_system ++ packages.

Definition universe_names (upstream_system : System) (packages : list Package)
  : gset string :=
  list_to_set (map name (universe upstream_system packages)).

(** The visited packages of a solution are pairwise different packages of
    the universe [U]. *)
Definition wf_solution (U : list Package) (s : DepAlgoSolution) : Prop :=
  (forall p, p ∈ visited_packages s -> p ∈ U)
  /\ NoDup (map key (visited_packages s)).

(** The packages the problems talk about belong to [U]. *)
Definition wf_problems (U : list Package) (fp : list DepAlgoFoundProblems)
  : Prop :=
  forall problem p, problem ∈ fp -> p ∈ get_relevant_packages problem -> p ∈ U.

Definition wf_pre (U : list Package) (St : list Package) (self : Package)
    (s : DepAlgoSolution) : Prop :=
  self ∈ U /\ wf_solution U s /\ length St <= length (visited_packages s).

Definition wf_post (U : list Package) (St : list Package) (self : Package)
    (s s' : DepAlgoSolution) : Prop :=
  wf_solution U s'
  /\ length (visited_packages s) <= length (visited_packages s').

Definition wf_inv (U : list Package) (St : list Package) (self : Package)
    (s : DepAlgoSolution) (seen : list string) (cur : DepAlgoSolution) : Prop :=
  self ∈ U /\ wf_solution U cur
  /\ S (length St) <= length (visited_packages cur)
  /\ length (visited_packages s) <= length (visited_packages cur).

(** ** Properties of recorded problems *)

(** A recorded cycle is a closed loop: at least two packages, the first
    equal to the last. *)
Definition closed_cycle (problem : DepAlgoFoundProblems) : Prop :=
  match problem with
  | DepAlgoCycle l =>
      2 <= length l
      /\ exists p q, head l = Some p /\ last l = Some q /\ pkg_eqb p q = true
  | _ => True
  end.

(** A recorded cycle is closed by a package that is not a repo package. *)
Definition closed_by_non_repo (problem : DepAlgoFoundProblems) : Prop :=
  match problem with
  | DepAlgoCycle l => exists q, last l = Some q /\ is_repo q = false
  | _ => True
  end.

(** The set of problems holds a problem equal to [x]. *)
Definition recorded (x : DepAlgoFoundProblems)
    (found_problems : list DepAlgoFoundProblems) : Prop :=
  existsb (problem_eqb x) found_problems = true.

(** C7 as the specification words it: the three sequences for packages built
    from source, [depends] alone for the others. *)
Definition is_source_built (p : Package) : bool :=
  match type_of p with
  | AUR_PACKAGE | DEVEL_PACKAGE => true
  | _ => false
  end.

Definition relevant_deps_by_classification (p : Package) : Prop :=
  relevant_deps p
  = if is_source_built p
    then default [] (depends p) ++ default [] (makedepends p)
         ++ default [] (checkdepends p)
    else default [] (depends p).

(** C5 as the specification words it: a non-empty conflict set is always
    recorded. *)
Definition conflict_always_recorded : Prop :=
  forall installed_system upstream_system only_unfulfilled_deps
         deps_to_deep_check fuel self s fp sys sols fp',
    pkg_in self (visited_packages s) = false ->
    mkSystem (visited_packages s) = Done sys ->
    nonempty (conflicting_with sys self) = true ->
    solutions_for_dep_problem installed_system upstream_system
      only_unfulfilled_deps deps_to_deep_check fuel self s fp
    = Done (sols, fp') ->
    recorded (new_conflict self s (conflicting_with sys self)) fp'.

(** More than C2 asks for: a returned plan means that the local
    [found_problems], which [dep_solving] neither returns nor prints then,
    is empty. *)
Definition problems_empty_when_solved : Prop :=
  forall passes fuel packages installed_system upstream_system
         only_unfulfilled_deps r,
    dep_solving passes fuel packages installed_system upstream_system
      only_unfulfilled_deps = Done r ->
    plans r <> [] -> final_problems r = [].

(** ** Code on objects against code on values

    [refines n h m o Q]: run from the store [h], the code [m] leaves the
    first [n] objects as they were and ends like the outcome [o]; when both
    return, [Q] relates the store reached and the two results. *)
Definition refines {A B} (n : nat) (h : list System) (m : St A)
    (o : outcome B) (Q : list System -> A -> B -> Prop) : Prop :=
  let '(h', r) := m h in
  take n h' = take n h /\ length h <= length h'
  /\ match r, o with
     | Done a, Done b => Q h' a b
     | Raised e, Raised e' => e = e'
     | OutOfFuel, OutOfFuel => True
     | _, _ => False
     end.

(** The reference [l], not one of the first [n] objects, holds the value [s]. *)
Definition holds (n : nat) (h : list System) (l : nat) (s : System) : Prop :=
  n <= l /\ h !! l = Some s.

(** ** Validating plans *)

(** The system contains every needed name. *)
Definition contains_needed (needed_packages : list Package) (sys : System)
  : bool :=
  forallb (fun package => PyDict.mem (all_packages_dict sys) (name package))
    needed_packages.

(** ** The order of a plan *)
Section Order.
Variables installed_system upstream_system : System.
Variable only_unfulfilled_deps : bool.
Variable U : list Package.

(** [p] has a dependency that the upstream system lets [q] provide. *)
Definition dep_edge (p q : Package) : Prop :=
  exists a, a ∈ relevant_deps p /\ q ∈ provided_by upstream_system a.

(** [q] is [p], or depends on [p] through such dependencies. *)
Definition depends_on (q p : Package) : Prop := rtc dep_edge q p.

(** The atom needs no provider: only unfulfilled dependencies are asked for
    and the installed system provides it. *)
Definition satisfied_by_installed (a : string) : Prop :=
  only_unfulfilled_deps = true
  /\ nonempty (provided_by installed_system a) = true.

(** The packages of the solution belong to [U]. *)
Definition order_universe (s : DepAlgoSolution) : Prop :=
  (forall p, p ∈ visited_packages s -> p ∈ U)
  /\ (forall p, p ∈ packages_in_solution s -> p ∈ U).

(** A visited package is selected or under expansion. *)
Definition order_visited (St : list Package) (s : DepAlgoSolution) : Prop :=
  forall p, p ∈ visited_packages s ->
            p ∈ packages_in_solution s \/ p ∈ St.

(** Every dependency a valid solution knows has a provider that is selected
    or under expansion. *)
Definition order_names (St : list Package) (s : DepAlgoSolution) : Prop :=
  is_valid s = true ->
  forall a, a ∈ visited_names s ->
    (exists q, q ∈ packages_in_solution s /\ provides_dep q a = true)
    \/ (exists q, q ∈ St /\ q ∈ provided_by upstream_system a).

(** The dependency [a] of the package at position [i] of the plan [P] is
    fulfilled by the installed system, or provided by an earlier package of
    the plan, or provided by a package that depends on the one at [i] and is
    under expansion or at a position from [i] on. *)
Definition ordered_at (St : list Package) (P : list Package) (i : nat)
    (p : Package) (a : string) : Prop :=
  satisfied_by_installed a
  \/ (exists j q, j < i /\ P !! j = Some q /\ provides_dep q a = true)
  \/ (exists q, q ∈ provided_by upstream_system a /\ depends_on q p
                /\ (q ∈ St \/ exists j, i <= j /\ P !! j = Some q)).

Definition order_plan (St : list Package) (s : DepAlgoSolution) : Prop :=
  is_valid s = true ->
  forall i p a, packages_in_solution s !! i = Some p -> a ∈ relevant_deps p ->
                ordered_at St (packages_in_solution s) i p a.

(** How a solution grows. *)
Definition order_grows (s s' : DepAlgoSolution) : Prop :=
  visited_names s ⊆ visited_names s'
  /\ (is_valid s' = true -> is_valid s = true)
  /\ packages_in_solution s `prefix_of` packages_in_solution s'.

(** The stack leads to the package expanded. *)
Definition order_stack (St : list Package) (self : Package) : Prop :=
  self ∈ U /\ (forall q, q ∈ St -> q ∈ U)
  /\ (forall q, q ∈ St -> depends_on q self).

Definition order_pre (St : list Package) (self : Package)
    (s : DepAlgoSolution) : Prop :=
  order_stack St self /\ order_universe s /\ order_visited St s
  /\ order_names (St ++ [self]) s /\ order_plan St s.

Definition order_post (St : list Package) (self : Package)
    (s s' : DepAlgoSolution) : Prop :=
  order_universe s' /\ order_visited St s' /\ order_names St s'
  /\ order_plan St s' /\ order_grows s s'.

Definition order_inv (St : list Package) (self : Package)
    (s : DepAlgoSolution) (seen : list string) (cur : DepAlgoSolution) : Prop :=
  order_stack St self /\ order_universe cur /\ order_visited (St ++ [self]) cur
  /\ order_names (St ++ [self]) cur /\ order_plan (St ++ [self]) cur
  /\ order_grows s cur
  /\ (is_valid cur = true ->
      forall a, a ∈ seen -> satisfied_by_installed a \/ a ∈ visited_names cur).

(** Between two expansions nothing is under expansion. *)
Definition order_top (s : DepAlgoSolution) : Prop :=
  order_universe s /\ order_visited [] s /\ order_names [] s /\ order_plan [] s.
End Order.

(** C1 as the specification words it: every dependency is fulfilled by the
    installed system or provided by an earlier package of the plan. *)
Definition plans_topologically_sorted : Prop :=
  forall passes fuel packages installed_system upstream_system
         only_unfulfilled_deps r P i p a,
    dep_solving passes fuel packages installed_system upstream_system
      only_unfulfilled_deps = Done r ->
    P ∈ plans r -> P !! i = Some p -> a ∈ relevant_deps p ->
    satisfied_by_installed installed_system only_unfulfilled_deps a
    \/ (exists j q, j < i /\ P !! j = Some q /\ provides_dep q a = true).


(** ** Further notions *)


(** The body of the second loop of [System.conflicting_with]: one conflict
    of the package asked about, against the system. *)
Definition own_conflict_step (self : System) (return_list : list Package)
    (conflict : string) : list Package :=
  let '(conflict_name, conflict_cmp, conflict_version) :=
    split_name_with_versioning conflict in
  match PyDict.get (all_packages_dict self) conflict_name with
  | None => return_list
  | Some possible_conflict_package =>
      if pkg_in possible_conflict_package return_list then return_list
      else if bool_decide (conflict_cmp = "")
           then return_list ++ [possible_conflict_package]
      else if version_comparison (version possible_conflict_package)
                conflict_cmp conflict_version
           then return_list ++ [possible_conflict_package]
      else return_list
  end.

(** The body of its innermost loop: one conflict of a package of the
    system, against the name and version asked about. *)
Definition listed_conflict_step (name_ version_ : string)
    (possible_conflict_package : Package) (return_list : list Package)
    (conflict : string) : list Package :=
  let '(conflict_name, conflict_cmp, conflict_version) :=
    split_name_with_versioning conflict in
  if negb (bool_decide (conflict_name = name_)) then return_list
  else if bool_decide (conflict_cmp = "")
       then return_list ++ [possible_conflict_package]
  else if version_comparison version_ conflict_cmp conflict_version
       then return_list ++ [possible_conflict_package]
  else return_list.

(** The conflict atom [conflict] names the package [q]. *)
Definition conflict_names (conflict : string) (q : Package) : bool :=
  let '(conflict_name, conflict_cmp, conflict_version) :=
    split_name_with_versioning conflict in
  bool_decide (conflict_name = name q)
  && (bool_decide (conflict_cmp = "")
      || version_comparison (version q) conflict_cmp conflict_version).

(** [p] and [q] are in conflict: they are two versions of one name, or one
    of them lists a conflict that names the other. *)
Definition in_conflict (p q : Package) : bool :=
  (bool_decide (name p = name q) && negb (bool_decide (version p = version q)))
  || existsb (fun conflict => conflict_names conflict q) (conflicts p)
  || existsb (fun conflict => conflict_names conflict p) (conflicts q).

(** ** How the solver treats a solution *)

(** [s'] comes from [s] by appending packages and learning dependencies; a
    solution that is invalid stays so. *)
Definition solution_extends (s s' : DepAlgoSolution) : Prop :=
  visited_names s ⊆ visited_names s'
  /\ (is_valid s' = true -> is_valid s = true)
  /\ packages_in_solution s `prefix_of` packages_in_solution s'
  /\ visited_packages s `prefix_of` visited_packages s'.

(** A visited package is selected or under expansion. *)
Definition plan_visited (St : list Package) (s : DepAlgoSolution) : Prop :=
  forall p, p ∈ visited_packages s -> p ∈ packages_in_solution s \/ p ∈ St.

(** No package is selected twice, and the selected packages were visited. *)
Definition plan_selected (s : DepAlgoSolution) : Prop :=
  NoDup (map key (packages_in_solution s))
  /\ (forall p, p ∈ packages_in_solution s -> p ∈ visited_packages s).

(** The visited packages of a valid solution have pairwise distinct names,
    and no two of them are in conflict. *)
Definition plan_names (s : DepAlgoSolution) : Prop :=
  is_valid s = true -> NoDup (map name (visited_packages s)).

Definition plan_peace (s : DepAlgoSolution) : Prop :=
  is_valid s = true ->
  forall p q, p ∈ visited_packages s -> q ∈ visited_packages s -> p <> q ->
              in_conflict p q = false.

Definition plan_state (St : list Package) (s : DepAlgoSolution) : Prop :=
  plan_visited St s /\ plan_selected s /\ plan_names s /\ plan_peace s.

(** What [s'] selects beyond [s] had not been visited by [s]. *)
Definition plan_fresh (s s' : DepAlgoSolution) : Prop :=
  forall p, p ∈ packages_in_solution s' ->
            pkg_in p (packages_in_solution s) = true
            \/ pkg_in p (visited_packages s) = false.

Definition plan_pre (St : list Package) (self : Package)
    (s : DepAlgoSolution) : Prop :=
  plan_state St s.

Definition plan_post (St : list Package) (self : Package)
    (s s' : DepAlgoSolution) : Prop :=
  plan_state St s' /\ solution_extends s s' /\ plan_fresh s s'
  /\ (pkg_in self (packages_in_solution s') = true \/ pkg_in self St = true).

Definition plan_inv (St : list Package) (self : Package)
    (s : DepAlgoSolution) (seen : list string) (cur : DepAlgoSolution) : Prop :=
  plan_state (St ++ [self]) cur /\ solution_extends s cur /\ plan_fresh s cur
  /\ pkg_in self (visited_packages s) = false
  /\ self ∈ visited_packages cur
  /\ pkg_in self (packages_in_solution cur) = false.

(** Between two expansions: nothing is under expansion, and the requested
    packages handled so far are selected. *)
Definition plan_top (handled : list Package) (s : DepAlgoSolution) : Prop :=
  plan_state [] s
  /\ forall x, x ∈ handled -> pkg_in x (packages_in_solution s) = true.

(** ** Running without an error *)

(** The outcome is not an exception. *)
Definition never_raises {A} (o : outcome A) : Prop := forall e, o <> Raised e.

(** A recursive call that raises nothing from a state satisfying the
    precondition. *)
Definition rec_safe (Pre : list Package -> Package -> DepAlgoSolution -> Prop)
    (R : list DepAlgoFoundProblems -> Prop) (rec : rec_call) : Prop :=
  forall St p s fp, Pre St p s -> R fp -> never_raises (rec p s fp).


(** ** Facts about dictionaries *)
Section DictFacts.
Context {V : Type}.
Implicit Types (d : list (string * V)) (k : string) (v : V).

Lemma get_app d1 d2 k :
PyDict.get (d1 ++ d2) k =
match PyDict.get d1 k with Some v => Some v | None => PyDict.get d2 k end.
Proof.
induction d1 as [|[k' v'] d1 IH]; simpl; [done|].
case_bool_decide; [done|apply IH].
Qed.

Lemma set_fresh d k v :
PyDict.get d k = None -> PyDict.set d k v = d ++ [(k, v)].
Proof.
induction d as [|[k' v'] d IH]; simpl; [done|].
case_bool_decide; [done|]. intros H'. by rewrite IH.
Qed.

Lemma get_set d k v k' :
PyDict.get (PyDict.set d k v) k' =
if bool_decide (k = k') then Some v else PyDict.get d k'.
Proof.
induction d as [|[k0 v0] d IH]; simpl.
- done.
- destruct (bool_decide_reflect (k0 = k)) as [->|Hne]; simpl.
  + by case_bool_decide.
  + rewrite IH. destruct (bool_decide_reflect (k0 = k')) as [->|Hne'].
    * rewrite bool_decide_false; [done|congruence].
    * done.
Qed.

Lemma get_Some_elem d k v : PyDict.get d k = Some v -> (k, v) ∈ d.
Proof.
induction d as [|[k0 v0] d IH]; simpl; [done|].
case_bool_decide as Hk.
- intros [= ->]. subst. left.
- intros H'. right. by apply IH.
Qed.

Lemma get_None_keys d k : PyDict.get d k = None <-> k ∉ PyDict.keys d.
Proof.
induction d as [|[k0 v0] d IH]; simpl.
- split; [intros _; apply not_elem_of_nil|done].
- case_bool_decide as Hk.
  + subst. split; [done|]. intros H'. exfalso. apply H'. left.
  + rewrite IH. rewrite not_elem_of_cons. naive_solver.
Qed.

Lemma del_values d k d' :
PyDict.del d k = Some d' -> PyDict.values d' ⊆ PyDict.values d.
Proof.
revert d'. induction d as [|[k0 v0] d IH]; simpl; intros d'; [done|].
case_bool_decide.
- intros [= <-]. unfold PyDict.values. set_solver.
- destruct (PyDict.del d k) as [d''|] eqn:E; [|done].
  intros [= <-]. specialize (IH _ eq_refl). unfold PyDict.values in *.
  simpl. set_solver.
Qed.
End DictFacts.

(** ** Facts about the system index *)

Lemma append_packages_loop_ok self packages self' :
  append_packages_loop self packages = (self', None) ->
  all_packages_dict self' = all_packages_dict self ++ entries packages
  /\ provides_dict self' = provides_dict self
  /\ conflicts_dict self' = conflicts_dict self
  /\ NoDup (map name packages)
  /\ (forall p, p ∈ packages -> name p ∉ PyDict.keys (all_packages_dict self)).
Proof.
  revert self. induction packages as [|p l IH]; intros self; simpl.
  - intros [= <-]. rewrite app_nil_r. repeat split; auto using NoDup_nil_2.
    intros p Hp. by apply elem_of_nil in Hp.
  - unfold PyDict.mem.
    destruct (PyDict.get (all_packages_dict self) (name p)) eqn:Hget; [done|].
    intros Hloop. apply IH in Hloop as (Hd & Hp & Hc & Hnd & Hfresh).
    assert (Hset : PyDict.set (all_packages_dict self) (name p) p
                   = all_packages_dict self ++ [(name p, p)])
      by by apply set_fresh.
    assert (Hd' : all_packages_dict self' =
                  (all_packages_dict self ++ [(name p, p)]) ++ entries l).
    { rewrite Hd, <- Hset. by destruct (type_of p). }
    assert (Hk : forall q, q ∈ l ->
               name q ∉ PyDict.keys (all_packages_dict self ++ [(name p, p)])).
    { intros q Hq. specialize (Hfresh q Hq). rewrite <- Hset.
      by destruct (type_of p). }
    split; [by rewrite Hd', <- app_assoc|].
    split; [rewrite Hp; by destruct (type_of p)|].
    split; [rewrite Hc; by destruct (type_of p)|].
    split.
    + apply NoDup_cons_2; [|done]. intros Hin.
      apply list_elem_of_fmap in Hin as (q & Hq & Hql).
      apply (Hk q Hql). unfold PyDict.keys. rewrite fmap_app. simpl.
      apply elem_of_app. right. rewrite Hq. left.
    + intros q Hq. apply elem_of_cons in Hq as [->|Hq].
      * by apply get_None_keys.
      * specialize (Hk q Hq). unfold PyDict.keys in *. rewrite fmap_app in Hk.
        intros Hin. apply Hk. apply elem_of_app. by left.
Qed.

Lemma get_entries_Some l n q :
  PyDict.get (entries l) n = Some q -> q ∈ l /\ name q = n.
Proof.
  induction l as [|p l IH]; simpl; [done|].
  case_bool_decide as Hn.
  - intros [= ->]. split; [left|done].
  - intros H'. apply IH in H' as [? ?]. split; [by right|done].
Qed.

Lemma mkSystem_all_packages_dict l S :
  mkSystem l = Done S -> all_packages_dict S = entries l /\ NoDup (map name l).
Proof.
  unfold mkSystem, append_packages.
  destruct (append_packages_loop empty_system l) as [s' [e|]] eqn:Hloop; [done|].
  intros [= <-]. simpl.
  apply append_packages_loop_ok in Hloop as (Hd & _ & _ & Hnd & _). done.
Qed.

Lemma mkSystem_values l S :
  mkSystem l = Done S -> PyDict.values (all_packages_dict S) = l.
Proof.
  intros H'. apply mkSystem_all_packages_dict in H' as [-> _].
  unfold PyDict.values, entries. rewrite map_map. simpl. apply map_id.
Qed.


Lemma listed_set d k l q :
  listed (PyDict.set d k l) q -> listed d q \/ q ∈ l.
Proof.
  induction d as [|[k0 l0] d IH]; simpl.
  - intros (k' & l' & Hin & Hq). apply list_elem_of_singleton in Hin as [= -> ->].
    by right.
  - case_bool_decide as Hk.
    + intros (k' & l' & Hin & Hq). apply elem_of_cons in Hin as [[= -> ->]|Hin].
      * by right.
      * left. exists k', l'. split; [by right|done].
    + intros (k' & l' & Hin & Hq). apply elem_of_cons in Hin as [[= -> ->]|Hin].
      * left. exists k0, l0. split; [left|done].
      * destruct IH as [(k'' & l'' & ? & ?)|?]; [by exists k', l'| |by right].
        left. exists k'', l''. split; [by right|done].
Qed.

Lemma append_to_x_dict_listed rel d packages q :
  listed (append_to_x_dict rel d packages) q -> listed d q \/ q ∈ packages.
Proof.
  unfold append_to_x_dict. revert d.
  induction packages as [|p l IH]; intros d; simpl; [by left|].
  intros H'. apply IH in H' as [H'|H']; [|right; by right].
  assert (Hin : forall vs d0,
    listed (fold_left (fun d1 relevant_value =>
      match PyDict.get d1 (strip_versioning_from_name relevant_value) with
      | Some l0 => PyDict.set d1 (strip_versioning_from_name relevant_value) (l0 ++ [p])
      | None => PyDict.set d1 (strip_versioning_from_name relevant_value) [p]
      end) vs d0) q -> listed d0 q \/ q = p).
  { clear. induction vs as [|v vs IHv]; intros d0; simpl; [by left|].
    intros H'. apply IHv in H' as [H'|H']; [|by right].
    destruct (PyDict.get d0 (strip_versioning_from_name v)) as [l0|] eqn:Hget.
    - apply listed_set in H' as [H'|H']; [by left|].
      apply elem_of_app in H' as [H'|H'].
      + left. exists (strip_versioning_from_name v), l0. split; [by apply get_Some_elem|done].
      + apply list_elem_of_singleton in H'. by right.
    - apply listed_set in H' as [H'|H']; [by left|].
      apply list_elem_of_singleton in H'. by right. }
  apply Hin in H' as [H'|H']; [by left|]. right. subst. left.
Qed.

Lemma listed_get d k l q : PyDict.get d k = Some l -> q ∈ l -> listed d q.
Proof. intros Hget Hq. exists k, l. split; [by apply get_Some_elem|done]. Qed.

(** Every package a system built by the constructor knows is one of the
    packages it was built from. *)
Lemma mkSystem_listed l S :
  mkSystem l = Done S ->
  (forall q, listed (provides_dict S) q -> q ∈ l)
  /\ (forall q, listed (conflicts_dict S) q -> q ∈ l).
Proof.
  unfold mkSystem, append_packages.
  destruct (append_packages_loop empty_system l) as [s' [e|]] eqn:Hloop; [done|].
  intros [= <-]. simpl.
  apply append_packages_loop_ok in Hloop as (_ & Hp & Hc & _ & _).
  rewrite Hp, Hc. simpl.
  split; intros q Hq; apply append_to_x_dict_listed in Hq as [(k & l' & Hin & _)|Hq];
    try done; by apply elem_of_nil in Hin.
Qed.


(** *** What [provided_by] returns *)

Lemma provided_by_provide_sound dep dep_name dep_cmp dep_version package
    provide return_list q :
  split_name_with_versioning dep = (dep_name, dep_cmp, dep_version) ->
  q ∈ provided_by_provide dep_name dep_cmp dep_version package return_list provide ->
  q ∈ return_list \/ (q = package /\ provide_matches package dep provide = true).
Proof.
  intros Hsplit. unfold provided_by_provide, provide_matches. rewrite Hsplit.
  destruct (split_name_with_versioning provide) as [[pn pc] pv].
  destruct (bool_decide (pn = dep_name)); simpl; [|by left].
  destruct (bool_decide (dep_cmp = "")); simpl.
  { intros Hq. apply elem_of_app in Hq as [Hq|Hq]; [by left|].
    apply list_elem_of_singleton in Hq. by right. }
  destruct ((bool_decide (pc = "=") || bool_decide (pc = "=="))
            && version_comparison pv dep_cmp dep_version); simpl.
  { intros Hq. apply elem_of_app in Hq as [Hq|Hq]; [by left|].
    apply list_elem_of_singleton in Hq. by right. }
  destruct (bool_decide (pc = "")
            && version_comparison (version package) dep_cmp dep_version); simpl.
  { intros Hq. apply elem_of_app in Hq as [Hq|Hq]; [by left|].
    apply list_elem_of_singleton in Hq. by right. }
  by left.
Qed.

Lemma provided_by_provides_sound dep dep_name dep_cmp dep_version package
    provs return_list q :
  split_name_with_versioning dep = (dep_name, dep_cmp, dep_version) ->
  q ∈ fold_left (provided_by_provide dep_name dep_cmp dep_version package)
        provs return_list ->
  q ∈ return_list
  \/ (q = package /\ existsb (provide_matches package dep) provs = true).
Proof.
  intros Hsplit. revert return_list.
  induction provs as [|pr provs IH]; intros rl; simpl; [by left|].
  intros Hq. apply IH in Hq as [Hq|[-> Hq]].
  - eapply provided_by_provide_sound in Hq as [Hq|[-> Hq]]; [by left| |done].
    right. by rewrite Hq.
  - right. rewrite Hq. by rewrite orb_true_r.
Qed.

(** Every package [provided_by] returns is known to the system and provides
    the atom by the two-step rule. *)
Lemma provided_by_members S dep q :
  q ∈ provided_by S dep ->
  (exists k, PyDict.get (all_packages_dict S) k = Some q
             /\ k = (split_name_with_versioning dep).1.1
             /\ (name q = k -> provides_by_name q dep = true))
  \/ (listed (provides_dict S) q
      /\ existsb (provide_matches q dep) (provides q) = true).
Proof.
  unfold provided_by, provides_by_name.
  destruct (split_name_with_versioning dep) as [[dn dc] dv] eqn:Hsplit. simpl.
  set (rl0 := match PyDict.get (all_packages_dict S) dn with
              | Some package =>
                  if bool_decide (dc = "") then [package]
                  else if version_comparison (version package) dc dv
                       then [package] else []
              | None => []
              end).
  assert (H0 : forall q, q ∈ rl0 ->
    exists k, PyDict.get (all_packages_dict S) k = Some q /\ k = dn
      /\ (name q = k ->
          bool_decide (name q = dn)
          && (bool_decide (dc = "") || version_comparison (version q) dc dv)
          = true)).
  { subst rl0. intros q0.
    destruct (PyDict.get (all_packages_dict S) dn) as [p|] eqn:Hget;
      [|intros H'; by apply elem_of_nil in H'].
    destruct (bool_decide (dc = "")) eqn:Hdc.
    - intros Hx%list_elem_of_singleton. subst q0. exists dn. repeat split; [done|].
      intros ->. rewrite bool_decide_true; done.
    - destruct (version_comparison (version p) dc dv) eqn:Hvc;
        [|intros H'; by apply elem_of_nil in H'].
      intros Hx%list_elem_of_singleton. subst q0. exists dn. repeat split; [done|].
      intros ->. rewrite bool_decide_true, Hvc; [|done]. by rewrite orb_true_r. }
  clearbody rl0.
  set (P := fun q : Package =>
    (exists k, PyDict.get (all_packages_dict S) k = Some q /\ k = dn
       /\ (name q = k ->
           bool_decide (name q = dn)
           && (bool_decide (dc = "") || version_comparison (version q) dc dv)
           = true))
    \/ (listed (provides_dict S) q
        /\ existsb (provide_matches q dep) (provides q) = true)).
  assert (HP : forall q, q ∈ rl0 -> P q) by (intros q0 Hq0; left; by apply H0).
  clear H0. change (q ∈ match PyDict.get (provides_dict S) dn with
                        | Some possible_packages =>
                            fold_left (fun return_list package =>
                              if pkg_in package return_list then return_list
                              else fold_left
                                     (provided_by_provide dn dc dv package)
                                     (provides package) return_list)
                              possible_packages rl0
                        | None => rl0
                        end -> P q).
  destruct (PyDict.get (provides_dict S) dn) as [pp|] eqn:Hpp; [|apply HP].
  assert (Hl : forall p, p ∈ pp -> listed (provides_dict S) p)
    by (intros p Hp; by eapply listed_get).
  clear Hpp. revert rl0 HP.
  induction pp as [|p pp IH]; intros rl HP; simpl; [apply HP|].
  apply IH; [intros p' Hp'; apply Hl; by right|].
  intros q0. destruct (pkg_in p rl); [apply HP|].
  intros Hq0. eapply provided_by_provides_sound in Hq0 as [Hq0|[-> Hq0]];
    [by apply HP| |done].
  right. split; [apply Hl; left|done].
Qed.

Lemma provided_by_sound l S dep q :
  mkSystem l = Done S -> q ∈ provided_by S dep ->
  q ∈ l /\ provides_dep q dep = true.
Proof.
  intros HS Hq. unfold provides_dep.
  apply provided_by_members in Hq as [(k & Hget & Hk & Hname)|[Hlisted Hprov]].
  - apply mkSystem_all_packages_dict in HS as [Hd _]. rewrite Hd in Hget.
    apply get_entries_Some in Hget as [Hin Hn]. split; [done|].
    by rewrite (Hname Hn).
  - apply mkSystem_listed in HS as [Hp _]. split; [by apply Hp|].
    rewrite Hprov. by rewrite orb_true_r.
Qed.


(** *** Package equality, membership and positions *)

Lemma pkg_eqb_refl p : pkg_eqb p p = true.
Proof. unfold pkg_eqb. by rewrite !bool_decide_true. Qed.

Lemma pkg_eqb_sym p q : pkg_eqb p q = pkg_eqb q p.
Proof.
  unfold pkg_eqb. f_equal; apply bool_decide_ext; split; congruence.
Qed.

Lemma pkg_eqb_true p q :
  pkg_eqb p q = true <-> name p = name q /\ version p = version q.
Proof.
  unfold pkg_eqb. rewrite andb_true_iff, !bool_decide_eq_true. done.
Qed.

Lemma pkg_in_true p l :
  pkg_in p l = true <-> exists q, q ∈ l /\ pkg_eqb p q = true.
Proof.
  unfold pkg_in. rewrite existsb_exists. setoid_rewrite list_elem_of_In. done.
Qed.

Lemma pkg_in_elem p l : p ∈ l -> pkg_in p l = true.
Proof. intros Hp. apply pkg_in_true. exists p. split; [done|apply pkg_eqb_refl]. Qed.

Lemma pkg_in_app p l1 l2 : pkg_in p (l1 ++ l2) = pkg_in p l1 || pkg_in p l2.
Proof. unfold pkg_in. apply existsb_app. Qed.

(** [l.index(x)] is in range when [x in l], and finds an equal package. *)
Lemma index_lt_length x l :
  pkg_in x l = true ->
  exists y, l !! index x l = Some y /\ pkg_eqb y x = true.
Proof.
  induction l as [|y l IH]; simpl; [done|].
  rewrite (pkg_eqb_sym x y). destruct (pkg_eqb y x) eqn:E; simpl.
  - intros _. by exists y.
  - apply IH.
Qed.

Lemma index_le_length x l : index x l <= length l.
Proof. induction l as [|y l IH]; simpl; [lia|]. destruct (pkg_eqb y x); lia. Qed.

Lemma pkg_set_add_elem p s q : q ∈ pkg_set_add p s -> q ∈ s \/ q = p.
Proof.
  unfold pkg_set_add. destruct (pkg_in p s); [by left|].
  intros [?|?%list_elem_of_singleton]%elem_of_app; [by left|by right].
Qed.

Lemma pkg_set_elem l q : q ∈ pkg_set l -> q ∈ l.
Proof.
  unfold pkg_set.
  assert (H : forall s, q ∈ fold_left (fun s p => pkg_set_add p s) l s ->
                        q ∈ s \/ q ∈ l).
  { induction l as [|p l IH]; intros s; simpl; [by left|].
    intros [[?|Hx]%pkg_set_add_elem|?]%IH;
      [by left|subst q; right; left|right; by right]. }
  intros [Hq|Hq]%H; [by apply elem_of_nil in Hq|done].
Qed.

(** *** What [conflicting_with] returns *)

Lemma conflicting_with_members S p q :
  q ∈ conflicting_with S p ->
  (exists k, PyDict.get (all_packages_dict S) k = Some q)
  \/ listed (conflicts_dict S) q.
Proof.
  unfold conflicting_with.
  set (P := fun q : Package =>
    (exists k, PyDict.get (all_packages_dict S) k = Some q)
    \/ listed (conflicts_dict S) q).
  set (rl0 := match PyDict.get (all_packages_dict S) (name p) with
              | Some c => if negb (bool_decide (version p = version c))
                          then [c] else []
              | None => []
              end).
  assert (H0 : forall q, q ∈ rl0 -> P q).
  { subst rl0. intros q0.
    destruct (PyDict.get (all_packages_dict S) (name p)) as [c|] eqn:Hget;
      [|intros H'; by apply elem_of_nil in H'].
    destruct (negb (bool_decide (version p = version c)));
      [|intros H'; by apply elem_of_nil in H'].
    intros Hx%list_elem_of_singleton. subst q0. left. by exists (name p). }
  clearbody rl0.
  set (rl1 := fold_left _ (conflicts p) rl0).
  assert (H1 : forall q, q ∈ rl1 -> P q).
  { subst rl1. clear q. generalize (conflicts p). intros cs. revert rl0 H0.
    induction cs as [|c cs IH]; intros rl H0; simpl; [done|].
    apply IH. intros q0.
    destruct (split_name_with_versioning c) as [[cn cc] cv].
    destruct (PyDict.get (all_packages_dict S) cn) as [c'|] eqn:Hget; [|apply H0].
    destruct (pkg_in c' rl); [apply H0|].
    assert (Hc' : q0 ∈ rl ++ [c'] -> P q0).
    { intros [?|Hx%list_elem_of_singleton]%elem_of_app; [by apply H0|].
      subst q0. left. by exists cn. }
    destruct (bool_decide (cc = "")); [done|].
    destruct (version_comparison (version c') cc cv); [done|apply H0]. }
  clearbody rl1. clear rl0 H0.
  change (q ∈ match PyDict.get (conflicts_dict S) (name p) with
              | Some possible_conflict_packages =>
                  fold_left (fun return_list possible_conflict_package =>
                    if pkg_in possible_conflict_package return_list
                    then return_list
                    else
                      fold_left (fun return_list conflict =>
                        let '(conflict_name, conflict_cmp, conflict_version) :=
                          split_name_with_versioning conflict in
                        if negb (bool_decide (conflict_name = name p))
                        then return_list
                        else if bool_decide (conflict_cmp = "")
                             then return_list ++ [possible_conflict_package]
                        else if version_comparison (version p) conflict_cmp
                                  conflict_version
                             then return_list ++ [possible_conflict_package]
                        else return_list)
                        (conflicts possible_conflict_package) return_list)
                    possible_conflict_packages rl1
              | None => rl1
              end -> P q).
  destruct (PyDict.get (conflicts_dict S) (name p)) as [pp|] eqn:Hpp; [|apply H1].
  assert (Hl : forall c, c ∈ pp -> listed (conflicts_dict S) c)
    by (intros c Hc; by eapply listed_get).
  clear Hpp. revert rl1 H1.
  induction pp as [|c pp IH]; intros rl H1; simpl; [apply H1|].
  apply IH; [intros c' Hc'; apply Hl; by right|].
  intros q0. destruct (pkg_in c rl); [apply H1|].
  assert (Hc : P c) by (right; apply Hl; left).
  generalize (conflicts c). intros cs. revert rl H1.
  induction cs as [|c0 cs IHc]; intros rl H1; simpl; [apply H1|].
  apply IHc. intros q1.
  destruct (split_name_with_versioning c0) as [[cn cc] cv].
  assert (Hc' : q1 ∈ rl ++ [c] -> P q1).
  { intros [?|Hx%list_elem_of_singleton]%elem_of_app; [by apply H1|by subst q1]. }
  destruct (negb (bool_decide (cn = name p))); [apply H1|].
  destruct (bool_decide (cc = "")); [done|].
  destruct (version_comparison (version p) cc cv); [done|apply H1].
Qed.

(** In the system of the visited packages, whatever conflicts with [self] is
    one of the visited packages. *)
Lemma conflicting_with_visited l S p q :
  mkSystem l = Done S -> q ∈ conflicting_with S p -> q ∈ l.
Proof.
  intros HS [(k & Hget)|Hl]%conflicting_with_members.
  - apply mkSystem_all_packages_dict in HS as [Hd _]. rewrite Hd in Hget.
    by apply get_entries_Some in Hget as [? _].
  - apply mkSystem_listed in HS as [_ Hc]. by apply Hc.
Qed.


(** ** Reasoning about outcomes *)

Lemma bind_Done {A B} (o : outcome A) (k : A -> outcome B) b :
  o ≫= k = Done b -> exists a, o = Done a /\ k a = Done b.
Proof. destruct o as [a| |]; simpl; [by exists a|done|done]. Qed.

Lemma bind_terminates {A B} (o : outcome A) (k : A -> outcome B) :
  terminates o -> (forall a, o = Done a -> terminates (k a)) ->
  terminates (o ≫= k).
Proof. destruct o as [a| |]; simpl; [by auto|done|done]. Qed.

Lemma mkSystem_terminates l : terminates (mkSystem l).
Proof.
  unfold mkSystem, append_packages.
  by destruct (append_packages_loop empty_system l) as [? [?|]].
Qed.

(** ** The solver satisfies every property given by proof rules *)
Section SolverRules.
Variables installed_system upstream_system : System.
Variable only_unfulfilled_deps : bool.
Variable deps_to_deep_check : gset string.
Variable Pre : list Package -> Package -> DepAlgoSolution -> Prop.
Variable Post :
  list Package -> Package -> DepAlgoSolution -> DepAlgoSolution -> Prop.
Variable Inv :
  list Package -> Package -> DepAlgoSolution -> list string ->
  DepAlgoSolution -> Prop.
Variable R : list DepAlgoFoundProblems -> Prop.
Hypothesis rules :
  solver_rules installed_system upstream_system only_unfulfilled_deps
    Pre Post Inv R.

Lemma split_not_finished_ok (PF PN : DepAlgoSolution -> Prop) dep nf :
  forall fin nnf fin' nnf',
  (forall cur sys, cur ∈ nf ->
     mkSystem (packages_in_solution cur) = Done sys ->
     nonempty (provided_by sys dep) = true -> PF (learn_dep dep cur)) ->
  (forall cur, cur ∈ nf -> PN (learn_dep dep cur)) ->
  Forall PF fin -> Forall PN nnf ->
  split_not_finished dep nf fin nnf = Done (fin', nnf') ->
  Forall PF fin' /\ Forall PN nnf'.
Proof.
  induction nf as [|cur nf IH]; intros fin nnf fin' nnf' HF HN Hfin Hnnf; simpl.
  - by intros [= <- <-].
  - intros (sys & Hsys & Hk)%bind_Done. simpl in Hsys.
    destruct (nonempty (provided_by sys dep)) eqn:Hprov.
    + eapply IH in Hk; [done| | |apply Forall_app; split; [done|]|done].
      * intros c s' Hc. apply HF. by right.
      * intros c Hc. apply HN. by right.
      * apply Forall_singleton. eapply HF; [left|done|done].
    + eapply IH in Hk; [done| | |done|apply Forall_app; split; [done|]].
      * intros c s' Hc. apply HF. by right.
      * intros c Hc. apply HN. by right.
      * apply Forall_singleton. apply HN. left.
Qed.

Lemma split_not_finished_terminates dep nf fin nnf :
  terminates (split_not_finished dep nf fin nnf).
Proof.
  revert fin nnf. induction nf as [|cur nf IH]; intros fin nnf; simpl; [done|].
  apply bind_terminates; [apply mkSystem_terminates|].
  intros sys _. destruct (nonempty (provided_by sys dep)); apply IH.
Qed.

Section Loops.
Variable rec : rec_call.
Hypothesis Hrec : rec_ok Pre Post R rec.

Lemma extend_with_providers_ok (I : DepAlgoSolution -> Prop) St s providers :
  forall acc fp acc' fp',
  (forall q, q ∈ providers -> Pre St q s) ->
  (forall q x, q ∈ providers -> Post St q s x -> I x) ->
  Forall I acc -> R fp ->
  extend_with_providers rec s providers acc fp = Done (acc', fp') ->
  Forall I acc' /\ R fp'.
Proof.
  induction providers as [|q providers IH]; intros acc fp acc' fp' HPre HI Hacc HR;
    simpl.
  - by intros [= <- <-].
  - intros ([new fp1] & Hcall & Hk)%bind_Done.
    apply (Hrec St) in Hcall as [Hnew HR1]; [|apply HPre; left|done].
    eapply IH in Hk; [done| | | |done].
    + intros q' Hq'. apply HPre. by right.
    + intros q' x Hq'. apply HI. by right.
    + apply Forall_app. split; [done|].
      eapply Forall_impl; [exact Hnew|]. intros x. apply HI. left.
Qed.

Lemma extend_solutions_ok (I : DepAlgoSolution -> Prop) St nnf providers :
  forall acc fp acc' fp',
  (forall s q, s ∈ nnf -> q ∈ providers -> Pre St q s) ->
  (forall s q x, s ∈ nnf -> q ∈ providers -> Post St q s x -> I x) ->
  Forall I acc -> R fp ->
  extend_solutions rec nnf providers acc fp = Done (acc', fp') ->
  Forall I acc' /\ R fp'.
Proof.
  induction nnf as [|s nnf IH]; intros acc fp acc' fp' HPre HI Hacc HR; simpl.
  - by intros [= <- <-].
  - intros ([acc1 fp1] & Hext & Hk)%bind_Done.
    eapply extend_with_providers_ok in Hext as [Hacc1 HR1]; [| | |done|done].
    + eapply IH in Hk; [done| | |done|done].
      * intros s' q Hs'. apply HPre. by right.
      * intros s' q x Hs'. apply HI. by right.
    + intros q Hq. apply HPre; [left|done].
    + intros q x Hq. apply HI; [left|done].
Qed.

Lemma flag_not_provided_known dep c : dep ∈ visited_names (flag_not_provided dep c).
Proof.
  unfold flag_not_provided. case_bool_decide; [done|]. simpl. set_solver.
Qed.

Lemma nonempty_nil {A} (l : list A) : nonempty l = false <-> l = [].
Proof. by destruct l. Qed.

Lemma dep_step_ok St self s seen dep curs fp curs' fp' :
  Pre St self s -> dep ∈ relevant_deps self ->
  Forall (Inv St self s seen) curs -> R fp ->
  dep_step installed_system upstream_system only_unfulfilled_deps
    deps_to_deep_check rec self dep curs fp = Done (curs', fp') ->
  Forall (Inv St self s (seen ++ [dep])) curs' /\ R fp'.
Proof.
  intros HPre Hdep Hcurs HR. unfold dep_step.
  destruct (only_unfulfilled_deps
            && nonempty (provided_by installed_system dep)) eqn:Hskip.
  { intros [= <- <-]. apply andb_true_iff in Hskip as [Hou Hinst].
    split; [|done]. eapply Forall_impl; [exact Hcurs|].
    intros c Hc. by eapply rule_skip. }
  set (providers := provided_by upstream_system dep).
  set (state := if nonempty providers then (curs, fp)
                else (map (flag_not_provided dep) curs,
                      fp_add (DepAlgoNotProvided dep self) fp)).
  assert (Hstate :
    Forall (fun c => (dep ∈ visited_names c -> Inv St self s (seen ++ [dep]) c)
                     /\ (dep ∉ visited_names c -> Inv St self s seen c))
      state.1 /\ R state.2).
  { subst state. destruct (nonempty providers) eqn:Hne; simpl.
    - split; [|done]. eapply Forall_impl; [exact Hcurs|].
      intros c Hc. split; [by eapply rule_known|done].
    - apply nonempty_nil in Hne. split.
      + apply Forall_fmap. eapply Forall_impl; [exact Hcurs|].
        intros c Hc. simpl. split; [intros _; by eapply rule_unprovided|].
        intros Hn. exfalso. apply Hn, flag_not_provided_known.
      + by eapply rule_not_provided. }
  destruct state as [curs1 fp1]. simpl in Hstate. destruct Hstate as [Hcurs1 HR1].
  set (providers' :=
    if bool_decide (strip_versioning_from_name dep ∈ map name providers)
       && negb (bool_decide (dep ∈ deps_to_deep_check))
    then filter (fun package => name package = strip_versioning_from_name dep)
           providers
    else providers).
  assert (Hsub : forall q, q ∈ providers' -> q ∈ provided_by upstream_system dep).
  { subst providers'. intros q.
    destruct (bool_decide _ && negb _); [|intros Hq; exact Hq].
    intros Hq. apply list_elem_of_filter in Hq. tauto. }
  clearbody providers'.
  intros ([fin nnf] & Hsplit & Hext)%bind_Done.
  eapply (split_not_finished_ok
            (Inv St self s (seen ++ [dep]))
            (fun x => exists cur, x = learn_dep dep cur
                                  /\ Inv St self s seen cur
                                  /\ dep ∉ visited_names cur))
    in Hsplit as [Hfin Hnnf].
  - eapply (extend_solutions_ok (Inv St self s (seen ++ [dep]))) in Hext;
      [done| | |done|done].
    + intros s' q Hs' Hq.
      rewrite Forall_forall in Hnnf. apply Hnnf in Hs' as (cur & -> & Hcur & Hn).
      eapply rule_call; [done..|by apply Hsub].
    + intros s' q x Hs' Hq HPost.
      rewrite Forall_forall in Hnnf. apply Hnnf in Hs' as (cur & -> & Hcur & Hn).
      eapply rule_return; [done..|by apply Hsub|done].
  - intros cur sys [Hn Hcur]%list_elem_of_filter Hsys Hprov.
    rewrite Forall_forall in Hcurs1. apply Hcurs1 in Hcur as [_ Hcur].
    eapply rule_in_solution; [exact rules|by apply Hcur|done..].
  - intros cur [Hn Hcur]%list_elem_of_filter.
    rewrite Forall_forall in Hcurs1. apply Hcurs1 in Hcur as [_ Hcur].
    exists cur. auto.
  - apply Forall_forall. intros c [Hk Hc]%list_elem_of_filter.
    rewrite Forall_forall in Hcurs1. by apply Hcurs1 in Hc as [Hc _]; auto.
  - done.
Qed.

Lemma deps_loop_ok St self s rest :
  forall seen curs fp curs' fp',
  Pre St self s -> relevant_deps self = seen ++ rest ->
  Forall (Inv St self s seen) curs -> R fp ->
  deps_loop installed_system upstream_system only_unfulfilled_deps
    deps_to_deep_check rec self rest curs fp = Done (curs', fp') ->
  Forall (Inv St self s (relevant_deps self)) curs' /\ R fp'.
Proof.
  induction rest as [|dep rest IH]; intros seen curs fp curs' fp' HPre Hdeps Hcurs HR;
    simpl.
  - intros [= <- <-]. rewrite Hdeps, app_nil_r. done.
  - intros ([curs1 fp1] & Hstep & Hk)%bind_Done.
    eapply dep_step_ok in Hstep as [Hcurs1 HR1]; [|done| |done|done].
    + eapply IH in Hk; [done|done| |done|done].
      rewrite Hdeps. by rewrite <- app_assoc.
    + rewrite Hdeps. apply elem_of_app. right. left.
Qed.

(** The loops return when the recursive calls do. *)
Section Termination.
Variable d : nat.
Hypothesis Htotal : rec_total Pre R d rec.

Lemma extend_with_providers_terminates St s providers :
  forall acc fp,
  d <= length St -> (forall q, q ∈ providers -> Pre St q s) -> R fp ->
  terminates (extend_with_providers rec s providers acc fp).
Proof.
  induction providers as [|q providers IH]; intros acc fp Hd HPre HR; simpl;
    [done|].
  apply bind_terminates; [apply (Htotal St); [done|apply HPre; left|done]|].
  intros [new fp1] Hcall.
  apply (Hrec St) in Hcall as [_ HR1]; [|apply HPre; left|done].
  apply IH; [done| |done]. intros q' Hq'. apply HPre. by right.
Qed.

Lemma extend_solutions_terminates St nnf providers :
  forall acc fp,
  d <= length St ->
  (forall s q, s ∈ nnf -> q ∈ providers -> Pre St q s) -> R fp ->
  terminates (extend_solutions rec nnf providers acc fp).
Proof.
  induction nnf as [|s nnf IH]; intros acc fp Hd HPre HR; simpl; [done|].
  apply bind_terminates.
  { apply (extend_with_providers_terminates St); [done| |done].
    intros q Hq. apply HPre; [left|done]. }
  intros [acc1 fp1] Hext.
  eapply (extend_with_providers_ok (fun _ => True)) in Hext as [_ HR1];
    [| |done|by apply Forall_true|done].
  - apply IH; [done| |done]. intros s' q Hs'. apply HPre. by right.
  - intros q Hq. apply HPre; [left|done].
Qed.

Lemma dep_step_terminates St self s seen dep curs fp :
  d <= S (length St) ->
  Pre St self s -> dep ∈ relevant_deps self ->
  Forall (Inv St self s seen) curs -> R fp ->
  terminates (dep_step installed_system upstream_system only_unfulfilled_deps
                deps_to_deep_check rec self dep curs fp).
Proof.
  intros Hd HPre Hdep Hcurs HR. unfold dep_step.
  destruct (only_unfulfilled_deps
            && nonempty (provided_by installed_system dep)) eqn:Hskip; [done|].
  set (providers := provided_by upstream_system dep).
  set (state := if nonempty providers then (curs, fp)
                else (map (flag_not_provided dep) curs,
                      fp_add (DepAlgoNotProvided dep self) fp)).
  assert (Hstate :
    Forall (fun c => dep ∉ visited_names c -> Inv St self s seen c) state.1
    /\ R state.2).
  { subst state. destruct (nonempty providers) eqn:Hne; simpl.
    - split; [|done]. eapply Forall_impl; [exact Hcurs|]. auto.
    - apply nonempty_nil in Hne. split.
      + apply Forall_fmap, Forall_true. intros c Hn. simpl in Hn. exfalso.
        apply Hn, flag_not_provided_known.
      + by eapply rule_not_provided. }
  destruct state as [curs1 fp1]. simpl in Hstate. destruct Hstate as [Hcurs1 HR1].
  set (providers' :=
    if bool_decide (strip_versioning_from_name dep ∈ map name providers)
       && negb (bool_decide (dep ∈ deps_to_deep_check))
    then filter (fun package => name package = strip_versioning_from_name dep)
           providers
    else providers).
  assert (Hsub : forall q, q ∈ providers' -> q ∈ provided_by upstream_system dep).
  { subst providers'. intros q.
    destruct (bool_decide _ && negb _); [|intros Hq; exact Hq].
    intros Hq. apply list_elem_of_filter in Hq. tauto. }
  clearbody providers'.
  apply bind_terminates; [apply split_not_finished_terminates|].
  intros [fin nnf] Hsplit.
  eapply (split_not_finished_ok (fun _ => True)
            (fun x => exists cur, x = learn_dep dep cur
                                  /\ Inv St self s seen cur
                                  /\ dep ∉ visited_names cur))
    in Hsplit as [_ Hnnf]; [|done| |by apply Forall_true|done].
  - apply (extend_solutions_terminates (St ++ [self]));
      [rewrite length_app; simpl; lia| |done].
    intros s' q Hs' Hq.
    rewrite Forall_forall in Hnnf. apply Hnnf in Hs' as (cur & -> & Hcur & Hn).
    eapply rule_call; [done..|by apply Hsub].
  - intros cur [Hn Hcur]%list_elem_of_filter.
    rewrite Forall_forall in Hcurs1. specialize (Hcurs1 _ Hcur Hn).
    by exists cur.
Qed.

Lemma deps_loop_terminates St self s rest :
  forall seen curs fp,
  d <= S (length St) ->
  Pre St self s -> relevant_deps self = seen ++ rest ->
  Forall (Inv St self s seen) curs -> R fp ->
  terminates (deps_loop installed_system upstream_system only_unfulfilled_deps
                deps_to_deep_check rec self rest curs fp).
Proof.
  induction rest as [|dep rest IH]; intros seen curs fp Hd HPre Hdeps Hcurs HR;
    simpl; [done|].
  assert (Hdep : dep ∈ relevant_deps self).
  { rewrite Hdeps. apply elem_of_app. right. left. }
  apply bind_terminates; [by eapply dep_step_terminates|].
  intros [curs1 fp1] Hstep.
  eapply dep_step_ok in Hstep as [Hcurs1 HR1]; [|done..].
  eapply IH; [done|done| |done|done]. rewrite Hdeps. by rewrite <- app_assoc.
Qed.
End Termination.
End Loops.

(** Partial correctness: whatever the recursion depth allowed. *)
Theorem solver_ok fuel :
  rec_ok Pre Post R
    (solutions_for_dep_problem installed_system upstream_system
       only_unfulfilled_deps deps_to_deep_check fuel).
Proof.
  induction fuel as [|fuel IH]; intros St self s fp sols fp' HPre HR; simpl;
    [done|].
  destruct (pkg_in self (packages_in_solution s)) eqn:Hsel.
  { intros [= <- <-]. split; [|done]. apply Forall_singleton.
    by eapply rule_selected. }
  destruct (pkg_in self (visited_packages s)) eqn:Hvis; simpl.
  { destruct (is_repo self) eqn:Hrepo; simpl.
    - intros [= <- <-]. split; [|done]. apply Forall_singleton.
      by eapply rule_revisit.
    - intros [= <- <-]. split; [constructor|].
      destruct (is_valid s) eqn:Hv; [by eapply rule_cycle|done]. }
  intros (sys & Hsys & Hk)%bind_Done.
  apply bind_Done in Hk as ([curs fp1] & Hloop & Hk).
  injection Hk as <- <-.
  eapply (deps_loop_ok _ IH St self s (relevant_deps self) []) in Hloop
    as [Hcurs HR1]; [|done|done| |].
  - split.
    + apply Forall_fmap. eapply Forall_impl; [exact Hcurs|].
      intros c Hc. simpl. eapply rule_select; [exact rules|exact Hc].
    + destruct (existsb is_valid curs) eqn:Hex; [|done].
      apply existsb_exists in Hex as (c & Hc & Hv).
      apply list_elem_of_In in Hc. rewrite Forall_forall in Hcurs.
      eapply rule_clear; [exact rules|by apply Hcurs|done|exact HR1].
  - apply Forall_singleton. by eapply rule_push.
  - destruct (nonempty (conflicting_with sys self)) eqn:Hc; simpl; [|done].
    destruct (is_valid s) eqn:Hv; [by eapply rule_conflict|done].
Qed.

(** Termination: a recursion depth the precondition bounds is enough. *)
Section Depth.
Variable bound : nat.
Hypothesis rule_depth : forall St p s, Pre St p s -> length St < bound.

Theorem solver_terminates fuel :
  rec_total Pre R (bound - fuel)
    (solutions_for_dep_problem installed_system upstream_system
       only_unfulfilled_deps deps_to_deep_check fuel).
Proof.
  induction fuel as [|fuel IH]; intros St self s fp Hd HPre HR; simpl.
  { apply rule_depth in HPre. lia. }
  destruct (pkg_in self (packages_in_solution s)) eqn:Hsel; [done|].
  destruct (pkg_in self (visited_packages s)) eqn:Hvis; simpl.
  { by destruct (is_repo self). }
  apply bind_terminates; [apply mkSystem_terminates|].
  intros sys Hsys.
  apply bind_terminates; [|by intros [? ?] _].
  eapply (deps_loop_terminates _ (solver_ok fuel) _ IH St self s _ []);
    [lia|done|done| |].
  - apply Forall_singleton. by eapply rule_push.
  - destruct (nonempty (conflicting_with sys self)) eqn:Hc; simpl; [|done].
    destruct (is_valid s) eqn:Hv; [by eapply rule_conflict|done].
Qed.
End Depth.

(** The pass over the requested packages, for an invariant [T] of the
    solutions between two expansions. *)
Section TopLevel.
Variable T : DepAlgoSolution -> Prop.
Variable packages : list Package.
Hypothesis top_pre : forall p s, p ∈ packages -> T s -> Pre [] p s.
Hypothesis top_post :
  forall p s s', p ∈ packages -> T s -> Post [] p s s' -> T s'.

Lemma expand_package_ok fuel p curs :
  forall acc fp acc' fp',
  p ∈ packages -> Forall T curs -> Forall T acc -> R fp ->
  expand_package installed_system upstream_system only_unfulfilled_deps
    deps_to_deep_check fuel p curs acc fp = Done (acc', fp') ->
  Forall T acc' /\ R fp'.
Proof.
  induction curs as [|s curs IH]; intros acc fp acc' fp' Hp Hcurs Hacc HR; simpl.
  - by intros [= <- <-].
  - intros ([sols fp1] & Hcall & Hk)%bind_Done.
    apply Forall_cons in Hcurs as [Hs Hcurs].
    apply (solver_ok fuel []) in Hcall as [Hsols HR1]; [|by apply top_pre|done].
    eapply IH in Hk; [done|done|done| |done].
    apply Forall_app. split; [done|].
    eapply Forall_impl; [exact Hsols|]. intros x. by apply top_post.
Qed.

Lemma calc_solutions_ok fuel ps :
  forall curs fp curs' fp',
  ps ⊆ packages -> Forall T curs -> R fp ->
  calc_solutions installed_system upstream_system only_unfulfilled_deps
    deps_to_deep_check fuel ps curs fp = Done (curs', fp') ->
  Forall T curs' /\ R fp'.
Proof.
  induction ps as [|p ps IH]; intros curs fp curs' fp' Hps Hcurs HR; simpl.
  - by intros [= <- <-].
  - intros ([curs1 fp1] & Hexp & Hk)%bind_Done.
    eapply expand_package_ok in Hexp as [Hcurs1 HR1];
      [|apply Hps; left|done|constructor|done].
    eapply IH in Hk; [done| |done|done].
    intros q Hq. apply Hps. by right.
Qed.

Section TopTermination.
Variable bound : nat.
Hypothesis rule_depth : forall St p s, Pre St p s -> length St < bound.

Lemma expand_package_terminates fuel p curs :
  forall acc fp,
  bound <= fuel -> p ∈ packages -> Forall T curs -> R fp ->
  terminates (expand_package installed_system upstream_system
                only_unfulfilled_deps deps_to_deep_check fuel p curs acc fp).
Proof.
  induction curs as [|s curs IH]; intros acc fp Hb Hp Hcurs HR; simpl; [done|].
  apply Forall_cons in Hcurs as [Hs Hcurs].
  apply bind_terminates.
  { eapply (solver_terminates bound rule_depth fuel []);
      [simpl; lia|by apply top_pre|done]. }
  intros [sols fp1] Hcall.
  apply (solver_ok fuel []) in Hcall as [_ HR1]; [|by apply top_pre|done].
  by apply IH.
Qed.

Lemma calc_solutions_terminates fuel ps :
  forall curs fp,
  bound <= fuel -> ps ⊆ packages -> Forall T curs -> R fp ->
  terminates (calc_solutions installed_system upstream_system
                only_unfulfilled_deps deps_to_deep_check fuel ps curs fp).
Proof.
  induction ps as [|p ps IH]; intros curs fp Hb Hps Hcurs HR; simpl; [done|].
  apply bind_terminates.
  { apply expand_package_terminates; [done|apply Hps; left|done|done]. }
  intros [curs1 fp1] Hexp.
  eapply expand_package_ok in Hexp as [Hcurs1 HR1];
    [|apply Hps; left|done|constructor|done].
  apply IH; [done| |done|done]. intros q Hq. apply Hps. by right.
Qed.
End TopTermination.
End TopLevel.
End SolverRules.


(** ** The search stays inside its universe *)

Lemma pkg_in_false_key p l : pkg_in p l = false -> key p ∉ map key l.
Proof.
  intros Hin Hk. apply list_elem_of_fmap in Hk as (q & Hkey & Hq).
  assert (pkg_in p l = true); [|congruence].
  apply pkg_in_true. exists q. split; [done|].
  apply pkg_eqb_true. unfold key in Hkey. by injection Hkey.
Qed.

Lemma system_packages_get S k q :
  PyDict.get (all_packages_dict S) k = Some q -> q ∈ system_packages S.
Proof.
  intros Hget%get_Some_elem. unfold system_packages, PyDict.values.
  apply elem_of_app. left. apply list_elem_of_fmap. by exists (k, q).
Qed.

Lemma system_packages_listed S q :
  listed (provides_dict S) q -> q ∈ system_packages S.
Proof.
  intros (k & l & Hin & Hq). unfold system_packages, PyDict.values.
  apply elem_of_app. right. apply list_elem_of_In, in_concat. exists l.
  split; [|by apply list_elem_of_In].
  apply list_elem_of_In, list_elem_of_fmap. by exists (k, l).
Qed.

Lemma provided_by_system_packages S dep q :
  q ∈ provided_by S dep -> q ∈ system_packages S.
Proof.
  intros [(k & Hget & _)|[Hl _]]%provided_by_members.
  - by eapply system_packages_get.
  - by apply system_packages_listed.
Qed.

Lemma wf_solution_length U s :
  wf_solution U s -> length (visited_packages s) <= length U.
Proof.
  intros [Hsub Hnd].
  rewrite <- (length_fmap key (visited_packages s)), <- (length_fmap key U).
  apply submseteq_length, NoDup_submseteq; [done|].
  intros k (p & -> & Hp)%list_elem_of_fmap. apply list_elem_of_fmap.
  exists p. split; [done|by apply Hsub].
Qed.

Lemma wf_problems_add U x fp :
  (forall p, p ∈ get_relevant_packages x -> p ∈ U) ->
  wf_problems U fp -> wf_problems U (fp_add x fp).
Proof.
  intros Hx Hfp. unfold fp_add. destruct (existsb (problem_eqb x) fp); [done|].
  intros pr p [Hpr|Hpr%list_elem_of_singleton]%elem_of_app Hp.
  - by eapply Hfp.
  - subst pr. by apply Hx.
Qed.

Section WellFormed.
Variables installed_system upstream_system : System.
Variable only_unfulfilled_deps : bool.
Variable U : list Package.
Hypothesis upstream_in_U : forall q, q ∈ system_packages upstream_system -> q ∈ U.

Lemma wf_rules :
  solver_rules installed_system upstream_system only_unfulfilled_deps
    (wf_pre U) (wf_post U) (wf_inv U) (wf_problems U).
Proof.
  split.
  - intros St self s (HU & Hwf & Hlen) _. by split.
  - intros St self s (HU & Hwf & Hlen) _ _ _. by split.
  - intros St self s sys (HU & [Hsub Hnd] & Hlen) Hvis Hsys.
    split; [done|]. unfold push_self. simpl. split; [|rewrite length_app; simpl; lia].
    split.
    + intros p [Hp|Hp%list_elem_of_singleton]%elem_of_app; [by apply Hsub|by subst].
    + simpl. rewrite map_app. apply NoDup_app. split; [done|]. split.
      * intros k Hk ->%list_elem_of_singleton. by eapply pkg_in_false_key.
      * apply NoDup_singleton.
  - intros St self s seen dep cur Hinv _ _. exact Hinv.
  - intros St self s seen dep cur Hinv _. unfold flag_not_provided.
    by case_bool_decide.
  - intros St self s seen dep cur Hinv _. exact Hinv.
  - intros St self s seen dep cur sys Hinv _ _ _. exact Hinv.
  - intros St self s seen dep cur q (HU & Hwf & Hlen & Hlen') _ _ Hq.
    split; [|split; [done|]].
    + by apply upstream_in_U, (provided_by_system_packages _ dep).
    + rewrite length_app. simpl. lia.
  - intros St self s seen dep cur q s' (HU & Hwf & Hlen & Hlen') _ _ _ [Hwf' Hl].
    simpl in Hl. repeat split; [done|apply Hwf'|apply Hwf'|lia|lia].
  - intros St self s cur (HU & Hwf & Hlen & Hlen'). split; [done|]. simpl. lia.
  - intros St self s fp (HU & [Hsub Hnd] & Hlen) Hfp _ _ _ _.
    apply wf_problems_add; [|done]. simpl.
    intros p [Hp|Hp%list_elem_of_singleton]%elem_of_app; [|by subst].
    apply Hsub. by eapply subseteq_drop.
  - intros St self s fp sys (HU & [Hsub Hnd] & Hlen) Hfp _ Hsys _ _.
    apply wf_problems_add; [|done]. simpl.
    intros p [Hp|Hp]%pkg_set_add_elem; [|by subst].
    apply Hsub. eapply conflicting_with_visited; [done|]. by apply pkg_set_elem.
  - intros St self s fp dep (HU & _) Hfp _ _.
    apply wf_problems_add; [|done]. simpl.
    intros p Hp%list_elem_of_singleton. by subst.
  - intros St self s cur fp _ _ _ pr p Hpr. by apply elem_of_nil in Hpr.
Qed.

Lemma wf_depth St p s : wf_pre U St p s -> length St < S (length U).
Proof.
  intros (_ & Hwf%wf_solution_length & Hlen). lia.
Qed.
End WellFormed.


(** ** Termination of [dep_solving] *)

Lemma widen_mono fp deep : deep ⊆ widen fp deep.
Proof.
  unfold widen. revert deep. induction fp as [|x fp IH]; intros deep; simpl;
    [done|].
  etrans; [|apply IH]. set_solver.
Qed.

Lemma widen_bounded U fp deep :
  wf_problems U fp -> deep ⊆ list_to_set (map name U) ->
  widen fp deep ⊆ list_to_set (map name U).
Proof.
  unfold widen. revert deep. induction fp as [|x fp IH]; intros deep Hfp Hdeep;
    simpl; [done|].
  apply IH.
  - intros pr p Hpr. apply Hfp. by right.
  - apply union_subseteq. split; [done|].
    intros n Hn. apply elem_of_list_to_set in Hn. apply elem_of_list_to_set.
    apply list_elem_of_fmap in Hn as (p & -> & Hp).
    apply list_elem_of_fmap. exists p. split; [done|].
    eapply Hfp; [left|done].
Qed.

Lemma wf_initial_solution U : wf_solution U initial_solution.
Proof.
  split; simpl; [intros p Hp; by apply elem_of_nil in Hp|apply NoDup_nil_2].
Qed.

Lemma wf_problems_nil U : wf_problems U [].
Proof. intros pr p Hpr. by apply elem_of_nil in Hpr. Qed.

Section DepSolvingTermination.
Variables installed_system upstream_system : System.
Variable only_unfulfilled_deps : bool.
Variable packages : list Package.

Lemma universe_upstream q :
  q ∈ system_packages upstream_system -> q ∈ universe upstream_system packages.
Proof. intros Hq. apply elem_of_app. by left. Qed.

Lemma universe_requested p :
  p ∈ packages -> p ∈ universe upstream_system packages.
Proof. intros Hq. apply elem_of_app. by right. Qed.

Lemma wf_top_pre p s :
  p ∈ packages -> wf_solution (universe upstream_system packages) s ->
  wf_pre (universe upstream_system packages) [] p s.
Proof.
  intros Hp Hs. split; [by apply universe_requested|]. split; [done|]. simpl. lia.
Qed.

Lemma wf_top_post p s s' :
  p ∈ packages -> wf_solution (universe upstream_system packages) s ->
  wf_post (universe upstream_system packages) [] p s s' ->
  wf_solution (universe upstream_system packages) s'.
Proof. by intros _ _ [? _]. Qed.

Lemma dep_solving_loop_terminates passes fuel :
  forall curs fp deep,
  length (universe upstream_system packages) < fuel ->
  Forall (wf_solution (universe upstream_system packages)) curs ->
  wf_problems (universe upstream_system packages) fp ->
  deep ⊆ universe_names upstream_system packages ->
  size (universe_names upstream_system packages) < passes + size deep ->
  terminates (dep_solving_loop passes fuel packages installed_system
                upstream_system only_unfulfilled_deps curs fp deep).
Proof.
  induction passes as [|passes IH]; intros curs fp deep Hfuel Hcurs Hfp Hdeep Hsize.
  { apply subseteq_size in Hdeep. lia. }
  simpl. apply bind_terminates.
  { eapply (calc_solutions_terminates _ _ _ _ _ _ _ _
              (wf_rules installed_system upstream_system only_unfulfilled_deps
                 _ universe_upstream)
              _ packages wf_top_pre wf_top_post
              (S (length (universe upstream_system packages)))
              (wf_depth _)); [lia|done|done|done]. }
  intros [curs1 fp1] Hcalc.
  eapply (calc_solutions_ok _ _ _ _ _ _ _ _
            (wf_rules installed_system upstream_system only_unfulfilled_deps
               _ universe_upstream)
            _ packages wf_top_pre wf_top_post) in Hcalc as [_ Hfp1];
    [|done|done|done].
  destruct (nonempty (filter (fun s => is_valid s = true) curs1)); [done|].
  case_bool_decide as Hgrow; [done|].
  pose proof (widen_mono fp1 deep) as Hmono.
  pose proof (widen_bounded _ _ _ Hfp1 Hdeep) as Hbound.
  apply IH; [done| |apply wf_problems_nil|exact Hbound|].
  - apply Forall_singleton, wf_initial_solution.
  - apply subseteq_size in Hmono. lia.
Qed.
End DepSolvingTermination.

(** A pass that ends the loop neither by its solutions nor by a fixed
    [deps_to_deep_check] hands the loop a strictly larger set, still within
    the names of the universe. *)
Lemma continuing_pass_widens packages installed_system upstream_system
    only_unfulfilled_deps passes fuel deep curs1 fp1 :
  deep ⊆ universe_names upstream_system packages ->
  calc_solutions installed_system upstream_system only_unfulfilled_deps deep
    fuel packages [initial_solution] [] = Done (curs1, fp1) ->
  nonempty (filter (fun s => is_valid s = true) curs1) = false ->
  size (widen fp1 deep) <> size deep ->
  size deep < size (widen fp1 deep)
  /\ widen fp1 deep ⊆ universe_names upstream_system packages
  /\ dep_solving_loop (S passes) fuel packages installed_system upstream_system
       only_unfulfilled_deps [initial_solution] [] deep
     = dep_solving_loop passes fuel packages installed_system upstream_system
         only_unfulfilled_deps [initial_solution] [] (widen fp1 deep).
Proof.
  intros Hdeep Hcalc Hnone Hgrow.
  pose proof (widen_mono fp1 deep) as Hmono%subseteq_size.
  split; [lia|]. split.
  - eapply (calc_solutions_ok _ _ _ _ _ _ _ _
              (wf_rules installed_system upstream_system only_unfulfilled_deps
                 _ (universe_upstream upstream_system packages))
              _ packages (wf_top_pre upstream_system packages)
              (wf_top_post upstream_system packages)) in Hcalc as [_ Hfp1];
      [|done| |apply wf_problems_nil].
    + by apply widen_bounded.
    + apply Forall_singleton, wf_initial_solution.
  - simpl. rewrite Hcalc. simpl. rewrite Hnone.
    by rewrite bool_decide_false.
Qed.

(** C3.  For every installed and upstream system and every sequence of
    requested packages, [dep_solving] terminates: a widening iteration that
    does not end the loop strictly grows [deps_to_deep_check], which stays
    within the names of the universe, so one pass more than there are such
    names is always enough (and the recursion is never deeper than the
    universe is large). *)
Theorem dep_solving_terminates packages installed_system upstream_system
    only_unfulfilled_deps passes fuel :
  size (universe_names upstream_system packages) < passes ->
  length (universe upstream_system packages) < fuel ->
  terminates (dep_solving passes fuel packages installed_system upstream_system
                only_unfulfilled_deps)
  /\ (forall n deep curs1 fp1,
        deep ⊆ universe_names upstream_system packages ->
        calc_solutions installed_system upstream_system only_unfulfilled_deps
          deep fuel packages [initial_solution] [] = Done (curs1, fp1) ->
        nonempty (filter (fun s => is_valid s = true) curs1) = false ->
        size (widen fp1 deep) <> size deep ->
        size deep < size (widen fp1 deep)
        /\ widen fp1 deep ⊆ universe_names upstream_system packages
        /\ dep_solving_loop (S n) fuel packages installed_system
             upstream_system only_unfulfilled_deps [initial_solution] [] deep
           = dep_solving_loop n fuel packages installed_system upstream_system
               only_unfulfilled_deps [initial_solution] [] (widen fp1 deep)).
Proof.
  intros Hpasses Hfuel. split.
  - unfold dep_solving.
    apply bind_terminates; [|by intros [? ?] _].
    apply dep_solving_loop_terminates; [done| | | |].
    + apply Forall_singleton, wf_initial_solution.
    + apply wf_problems_nil.
    + apply empty_subseteq.
    + rewrite size_empty. lia.
  - intros n deep curs1 fp1. apply continuing_pass_widens.
Qed.


(** ** [relevant_deps] *)

(** [relevant_deps] is the concatenation of [depends], [makedepends] and
    [checkdepends], in that order and with repetitions kept, an absent
    sequence counting as empty. *)
Lemma relevant_deps_all_sequences (p : Package) :
  relevant_deps p
  = default [] (depends p) ++ default [] (makedepends p)
    ++ default [] (checkdepends p).
Proof.
  unfold relevant_deps.
  destruct (depends p), (makedepends p), (checkdepends p); simpl;
    rewrite ?app_nil_r, ?app_assoc; reflexivity.
Qed.

(** What the constructors establish: only packages built from source carry
    make- or check-dependencies. *)
Lemma loaded_build_deps is_devel p :
  loaded is_devel p ->
  is_source_built p = false -> makedepends p = None /\ checkdepends p = None.
Proof.
  intros [[aur_return Hp]|(packages_type & expac_return & Hp)].
  - apply list_elem_of_fmap in Hp as (package_dict & -> & _).
    unfold is_source_built. simpl.
    by destruct (is_devel (aur_Name package_dict)).
  - apply list_elem_of_fmap in Hp as (line & -> & _). done.
Qed.

(** C7.  For every package built by [get_packages_from_aur] or
    [get_packages_from_expac], [relevant_deps] is the concatenation of
    [depends], [makedepends] and [checkdepends] when the package is an AUR
    or a devel package, and just [depends] for a repo package and a package
    that is neither; the order of declaration and repetitions are kept. *)
Theorem relevant_deps_follows_classification is_devel (p : Package) :
  loaded is_devel p -> relevant_deps_by_classification p.
Proof.
  intros Hp. unfold relevant_deps_by_classification.
  rewrite relevant_deps_all_sequences.
  destruct (is_source_built p) eqn:Hsrc; [done|].
  destruct (loaded_build_deps is_devel p Hp Hsrc) as [-> ->]. simpl.
  by rewrite app_nil_r.
Qed.


(** ** Invariants of the problem set *)

Lemma Forall_fp_add (P : DepAlgoFoundProblems -> Prop) x fp :
  P x -> Forall P fp -> Forall P (fp_add x fp).
Proof.
  intros Hx Hfp. unfold fp_add. destruct (existsb (problem_eqb x) fp); [done|].
  apply Forall_app. split; [done|by apply Forall_singleton].
Qed.

(** A property of problems that holds of whatever the solver records holds of
    the whole set, at the return of every expansion. *)
Section ProblemInvariant.
Variables installed_system upstream_system : System.
Variable only_unfulfilled_deps : bool.
Variable deps_to_deep_check : gset string.
Variable P : DepAlgoFoundProblems -> Prop.
Hypothesis P_cycle : forall self s,
  pkg_in self (visited_packages s) = true -> is_repo self = false ->
  P (new_dep_cycle self s).
Hypothesis P_conflict : forall self s cs, P (new_conflict self s cs).
Hypothesis P_not_provided : forall dep self, P (DepAlgoNotProvided dep self).

Lemma problem_rules :
  solver_rules installed_system upstream_system only_unfulfilled_deps
    (fun _ _ _ => True) (fun _ _ _ _ => True) (fun _ _ _ _ _ => True)
    (Forall P).
Proof.
  split; try done.
  - intros St self s fp _ Hfp _ Hvis Hrepo _. apply Forall_fp_add; auto.
  - intros St self s fp sys _ Hfp _ _ _ _. apply Forall_fp_add; auto.
  - intros St self s fp dep _ Hfp _ _. apply Forall_fp_add; auto.
Qed.

Lemma problems_invariant fuel self s fp sols fp' :
  Forall P fp ->
  solutions_for_dep_problem installed_system upstream_system
    only_unfulfilled_deps deps_to_deep_check fuel self s fp = Done (sols, fp') ->
  Forall P fp'.
Proof.
  intros Hfp Hrun.
  by eapply (solver_ok _ _ _ deps_to_deep_check _ _ _ _ problem_rules fuel [])
    in Hrun as [_ ?].
Qed.

Lemma problems_invariant_pass fuel packages curs fp curs' fp' :
  Forall P fp ->
  calc_solutions installed_system upstream_system only_unfulfilled_deps
    deps_to_deep_check fuel packages curs fp = Done (curs', fp') ->
  Forall P fp'.
Proof.
  intros Hfp Hrun.
  eapply (calc_solutions_ok _ _ _ deps_to_deep_check _ _ _ _ problem_rules
            (fun _ => True) packages) in Hrun as [_ ?]; try done.
  by apply Forall_true.
Qed.
End ProblemInvariant.

Lemma problems_invariant_loop (P : DepAlgoFoundProblems -> Prop)
    installed_system upstream_system only_unfulfilled_deps packages fuel :
  (forall self s, pkg_in self (visited_packages s) = true ->
                  is_repo self = false -> P (new_dep_cycle self s)) ->
  (forall self s cs, P (new_conflict self s cs)) ->
  (forall dep self, P (DepAlgoNotProvided dep self)) ->
  forall passes curs fp deep curs' fp',
  Forall P fp ->
  dep_solving_loop passes fuel packages installed_system upstream_system
    only_unfulfilled_deps curs fp deep = Done (curs', fp') ->
  Forall P fp'.
Proof.
  intros Hc Hk Hn. induction passes as [|passes IH];
    intros curs fp deep curs' fp' Hfp; simpl; [done|].
  intros ([curs1 fp1] & Hcalc & Hrest)%bind_Done.
  eapply problems_invariant_pass in Hcalc; [|done..].
  destruct (nonempty (filter (fun s => is_valid s = true) curs1)).
  { by injection Hrest as <- <-. }
  case_bool_decide.
  { by injection Hrest as <- <-. }
  eapply IH; [|exact Hrest]. constructor.
Qed.

Lemma new_dep_cycle_closed self s :
  pkg_in self (visited_packages s) = true ->
  closed_cycle (new_dep_cycle self s).
Proof.
  intros Hvis. unfold new_dep_cycle. simpl.
  destruct (index_lt_length _ _ Hvis) as (y & Hy & Heq).
  pose proof (lookup_lt_Some _ _ _ Hy) as Hlt.
  split.
  - rewrite length_app, length_drop. simpl. lia.
  - exists y, self. split; [|split; [apply last_snoc|done]].
    destruct (drop (index self (visited_packages s)) (visited_packages s))
      as [|z l] eqn:Hdrop.
    + apply (f_equal length) in Hdrop. rewrite length_drop in Hdrop.
      simpl in Hdrop. lia.
    + simpl. f_equal.
      apply (f_equal (fun l => l !! 0)) in Hdrop. rewrite lookup_drop in Hdrop.
      simpl in Hdrop. rewrite Nat.add_0_r in Hdrop. congruence.
Qed.

Lemma new_dep_cycle_non_repo self s :
  is_repo self = false -> closed_by_non_repo (new_dep_cycle self s).
Proof.
  intros Hrepo. unfold new_dep_cycle. simpl. exists self.
  split; [apply last_snoc|done].
Qed.

(** C10.  Every cycle the solver adds to [found_problems] is a closed loop:
    it lists at least two packages and its first package equals its last.
    This holds of the problem set at the return of every expansion, and of
    the set [dep_solving] ends with. *)
Theorem recorded_cycles_are_closed installed_system upstream_system
    only_unfulfilled_deps :
  (forall deps_to_deep_check fuel self s fp sols fp',
     Forall closed_cycle fp ->
     solutions_for_dep_problem installed_system upstream_system
       only_unfulfilled_deps deps_to_deep_check fuel self s fp
     = Done (sols, fp') ->
     Forall closed_cycle fp')
  /\ (forall passes fuel packages r,
        dep_solving passes fuel packages installed_system upstream_system
          only_unfulfilled_deps = Done r ->
        Forall closed_cycle (final_problems r)).
Proof.
  split.
  - intros deep fuel self s fp sols fp' Hfp Hrun.
    eapply problems_invariant; [| | |exact Hfp|exact Hrun]; try done.
    intros self' s' Hvis _. by apply new_dep_cycle_closed.
  - intros passes fuel packages r. unfold dep_solving.
    intros ([curs fp] & Hloop & Hr)%bind_Done. injection Hr as <-. simpl.
    eapply (problems_invariant_loop closed_cycle) in Hloop; try done.
    intros self' s' Hvis _. by apply new_dep_cycle_closed.
Qed.

(** C6.  Expanding a package that is already among the visited packages of
    the solution returns no solution (recording the cycle) only if the
    package is not a repo package; a visited repo package gets the solution
    back unchanged and the problem set is left as it was.  Hence every cycle
    ever recorded is closed by a package that is not a repo package, and a
    cycle of repo packages only is never recorded. *)
Theorem repo_packages_are_exempt_from_cycles installed_system upstream_system
    only_unfulfilled_deps deps_to_deep_check :
  (forall fuel self s fp,
     pkg_in self (visited_packages s) = true -> is_repo self = true ->
     solutions_for_dep_problem installed_system upstream_system
       only_unfulfilled_deps deps_to_deep_check (S fuel) self s fp
     = Done ([s], fp))
  /\ (forall fuel self s fp fp',
        pkg_in self (visited_packages s) = true ->
        solutions_for_dep_problem installed_system upstream_system
          only_unfulfilled_deps deps_to_deep_check fuel self s fp
        = Done ([], fp') ->
        is_repo self = false
        /\ fp' = if is_valid s then fp_add (new_dep_cycle self s) fp else fp)
  /\ (forall fuel self s fp sols fp',
        Forall closed_by_non_repo fp ->
        solutions_for_dep_problem installed_system upstream_system
          only_unfulfilled_deps deps_to_deep_check fuel self s fp
        = Done (sols, fp') ->
        Forall closed_by_non_repo fp').
Proof.
  split; [|split].
  - intros fuel self s fp Hvis Hrepo. simpl.
    destruct (pkg_in self (packages_in_solution s)); [done|].
    rewrite Hvis, Hrepo. done.
  - intros [|fuel] self s fp fp' Hvis; simpl; [done|].
    destruct (pkg_in self (packages_in_solution s)); [done|].
    rewrite Hvis. destruct (is_repo self); simpl; [done|].
    by intros [= <-].
  - intros fuel self s fp sols fp' Hfp Hrun.
    eapply problems_invariant; [| | |exact Hfp|exact Hrun]; try done.
    intros self' s' _ Hrepo. by apply new_dep_cycle_non_repo.
Qed.


(** ** Conflicts *)

Lemma fold_min_spec l x :
  (fold_left Nat.min l x = x \/ fold_left Nat.min l x ∈ l)
  /\ fold_left Nat.min l x <= x
  /\ (forall y, y ∈ l -> fold_left Nat.min l x <= y).
Proof.
  revert x. induction l as [|z l IH]; intros x; simpl.
  - split; [by left|]. split; [lia|]. intros y Hy. by apply elem_of_nil in Hy.
  - destruct (IH (Nat.min x z)) as (Hin & Hle & Hall). split; [|split].
    + destruct Hin as [Hin|Hin]; [|right; by right].
      destruct (Nat.min_spec x z) as [[_ Hm]|[_ Hm]]; rewrite Hm in *;
        [by left|right; rewrite Hin; left].
    + lia.
    + intros y [->|Hy]%elem_of_cons; [lia|by apply Hall].
Qed.

Lemma list_min_spec l :
  l <> [] -> list_min l ∈ l /\ forall y, y ∈ l -> list_min l <= y.
Proof.
  destruct l as [|x l]; [done|]. intros _. simpl.
  destruct (fold_min_spec l x) as (Hin & Hle & Hall). split.
  - destruct Hin as [->|Hin]; [left|by right].
  - intros y [->|Hy]%elem_of_cons; [done|by apply Hall].
Qed.

Lemma pkg_in_pkg_set_add q p s :
  pkg_in q (pkg_set_add p s) = pkg_in q s || pkg_eqb q p.
Proof.
  unfold pkg_set_add. destruct (pkg_in p s) eqn:Hp.
  - destruct (pkg_eqb q p) eqn:Hqp; [|by rewrite orb_false_r].
    rewrite orb_true_r. apply pkg_in_true in Hp as (r & Hr & Hpr).
    apply pkg_in_true. exists r. split; [done|].
    apply pkg_eqb_true in Hqp as [? ?]. apply pkg_eqb_true in Hpr as [? ?].
    apply pkg_eqb_true. split; congruence.
  - rewrite pkg_in_app. simpl. by rewrite orb_false_r.
Qed.

Lemma pkg_in_pkg_set q l : pkg_in q (pkg_set l) = pkg_in q l.
Proof.
  unfold pkg_set.
  assert (H : forall s, pkg_in q (fold_left (fun s p => pkg_set_add p s) l s)
                        = pkg_in q s || pkg_in q l).
  { induction l as [|p l IH]; intros s; simpl; [by rewrite orb_false_r|].
    rewrite IH, pkg_in_pkg_set_add. by rewrite orb_assoc. }
  by rewrite H.
Qed.

Lemma recorded_fp_add x y fp : recorded x fp -> recorded x (fp_add y fp).
Proof.
  unfold recorded, fp_add. intros Hx.
  destruct (existsb (problem_eqb y) fp); [done|].
  rewrite existsb_app, Hx. done.
Qed.

Lemma pkg_list_eqb_refl l : pkg_list_eqb l l = true.
Proof. induction l as [|p l IH]; simpl; [done|]. by rewrite pkg_eqb_refl, IH. Qed.

Lemma pkg_set_eqb_refl s : pkg_set_eqb s s = true.
Proof.
  unfold pkg_set_eqb. assert (H : forallb (fun p => pkg_in p s) s = true).
  { apply forallb_forall. intros p Hp%list_elem_of_In. by apply pkg_in_elem. }
  by rewrite H.
Qed.

Lemma problem_eqb_refl x : problem_eqb x x = true.
Proof.
  destruct x as [l|s w|d p]; simpl.
  - apply pkg_list_eqb_refl.
  - by rewrite pkg_set_eqb_refl, pkg_list_eqb_refl.
  - by rewrite bool_decide_true, pkg_eqb_refl.
Qed.

Lemma recorded_fp_add_same x fp : recorded x (fp_add x fp).
Proof.
  unfold recorded, fp_add. destruct (existsb (problem_eqb x) fp) eqn:E; [done|].
  rewrite existsb_app. simpl. by rewrite problem_eqb_refl, orb_true_r.
Qed.

(** Once a solution is invalid, every solution derived from it is, and no
    problem is taken out of the set any more. *)
Lemma invalid_rules installed_system upstream_system only_unfulfilled_deps
    (Keep : DepAlgoFoundProblems -> Prop) :
  solver_rules installed_system upstream_system only_unfulfilled_deps
    (fun _ _ s => is_valid s = false) (fun _ _ _ s' => is_valid s' = false)
    (fun _ _ _ _ cur => is_valid cur = false)
    (fun fp => forall x, Keep x -> recorded x fp).
Proof.
  split; try done.
  - intros St self s sys Hs _ _. simpl.
    by destruct (nonempty (conflicting_with sys self)).
  - intros St self s seen dep cur Hcur _. unfold flag_not_provided.
    by case_bool_decide.
  - intros St self s fp _ Hfp _ _ _ _ x Hx. by apply recorded_fp_add, Hfp.
  - intros St self s fp sys _ Hfp _ _ _ _ x Hx. by apply recorded_fp_add, Hfp.
  - intros St self s fp dep _ Hfp _ _ x Hx. by apply recorded_fp_add, Hfp.
  - intros St self s cur fp Hcur Hv. congruence.
Qed.

(** C5, as amended.  When the packages [C] conflicting with [p] in the system
    of the visited packages are not empty, a conflict is recorded provided
    the solution is still valid: its set is [C] with [p] added and its path
    runs from the least position of a member of [C] to the end of the visited
    packages, with [p] appended.  Valid or not, the expansion of the
    dependencies of [p] goes on with the solution flagged invalid: every
    solution returned is invalid, and a conflict recorded for a valid
    solution is still in the problem set when the expansion returns. *)
Theorem conflict_recorded_for_valid_solution installed_system upstream_system
    only_unfulfilled_deps deps_to_deep_check fuel self s fp sys :
  pkg_in self (packages_in_solution s) = false ->
  pkg_in self (visited_packages s) = false ->
  mkSystem (visited_packages s) = Done sys ->
  nonempty (conflicting_with sys self) = true ->
  let C := conflicting_with sys self in
  let fp1 := if is_valid s then fp_add (new_conflict self s C) fp else fp in
  (exists cp m,
     new_conflict self s C
     = DepAlgoConflict cp (drop m (visited_packages s) ++ [self])
     /\ (forall q, pkg_in q cp = pkg_in q C || pkg_eqb q self)
     /\ (exists c, c ∈ C /\ m = index c (visited_packages s))
     /\ (forall c, c ∈ C -> m <= index c (visited_packages s)))
  /\ solutions_for_dep_problem installed_system upstream_system
       only_unfulfilled_deps deps_to_deep_check (S fuel) self s fp
     = ('(curs, fp2) ←
          deps_loop installed_system upstream_system only_unfulfilled_deps
            deps_to_deep_check
            (solutions_for_dep_problem installed_system upstream_system
               only_unfulfilled_deps deps_to_deep_check fuel)
            self (relevant_deps self) [push_self self true s] fp1;
        Done (map (select_self self) curs,
              if existsb is_valid curs then [] else fp2))
  /\ (forall sols fp',
        solutions_for_dep_problem installed_system upstream_system
          only_unfulfilled_deps deps_to_deep_check (S fuel) self s fp
        = Done (sols, fp') ->
        Forall (fun s' => is_valid s' = false) sols
        /\ (is_valid s = true -> recorded (new_conflict self s C) fp')).
Proof.
  intros Hsel Hvis Hsys Hne C fp1.
  assert (Heq :
    solutions_for_dep_problem installed_system upstream_system
      only_unfulfilled_deps deps_to_deep_check (S fuel) self s fp
    = ('(curs, fp2) ←
         deps_loop installed_system upstream_system only_unfulfilled_deps
           deps_to_deep_check
           (solutions_for_dep_problem installed_system upstream_system
              only_unfulfilled_deps deps_to_deep_check fuel)
           self (relevant_deps self) [push_self self true s] fp1;
       Done (map (select_self self) curs,
             if existsb is_valid curs then [] else fp2))).
  { simpl. rewrite Hsel, Hvis, Hsys. simpl. subst fp1 C. rewrite Hne. simpl.
    reflexivity. }
  split; [|split; [exact Heq|]].
  - unfold new_conflict. eexists _, _. split; [reflexivity|].
    split; [|split].
    + intros q. by rewrite pkg_in_pkg_set_add, pkg_in_pkg_set.
    + destruct (list_min_spec
                  (map (fun package => index package (visited_packages s)) C))
        as [Hin _].
      { subst C. by destruct (conflicting_with sys self). }
      apply list_elem_of_fmap in Hin as (c & Hc & Hin). by exists c.
    + intros c Hc.
      destruct (list_min_spec
                  (map (fun package => index package (visited_packages s)) C))
        as [_ Hall].
      { subst C. by destruct (conflicting_with sys self). }
      apply Hall. apply list_elem_of_fmap. by exists c.
  - intros sols fp' Hrun. rewrite Heq in Hrun.
    apply bind_Done in Hrun as ([curs fp2] & Hloop & Hdone).
    injection Hdone as <- <-.
    eapply (deps_loop_ok _ _ _ deps_to_deep_check _ _ _ _
              (invalid_rules _ _ _
                 (fun x => is_valid s = true /\ x = new_conflict self s C))
              _ (solver_ok _ _ _ _ _ _ _ _ (invalid_rules _ _ _ _) fuel)
              [] self (push_self self true s) (relevant_deps self) [])
      in Hloop as [Hcurs Hfp2]; [|done|done| |].
    + split; [apply Forall_fmap; eapply Forall_impl; [exact Hcurs|done]|].
      intros Hv. destruct (existsb is_valid curs) eqn:Hex.
      * apply existsb_exists in Hex as (c & Hc%list_elem_of_In & Hcv).
        rewrite Forall_forall in Hcurs. apply Hcurs in Hc. simpl in Hc.
        congruence.
      * by apply Hfp2.
    + by apply Forall_singleton.
    + intros x [Hv ->]. subst fp1. rewrite Hv. apply recorded_fp_add_same.
Qed.


(** ** Problem suppression *)

(** The expansion of a package that is not visited yet ends with the sweep:
    a valid solution among those returned means an empty problem set. *)
Lemma sweep_after_expansion installed_system upstream_system
    only_unfulfilled_deps deps_to_deep_check fuel self s fp sols fp' :
  pkg_in self (packages_in_solution s) = false ->
  pkg_in self (visited_packages s) = false ->
  solutions_for_dep_problem installed_system upstream_system
    only_unfulfilled_deps deps_to_deep_check fuel self s fp = Done (sols, fp') ->
  existsb is_valid sols = true -> fp' = [].
Proof.
  intros Hsel Hvis. destruct fuel as [|fuel]; simpl; [done|].
  rewrite Hsel, Hvis. simpl.
  intros (sys & Hsys & Hrun)%bind_Done.
  apply bind_Done in Hrun as ([curs fp2] & Hloop & Hdone).
  injection Hdone as <- <-. intros Hex.
  assert (Hcurs : existsb is_valid curs = true).
  { apply existsb_exists in Hex as (x & Hx & Hv). apply in_map_iff in Hx
      as (c & <- & Hc). apply existsb_exists. by exists c. }
  by rewrite Hcurs.
Qed.

Lemma single_package_loop installed_system upstream_system only_unfulfilled_deps
    fuel p passes :
  forall fp0 deep curs fp,
  dep_solving_loop passes fuel [p] installed_system upstream_system
    only_unfulfilled_deps [initial_solution] fp0 deep = Done (curs, fp) ->
  curs <> [] -> fp = [].
Proof.
  induction passes as [|passes IH]; intros fp0 deep curs fp; simpl; [done|].
  intros ([curs1 fp1] & Hcalc & Hrest)%bind_Done.
  apply bind_Done in Hcalc as ([curs2 fp2] & Hexp & Hdone).
  injection Hdone as <- <-.
  apply bind_Done in Hexp as ([sols fp3] & Hcall & Hdone).
  simpl in Hdone. injection Hdone as <- <-.
  destruct (nonempty (filter (fun s => is_valid s = true) sols)) eqn:Hne.
  - injection Hrest as <- <-. intros _.
    eapply sweep_after_expansion; [| |exact Hcall|]; [done|done|].
    destruct (filter (fun s => is_valid s = true) sols) as [|x l] eqn:Hf;
      [done|].
    assert (Hx : x ∈ filter (fun s => is_valid s = true) sols)
      by (rewrite Hf; left).
    apply list_elem_of_filter in Hx as [Hv Hx].
    apply existsb_exists. exists x. split; [by apply list_elem_of_In|done].
  - case_bool_decide.
    + injection Hrest as <- <-. apply nonempty_nil in Hne. by rewrite Hne.
    + by eapply IH.
Qed.

(** C2.  When [dep_solving] returns at least one plan, nothing of the
    problems found can be observed after the call: the function returns the
    plans alone, and it prints the problems only if no plan is returned.
    The local set itself is empty, too, when a single package was
    requested. *)
Theorem no_problem_reported_with_a_plan passes fuel packages installed_system
    upstream_system only_unfulfilled_deps r :
  dep_solving passes fuel packages installed_system upstream_system
    only_unfulfilled_deps = Done r ->
  plans r <> [] ->
  printed r = None
  /\ (forall p, packages = [p] -> final_problems r = []).
Proof.
  unfold dep_solving. intros ([curs fp] & Hloop & Hr)%bind_Done.
  injection Hr as <-. simpl. intros Hplans.
  assert (Hcurs : curs <> []) by (by destruct curs).
  split.
  - destruct curs; [done|]. simpl. by rewrite andb_false_r.
  - intros p ->. by eapply single_package_loop.
Qed.


(** ** The hypothetical mutator leaves the objects it is given alone *)

Lemma refines_bind {A B A' B'} n h (m : St A) (o : outcome B)
    (k : A -> St A') (k' : B -> outcome B') Q Q' :
  refines n h m o Q ->
  (forall h' a b, o = Done b -> take n h' = take n h ->
                  length h <= length h' -> Q h' a b ->
                  refines n h' (k a) (k' b) Q') ->
  refines n h (m ≫= k) (o ≫= k') Q'.
Proof.
  unfold refines, mbind, St_bind. destruct (m h) as [h' r].
  intros (Htake & Hlen & Hr) Hk.
  destruct r as [a| |], o as [b| |]; try done.
  simpl. specialize (Hk h' a b eq_refl Htake Hlen Hr).
  destruct (k a h') as [h'' r']. destruct Hk as (Htake' & Hlen' & Hr').
  split; [congruence|]. split; [lia|done].
Qed.

Lemma refines_ret {A B} n h (a : A) (b : B) (Q : list System -> A -> B -> Prop) :
  Q h a b -> refines n h (mret a) (Done b) Q.
Proof. intros HQ. unfold refines, mret, St_ret. by repeat split. Qed.

Lemma refines_impl {A B} n h (m : St A) (o : outcome B)
    (Q Q' : list System -> A -> B -> Prop) :
  refines n h m o Q ->
  (forall h' a b, take n h' = take n h -> length h <= length h' ->
                  Q h' a b -> Q' h' a b) ->
  refines n h m o Q'.
Proof.
  unfold refines. destruct (m h) as [h' r]. intros (Ht & Hl & Hr) HQ.
  split; [done|]. split; [done|].
  destruct r, o; try done. by apply HQ.
Qed.

Lemma refines_load n h l s :
  h !! l = Some s -> refines n h (load l) (Done s) (fun h' a b => h' = h /\ a = b).
Proof. intros Hl. unfold refines, load. rewrite Hl. simpl. by repeat split. Qed.

Lemma refines_alloc n h s :
  n <= length h ->
  refines n h (alloc s) (Done s) (fun h' l s' => s' = s /\ holds n h' l s
                                                 /\ h' = h ++ [s]).
Proof.
  intros Hn. unfold refines, alloc. split; [by rewrite take_app_le|].
  split; [rewrite length_app; simpl; lia|].
  split; [done|]. split; [|done]. split; [done|].
  rewrite lookup_app_r, Nat.sub_diag; [done|lia].
Qed.

Lemma refines_save n h l s s' :
  holds n h l s ->
  refines n h (save l s') (Done s') (fun h' _ b => b = s' /\ holds n h' l s'
                                                  /\ h' = <[l:=s']> h).
Proof.
  intros [Hn Hl]. unfold refines, save.
  split; [by apply take_insert_ge|].
  split; [by rewrite length_insert|].
  split; [done|]. split; [|done]. split; [done|].
  apply list_lookup_insert_eq. by eapply lookup_lt_Some.
Qed.

Lemma refines_raise {A B} n h e (Q : list System -> A -> B -> Prop) :
  refines n h (raise e) (Raised e) Q.
Proof. unfold refines, raise, lift. by repeat split. Qed.

Lemma holds_insert_other n h l s l' s' :
  holds n h l s -> l <> l' -> holds n (<[l':=s']> h) l s.
Proof.
  intros [Hn Hl] Hne. split; [done|]. by rewrite list_lookup_insert_ne.
Qed.

Lemma holds_alloc_other n h l s s' : holds n h l s -> holds n (h ++ [s']) l s.
Proof.
  intros [Hn Hl]. split; [done|]. rewrite lookup_app_l; [done|].
  by eapply lookup_lt_Some.
Qed.

Lemma append_packages_at_refines n h l s packages :
  holds n h l s ->
  refines n h (append_packages_at l packages) (append_packages s packages)
    (fun h' _ s' => holds n h' l s').
Proof.
  intros Hl. unfold append_packages_at.
  eapply (refines_bind n h (load l) (Done s) _ (fun s0 => append_packages s0 packages));
    [apply refines_load, Hl|].
  intros h' a b _ _ _ [-> ->].
  destruct (append_packages b packages) as [s'|e|] eqn:Happ.
  - eapply refines_impl; [by eapply refines_save|]. by intros h'' _ s'' _ _ (-> & ? & _).
  - unfold refines, mbind, St_bind, save, raise, lift. simpl.
    destruct Hl as [Hn Hl]. split; [by apply take_insert_ge|].
    split; [by rewrite length_insert|done].
  - unfold refines, lift. by repeat split.
Qed.

(** A step on objects whose counterpart on values is a value at hand. *)
Lemma refines_bind_l {A B A' B'} n h (m : St A) (b : B) (k : A -> St A')
    (o : outcome B') Q Q' :
  refines n h m (Done b) Q ->
  (forall h' a, take n h' = take n h -> length h <= length h' -> Q h' a b ->
                refines n h' (k a) o Q') ->
  refines n h (m ≫= k) o Q'.
Proof.
  intros Hm Hk.
  apply (refines_bind n h m (Done b) k (fun _ => o) Q Q' Hm).
  intros h' a b' [= <-] Ht Hl HQ. by eapply Hk.
Qed.

Lemma bind_Done_r {A} (o : outcome A) : o ≫= Done = o.
Proof. by destruct o. Qed.

Lemma new_System_refines n h packages :
  n <= length h ->
  refines n h (new_System packages) (mkSystem packages)
    (fun h' l s' => holds n h' l s').
Proof.
  intros Hn. unfold new_System, mkSystem.
  eapply refines_bind_l; [by apply refines_alloc|].
  intros h1 l Ht1 Hl1 (_ & Hl & _).
  rewrite <- (bind_Done_r (append_packages empty_system packages)).
  eapply refines_bind; [by apply append_packages_at_refines|].
  intros h2 [] s' _ Ht2 Hl2 Hs'. by apply refines_ret.
Qed.

Lemma del_package_at_refines n h l s k :
  holds n h l s ->
  refines n h (del_package_at l k) (del_package s k)
    (fun h' _ s' => holds n h' l s').
Proof.
  intros Hl. unfold del_package_at, del_package.
  eapply refines_bind_l; [apply refines_load, Hl|].
  intros h' a _ _ [-> ->].
  destruct (PyDict.del (all_packages_dict s) k) as [d|].
  - eapply refines_impl; [by eapply refines_save|].
    by intros h'' _ s'' _ _ (-> & ? & _).
  - apply refines_raise.
Qed.

Lemma del_packages_at_refines n l ps :
  forall h s,
  holds n h l s ->
  refines n h (del_packages_at l ps) (del_packages s ps)
    (fun h' _ s' => holds n h' l s').
Proof.
  induction ps as [|p ps IH]; intros h s Hl; simpl.
  - by apply refines_ret.
  - eapply refines_bind; [by apply del_package_at_refines|].
    intros h' [] s' _ _ _ Hs'. by apply IH.
Qed.

Lemma displace_at_refines n l packages :
  forall h s deleted,
  holds n h l s ->
  refines n h (displace_at l packages deleted) (displace s packages deleted)
    (fun h' d r => d = r.2 /\ holds n h' l r.1).
Proof.
  induction packages as [|p ps IH]; intros h s deleted Hl; simpl.
  - by apply refines_ret.
  - eapply refines_bind_l; [apply refines_load, Hl|].
    intros h' a _ _ [-> ->].
    destruct (PyDict.get (all_packages_dict s) (name p)) as [old|].
    + eapply refines_bind; [by apply del_package_at_refines|].
      intros h'' [] s' _ _ _ Hs'. by apply IH.
    + by apply IH.
Qed.

Lemma holds_length n h l s : holds n h l s -> n <= length h.
Proof. intros [Hn Hl%lookup_lt_Some]. lia. Qed.

Lemma rebuild_refines n h l s :
  holds n h l s ->
  refines n h (rebuild l) (mkSystem (PyDict.values (all_packages_dict s)))
    (fun h' l' s' => holds n h' l' s').
Proof.
  intros Hl. unfold rebuild.
  eapply refines_bind_l; [apply refines_load, Hl|].
  intros h' a _ _ [-> ->]. apply new_System_refines. by eapply holds_length.
Qed.

Lemma cascade_at_refines n fuel :
  forall h l s to_delete deleted,
  holds n h l s ->
  refines n h (cascade_at fuel l to_delete deleted)
    (cascade fuel s to_delete deleted) (fun h' l' s' => holds n h' l' s').
Proof.
  induction fuel as [|fuel IH]; intros h l s to_delete deleted Hl; simpl.
  - destruct (nonempty to_delete || nonempty deleted); [|by apply refines_ret].
    unfold refines, lift. by repeat split.
  - destruct (nonempty to_delete || nonempty deleted); [|by apply refines_ret].
    eapply refines_bind; [by apply del_packages_at_refines|].
    intros h1 [] s1 _ _ _ Hs1.
    eapply refines_bind; [by apply rebuild_refines|].
    intros h2 l2 s2 _ _ _ Hs2.
    eapply refines_bind_l; [apply refines_load, Hs2|].
    intros h3 a _ _ [-> ->]. by apply IH.
Qed.

Lemma recheck_at_refines n fuel packages :
  forall h l s,
  holds n h l s ->
  refines n h (recheck_at fuel l packages) (recheck fuel s packages)
    (fun h' l' s' => holds n h' l' s').
Proof.
  induction fuel as [|fuel IH]; intros h l s Hl; simpl.
  - unfold refines, lift. by repeat split.
  - eapply refines_bind_l; [apply refines_load, Hl|].
    intros h1 a _ _ [-> ->].
    destruct (nonempty (unfulfilled_incoming s packages)); [|by apply refines_ret].
    eapply refines_bind; [by apply del_packages_at_refines|].
    intros h2 [] s2 _ _ _ Hs2.
    eapply refines_bind; [by apply rebuild_refines|].
    intros h3 l3 s3 _ _ _ Hs3. by apply IH.
Qed.

Lemma hypothetical_append_refines n fuel h self s packages :
  n <= length h -> h !! self = Some s ->
  refines n h (hypothetical_append_packages_to_system_at fuel self packages)
    (hypothetical_append_packages_to_system fuel s packages)
    (fun h' l' s' => holds n h' l' s').
Proof.
  intros Hn Hself.
  unfold hypothetical_append_packages_to_system_at,
    hypothetical_append_packages_to_system, deepcopy.
  eapply refines_bind_l.
  { eapply refines_bind_l; [apply refines_load, Hself|].
    intros h0 a _ _ [-> ->]. by apply refines_alloc. }
  intros h1 l1 _ _ (_ & Hl1 & _). simpl in Hl1.
  eapply refines_bind; [by apply displace_at_refines|].
  intros h2 deleted [s2 deleted'] _ _ _ [-> Hs2]. simpl in Hs2 |- *.
  eapply refines_bind; [by apply rebuild_refines|].
  intros h3 l3 s3 _ _ _ Hs3.
  eapply refines_bind_l; [apply refines_load, Hs3|].
  intros h4 a _ _ [-> ->].
  eapply refines_bind; [by apply append_packages_at_refines|].
  intros h5 [] s5 _ _ _ Hs5.
  eapply refines_bind; [by apply cascade_at_refines|].
  intros h6 l6 s6 _ _ _ Hs6. by apply recheck_at_refines.
Qed.

(** C8.  [hypothetical_append_packages_to_system] is pure in its inputs:
    whatever the store and however the call ends, every object that existed
    before the call, the system [self] among them, is as it was; and the call
    ends as the function of the value of [self] and of the packages does,
    returning a new object that holds the system this function computes. *)
Theorem hypothetical_append_is_pure fuel (h : list System) self s packages :
  h !! self = Some s ->
  exists h' r,
    hypothetical_append_packages_to_system_at fuel self packages h = (h', r)
    /\ (forall l, l < length h -> h' !! l = h !! l)
    /\ match r with
       | Done new_system =>
           exists s', hypothetical_append_packages_to_system fuel s packages
                      = Done s'
                      /\ h' !! new_system = Some s' /\ length h <= new_system
       | Raised e =>
           hypothetical_append_packages_to_system fuel s packages = Raised e
       | OutOfFuel =>
           hypothetical_append_packages_to_system fuel s packages = OutOfFuel
       end.
Proof.
  intros Hself.
  pose proof (hypothetical_append_refines (length h) fuel h self s packages
                (Nat.le_refl _) Hself) as Href.
  unfold refines in Href.
  destruct (hypothetical_append_packages_to_system_at fuel self packages h)
    as [h' r].
  destruct Href as (Htake & Hlen & Hr). exists h', r. split; [done|]. split.
  - intros l Hl. rewrite <- (lookup_take_lt h' (length h) l Hl), Htake.
    by rewrite lookup_take_lt.
  - destruct r as [l'| |],
      (hypothetical_append_packages_to_system fuel s packages) as [s'| |];
      try done.
    + destruct Hr as [Hn Hl']. by exists s'.
    + by subst.
Qed.


(** ** Termination of the hypothetical mutator *)

Lemma del_length {V} (d d' : list (string * V)) k :
  PyDict.del d k = Some d' -> length d = S (length d').
Proof.
  revert d'. induction d as [|[k0 v0] d IH]; intros d'; simpl; [done|].
  case_bool_decide; [by intros [= <-]|].
  destruct (PyDict.del d k) as [d''|]; [|done].
  intros [= <-]. simpl. by rewrite (IH d'').
Qed.

Lemma del_packages_length s l s' :
  del_packages s l = Done s' ->
  length (all_packages_dict s) = length l + length (all_packages_dict s').
Proof.
  revert s. induction l as [|p l IH]; intros s; simpl.
  - by intros [= <-].
  - intros (s1 & Hdel & Hrest)%bind_Done. unfold del_package in Hdel.
    destruct (PyDict.del (all_packages_dict s) (name p)) as [d|] eqn:Hd; [|done].
    injection Hdel as <-. apply IH in Hrest. simpl in Hrest.
    apply del_length in Hd. lia.
Qed.

Lemma del_packages_terminates s l : terminates (del_packages s l).
Proof.
  revert s. induction l as [|p l IH]; intros s; simpl; [done|].
  apply bind_terminates; [|intros s' _; apply IH].
  unfold del_package. by destruct (PyDict.del (all_packages_dict s) (name p)).
Qed.

Lemma mkSystem_length l s :
  mkSystem l = Done s -> length (all_packages_dict s) = length l.
Proof.
  intros [-> _]%mkSystem_all_packages_dict. unfold entries. by rewrite length_map.
Qed.

Lemma rebuild_length s l s1 s2 :
  del_packages s l = Done s1 ->
  mkSystem (PyDict.values (all_packages_dict s1)) = Done s2 ->
  length (all_packages_dict s) = length l + length (all_packages_dict s2).
Proof.
  intros H1%del_packages_length H2%mkSystem_length.
  unfold PyDict.values in H2. rewrite length_map in H2. lia.
Qed.

Lemma cascade_terminates fuel :
  forall s to_delete deleted,
  2 * length (all_packages_dict s) + (if nonempty deleted then 1 else 0) < fuel ->
  terminates (cascade fuel s to_delete deleted).
Proof.
  induction fuel as [|fuel IH]; intros s to_delete deleted Hfuel; [lia|].
  simpl. destruct (nonempty to_delete || nonempty deleted) eqn:Hne; [|done].
  apply bind_terminates; [apply del_packages_terminates|]. intros s1 Hs1.
  apply bind_terminates; [apply mkSystem_terminates|]. intros s2 Hs2.
  apply IH. simpl. pose proof (rebuild_length _ _ _ _ Hs1 Hs2) as Hlen.
  destruct to_delete as [|p to_delete]; simpl in *.
  - rewrite Hne in Hfuel. lia.
  - lia.
Qed.

Lemma recheck_terminates fuel packages :
  forall s,
  length (all_packages_dict s) < fuel ->
  terminates (recheck fuel s packages).
Proof.
  induction fuel as [|fuel IH]; intros s Hfuel; [lia|].
  simpl. destruct (nonempty (unfulfilled_incoming s packages)) eqn:Hne; [|done].
  apply bind_terminates; [apply del_packages_terminates|]. intros s1 Hs1.
  apply bind_terminates; [apply mkSystem_terminates|]. intros s2 Hs2.
  apply IH. pose proof (rebuild_length _ _ _ _ Hs1 Hs2) as Hlen.
  destruct (unfulfilled_incoming s packages); [done|]. simpl in Hlen. lia.
Qed.

Lemma displace_length packages :
  forall s deleted s' deleted',
  displace s packages deleted = Done (s', deleted') ->
  length (all_packages_dict s') <= length (all_packages_dict s).
Proof.
  induction packages as [|p ps IH]; intros s deleted s' deleted'; simpl.
  - by intros [= <- <-].
  - destruct (PyDict.get (all_packages_dict s) (name p)) as [old|]; [|apply IH].
    intros (s1 & Hdel & Hrest)%bind_Done. apply IH in Hrest.
    unfold del_package in Hdel.
    destruct (PyDict.del (all_packages_dict s) (name p)) as [d|] eqn:Hd; [|done].
    injection Hdel as <-. apply del_length in Hd. simpl in Hrest. lia.
Qed.

Lemma displace_terminates packages :
  forall s deleted, terminates (displace s packages deleted).
Proof.
  induction packages as [|p ps IH]; intros s deleted; simpl; [done|].
  destruct (PyDict.get (all_packages_dict s) (name p)) as [old|]; [|apply IH].
  apply bind_terminates; [|intros s' _; apply IH].
  unfold del_package. by destruct (PyDict.del (all_packages_dict s) (name p)).
Qed.

Lemma append_packages_loop_length packages :
  forall s s' e,
  append_packages_loop s packages = (s', e) ->
  length (all_packages_dict s') <= length (all_packages_dict s) + length packages.
Proof.
  induction packages as [|p ps IH]; intros s s' e; simpl.
  - intros [= <- <-]. lia.
  - destruct (PyDict.mem (all_packages_dict s) (name p)) eqn:Hmem.
    + intros [= <- <-]. lia.
    + intros Hloop%IH. unfold PyDict.mem in Hmem.
      destruct (PyDict.get (all_packages_dict s) (name p)) eqn:Hget; [done|].
      rewrite (set_fresh _ _ p Hget) in Hloop.
      destruct (type_of p); simpl in Hloop; rewrite length_app in Hloop;
        simpl in Hloop; lia.
Qed.

Lemma append_packages_length s packages s' :
  append_packages s packages = Done s' ->
  length (all_packages_dict s') <= length (all_packages_dict s) + length packages.
Proof.
  unfold append_packages.
  destruct (append_packages_loop s packages) as [s1 [e|]] eqn:Hloop; [done|].
  intros [= <-]. simpl. by eapply append_packages_loop_length.
Qed.

Lemma append_packages_terminates s packages :
  terminates (append_packages s packages).
Proof.
  unfold append_packages. by destruct (append_packages_loop s packages) as [? [?|]].
Qed.

(** With a budget above twice the number of packages involved, the
    hypothetical mutator returns or raises. *)
Lemma hypothetical_append_terminates fuel self packages :
  2 * (length (all_packages_dict self) + length packages) + 1 < fuel ->
  terminates (hypothetical_append_packages_to_system fuel self packages).
Proof.
  intros Hfuel. unfold hypothetical_append_packages_to_system.
  apply bind_terminates; [apply displace_terminates|].
  intros [s1 deleted] Hs1. apply displace_length in Hs1.
  apply bind_terminates; [apply mkSystem_terminates|]. intros s2 Hs2.
  apply mkSystem_length in Hs2. unfold PyDict.values in Hs2.
  rewrite length_map in Hs2.
  apply bind_terminates; [apply append_packages_terminates|]. intros s3 Hs3.
  apply append_packages_length in Hs3.
  apply bind_terminates.
  { apply cascade_terminates. destruct (nonempty deleted); lia. }
  intros s4 Hs4. apply recheck_terminates.
  assert (length (all_packages_dict s4) <= length (all_packages_dict s3)); [|lia].
  clear -Hs4. revert s3 Hs4.
  generalize (pkg_set (flat_map (conflicting_with s2) packages)).
  generalize deleted. clear deleted.
  induction fuel as [|fuel IH]; intros deleted to_delete s3; simpl.
  - destruct (nonempty to_delete || nonempty deleted); [done|].
    by intros [= <-].
  - destruct (nonempty to_delete || nonempty deleted); [|by intros [= <-]].
    intros (s5 & Hdel & Hrest)%bind_Done.
    apply bind_Done in Hrest as (s6 & Hmk & Hrest).
    apply IH in Hrest. pose proof (rebuild_length _ _ _ _ Hdel Hmk). lia.
Qed.

(** ** Choosing among the plans *)

Lemma new_systems_of_Forall2 fuel self solutions new_systems :
  new_systems_of fuel self solutions = Done new_systems <->
  Forall2 (fun plan sys =>
             hypothetical_append_packages_to_system fuel self plan = Done sys)
    solutions new_systems.
Proof.
  revert new_systems. induction solutions as [|plan rest IH];
    intros new_systems; simpl.
  - split; [intros [= <-]; constructor|by intros ->%Forall2_nil_inv_l].
  - split.
    + intros (sys & Hsys & Hrest)%bind_Done.
      apply bind_Done in Hrest as (ns & Hns & Hdone). injection Hdone as <-.
      constructor; [done|by apply IH].
    + intros (sys & ns & Hsys & Hns & ->)%Forall2_cons_inv_l.
      rewrite Hsys. simpl. apply IH in Hns. by rewrite Hns.
Qed.

Lemma new_systems_of_terminates fuel self solutions :
  (forall plan, plan ∈ solutions ->
     2 * (length (all_packages_dict self) + length plan) + 1 < fuel) ->
  terminates (new_systems_of fuel self solutions).
Proof.
  induction solutions as [|plan rest IH]; intros Hfuel; simpl; [done|].
  apply bind_terminates.
  { apply hypothetical_append_terminates, Hfuel. left. }
  intros sys _. apply bind_terminates; [|done].
  apply IH. intros p Hp. apply Hfuel. by right.
Qed.

Lemma find_valid_systems_none i new_systems needed_packages :
  (find_valid_systems i new_systems needed_packages).1 = [] <->
  Forall (fun sys => contains_needed needed_packages sys = false) new_systems.
Proof.
  revert i. induction new_systems as [|sys rest IH]; intros i; simpl.
  - split; [constructor|done].
  - specialize (IH (S i)).
    destruct (find_valid_systems (S i) rest needed_packages) as [vs idxs].
    fold (contains_needed needed_packages sys).
    destruct (contains_needed needed_packages sys) eqn:Hv; simpl in *.
    + split; [done|]. intros [Hf _]%Forall_cons. congruence.
    + rewrite IH. split; [by constructor|by intros [_ ?]%Forall_cons].
Qed.

Lemma find_valid_systems_nil i new_systems needed_packages :
  Forall (fun sys => contains_needed needed_packages sys = false) new_systems ->
  find_valid_systems i new_systems needed_packages = ([], []).
Proof.
  revert i. induction new_systems as [|sys rest IH]; intros i Hall; simpl;
    [done|].
  apply Forall_cons in Hall as [Hsys Hrest]. rewrite (IH (S i) Hrest).
  fold (contains_needed needed_packages sys). by rewrite Hsys.
Qed.

Lemma find_valid_systems_unique needed_packages new_systems :
  forall i i0 sys,
  new_systems !! i0 = Some sys ->
  contains_needed needed_packages sys = true ->
  (forall j sys', new_systems !! j = Some sys' ->
                  contains_needed needed_packages sys' = true -> j = i0) ->
  find_valid_systems i new_systems needed_packages = ([sys], [i + i0]).
Proof.
  induction new_systems as [|sys0 rest IH]; intros i i0 sys Hi0 Hv Huniq;
    [done|].
  simpl. fold (contains_needed needed_packages sys0).
  destruct i0 as [|i0]; simpl in Hi0.
  - injection Hi0 as ->. rewrite Hv.
    rewrite find_valid_systems_nil; [by rewrite Nat.add_0_r|].
    apply Forall_forall. intros sys' Hsys'.
    apply list_elem_of_lookup in Hsys' as [j Hj].
    destruct (contains_needed needed_packages sys') eqn:Hv'; [|done].
    by specialize (Huniq (S j) sys' Hj Hv').
  - destruct (contains_needed needed_packages sys0) eqn:Hv0.
    { by specialize (Huniq 0 sys0 eq_refl Hv0). }
    rewrite (IH (S i) i0 sys Hi0 Hv).
    + f_equal. f_equal. lia.
    + intros j sys' Hj Hv'. specialize (Huniq (S j) sys' Hj Hv'). lia.
Qed.

Lemma choose_not_no_valid solutions indices differences inputs :
  forall trace,
  (choose solutions indices differences inputs trace).1
  <> Raised NoValidSolutionsFound.
Proof.
  induction inputs as [|input inputs IH]; intros trace; simpl; [done|].
  destruct input as [user_input|]; [|apply IH].
  case_bool_decide; [done|apply IH].
Qed.

Lemma choose_terminates solutions indices differences inputs :
  forall trace,
  terminates (choose solutions indices differences inputs trace).1.
Proof.
  induction inputs as [|input inputs IH]; intros trace; simpl; [done|].
  destruct input as [user_input|]; [|apply IH].
  case_bool_decide; [done|apply IH].
Qed.

(** Let the hypothetical append of every plan return a system.  Then
    [validate_and_choose_solution] raises "No valid solutions found" exactly
    when none of these systems contains every needed name, and when exactly
    one of them does it returns the plan of that system, whatever the user
    would enter and with nothing printed or asked.  A plan whose append
    raises makes the whole call raise that error. *)
Lemma validate_and_choose_solution_spec fuel self solutions needed_packages
    inputs :
  Forall (fun plan =>
            2 * (length (all_packages_dict self) + length plan) + 1 < fuel)
    solutions ->
  terminates
    (validate_and_choose_solution fuel self solutions needed_packages inputs).1
  /\ (forall e, new_systems_of fuel self solutions = Raised e ->
        validate_and_choose_solution fuel self solutions needed_packages inputs
        = (Raised e, []))
  /\ (forall new_systems,
        Forall2 (fun plan sys =>
                   hypothetical_append_packages_to_system fuel self plan
                   = Done sys) solutions new_systems ->
        ((validate_and_choose_solution fuel self solutions needed_packages
            inputs).1 = Raised NoValidSolutionsFound
         <-> Forall (fun sys => contains_needed needed_packages sys = false)
               new_systems)
        /\ (forall i plan sys,
              solutions !! i = Some plan -> new_systems !! i = Some sys ->
              contains_needed needed_packages sys = true ->
              (forall j sys', new_systems !! j = Some sys' ->
                              contains_needed needed_packages sys' = true ->
                              j = i) ->
              validate_and_choose_solution fuel self solutions needed_packages
                inputs = (Done plan, []))).
Proof.
  intros Hfuel. rewrite Forall_forall in Hfuel. split; [|split].
  - pose proof (new_systems_of_terminates fuel self solutions Hfuel) as Hterm.
    unfold validate_and_choose_solution.
    destruct (new_systems_of fuel self solutions) as [ns|e|]; [|done|done].
    destruct (find_valid_systems 0 ns needed_packages) as [vs idxs].
    destruct (negb (nonempty vs)); [done|].
    case_bool_decide; [done|]. case_bool_decide; [done|].
    match goal with
    | |- context [delete_duplicates ?a ?b ?c ?d] =>
        destruct (delete_duplicates a b c d) as [vs' idxs']
    end.
    apply choose_terminates.
  - intros e He. unfold validate_and_choose_solution. by rewrite He.
  - intros ns Hns%new_systems_of_Forall2. unfold validate_and_choose_solution.
    rewrite Hns. split.
    + pose proof (find_valid_systems_none 0 ns needed_packages) as Hnone.
      destruct (find_valid_systems 0 ns needed_packages) as [vs idxs].
      simpl in Hnone. rewrite <- Hnone.
      destruct vs as [|sys vs]; cbn [nonempty negb fst]; [done|].
      split; [|done]. case_bool_decide; [done|]. case_bool_decide; [done|].
      match goal with
      | |- context [delete_duplicates ?a ?b ?c ?d] =>
          destruct (delete_duplicates a b c d) as [vs' idxs']
      end.
      intros Hbad. by apply choose_not_no_valid in Hbad.
    + intros i plan sys Hplan Hsys Hv Huniq.
      rewrite (find_valid_systems_unique needed_packages ns 0 i sys Hsys Hv Huniq).
      simpl. do 2 f_equal. by apply nth_lookup_Some.
Qed.


(** ** The order of the plans *)
Section OrderRules.
Variables installed_system upstream_system : System.
Variable only_unfulfilled_deps : bool.
Variable ups : list Package.
Variable U : list Package.
Hypothesis upstream_built : mkSystem ups = Done upstream_system.
Hypothesis ups_in_U : forall q, q ∈ ups -> q ∈ U.
Hypothesis identity : forall p q, p ∈ U -> q ∈ U -> pkg_eqb p q = true -> p = q.

Lemma pkg_in_identity p l :
  p ∈ U -> (forall q, q ∈ l -> q ∈ U) -> pkg_in p l = true -> p ∈ l.
Proof.
  intros Hp Hl (q & Hq & Heq)%pkg_in_true.
  by rewrite (identity p q Hp (Hl q Hq) Heq).
Qed.

Lemma provider_in_U a q : q ∈ provided_by upstream_system a -> q ∈ U.
Proof. intros [Hq _]%(provided_by_sound ups); [by apply ups_in_U|done]. Qed.

Lemma provider_provides a q :
  q ∈ provided_by upstream_system a -> provides_dep q a = true.
Proof. by intros [_ Hq]%(provided_by_sound ups). Qed.

Lemma order_names_mono St St' s :
  (forall q, q ∈ St -> q ∈ St') ->
  order_names upstream_system St s -> order_names upstream_system St' s.
Proof.
  intros Hsub HN Hv a Ha. destruct (HN Hv a Ha) as [?|(q & Hq & Hp)]; [by left|].
  right. exists q. split; [by apply Hsub|done].
Qed.

Lemma ordered_at_mono St St' P i p a :
  (forall q, q ∈ St -> q ∈ St') ->
  ordered_at installed_system upstream_system only_unfulfilled_deps St P i p a ->
  ordered_at installed_system upstream_system only_unfulfilled_deps St' P i p a.
Proof.
  intros Hsub [?|[?|(q & Hq & Hr & [Hst|Hj])]]; [by left|by right; left| |].
  - right; right. exists q. split; [done|]. split; [done|]. left. by apply Hsub.
  - right; right. exists q. split; [done|]. split; [done|]. by right.
Qed.

Lemma order_plan_mono St St' s :
  (forall q, q ∈ St -> q ∈ St') ->
  order_plan installed_system upstream_system only_unfulfilled_deps St s ->
  order_plan installed_system upstream_system only_unfulfilled_deps St' s.
Proof.
  intros Hsub HO Hv i p a Hi Ha. eapply ordered_at_mono; [done|]. by apply HO.
Qed.

Lemma order_grows_refl s : order_grows s s.
Proof. by repeat split. Qed.

Lemma order_grows_trans s1 s2 s3 :
  order_grows s1 s2 -> order_grows s2 s3 -> order_grows s1 s3.
Proof.
  intros (Hn & Hv & Hp) (Hn' & Hv' & Hp'). split; [|split].
  - set_solver.
  - auto.
  - by etrans.
Qed.

Lemma in_app_singleton {A} (l : list A) x y :
  y ∈ l ++ [x] <-> y ∈ l \/ y = x.
Proof. rewrite elem_of_app, list_elem_of_singleton. done. Qed.

Lemma order_rules :
  solver_rules installed_system upstream_system only_unfulfilled_deps
    (order_pre installed_system upstream_system only_unfulfilled_deps U)
    (order_post installed_system upstream_system only_unfulfilled_deps U)
    (order_inv installed_system upstream_system only_unfulfilled_deps U)
    (fun _ => True).
Proof.
  split; try done.
  - (* selected already *)
    intros St self s ((HselfU & HStU & Hreach) & [HWv HWs] & HV & HN & HO) Hsel.
    split; [done|]. split; [done|]. split; [|split; [done|apply order_grows_refl]].
    intros Hv a Ha. destruct (HN Hv a Ha) as [?|(q & Hq & Hp)]; [by left|].
    apply in_app_singleton in Hq as [Hq| ->]; [right; by exists q|].
    left. exists self. split; [|by apply provider_provides].
    apply pkg_in_identity; [exact HselfU|exact HWs|done].
  - (* a visited repo package *)
    intros St self s ((HselfU & HStU & Hreach) & [HWv HWs] & HV & HN & HO) Hsel Hvis Hrepo.
    split; [done|]. split; [done|]. split; [|split; [done|apply order_grows_refl]].
    intros Hv a Ha. destruct (HN Hv a Ha) as [?|(q & Hq & Hp)]; [by left|].
    apply in_app_singleton in Hq as [Hq| ->]; [right; by exists q|].
    assert (Hin : self ∈ visited_packages s).
    { apply pkg_in_identity; [exact HselfU|exact HWv|done]. }
    destruct (HV self Hin) as [Hpis|HSt].
    + apply pkg_in_elem in Hpis. congruence.
    + right. by exists self.
  - (* self is pushed *)
    intros St self s sys ((HselfU & HStU & Hreach) & [HWv HWs] & HV & HN & HO) Hvis Hsys.
    split; [done|]. unfold push_self.
    assert (Hvalid : (if nonempty (conflicting_with sys self) then false
                      else is_valid s) = true -> is_valid s = true).
    { by destruct (nonempty (conflicting_with sys self)). }
    split; [|split; [|split; [|split; [|split]]]].
    + split; simpl; [|exact HWs].
      intros p [Hp| ->]%in_app_singleton; [by apply HWv|exact HselfU].
    + intros p. simpl. intros [Hp| ->]%in_app_singleton.
      * destruct (HV p Hp) as [?|?]; [by left|right].
        apply in_app_singleton. by left.
      * right. apply in_app_singleton. by right.
    + intros Hv. simpl in *. by apply HN, Hvalid.
    + intros Hv. simpl in *. intros i p a Hi Ha.
      eapply ordered_at_mono; [|by apply HO; [apply Hvalid|..]].
      intros q Hq. apply in_app_singleton. by left.
    + split; [done|]. split; [exact Hvalid|done].
    + intros _ a Ha. by apply elem_of_nil in Ha.
  - (* the installed system provides the dependency *)
    intros St self s seen dep cur ((HselfU & HStU & Hreach) & [HWv HWs] & HV & HN & HO & HG & HD) Hou Hinst.
    repeat (split; [done|]).
    intros Hv a [Ha| ->]%in_app_singleton; [by apply HD|].
    left. by split.
  - (* nobody provides the dependency *)
    intros St self s seen dep cur ((HselfU & HStU & Hreach) & [HWv HWs] & HV & HN & HO & HG & HD) Hnone.
    unfold flag_not_provided. case_bool_decide as Hk.
    + repeat (split; [done|]).
      intros Hv a [Ha| ->]%in_app_singleton; [by apply HD|by right].
    + destruct HG as (Hn & Hval & Hp).
      split; [done|]. split; [done|]. split; [done|].
      split; [done|]. split; [done|].
      split; [|done]. split; [simpl; set_solver|]. split; [done|done].
  - (* the dependency is known already *)
    intros St self s seen dep cur ((HselfU & HStU & Hreach) & [HWv HWs] & HV & HN & HO & HG & HD) Hk.
    repeat (split; [done|]).
    intros Hv a [Ha| ->]%in_app_singleton; [by apply HD|by right].
  - (* the solution provides the dependency *)
    intros St self s seen dep cur sys ((HselfU & HStU & Hreach) & [HWv HWs] & HV & HN & HO & HG & HD)
      Hk Hsys Hprov.
    split; [done|]. split; [done|]. split; [done|]. split; [|split; [done|]].
    + intros Hv a. simpl. intros [->%elem_of_singleton|Ha]%elem_of_union;
        [|by apply HN].
      destruct (provided_by sys dep) as [|q l] eqn:Hq; [done|].
      assert (Hin : q ∈ provided_by sys dep) by (rewrite Hq; left).
      apply (provided_by_sound _ _ _ _ Hsys) in Hin as [Hin Hp].
      left. by exists q.
    + split.
      * eapply order_grows_trans; [exact HG|]. split; [simpl; set_solver|done].
      * intros Hv a [Ha| ->]%in_app_singleton.
        -- destruct (HD Hv a Ha) as [?|?]; [by left|right]. simpl. set_solver.
        -- right. simpl. set_solver.
  - (* a provider is expanded *)
    intros St self s seen dep cur q ((HselfU & HStU & Hreach) & [HWv HWs] & HV & HN & HO & HG & HD)
      Hk Hdep Hq.
    split; [|split; [done|split; [done|split; [|done]]]].
    + split; [by eapply provider_in_U|]. split.
      * intros q' [Hq'| ->]%in_app_singleton; [by apply HStU|done].
      * intros q' [Hq'| ->]%in_app_singleton.
        -- eapply rtc_r; [by apply Hreach|]. by exists dep.
        -- apply rtc_once. by exists dep.
    + intros Hv a. simpl. intros [->%elem_of_singleton|Ha]%elem_of_union.
      * right. exists q. split; [|done]. apply in_app_singleton. by right.
      * eapply order_names_mono; [|exact HN|exact Hv|exact Ha].
        intros q' Hq'. apply in_app_singleton. by left.
  - (* the expansion of a provider returns *)
    intros St self s seen dep cur q s' ((HselfU & HStU & Hreach) & [HWv HWs] & HV & HN & HO & HG & HD)
      Hk Hdep Hq (HW' & HV' & HN' & HO' & HG').
    assert (HGl : order_grows cur (learn_dep dep cur)).
    { split; [simpl; set_solver|done]. }
    repeat (split; [done|]). split.
    + eapply order_grows_trans; [exact HG|].
      eapply order_grows_trans; [exact HGl|exact HG'].
    + intros Hv a Ha. destruct HG' as (Hn' & Hval' & _). simpl in *.
      apply in_app_singleton in Ha as [Ha| ->].
      * destruct (HD (Hval' Hv) a Ha) as [?|?]; [by left|right]. set_solver.
      * right. set_solver.
  - (* self is selected *)
    intros St self s cur ((HselfU & HStU & Hreach) & [HWv HWs] & HV & HN & HO & HG & HD).
    split; [|split; [|split; [|split]]].
    + split; simpl; [exact HWv|].
      intros p [Hp| ->]%in_app_singleton; [by apply HWs|done].
    + intros p Hp. simpl in *.
      destruct (HV p Hp) as [?|[?| ->]%in_app_singleton].
      * left. apply in_app_singleton. by left.
      * by right.
      * left. apply in_app_singleton. by right.
    + intros Hv a Ha. simpl in *.
      destruct (HN Hv a Ha) as [(q & Hq & Hp)|(q & Hq & Hp)].
      * left. exists q. split; [|done]. apply in_app_singleton. by left.
      * apply in_app_singleton in Hq as [Hq| ->]; [right; by exists q|].
        left. exists self. split; [apply in_app_singleton; by right|].
        by apply provider_provides.
    + intros Hv i p a Hi Ha. simpl in *.
      destruct (decide (i < length (packages_in_solution cur))) as [Hlt|Hge].
      * rewrite lookup_app_l in Hi by done.
        destruct (HO Hv i p a Hi Ha)
          as [?|[(j & q & Hj & Hjq & Hp)|(q & Hq & Hr & [Hst|(j & Hj & Hjq)])]].
        -- by left.
        -- right; left. exists j, q. split; [done|]. split; [|done].
           rewrite lookup_app_l; [done|]. by eapply lookup_lt_Some.
        -- right; right. exists q. split; [done|]. split; [done|].
           apply in_app_singleton in Hst as [?| ->]; [by left|right].
           exists (length (packages_in_solution cur)). split; [lia|].
           by rewrite list_lookup_middle.
        -- right; right. exists q. split; [done|]. split; [done|]. right.
           exists j. split; [done|]. rewrite lookup_app_l; [done|].
           by eapply lookup_lt_Some.
      * assert (Hi' : i = length (packages_in_solution cur)).
        { apply lookup_lt_Some in Hi. rewrite length_app in Hi. simpl in Hi. lia. }
        subst i. rewrite list_lookup_middle in Hi by done. injection Hi as <-.
        destruct (HD Hv a Ha) as [?|Hk]; [by left|].
        destruct (HN Hv a Hk) as [(q & Hq & Hp)|(q & Hq & Hp)].
        -- apply list_elem_of_lookup in Hq as [j Hj]. right; left.
           exists j, q. split; [by eapply lookup_lt_Some|]. split; [|done].
           rewrite lookup_app_l; [done|]. by eapply lookup_lt_Some.
        -- right; right. exists q. split; [done|].
           apply in_app_singleton in Hq as [Hq| ->].
           ++ split; [by apply Hreach|by left].
           ++ split; [apply rtc_refl|]. right.
              exists (length (packages_in_solution cur)). split; [lia|].
              by rewrite list_lookup_middle.
    + eapply order_grows_trans; [exact HG|]. split; [done|]. split; [done|].
      simpl. by apply prefix_app_r.
Qed.

Variable packages : list Package.
Hypothesis packages_in_U : forall p, p ∈ packages -> p ∈ U.

Lemma order_top_initial :
  order_top installed_system upstream_system only_unfulfilled_deps U
    initial_solution.
Proof using Type.
  split; [|split; [|split]].
  - split; intros p Hp; by apply elem_of_nil in Hp.
  - intros p Hp. by apply elem_of_nil in Hp.
  - intros _ a Ha. simpl in Ha. by apply not_elem_of_empty in Ha.
  - intros _ i p a Hi. simpl in Hi. by rewrite lookup_nil in Hi.
Qed.

Lemma order_top_pre p s :
  p ∈ packages ->
  order_top installed_system upstream_system only_unfulfilled_deps U s ->
  order_pre installed_system upstream_system only_unfulfilled_deps U [] p s.
Proof.
  intros Hp (HW & HV & HN & HO). split; [|split; [done|split; [done|split]]].
  - split; [by apply packages_in_U|].
    split; intros q Hq; by apply elem_of_nil in Hq.
  - eapply order_names_mono; [|exact HN]. intros q Hq. by apply elem_of_nil in Hq.
  - done.
Qed.

Lemma order_top_post p s s' :
  p ∈ packages ->
  order_top installed_system upstream_system only_unfulfilled_deps U s ->
  order_post installed_system upstream_system only_unfulfilled_deps U [] p s s' ->
  order_top installed_system upstream_system only_unfulfilled_deps U s'.
Proof. by intros _ _ (HW & HV & HN & HO & _). Qed.

Lemma order_loop fuel passes :
  forall curs fp deep curs' fp',
  Forall (order_top installed_system upstream_system only_unfulfilled_deps U)
    curs ->
  dep_solving_loop passes fuel packages installed_system upstream_system
    only_unfulfilled_deps curs fp deep = Done (curs', fp') ->
  Forall (fun s =>
            order_top installed_system upstream_system only_unfulfilled_deps U s
            /\ is_valid s = true) curs'.
Proof.
  induction passes as [|passes IH]; intros curs fp deep curs' fp' Hcurs; simpl;
    [done|].
  intros ([curs1 fp1] & Hcalc & Hrest)%bind_Done.
  eapply (calc_solutions_ok _ _ _ deep _ _ _ _ order_rules _ packages
            order_top_pre order_top_post) in Hcalc as [Hcurs1 _];
    [|done|done|done].
  assert (Hfilter : Forall (fun s =>
            order_top installed_system upstream_system only_unfulfilled_deps U s
            /\ is_valid s = true) (filter (fun s => is_valid s = true) curs1)).
  { apply Forall_forall. intros x [Hv Hx]%list_elem_of_filter. split; [|done].
    rewrite Forall_forall in Hcurs1. by apply Hcurs1. }
  destruct (nonempty (filter (fun s => is_valid s = true) curs1)).
  { by injection Hrest as <- <-. }
  case_bool_decide.
  { by injection Hrest as <- <-. }
  eapply IH; [|exact Hrest]. apply Forall_singleton, order_top_initial.
Qed.
End OrderRules.

(** Let the upstream system be built from packages, and let packages of
    equal name and version, among these and the requested ones, be the same
    package.  Then in every plan [P] that [dep_solving] returns, every
    dependency [a] of the package [P[i]] is fulfilled by the installed
    system (when only unfulfilled dependencies are asked for), or provided by
    some [P[j]] with [j < i], or provided by some [P[j]] with [i <= j] that
    the upstream system offers for [a] and that is [P[i]] itself or depends
    on it: a plan is out of order only along a dependency cycle. *)
Lemma plans_in_post_order_up_to_cycles passes fuel packages ups
    installed_system upstream_system only_unfulfilled_deps r :
  mkSystem ups = Done upstream_system ->
  (forall p q, p ∈ ups ++ packages -> q ∈ ups ++ packages ->
               pkg_eqb p q = true -> p = q) ->
  dep_solving passes fuel packages installed_system upstream_system
    only_unfulfilled_deps = Done r ->
  forall P i p a,
    P ∈ plans r -> P !! i = Some p -> a ∈ relevant_deps p ->
    satisfied_by_installed installed_system only_unfulfilled_deps a
    \/ (exists j q, j < i /\ P !! j = Some q /\ provides_dep q a = true)
    \/ (exists j q, i <= j /\ P !! j = Some q
                    /\ q ∈ provided_by upstream_system a
                    /\ depends_on upstream_system q p).
Proof.
  intros Hups Hid. unfold dep_solving.
  intros ([curs fp] & Hloop & Hr)%bind_Done. injection Hr as <-. simpl.
  intros P i p a HP Hi Ha.
  apply list_elem_of_fmap in HP as (s & -> & Hs).
  eapply (order_loop installed_system upstream_system only_unfulfilled_deps
            ups (ups ++ packages) Hups) in Hloop.
  - rewrite Forall_forall in Hloop. destruct (Hloop s Hs) as [(_ & _ & _ & HO) Hv].
    destruct (HO Hv i p a Hi Ha)
      as [?|[?|(q & Hq & Hr & [Hst|(j & Hj & Hjq)])]];
      [by left|by right; left|by apply elem_of_nil in Hst|].
    right; right. by exists j, q.
  - intros q Hq. apply elem_of_app. by left.
  - done.
  - intros q Hq. apply elem_of_app. by right.
  - apply Forall_singleton, order_top_initial.
Qed.

(** C1, as amended.  Let the upstream system be built from packages, let
    packages of equal name and version, among these and the requested ones,
    be the same package, and let every package that depends on itself
    through the providers of its dependencies be a repo package.  Then in
    every plan [P] that [dep_solving] returns, every dependency [a] of the
    package [P[i]] is fulfilled by the installed system (when only
    unfulfilled dependencies are asked for), or provided by some [P[j]] with
    [j < i], or provided by a repo package [P[j]] with [i <= j] that the
    upstream system offers for [a] and that is [P[i]] itself or depends on
    it: the plan is in post-order except where a cycle of repo packages is
    let through. *)
Theorem plans_in_post_order_up_to_repo_cycles passes fuel packages ups
    installed_system upstream_system only_unfulfilled_deps r :
  mkSystem ups = Done upstream_system ->
  (forall p q, p ∈ ups ++ packages -> q ∈ ups ++ packages ->
               pkg_eqb p q = true -> p = q) ->
  (forall p q, dep_edge upstream_system p q ->
               depends_on upstream_system q p -> is_repo q = true) ->
  dep_solving passes fuel packages installed_system upstream_system
    only_unfulfilled_deps = Done r ->
  forall P i p a,
    P ∈ plans r -> P !! i = Some p -> a ∈ relevant_deps p ->
    satisfied_by_installed installed_system only_unfulfilled_deps a
    \/ (exists j q, j < i /\ P !! j = Some q /\ provides_dep q a = true)
    \/ (exists j q, i <= j /\ P !! j = Some q /\ is_repo q = true
                    /\ q ∈ provided_by upstream_system a
                    /\ depends_on upstream_system q p).
Proof.
  intros Hups Hid Hcycles Hrun P i p a HP Hi Ha.
  destruct (plans_in_post_order_up_to_cycles passes fuel packages ups
              installed_system upstream_system only_unfulfilled_deps r
              Hups Hid Hrun P i p a HP Hi Ha)
    as [?|[?|(j & q & Hj & Hq & Hprov & Hdep)]]; [by left|by right; left|].
  right; right. exists j, q. split; [done|]. split; [done|].
  split; [|done]. apply (Hcycles p q); [|done]. by exists a.
Qed.


(** ** The system index, further *)

Lemma append_packages_loop_app self l1 l2 :
  append_packages_loop self (l1 ++ l2) =
  match append_packages_loop self l1 with
  | (s, None) => append_packages_loop s l2
  | r => r
  end.
Proof.
  revert self. induction l1 as [|p l1 IH]; intros self; simpl; [done|].
  destruct (PyDict.mem (all_packages_dict self) (name p)); [done|]. apply IH.
Qed.

Lemma append_packages_loop_None self l :
  NoDup (map name l) ->
  (forall p, p ∈ l -> PyDict.get (all_packages_dict self) (name p) = None) ->
  exists s', append_packages_loop self l = (s', None).
Proof.
  revert self. induction l as [|p l IH]; intros self Hnd Hfresh; simpl.
  - by eexists.
  - apply NoDup_cons in Hnd as [Hp Hnd]. unfold PyDict.mem.
    rewrite (Hfresh p) by left.
    apply IH; [done|]. intros q Hq.
    assert (Hne : name p <> name q).
    { intros Heq. apply Hp. rewrite Heq. apply list_elem_of_fmap. by exists q. }
    assert (Hget : PyDict.get (PyDict.set (all_packages_dict self) (name p) p)
                     (name q) = None).
    { rewrite get_set, bool_decide_false by done. apply Hfresh. by right. }
    by destruct (type_of p).
Qed.

Lemma append_packages_loop_Some self packages self' e :
  append_packages_loop self packages = (self', Some e) ->
  exists l1 p l2,
    packages = l1 ++ p :: l2 /\ e = PackageAlreadyKnown p
    /\ append_packages_loop self l1 = (self', None)
    /\ PyDict.mem (all_packages_dict self') (name p) = true.
Proof.
  revert self. induction packages as [|p l IH]; intros self; simpl; [done|].
  destruct (PyDict.mem (all_packages_dict self) (name p)) eqn:Hmem.
  - intros [= <- <-]. by exists [], p, l.
  - intros (l1 & q & l2 & -> & -> & Hloop & Hq)%IH.
    exists (p :: l1), q, l2. simpl. rewrite Hmem. done.
Qed.

Lemma get_entries_elem l q :
  NoDup (map name l) -> q ∈ l -> PyDict.get (entries l) (name q) = Some q.
Proof.
  induction l as [|p l IH]; simpl; intros Hnd Hq; [by apply elem_of_nil in Hq|].
  apply NoDup_cons in Hnd as [Hp Hnd].
  apply elem_of_cons in Hq as [->|Hq]; [by rewrite bool_decide_true|].
  rewrite bool_decide_false; [by apply IH|].
  intros Heq. apply Hp. rewrite Heq. apply list_elem_of_fmap. by exists q.
Qed.

Lemma mem_entries l n :
  PyDict.mem (entries l) n = true <-> n ∈ map name l.
Proof.
  unfold PyDict.mem. induction l as [|p l IH]; simpl.
  - split; [done|]. intros H'. by apply elem_of_nil in H'.
  - case_bool_decide as Hn.
    + split; [|done]. intros _. subst. left.
    + rewrite IH. rewrite elem_of_cons. naive_solver.
Qed.

(** The constructor accepts exactly the lists whose names are pairwise
    distinct; otherwise it raises for the first package whose name repeats
    that of an earlier one. *)
Theorem System_init_raises_on_first_repeated_name l e :
  mkSystem l = Raised e <->
  exists l1 p l2,
    l = l1 ++ p :: l2 /\ e = PackageAlreadyKnown p
    /\ NoDup (map name l1) /\ name p ∈ map name l1.
Proof.
  unfold mkSystem, append_packages. split.
  - destruct (append_packages_loop empty_system l) as [s' [e'|]] eqn:Hloop;
      [|done].
    intros [= ->].
    apply append_packages_loop_Some in Hloop as (l1 & p & l2 & -> & -> & Hl1 & Hp).
    apply append_packages_loop_ok in Hl1 as (Hd & _ & _ & Hnd & _).
    exists l1, p, l2. repeat split; [done|]. rewrite Hd in Hp. simpl in Hp.
    by apply mem_entries.
  - intros (l1 & p & l2 & -> & -> & Hnd & Hp).
    rewrite append_packages_loop_app.
    destruct (append_packages_loop_None empty_system l1 Hnd) as [s1 Hs1]; [done|].
    rewrite Hs1. simpl.
    apply append_packages_loop_ok in Hs1 as (Hd & _ & _ & _ & _).
    rewrite Hd. simpl. apply mem_entries in Hp. by rewrite Hp.
Qed.

(** A list with pairwise distinct names always gives a system. *)
Lemma mkSystem_NoDup l :
  NoDup (map name l) -> exists S, mkSystem l = Done S.
Proof.
  intros Hnd. unfold mkSystem, append_packages.
  destruct (append_packages_loop_None empty_system l Hnd) as [s1 Hs1]; [done|].
  rewrite Hs1. by eexists.
Qed.

(** Looking a name up in a system gives the package of that name the system
    was built from, and only that. *)
Theorem System_lookup_round_trip l S n q :
  mkSystem l = Done S ->
  PyDict.get (all_packages_dict S) n = Some q <-> q ∈ l /\ name q = n.
Proof.
  intros [Hd Hnd]%mkSystem_all_packages_dict. rewrite Hd. split.
  - apply get_entries_Some.
  - intros [Hq <-]. by apply get_entries_elem.
Qed.

Lemma append_packages_loop_index self packages pd cd :
  append_packages_loop
    (mkSystemRecord (all_packages_dict self) (repo_packages_list self)
       (aur_packages_list self) (devel_packages_list self)
       (not_repo_not_aur_packages_list self) pd cd) packages
  = let r := append_packages_loop self packages in
    (mkSystemRecord (all_packages_dict r.1) (repo_packages_list r.1)
       (aur_packages_list r.1) (devel_packages_list r.1)
       (not_repo_not_aur_packages_list r.1) pd cd, r.2).
Proof.
  revert self. induction packages as [|p l IH]; intros self; simpl; [done|].
  destruct (PyDict.mem (all_packages_dict self) (name p)); [done|].
  destruct (type_of p); apply (IH (mkSystemRecord _ _ _ _ _ _ _)).
Qed.

Lemma append_to_x_dict_app rel d l1 l2 :
  append_to_x_dict rel d (l1 ++ l2)
  = append_to_x_dict rel (append_to_x_dict rel d l1) l2.
Proof. unfold append_to_x_dict. apply fold_left_app. Qed.

Lemma append_packages_mkSystem l l' S :
  mkSystem l = Done S -> append_packages S l' = mkSystem (l ++ l').
Proof.
  unfold mkSystem, append_packages. rewrite append_packages_loop_app.
  destruct (append_packages_loop empty_system l) as [s1 [e|]] eqn:Hl; [done|].
  intros [= <-]. rewrite append_packages_loop_index.
  pose proof (append_packages_loop_ok _ _ _ Hl) as (_ & Hp & Hc & _ & _).
  destruct (append_packages_loop s1 l') as [s2 [e|]] eqn:Hl'; simpl; [done|].
  pose proof (append_packages_loop_ok _ _ _ Hl') as (_ & Hp' & Hc' & _ & _).
  rewrite !append_to_x_dict_app. by rewrite Hp', Hc', Hp, Hc.
Qed.

(** Building a system and then appending packages to it is building the
    system of both lists at once, errors included. *)
Theorem append_packages_after_init l l' S :
  mkSystem l = Done S -> append_packages S l' = mkSystem (l ++ l').
Proof. apply append_packages_mkSystem. Qed.

Lemma append_packages_loop_lists self packages self' :
  append_packages_loop self packages = (self', None) ->
  repo_packages_list self'
  = repo_packages_list self
    ++ filter (fun p => type_of p = REPO_PACKAGE) packages
  /\ aur_packages_list self'
     = aur_packages_list self
       ++ filter (fun p => type_of p = AUR_PACKAGE) packages
  /\ devel_packages_list self'
     = devel_packages_list self
       ++ filter (fun p => type_of p = DEVEL_PACKAGE) packages
  /\ not_repo_not_aur_packages_list self'
     = not_repo_not_aur_packages_list self
       ++ filter (fun p => type_of p = PACKAGE_NOT_REPO_NOT_AUR) packages.
Proof.
  revert self. induction packages as [|p l IH]; intros self; simpl.
  - intros [= <-]. by rewrite !filter_nil, !app_nil_r.
  - destruct (PyDict.mem (all_packages_dict self) (name p)); [done|].
    intros (H1 & H2 & H3 & H4)%IH. rewrite H1, H2, H3, H4. clear.
    rewrite !filter_cons.
    destruct (type_of p) eqn:Ht; simpl;
      repeat case_decide; try done; by rewrite <- ?app_assoc.
Qed.

(** The four lists of a system sort its packages by type, in the order
    given. *)
Theorem System_init_sorts_by_type l S :
  mkSystem l = Done S ->
  repo_packages_list S = filter (fun p => type_of p = REPO_PACKAGE) l
  /\ aur_packages_list S = filter (fun p => type_of p = AUR_PACKAGE) l
  /\ devel_packages_list S = filter (fun p => type_of p = DEVEL_PACKAGE) l
  /\ not_repo_not_aur_packages_list S
     = filter (fun p => type_of p = PACKAGE_NOT_REPO_NOT_AUR) l.
Proof.
  unfold mkSystem, append_packages.
  destruct (append_packages_loop empty_system l) as [s1 [e|]] eqn:Hl; [done|].
  intros [= <-]. simpl. by apply append_packages_loop_lists in Hl.
Qed.

(** What [__append_to_x_dict] leaves under a key: what was there, then each
    package once for every value of it that strips to the key. *)
Lemma append_to_x_dict_get rel d packages k :
  default [] (PyDict.get (append_to_x_dict rel d packages) k)
  = default [] (PyDict.get d k)
    ++ flat_map (fun p =>
         flat_map (fun v =>
           if bool_decide (strip_versioning_from_name v = k) then [p] else [])
           (rel p)) packages.
Proof.
  unfold append_to_x_dict. revert d.
  induction packages as [|p l IH]; intros d; simpl; [by rewrite app_nil_r|].
  rewrite IH, app_assoc. f_equal. generalize (rel p). clear. intros vs. revert d.
  induction vs as [|v vs IHv]; intros d; simpl; [by rewrite app_nil_r|].
  rewrite IHv, app_assoc. f_equal.
  destruct (PyDict.get d (strip_versioning_from_name v)) as [l0|] eqn:Hget;
    rewrite get_set; case_bool_decide as Hk; simpl;
    try (by rewrite app_nil_r); subst; by rewrite Hget.
Qed.

Lemma append_to_x_dict_exact rel l k q :
  q ∈ default [] (PyDict.get (append_to_x_dict rel [] l) k)
  <-> q ∈ l /\ exists v, v ∈ rel q /\ strip_versioning_from_name v = k.
Proof.
  rewrite append_to_x_dict_get. simpl. rewrite list_elem_of_In, in_flat_map.
  split.
  - intros (p & Hp & Hq). apply in_flat_map in Hq as (v & Hv & Hq).
    case_bool_decide; [|done]. destruct Hq as [->|[]].
    split; [by apply list_elem_of_In|]. exists v.
    split; [by apply list_elem_of_In|done].
  - intros (Hq & v & Hv & Hk). exists q. split; [by apply list_elem_of_In|].
    apply in_flat_map. exists v. split; [by apply list_elem_of_In|].
    rewrite bool_decide_true by done. by left.
Qed.

Lemma mkSystem_index_dicts l S :
  mkSystem l = Done S ->
  provides_dict S = append_to_x_dict provides [] l
  /\ conflicts_dict S = append_to_x_dict conflicts [] l.
Proof.
  unfold mkSystem, append_packages.
  destruct (append_packages_loop empty_system l) as [s1 [e|]] eqn:Hl; [done|].
  intros [= <-]. simpl.
  apply append_packages_loop_ok in Hl as (_ & -> & -> & _ & _). done.
Qed.

(** The two index dictionaries of a system: a package is listed under a key
    of [provides_dict] exactly when it is one of the system's packages and
    one of its provides strips to that key, and likewise for
    [conflicts_dict] and its conflicts. *)
Theorem System_index_dicts_exact l S k q :
  mkSystem l = Done S ->
  (q ∈ default [] (PyDict.get (provides_dict S) k)
   <-> q ∈ l /\ exists v, v ∈ provides q /\ strip_versioning_from_name v = k)
  /\ (q ∈ default [] (PyDict.get (conflicts_dict S) k)
      <-> q ∈ l /\ exists v, v ∈ conflicts q /\ strip_versioning_from_name v = k).
Proof.
  intros [-> ->]%mkSystem_index_dicts. split; apply append_to_x_dict_exact.
Qed.


(** ** Providers and conflicts, exactly *)

Lemma NoDup_name_inj l p q :
  NoDup (map name l) -> p ∈ l -> q ∈ l -> name p = name q -> p = q.
Proof.
  intros Hnd Hp Hq Hn.
  pose proof (get_entries_elem l p Hnd Hp) as H1.
  pose proof (get_entries_elem l q Hnd Hq) as H2.
  rewrite Hn in H1. congruence.
Qed.

Lemma mkSystem_pkg_eqb l S p q :
  mkSystem l = Done S -> p ∈ l -> q ∈ l -> pkg_eqb p q = true -> p = q.
Proof.
  intros [_ Hnd]%mkSystem_all_packages_dict Hp Hq [Hn _]%pkg_eqb_true.
  by eapply NoDup_name_inj.
Qed.

Lemma mkSystem_get l S n q :
  mkSystem l = Done S ->
  PyDict.get (all_packages_dict S) n = Some q <-> q ∈ l /\ name q = n.
Proof.
  intros [Hd Hnd]%mkSystem_all_packages_dict. rewrite Hd. split.
  - apply get_entries_Some.
  - intros [Hq <-]. by apply get_entries_elem.
Qed.

Lemma strip_versioning_split s n c v :
  split_name_with_versioning s = (n, c, v) -> strip_versioning_from_name s = n.
Proof. unfold strip_versioning_from_name. by intros ->. Qed.

Lemma elem_of_prefix {A} (l1 l2 : list A) x :
  l1 `prefix_of` l2 -> x ∈ l1 -> x ∈ l2.
Proof. intros [k ->] Hx. apply elem_of_app. by left. Qed.

Lemma provided_by_provide_prefix dn dc dv package return_list provide :
  return_list `prefix_of`
    provided_by_provide dn dc dv package return_list provide.
Proof.
  unfold provided_by_provide.
  destruct (split_name_with_versioning provide) as [[pn pc] pv].
  repeat (match goal with |- context [if ?b then _ else _] => destruct b end);
    try done; by apply prefix_app_r.
Qed.

Lemma provided_by_provides_prefix dn dc dv package provs return_list :
  return_list `prefix_of`
    fold_left (provided_by_provide dn dc dv package) provs return_list.
Proof.
  revert return_list. induction provs as [|pr provs IH]; intros rl; simpl;
    [done|].
  etrans; [apply provided_by_provide_prefix|apply IH].
Qed.

Lemma provided_by_provide_complete dep dn dc dv package return_list provide :
  split_name_with_versioning dep = (dn, dc, dv) ->
  provide_matches package dep provide = true ->
  package ∈ provided_by_provide dn dc dv package return_list provide.
Proof.
  intros Hsplit. unfold provide_matches, provided_by_provide. rewrite Hsplit.
  destruct (split_name_with_versioning provide) as [[pn pc] pv].
  destruct (bool_decide (pn = dn)); simpl; [|done].
  destruct (bool_decide (dc = "")); simpl; [intros _; set_solver|].
  destruct ((bool_decide (pc = "=") || bool_decide (pc = "=="))
            && version_comparison pv dc dv); simpl; [intros _; set_solver|].
  destruct (bool_decide (pc = "") && version_comparison (version package) dc dv);
    simpl; [intros _; set_solver|done].
Qed.

Lemma provided_by_provides_complete dep dn dc dv package provs return_list :
  split_name_with_versioning dep = (dn, dc, dv) ->
  existsb (provide_matches package dep) provs = true ->
  package ∈ fold_left (provided_by_provide dn dc dv package) provs return_list.
Proof.
  intros Hsplit. revert return_list.
  induction provs as [|pr provs IH]; intros rl; simpl; [done|].
  intros [Hm|Hm]%orb_true_iff; [|by apply IH].
  eapply elem_of_prefix; [apply provided_by_provides_prefix|].
  by eapply provided_by_provide_complete.
Qed.

(** The loop over [possible_packages]. *)
Lemma provided_by_packages_prefix dn dc dv pp return_list :
  return_list `prefix_of`
    fold_left (fun return_list package =>
      if pkg_in package return_list then return_list
      else fold_left (provided_by_provide dn dc dv package)
             (provides package) return_list) pp return_list.
Proof.
  revert return_list. induction pp as [|p pp IH]; intros rl; simpl; [done|].
  etrans; [|apply IH]. destruct (pkg_in p rl); [done|].
  apply provided_by_provides_prefix.
Qed.

Lemma pkg_in_prefix p l1 l2 :
  l1 `prefix_of` l2 -> pkg_in p l1 = true -> pkg_in p l2 = true.
Proof. intros [k ->]. rewrite pkg_in_app. by intros ->. Qed.

Lemma provided_by_packages_complete dep dn dc dv pp return_list q :
  split_name_with_versioning dep = (dn, dc, dv) ->
  q ∈ pp -> existsb (provide_matches q dep) (provides q) = true ->
  pkg_in q
    (fold_left (fun return_list package =>
       if pkg_in package return_list then return_list
       else fold_left (provided_by_provide dn dc dv package)
              (provides package) return_list) pp return_list) = true.
Proof.
  intros Hsplit Hq Hm. revert return_list.
  induction pp as [|p pp IH]; intros rl; simpl; [by apply elem_of_nil in Hq|].
  apply elem_of_cons in Hq as [<-|Hq]; [|by apply IH].
  eapply pkg_in_prefix; [apply provided_by_packages_prefix|].
  destruct (pkg_in q rl) eqn:Hin; [done|].
  apply pkg_in_elem. by eapply provided_by_provides_complete.
Qed.

Lemma provides_by_name_split q dep dn dc dv :
  split_name_with_versioning dep = (dn, dc, dv) ->
  provides_by_name q dep = true ->
  name q = dn /\ (dc = "" \/ version_comparison (version q) dc dv = true).
Proof.
  intros Hsplit. unfold provides_by_name. rewrite Hsplit.
  intros [Hn Hv]%andb_true_iff. apply bool_decide_eq_true in Hn.
  apply orb_true_iff in Hv as [Hv%bool_decide_eq_true|Hv]; auto.
Qed.

Lemma provide_matches_name q dep provide :
  provide_matches q dep provide = true ->
  strip_versioning_from_name provide = strip_versioning_from_name dep.
Proof.
  unfold provide_matches, strip_versioning_from_name.
  destruct (split_name_with_versioning dep) as [[dn dc] dv].
  destruct (split_name_with_versioning provide) as [[pn pc] pv].
  by intros [Hn%bool_decide_eq_true _]%andb_true_iff.
Qed.

(** The package found under the name of the atom, when its version fits,
    comes first. *)
Lemma provided_by_head S dep q :
  PyDict.get (all_packages_dict S) (strip_versioning_from_name dep) = Some q ->
  provides_by_name q dep = true ->
  head (provided_by S dep) = Some q.
Proof.
  intros Hget Hn. unfold provided_by. unfold strip_versioning_from_name in Hget.
  destruct (split_name_with_versioning dep) as [[dn dc] dv] eqn:Hsplit.
  eapply provides_by_name_split in Hn as [Hname Hv]; [|done].
  rewrite Hget.
  assert (Hrl : (if bool_decide (dc = "") then [q]
                 else if version_comparison (version q) dc dv then [q] else [])
                = [q]).
  { destruct Hv as [->|Hv]; [done|]. rewrite Hv. by case_bool_decide. }
  rewrite Hrl.
  destruct (PyDict.get (provides_dict S) dn) as [pp|]; [|done].
  destruct (provided_by_packages_prefix dn dc dv pp [q]) as [k ->]. done.
Qed.

Lemma provided_by_complete l S dep q :
  mkSystem l = Done S -> q ∈ l -> provides_dep q dep = true ->
  q ∈ provided_by S dep.
Proof.
  intros HS Hq [Hn|Hm]%orb_true_iff.
  - apply head_Some_elem_of. apply provided_by_head; [|done].
    apply (mkSystem_get _ _ _ _ HS). split; [done|].
    unfold strip_versioning_from_name.
    destruct (split_name_with_versioning dep) as [[dn dc] dv] eqn:Hsplit.
    by eapply provides_by_name_split in Hn as [Hname _].
  - assert (Hin : pkg_in q (provided_by S dep) = true).
    { unfold provided_by.
      destruct (split_name_with_versioning dep) as [[dn dc] dv] eqn:Hsplit.
      assert (Hpp : q ∈ default [] (PyDict.get (provides_dict S) dn)).
      { apply mkSystem_index_dicts in HS as [-> _].
        apply append_to_x_dict_exact. split; [done|].
        apply existsb_exists in Hm as (pr & Hpr & Hm).
        exists pr. split; [by apply list_elem_of_In|].
        rewrite (provide_matches_name _ _ _ Hm).
        by eapply strip_versioning_split. }
      destruct (PyDict.get (provides_dict S) dn) as [pp|];
        [|by apply elem_of_nil in Hpp].
      by eapply provided_by_packages_complete. }
    apply pkg_in_true in Hin as (q' & Hq' & Heq).
    pose proof (provided_by_sound _ _ _ _ HS Hq') as [Hl _].
    by rewrite (mkSystem_pkg_eqb _ _ _ _ HS Hq Hl Heq).
Qed.

(** The providers of an atom are, as a set, exactly the packages of the
    system that answer it by the two-step rule: by their own name and
    version, or by one of their provides. *)
Theorem provided_by_exact l S dep q :
  mkSystem l = Done S ->
  q ∈ provided_by S dep <-> q ∈ l /\ provides_dep q dep = true.
Proof.
  intros HS. split.
  - by apply provided_by_sound.
  - intros [Hq Hp]. by eapply provided_by_complete.
Qed.

(** When a package of the system has the name of the atom and a fitting
    version, it is the first provider returned. *)
Theorem provided_by_name_match_first l S dep q :
  mkSystem l = Done S -> q ∈ l -> provides_by_name q dep = true ->
  head (provided_by S dep) = Some q.
Proof.
  intros HS Hq Hn. apply provided_by_head; [|done].
  apply (mkSystem_get _ _ _ _ HS). split; [done|].
  unfold strip_versioning_from_name.
  destruct (split_name_with_versioning dep) as [[dn dc] dv] eqn:Hsplit.
  by eapply provides_by_name_split in Hn as [Hname _].
Qed.

(** Appending packages to a system loses no provider. *)
Theorem provided_by_monotone l l' S S' dep q :
  mkSystem l = Done S -> append_packages S l' = Done S' ->
  q ∈ provided_by S dep -> q ∈ provided_by S' dep.
Proof.
  intros HS HS' Hq.
  assert (HS2 : mkSystem (l ++ l') = Done S')
    by by rewrite <- (append_packages_mkSystem _ _ _ HS).
  eapply provided_by_sound in Hq as [Hq Hp]; [|done].
  eapply provided_by_complete; [done| |done]. apply elem_of_app. by left.
Qed.

(** [are_all_deps_fulfilled] holds exactly when every relevant dependency of
    the package has a provider among the packages of the system. *)
Theorem are_all_deps_fulfilled_exact l S p :
  mkSystem l = Done S ->
  are_all_deps_fulfilled S p = true
  <-> forall dep, dep ∈ relevant_deps p ->
                  exists q, q ∈ l /\ provides_dep q dep = true.
Proof.
  intros HS. unfold are_all_deps_fulfilled. rewrite forallb_forall. split.
  - intros Hall dep Hdep%list_elem_of_In. specialize (Hall dep Hdep).
    destruct (provided_by S dep) as [|q rest] eqn:Hpb; [done|].
    exists q. eapply provided_by_sound; [done|]. rewrite Hpb. left.
  - intros Hall dep Hdep%list_elem_of_In.
    destruct (Hall dep Hdep) as (q & Hq & Hp).
    pose proof (provided_by_complete _ _ _ _ HS Hq Hp) as Hin.
    destruct (provided_by S dep); [by apply elem_of_nil in Hin|done].
Qed.


(** *** [conflicting_with], loop by loop *)

Lemma conflicting_with_unfold S p :
  conflicting_with S p =
  let return_list :=
    match PyDict.get (all_packages_dict S) (name p) with
    | Some possible_conflict_package =>
        if negb (bool_decide (version p = version possible_conflict_package))
        then [possible_conflict_package] else []
    | None => []
    end in
  let return_list := fold_left (own_conflict_step S) (conflicts p) return_list in
  match PyDict.get (conflicts_dict S) (name p) with
  | Some possible_conflict_packages =>
      fold_left (fun return_list possible_conflict_package =>
        if pkg_in possible_conflict_package return_list then return_list
        else fold_left
               (listed_conflict_step (name p) (version p)
                  possible_conflict_package)
               (conflicts possible_conflict_package) return_list)
        possible_conflict_packages return_list
  | None => return_list
  end.
Proof. reflexivity. Qed.

Lemma own_conflict_step_prefix S return_list conflict :
  return_list `prefix_of` own_conflict_step S return_list conflict.
Proof.
  unfold own_conflict_step.
  destruct (split_name_with_versioning conflict) as [[cn cc] cv].
  destruct (PyDict.get (all_packages_dict S) cn) as [q|]; [|done].
  repeat (match goal with |- context [if ?b then _ else _] => destruct b end);
    try done; by apply prefix_app_r.
Qed.

Lemma own_conflicts_prefix S cs return_list :
  return_list `prefix_of` fold_left (own_conflict_step S) cs return_list.
Proof.
  revert return_list. induction cs as [|c cs IH]; intros rl; simpl; [done|].
  etrans; [apply own_conflict_step_prefix|apply IH].
Qed.

Lemma listed_conflict_step_prefix n v q return_list conflict :
  return_list `prefix_of` listed_conflict_step n v q return_list conflict.
Proof.
  unfold listed_conflict_step.
  destruct (split_name_with_versioning conflict) as [[cn cc] cv].
  repeat (match goal with |- context [if ?b then _ else _] => destruct b end);
    try done; by apply prefix_app_r.
Qed.

Lemma listed_conflicts_prefix n v q cs return_list :
  return_list `prefix_of`
    fold_left (listed_conflict_step n v q) cs return_list.
Proof.
  revert return_list. induction cs as [|c cs IH]; intros rl; simpl; [done|].
  etrans; [apply listed_conflict_step_prefix|apply IH].
Qed.

Lemma listed_packages_prefix n v pp return_list :
  return_list `prefix_of`
    fold_left (fun return_list possible_conflict_package =>
      if pkg_in possible_conflict_package return_list then return_list
      else fold_left (listed_conflict_step n v possible_conflict_package)
             (conflicts possible_conflict_package) return_list)
      pp return_list.
Proof.
  revert return_list. induction pp as [|q pp IH]; intros rl; simpl; [done|].
  etrans; [|apply IH]. destruct (pkg_in q rl); [done|].
  apply listed_conflicts_prefix.
Qed.

(** What each loop adds. *)
Lemma own_conflict_step_sound S return_list conflict q :
  q ∈ own_conflict_step S return_list conflict ->
  q ∈ return_list
  \/ (PyDict.get (all_packages_dict S)
        (strip_versioning_from_name conflict) = Some q
      /\ (name q = strip_versioning_from_name conflict ->
          conflict_names conflict q = true)).
Proof.
  unfold own_conflict_step, conflict_names, strip_versioning_from_name.
  destruct (split_name_with_versioning conflict) as [[cn cc] cv].
  destruct (PyDict.get (all_packages_dict S) cn) as [q'|] eqn:Hget; [|by left].
  destruct (pkg_in q' return_list); [by left|].
  destruct (bool_decide (cc = "")) eqn:Hcc.
  { intros [?|Hx%list_elem_of_singleton]%elem_of_app; [by left|]. subst q'.
    right. split; [done|]. intros ->. by rewrite bool_decide_true. }
  destruct (version_comparison (version q') cc cv) eqn:Hvc; [|by left].
  intros [?|Hx%list_elem_of_singleton]%elem_of_app; [by left|]. subst q'.
  right. split; [done|]. intros ->. rewrite bool_decide_true by done.
  by rewrite Hvc, orb_true_r.
Qed.

Lemma own_conflicts_sound S cs return_list q :
  q ∈ fold_left (own_conflict_step S) cs return_list ->
  q ∈ return_list
  \/ exists conflict,
       conflict ∈ cs
       /\ PyDict.get (all_packages_dict S)
            (strip_versioning_from_name conflict) = Some q
       /\ (name q = strip_versioning_from_name conflict ->
           conflict_names conflict q = true).
Proof.
  revert return_list. induction cs as [|c cs IH]; intros rl; simpl; [by left|].
  intros [Hq|(c' & Hc' & Hq)]%IH.
  - apply own_conflict_step_sound in Hq as [Hq|Hq]; [by left|].
    right. exists c. split; [left|done].
  - right. exists c'. split; [by right|done].
Qed.

Lemma listed_conflict_step_sound p q return_list conflict x :
  x ∈ listed_conflict_step (name p) (version p) q return_list conflict ->
  x ∈ return_list \/ (x = q /\ conflict_names conflict p = true).
Proof.
  unfold listed_conflict_step, conflict_names.
  destruct (split_name_with_versioning conflict) as [[cn cc] cv].
  destruct (bool_decide (cn = name p)); simpl; [|by left].
  destruct (bool_decide (cc = "")); simpl.
  { intros [?|Hx%list_elem_of_singleton]%elem_of_app; [by left|by right]. }
  destruct (version_comparison (version p) cc cv); [|by left].
  intros [?|Hx%list_elem_of_singleton]%elem_of_app; [by left|by right].
Qed.

Lemma listed_conflicts_sound p q cs return_list x :
  x ∈ fold_left (listed_conflict_step (name p) (version p) q) cs return_list ->
  x ∈ return_list
  \/ (x = q /\ existsb (fun conflict => conflict_names conflict p) cs = true).
Proof.
  revert return_list. induction cs as [|c cs IH]; intros rl; simpl; [by left|].
  intros [Hx|[-> Hx]]%IH.
  - apply listed_conflict_step_sound in Hx as [Hx|[-> Hx]]; [by left|].
    right. by rewrite Hx.
  - right. by rewrite Hx, orb_true_r.
Qed.

Lemma listed_packages_sound p pp return_list x :
  x ∈ fold_left (fun return_list possible_conflict_package =>
        if pkg_in possible_conflict_package return_list then return_list
        else fold_left
               (listed_conflict_step (name p) (version p)
                  possible_conflict_package)
               (conflicts possible_conflict_package) return_list)
        pp return_list ->
  x ∈ return_list
  \/ (x ∈ pp
      /\ existsb (fun conflict => conflict_names conflict p) (conflicts x)
         = true).
Proof.
  revert return_list. induction pp as [|q pp IH]; intros rl; simpl; [by left|].
  intros [Hx|[Hx Hc]]%IH; [|right; split; [by right|done]].
  destruct (pkg_in q rl); [by left|].
  apply listed_conflicts_sound in Hx as [Hx|[-> Hx]]; [by left|].
  right. split; [left|done].
Qed.

Lemma conflicting_with_sound l S p q :
  mkSystem l = Done S -> q ∈ conflicting_with S p ->
  q ∈ l /\ in_conflict p q = true.
Proof.
  intros HS. rewrite conflicting_with_unfold. cbv zeta. unfold in_conflict.
  set (rl0 := match PyDict.get (all_packages_dict S) (name p) with
              | Some possible_conflict_package =>
                  if negb (bool_decide
                             (version p = version possible_conflict_package))
                  then [possible_conflict_package] else []
              | None => []
              end).
  assert (H0 : q ∈ rl0 ->
               q ∈ l /\ bool_decide (name p = name q)
                        && negb (bool_decide (version p = version q)) = true).
  { subst rl0.
    destruct (PyDict.get (all_packages_dict S) (name p)) as [q'|] eqn:Hget;
      [|intros H'; by apply elem_of_nil in H'].
    destruct (negb (bool_decide (version p = version q'))) eqn:Hv;
      [|intros H'; by apply elem_of_nil in H'].
    intros Hx%list_elem_of_singleton. subst q'.
    apply (mkSystem_get _ _ _ _ HS) in Hget as [Hq Hn].
    split; [done|]. by rewrite bool_decide_true, Hv. }
  assert (H1 : q ∈ fold_left (own_conflict_step S) (conflicts p) rl0 ->
               q ∈ l /\ (bool_decide (name p = name q)
                         && negb (bool_decide (version p = version q))
                         || existsb (fun conflict => conflict_names conflict q)
                              (conflicts p)) = true).
  { intros [Hq|(c & Hc & Hget & Hcn)]%own_conflicts_sound.
    - apply H0 in Hq as [Hq ->]. done.
    - apply (mkSystem_get _ _ _ _ HS) in Hget as [Hq Hn]. split; [done|].
      apply orb_true_iff. right. apply existsb_exists. exists c.
      split; [by apply list_elem_of_In|by apply Hcn]. }
  clearbody rl0.
  destruct (PyDict.get (conflicts_dict S) (name p)) as [pp|] eqn:Hpp.
  - intros [Hq|[Hq Hc]]%listed_packages_sound.
    + apply H1 in Hq as [Hq ->]. done.
    + split; [|by rewrite Hc, orb_true_r].
      apply mkSystem_listed in HS as [_ HS]. apply HS. by eapply listed_get.
  - intros Hq. apply H1 in Hq as [Hq ->]. done.
Qed.

Lemma own_conflicts_complete l S cs return_list q :
  mkSystem l = Done S -> q ∈ l ->
  existsb (fun conflict => conflict_names conflict q) cs = true ->
  pkg_in q (fold_left (own_conflict_step S) cs return_list) = true.
Proof.
  intros HS Hq. revert return_list.
  induction cs as [|c cs IH]; intros rl; simpl; [done|].
  intros [Hc|Hc]%orb_true_iff; [|by apply IH].
  eapply pkg_in_prefix; [apply own_conflicts_prefix|].
  unfold conflict_names in Hc. unfold own_conflict_step.
  destruct (split_name_with_versioning c) as [[cn cc] cv].
  apply andb_true_iff in Hc as [Hn%bool_decide_eq_true Hv].
  assert (Hget : PyDict.get (all_packages_dict S) cn = Some q)
    by by eapply mkSystem_get.
  rewrite Hget. destruct (pkg_in q rl) eqn:Hin; [done|].
  assert (Hlast : pkg_in q (rl ++ [q]) = true)
    by (apply pkg_in_elem, elem_of_app; right; left).
  destruct (bool_decide (cc = "")); [done|]. simpl in Hv. by rewrite Hv.
Qed.

Lemma listed_conflicts_complete p q cs return_list :
  existsb (fun conflict => conflict_names conflict p) cs = true ->
  q ∈ fold_left (listed_conflict_step (name p) (version p) q) cs return_list.
Proof.
  revert return_list. induction cs as [|c cs IH]; intros rl; simpl; [done|].
  intros [Hc|Hc]%orb_true_iff; [|by apply IH].
  eapply elem_of_prefix; [apply listed_conflicts_prefix|].
  unfold conflict_names in Hc. unfold listed_conflict_step.
  destruct (split_name_with_versioning c) as [[cn cc] cv].
  apply andb_true_iff in Hc as [Hn Hv]. rewrite Hn. simpl.
  destruct (bool_decide (cc = "")); [set_solver|]. simpl in Hv. rewrite Hv.
  set_solver.
Qed.

Lemma listed_packages_complete p pp return_list q :
  q ∈ pp ->
  existsb (fun conflict => conflict_names conflict p) (conflicts q) = true ->
  pkg_in q
    (fold_left (fun return_list possible_conflict_package =>
       if pkg_in possible_conflict_package return_list then return_list
       else fold_left
              (listed_conflict_step (name p) (version p)
                 possible_conflict_package)
              (conflicts possible_conflict_package) return_list)
       pp return_list) = true.
Proof.
  intros Hq Hc. revert return_list.
  induction pp as [|q' pp IH]; intros rl; simpl; [by apply elem_of_nil in Hq|].
  apply elem_of_cons in Hq as [<-|Hq]; [|by apply IH].
  eapply pkg_in_prefix; [apply listed_packages_prefix|].
  destruct (pkg_in q rl) eqn:Hin; [done|].
  by apply pkg_in_elem, listed_conflicts_complete.
Qed.

Lemma conflict_names_strip conflict p :
  conflict_names conflict p = true ->
  strip_versioning_from_name conflict = name p.
Proof.
  unfold conflict_names, strip_versioning_from_name.
  destruct (split_name_with_versioning conflict) as [[cn cc] cv].
  by intros [Hn%bool_decide_eq_true _]%andb_true_iff.
Qed.

Lemma conflicting_with_complete l S p q :
  mkSystem l = Done S -> q ∈ l -> in_conflict p q = true ->
  q ∈ conflicting_with S p.
Proof.
  intros HS Hq Hc.
  assert (Hin : pkg_in q (conflicting_with S p) = true).
  { rewrite conflicting_with_unfold. cbv zeta.
    set (rl0 := match PyDict.get (all_packages_dict S) (name p) with
                | Some possible_conflict_package =>
                    if negb (bool_decide
                               (version p = version possible_conflict_package))
                    then [possible_conflict_package] else []
                | None => []
                end).
    assert (Hlast : forall rl,
      pkg_in q rl = true ->
      pkg_in q
        match PyDict.get (conflicts_dict S) (name p) with
        | Some possible_conflict_packages =>
            fold_left (fun return_list possible_conflict_package =>
              if pkg_in possible_conflict_package return_list then return_list
              else fold_left
                     (listed_conflict_step (name p) (version p)
                        possible_conflict_package)
                     (conflicts possible_conflict_package) return_list)
              possible_conflict_packages rl
        | None => rl
        end = true).
    { intros rl Hrl. destruct (PyDict.get (conflicts_dict S) (name p)); [|done].
      eapply pkg_in_prefix; [apply listed_packages_prefix|done]. }
    unfold in_conflict in Hc.
    apply orb_true_iff in Hc as [[Hc|Hc]%orb_true_iff|Hc].
    - apply Hlast. eapply pkg_in_prefix; [apply own_conflicts_prefix|].
      apply andb_true_iff in Hc as [Hn%bool_decide_eq_true Hv].
      assert (Hget : PyDict.get (all_packages_dict S) (name p) = Some q)
        by by eapply mkSystem_get.
      subst rl0. rewrite Hget, Hv. apply pkg_in_elem. left.
    - apply Hlast. by eapply own_conflicts_complete.
    - assert (Hpp : q ∈ default [] (PyDict.get (conflicts_dict S) (name p))).
      { pose proof (mkSystem_index_dicts _ _ HS) as [_ ->].
        apply append_to_x_dict_exact. split; [done|].
        apply existsb_exists in Hc as (c & Hcin & Hc).
        exists c. split; [by apply list_elem_of_In|].
        by apply conflict_names_strip. }
      destruct (PyDict.get (conflicts_dict S) (name p)) as [pp|];
        [|by apply elem_of_nil in Hpp].
      by apply listed_packages_complete. }
  apply pkg_in_true in Hin as (q' & Hq' & Heq).
  pose proof (conflicting_with_sound _ _ _ _ HS Hq') as [Hl _].
  by rewrite (mkSystem_pkg_eqb _ _ _ _ HS Hq Hl Heq).
Qed.

Lemma in_conflict_sym p q : in_conflict p q = in_conflict q p.
Proof.
  unfold in_conflict.
  assert (Hn : bool_decide (name p = name q) = bool_decide (name q = name p))
    by (apply bool_decide_ext; split; congruence).
  assert (Hv : bool_decide (version p = version q)
               = bool_decide (version q = version p))
    by (apply bool_decide_ext; split; congruence).
  rewrite Hn, Hv.
  destruct (bool_decide (name q = name p) && negb (bool_decide (version q = version p)));
    simpl; [done|apply orb_comm].
Qed.

(** The packages [conflicting_with] returns are, as a set, exactly the
    packages of the system that are in conflict with the given one: another
    version of the same name, a package one of its conflicts names, or a
    package with a conflict that names it. *)
Theorem conflicting_with_exact l S p q :
  mkSystem l = Done S ->
  q ∈ conflicting_with S p <-> q ∈ l /\ in_conflict p q = true.
Proof.
  intros HS. split.
  - by apply conflicting_with_sound.
  - intros [Hq Hc]. by eapply conflicting_with_complete.
Qed.

(** Conflicts are found from either side: a system that holds [q] reports
    it against [p] exactly when a system that holds [p] reports it against
    [q]. *)
Theorem conflicting_with_symmetric l1 l2 S1 S2 p q :
  mkSystem l1 = Done S1 -> mkSystem l2 = Done S2 -> q ∈ l1 -> p ∈ l2 ->
  q ∈ conflicting_with S1 p <-> p ∈ conflicting_with S2 q.
Proof.
  intros HS1 HS2 Hq Hp. split.
  - intros [_ Hc]%(conflicting_with_sound _ _ _ _ HS1).
    eapply conflicting_with_complete; [done|done|]. by rewrite in_conflict_sym.
  - intros [_ Hc]%(conflicting_with_sound _ _ _ _ HS2).
    eapply conflicting_with_complete; [done|done|]. by rewrite in_conflict_sym.
Qed.


(** ** The hypothetical mutator, stage by stage *)

Lemma values_entries l : PyDict.values (entries l) = l.
Proof. unfold PyDict.values, entries. rewrite map_map. simpl. apply map_id. Qed.

Lemma filter_name_fresh k l :
  k ∉ map name l -> filter (fun q => name q <> k) l = l.
Proof.
  induction l as [|p l IH]; simpl; [done|].
  intros [Hp Hl]%not_elem_of_cons.
  rewrite filter_cons_True by done. by rewrite IH.
Qed.

Lemma NoDup_name_sublist (l1 l2 : list Package) :
  l1 `sublist_of` l2 -> NoDup (map name l2) -> NoDup (map name l1).
Proof.
  intros Hsub Hnd. eapply sublist_NoDup; [done|]. by apply fmap_sublist.
Qed.

Lemma NoDup_name_filter (P : Package -> Prop) `{!forall x, Decision (P x)} l :
  NoDup (map name l) -> NoDup (map name (filter P l)).
Proof. apply NoDup_name_sublist, sublist_filter. Qed.

Lemma del_entries l k :
  NoDup (map name l) -> k ∈ map name l ->
  PyDict.del (entries l) k = Some (entries (filter (fun q => name q <> k) l)).
Proof.
  induction l as [|p l IH]; simpl; intros Hnd Hk; [by apply elem_of_nil in Hk|].
  apply NoDup_cons in Hnd as [Hp Hnd]. case_bool_decide as Hn.
  - subst k. rewrite filter_cons_False by (intros H'; by apply H').
    by rewrite filter_name_fresh.
  - apply elem_of_cons in Hk as [Hk|Hk]; [done|].
    rewrite (IH Hnd Hk). by rewrite filter_cons_True.
Qed.

Lemma filter_names_cons (p : Package) (ps l : list Package) :
  filter (fun q => name q ∉ map name ps) (filter (fun q => name q <> name p) l)
  = filter (fun q => name q ∉ map name (p :: ps)) l.
Proof.
  rewrite list_filter_filter. apply list_filter_iff. intros q. simpl.
  rewrite not_elem_of_cons. naive_solver.
Qed.

(** Deleting packages that are there, by name, leaves the others. *)
Lemma del_packages_entries to_delete :
  forall s l,
  all_packages_dict s = entries l -> NoDup (map name l) ->
  NoDup (map name to_delete) ->
  (forall p, p ∈ to_delete -> name p ∈ map name l) ->
  exists s',
    del_packages s to_delete = Done s'
    /\ all_packages_dict s'
       = entries (filter (fun q => name q ∉ map name to_delete) l).
Proof.
  induction to_delete as [|p ps IH]; intros s l Hd Hnd Hps Hin.
  - exists s. split; [done|]. rewrite Hd. f_equal. symmetry.
    clear. induction l as [|q l IHl]; [done|].
    rewrite filter_cons_True; [by rewrite IHl|]. simpl. apply not_elem_of_nil.
  - simpl in Hps. apply NoDup_cons in Hps as [Hp Hps].
    simpl. unfold del_package. rewrite Hd.
    rewrite (del_entries l (name p) Hnd) by (apply Hin; left). simpl.
    destruct (IH (with_all_packages_dict s
                    (entries (filter (fun q => name q <> name p) l)))
                 (filter (fun q => name q <> name p) l)) as (s' & Hs' & Hd').
    + done.
    + by apply NoDup_name_filter.
    + done.
    + intros q Hq. specialize (Hin q (ltac:(by right))).
      apply list_elem_of_fmap in Hin as (q' & Hn & Hq').
      apply list_elem_of_fmap. exists q'. split; [done|].
      apply list_elem_of_filter. split; [|done].
      intros Heq. apply Hp. rewrite <- Heq, <- Hn.
      apply list_elem_of_fmap. by exists q.
    + exists s'. split; [done|]. by rewrite Hd', filter_names_cons.
Qed.

(** The first loop leaves the installed packages that share no name with
    an incoming one. *)
Lemma displace_entries packages :
  forall s l deleted,
  all_packages_dict s = entries l -> NoDup (map name l) ->
  exists s' deleted',
    displace s packages deleted = Done (s', deleted')
    /\ all_packages_dict s'
       = entries (filter (fun q => name q ∉ map name packages) l).
Proof.
  induction packages as [|p ps IH]; intros s l deleted Hd Hnd.
  - exists s, deleted. split; [done|]. rewrite Hd. f_equal. symmetry.
    clear. induction l as [|q l IHl]; [done|].
    rewrite filter_cons_True; [by rewrite IHl|]. simpl. apply not_elem_of_nil.
  - simpl.
    destruct (PyDict.get (all_packages_dict s) (name p)) as [old|] eqn:Hget.
    + unfold del_package. rewrite Hd in Hget |- *.
      apply get_entries_Some in Hget as [Hold Hn].
      rewrite (del_entries l (name p) Hnd)
        by (rewrite <- Hn; apply list_elem_of_fmap; by exists old).
      simpl.
      destruct (IH (with_all_packages_dict s
                      (entries (filter (fun q => name q <> name p) l)))
                   (filter (fun q => name q <> name p) l)
                   (deleted ++ [old])) as (s' & d' & Hs' & Hd').
      * done.
      * by apply NoDup_name_filter.
      * exists s', d'. split; [done|]. by rewrite Hd', filter_names_cons.
    + assert (Hfresh : name p ∉ map name l).
      { rewrite Hd in Hget. apply get_None_keys in Hget.
        unfold PyDict.keys, entries in Hget. rewrite map_map in Hget. done. }
      destruct (IH s l deleted Hd Hnd) as (s' & d' & Hs' & Hd').
      exists s', d'. split; [done|].
      rewrite Hd'. f_equal.
      transitivity (filter (fun q => name q ∉ map name ps)
                      (filter (fun q => name q <> name p) l));
        [by rewrite (filter_name_fresh _ _ Hfresh)|apply filter_names_cons].
Qed.

(** Sets of packages drawn from a system have distinct names. *)
Lemma pkg_set_NoDup_key l : NoDup (map key (pkg_set l)).
Proof.
  unfold pkg_set.
  assert (H : forall s, NoDup (map key s) ->
                        NoDup (map key (fold_left (fun s p => pkg_set_add p s) l s))).
  { induction l as [|p l IH]; intros s Hs; simpl; [done|]. apply IH.
    unfold pkg_set_add. destruct (pkg_in p s) eqn:Hin; [done|].
    rewrite map_app. simpl. apply NoDup_app. split; [done|]. split.
    - intros k Hk Hk'%list_elem_of_singleton. subst k.
      by apply (pkg_in_false_key _ _ Hin).
    - apply NoDup_singleton. }
  apply H. simpl. apply NoDup_nil_2.
Qed.

Lemma NoDup_key_name L l :
  NoDup (map name L) -> l ⊆ L -> NoDup (map key l) -> NoDup (map name l).
Proof.
  intros HL Hsub Hk. apply NoDup_fmap_2_strong; [|by eapply NoDup_fmap_1].
  intros x y Hx Hy Hn. eapply NoDup_name_inj; eauto.
Qed.

Lemma unfulfilled_subseteq s wr q : q ∈ unfulfilled s wr -> q ∈ wr.
Proof.
  unfold unfulfilled.
  assert (H : forall acc, q ∈ fold_left (fun to_delete_packages w =>
      if are_all_deps_fulfilled s w then to_delete_packages
      else if pkg_in w to_delete_packages then to_delete_packages
      else to_delete_packages ++ [w]) wr acc -> q ∈ acc \/ q ∈ wr).
  { induction wr as [|w wr IH]; intros acc; simpl; [by left|].
    intros [Hq|Hq]%IH; [|right; by right].
    destruct (are_all_deps_fulfilled s w); [by left|].
    destruct (pkg_in w acc); [by left|].
    apply elem_of_app in Hq as [Hq|Hq%list_elem_of_singleton]; [by left|].
    subst. right. left. }
  intros [Hq|Hq]%H; [by apply elem_of_nil in Hq|done].
Qed.

Lemma unfulfilled_NoDup_key s wr : NoDup (map key (unfulfilled s wr)).
Proof.
  unfold unfulfilled.
  assert (H : forall acc, NoDup (map key acc) ->
    NoDup (map key (fold_left (fun to_delete_packages w =>
      if are_all_deps_fulfilled s w then to_delete_packages
      else if pkg_in w to_delete_packages then to_delete_packages
      else to_delete_packages ++ [w]) wr acc))).
  { induction wr as [|w wr IH]; intros acc Hacc; simpl; [done|]. apply IH.
    destruct (are_all_deps_fulfilled s w); [done|].
    destruct (pkg_in w acc) eqn:Hin; [done|].
    rewrite map_app. simpl. apply NoDup_app. split; [done|]. split.
    - intros k Hk Hk'%list_elem_of_singleton. subst k.
      by apply (pkg_in_false_key _ _ Hin).
    - apply NoDup_singleton. }
  apply H. simpl. apply NoDup_nil_2.
Qed.

Lemma was_required_by_subseteq s deleted q :
  q ∈ was_required_by s deleted -> q ∈ PyDict.values (all_packages_dict s).
Proof.
  unfold was_required_by. rewrite list_elem_of_In, in_flat_map.
  intros (d & _ & Hq). destruct (required_by d) as [names|]; [|done].
  apply list_elem_of_In, list_elem_of_omap in Hq as (n & _ & Hget).
  apply get_Some_elem in Hget. unfold PyDict.values.
  apply list_elem_of_fmap. by exists (n, q).
Qed.

Lemma name_elem (q : Package) (l : list Package) : q ∈ l -> name q ∈ map name l.
Proof. intros Hq. apply list_elem_of_fmap. by exists q. Qed.

(** [while to_delete_packages or deleted_packages]: never a [KeyError]; the
    system returned is built by the constructor from what is left, and the
    packages to delete are gone. *)
Lemma cascade_ok fuel :
  forall s L to_delete deleted,
  mkSystem L = Done s -> NoDup (map name to_delete) -> to_delete ⊆ L ->
  match cascade fuel s to_delete deleted with
  | Done s' =>
      exists L', mkSystem L' = Done s' /\ L' `sublist_of` L
                 /\ (forall q, q ∈ to_delete -> q ∉ L')
  | Raised _ => False
  | OutOfFuel => True
  end.
Proof.
  induction fuel as [|fuel IH]; intros s L td deleted HS Htd Hsub; simpl.
  - destruct (nonempty td || nonempty deleted) eqn:Hne; [done|].
    exists L. repeat split; [done|done|].
    destruct td; [|done]. intros q Hq. by apply elem_of_nil in Hq.
  - destruct (nonempty td || nonempty deleted) eqn:Hne.
    2:{ exists L. repeat split; [done|done|].
        destruct td; [|done]. intros q Hq. by apply elem_of_nil in Hq. }
    pose proof (mkSystem_all_packages_dict _ _ HS) as [Hd Hnd].
    destruct (del_packages_entries td s L Hd Hnd Htd) as (s1 & Hs1 & Hd1).
    { intros p Hp. apply name_elem. by apply Hsub. }
    rewrite Hs1. simpl. rewrite Hd1, values_entries.
    set (L1 := filter (fun q => name q ∉ map name td) L) in *.
    destruct (mkSystem_NoDup L1) as [s2 Hs2];
      [by apply NoDup_name_filter|].
    rewrite Hs2. simpl.
    specialize (IH s2 L1
      (unfulfilled s2 (was_required_by s2 (deleted ++ td))) [] Hs2).
    assert (Hsub2 : unfulfilled s2 (was_required_by s2 (deleted ++ td)) ⊆ L1).
    { intros q Hq%unfulfilled_subseteq%was_required_by_subseteq.
      by rewrite (mkSystem_values _ _ Hs2) in Hq. }
    destruct (cascade fuel s2 _ []) as [s'|e|].
    + destruct IH as (L' & HL' & Hsl & _); [|done|].
      { eapply NoDup_key_name; [|done|apply unfulfilled_NoDup_key].
        by apply NoDup_name_filter. }
      exists L'. split; [done|]. split.
      * etrans; [done|apply sublist_filter].
      * intros q Hq Hq'. eapply elem_of_sublist in Hq'; [|done].
        apply list_elem_of_filter in Hq' as [Hn _]. apply Hn. by apply name_elem.
    + apply IH; [|done].
      eapply NoDup_key_name; [|done|apply unfulfilled_NoDup_key].
      by apply NoDup_name_filter.
    + done.
Qed.

(** The final loop: never a [KeyError]; it ends with a system built by the
    constructor in which no incoming package is left with an unfulfilled
    dependency. *)
Lemma recheck_ok fuel packages :
  NoDup (map name packages) ->
  forall s L,
  mkSystem L = Done s ->
  match recheck fuel s packages with
  | Done s' =>
      exists L', mkSystem L' = Done s' /\ L' `sublist_of` L
                 /\ unfulfilled_incoming s' packages = []
  | Raised _ => False
  | OutOfFuel => True
  end.
Proof.
  intros Hps. induction fuel as [|fuel IH]; intros s L HS; simpl; [done|].
  destruct (unfulfilled_incoming s packages) as [|p0 td0] eqn:Htd.
  { simpl. by exists L. }
  rewrite <- Htd. cbn [nonempty].
  assert (Hne : nonempty (unfulfilled_incoming s packages) = true)
    by by rewrite Htd.
  rewrite Hne. clear Hne Htd p0 td0.
  pose proof (mkSystem_all_packages_dict _ _ HS) as [Hd Hnd].
  destruct (del_packages_entries (unfulfilled_incoming s packages) s L Hd Hnd)
    as (s1 & Hs1 & Hd1).
  { by apply NoDup_name_filter. }
  { intros p [[Hmem _] _]%list_elem_of_filter. rewrite Hd in Hmem.
    by apply mem_entries. }
  rewrite Hs1. simpl. rewrite Hd1, values_entries.
  set (L1 := filter (fun q => name q ∉ map name (unfulfilled_incoming s packages)) L)
    in *.
  destruct (mkSystem_NoDup L1) as [s2 Hs2]; [by apply NoDup_name_filter|].
  rewrite Hs2. simpl. specialize (IH s2 L1 Hs2).
  destruct (recheck fuel s2 packages) as [s'|e|]; [|done|done].
  destruct IH as (L' & HL' & Hsl & Hun).
  exists L'. split; [done|]. split; [|done].
  etrans; [done|apply sublist_filter].
Qed.

Lemma pkg_set_complete l q : q ∈ l -> pkg_in q (pkg_set l) = true.
Proof. intros Hq. rewrite pkg_in_pkg_set. by apply pkg_in_elem. Qed.

(** The whole of [hypothetical_append_packages_to_system] on a system built
    by the constructor. *)
Lemma hypothetical_append_ok fuel l self packages :
  mkSystem l = Done self ->
  match hypothetical_append_packages_to_system fuel self packages with
  | Done S' =>
      NoDup (map name packages)
      /\ exists L',
           mkSystem L' = Done S'
           /\ L' `sublist_of`
                (filter (fun q => name q ∉ map name packages) l ++ packages)
           /\ unfulfilled_incoming S' packages = []
           /\ (forall p q, p ∈ packages -> q ∈ L' -> in_conflict p q = true ->
                           q ∈ packages)
  | Raised _ => ~ NoDup (map name packages)
  | OutOfFuel => True
  end.
Proof.
  intros HS. unfold hypothetical_append_packages_to_system.
  pose proof (mkSystem_all_packages_dict _ _ HS) as [Hd Hnd].
  destruct (displace_entries packages self l [] Hd Hnd)
    as (s1 & deleted & Hs1 & Hd1).
  rewrite Hs1. simpl. rewrite Hd1, values_entries.
  set (l1 := filter (fun q => name q ∉ map name packages) l) in *.
  assert (Hnd1 : NoDup (map name l1)) by by apply NoDup_name_filter.
  destruct (mkSystem_NoDup l1 Hnd1) as [s2 Hs2]. rewrite Hs2. simpl.
  rewrite (append_packages_mkSystem _ _ _ Hs2).
  destruct (mkSystem (l1 ++ packages)) as [s3|e|] eqn:Hs3; simpl.
  3:{ by apply mkSystem_terminates in Hs3. }
  2:{ intros Hps. destruct (mkSystem_NoDup (l1 ++ packages)) as [s3 Hs3'];
        [|congruence].
      rewrite map_app. apply NoDup_app. split; [done|]. split; [|done].
      intros n Hn Hn'. apply list_elem_of_fmap in Hn as (q & -> & Hq).
      by apply list_elem_of_filter in Hq as [Hq _]. }
  pose proof (mkSystem_all_packages_dict _ _ Hs3) as [_ Hnd3].
  assert (Hps : NoDup (map name packages)).
  { rewrite map_app in Hnd3. by apply NoDup_app in Hnd3 as (_ & _ & ?). }
  set (td := pkg_set (flat_map (conflicting_with s2) packages)).
  assert (Htd1 : td ⊆ l1).
  { intros q Hq%pkg_set_elem. apply list_elem_of_In, in_flat_map in Hq
      as (p & _ & Hq%list_elem_of_In).
    by eapply conflicting_with_visited. }
  assert (Htd : NoDup (map name td)).
  { eapply NoDup_key_name; [exact Hnd1|done|apply pkg_set_NoDup_key]. }
  pose proof (cascade_ok fuel s3 (l1 ++ packages) td deleted Hs3 Htd) as Hc.
  destruct (cascade fuel s3 td deleted) as [s4|e|]; simpl; [| |done].
  2:{ exfalso. apply Hc. intros q Hq. apply elem_of_app. left. by apply Htd1. }
  destruct Hc as (L4 & HL4 & Hsub4 & Hgone).
  { intros q Hq. apply elem_of_app. left. by apply Htd1. }
  pose proof (recheck_ok fuel packages Hps s4 L4 HL4) as Hr.
  destruct (recheck fuel s4 packages) as [S'|e|]; [|done|done].
  destruct Hr as (L' & HL' & Hsub' & Hun).
  split; [done|]. exists L'. split; [done|]. split; [by etrans|].
  split; [done|].
  intros p q Hp Hq Hconf.
  assert (Hq4 : q ∈ L4) by by eapply elem_of_sublist.
  pose proof (elem_of_sublist _ _ _ Hq4 Hsub4) as Hq3.
  apply elem_of_app in Hq3 as [Hq1|Hq3]; [|done].
  exfalso. apply (Hgone q); [|done].
  assert (Hin : pkg_in q td = true).
  { apply pkg_set_complete, list_elem_of_In, in_flat_map. exists p.
    split; [by apply list_elem_of_In|].
    apply list_elem_of_In. by eapply conflicting_with_complete. }
  apply pkg_in_true in Hin as (q' & Hq' & Heq).
  by rewrite (mkSystem_pkg_eqb _ _ _ _ Hs2 Hq1 (Htd1 _ Hq') Heq).
Qed.

(** What the hypothetical append raises: the error of [append_packages]
    for the first incoming package whose name repeats that of an earlier
    incoming one. *)
Lemma hypothetical_append_Raised fuel l self packages e :
  mkSystem l = Done self ->
  hypothetical_append_packages_to_system fuel self packages = Raised e ->
  exists l1 p l2,
    packages = l1 ++ p :: l2 /\ e = PackageAlreadyKnown p
    /\ NoDup (map name l1) /\ name p ∈ map name l1.
Proof.
  intros HS Hraise.
  pose proof (hypothetical_append_ok fuel l self packages HS) as Hok.
  rewrite Hraise in Hok. revert Hraise.
  unfold hypothetical_append_packages_to_system.
  pose proof (mkSystem_all_packages_dict _ _ HS) as [Hd Hnd].
  destruct (displace_entries packages self l [] Hd Hnd)
    as (s1 & deleted & Hs1 & Hd1).
  rewrite Hs1. simpl. rewrite Hd1, values_entries.
  set (k := filter (fun q => name q ∉ map name packages) l) in *.
  assert (Hndk : NoDup (map name k)) by by apply NoDup_name_filter.
  destruct (mkSystem_NoDup k Hndk) as [s2 Hs2]. rewrite Hs2. simpl.
  rewrite (append_packages_mkSystem _ _ _ Hs2).
  destruct (mkSystem (k ++ packages)) as [s3|e'|] eqn:Hs3; simpl.
  - intros _. exfalso. apply Hok.
    pose proof (mkSystem_all_packages_dict _ _ Hs3) as [_ Hnd3].
    rewrite map_app in Hnd3. by apply NoDup_app in Hnd3 as (_ & _ & ?).
  - intros [= ->]. revert Hs3. unfold mkSystem, append_packages.
    destruct (append_packages_loop empty_system (k ++ packages))
      as [s' [e'|]] eqn:Hloop; [|done].
    intros [= ->].
    apply append_packages_loop_Some in Hloop
      as (L1 & p & L2 & Hsplit & -> & HL1 & Hp).
    apply append_packages_loop_ok in HL1 as (Hd' & _ & _ & HndL1 & _).
    rewrite Hd' in Hp. simpl in Hp. apply mem_entries in Hp.
    assert (Hfresh : forall q, q ∈ k -> name q ∉ map name packages).
    { intros q Hq. by apply list_elem_of_filter in Hq as [Hq _]. }
    clearbody k.
    apply app_eq_inv in Hsplit as [(m & Hk & Hm)|(m & HL1 & Hm)].
    + exfalso. destruct m as [|p' m]; simpl in Hm.
      * rewrite app_nil_r in Hk. subst L1.
        apply list_elem_of_fmap in Hp as (q & Hn & Hq).
        apply (Hfresh q Hq). rewrite <- Hn, <- Hm.
        apply list_elem_of_fmap. exists p. split; [done|left].
      * injection Hm as <- Hm. rewrite Hk, map_app in Hndk.
        apply NoDup_app in Hndk as (_ & Hdisj & _). apply (Hdisj (name p) Hp).
        simpl. left.
    + subst L1. exists m, p, L2. split; [done|]. split; [done|].
      rewrite map_app in HndL1. apply NoDup_app in HndL1 as (_ & _ & Hndm).
      split; [done|]. rewrite map_app in Hp.
      apply elem_of_app in Hp as [Hp|Hp]; [|done]. exfalso.
      apply list_elem_of_fmap in Hp as (q & Hn & Hq).
      apply (Hfresh q Hq). rewrite <- Hn, Hm.
      apply list_elem_of_fmap. exists p. split; [done|].
      apply elem_of_app. right. left.
  - done.
Qed.

(** On a system built by the constructor, and with a budget above twice the
    number of packages involved, the hypothetical append returns a system
    exactly when the incoming packages have pairwise distinct names.
    Otherwise it raises the error of [append_packages], for the first
    incoming package whose name repeats that of an earlier incoming one; in
    particular no [del] statement ever raises a [KeyError]. *)
Theorem hypothetical_append_returns_iff_distinct_names fuel l self packages :
  mkSystem l = Done self ->
  2 * (length (all_packages_dict self) + length packages) + 1 < fuel ->
  ((exists S', hypothetical_append_packages_to_system fuel self packages = Done S')
   <-> NoDup (map name packages))
  /\ (forall e,
        hypothetical_append_packages_to_system fuel self packages = Raised e ->
        exists l1 p l2,
          packages = l1 ++ p :: l2 /\ e = PackageAlreadyKnown p
          /\ NoDup (map name l1) /\ name p ∈ map name l1)
  /\ (forall k,
        hypothetical_append_packages_to_system fuel self packages
        <> Raised (KeyError k)).
Proof.
  intros HS Hfuel.
  pose proof (hypothetical_append_ok fuel l self packages HS) as Hok.
  pose proof (hypothetical_append_terminates fuel self packages Hfuel) as Ht.
  pose proof (hypothetical_append_Raised fuel l self packages) as Hr.
  destruct (hypothetical_append_packages_to_system fuel self packages)
    as [S'|e|]; [| |done].
  - destruct Hok as [Hps _]. split; [|done]. split; [done|]. intros _.
    by exists S'.
  - split; [|split].
    + split; [by intros [S' ?]|done].
    + intros e' [= <-]. by apply Hr.
    + intros k [= ->].
      by destruct (Hr _ HS eq_refl) as (l1 & p & l2 & _ & He & _).
Qed.

(** The system returned is built by the constructor, so that its indexes
    agree with its packages; its packages are installed packages that share
    no name with an incoming one, followed by incoming packages, in their
    order. *)
Theorem hypothetical_append_builds_a_system fuel l self packages S' :
  mkSystem l = Done self ->
  hypothetical_append_packages_to_system fuel self packages = Done S' ->
  mkSystem (PyDict.values (all_packages_dict S')) = Done S'
  /\ PyDict.values (all_packages_dict S')
       `sublist_of` (filter (fun q => name q ∉ map name packages) l ++ packages).
Proof.
  intros HS Hret.
  pose proof (hypothetical_append_ok fuel l self packages HS) as Hok.
  rewrite Hret in Hok. destruct Hok as (_ & L' & HL' & Hsub & _).
  by rewrite (mkSystem_values _ _ HL').
Qed.

(** An incoming package whose name is still known to the system returned is
    itself what the system holds under that name, and all its dependencies
    are fulfilled there. *)
Theorem hypothetical_append_keeps_fulfilled_packages fuel l self packages S' p q :
  mkSystem l = Done self ->
  hypothetical_append_packages_to_system fuel self packages = Done S' ->
  p ∈ packages -> PyDict.get (all_packages_dict S') (name p) = Some q ->
  q = p /\ are_all_deps_fulfilled S' p = true.
Proof.
  intros HS Hret Hp Hget.
  pose proof (hypothetical_append_ok fuel l self packages HS) as Hok.
  rewrite Hret in Hok. destruct Hok as (Hps & L' & HL' & Hsub & Hun & _).
  split.
  - apply (mkSystem_get _ _ _ _ HL') in Hget as [Hq Hn].
    eapply elem_of_sublist in Hq; [|done].
    apply elem_of_app in Hq as [Hq|Hq].
    + apply list_elem_of_filter in Hq as [Hq _]. exfalso. apply Hq.
      rewrite Hn. by apply name_elem.
    + by eapply NoDup_name_inj.
  - destruct (are_all_deps_fulfilled S' p) eqn:Hf; [done|].
    assert (Hin : p ∈ unfulfilled_incoming S' packages).
    { apply list_elem_of_filter. split; [|done]. split; [|done].
      unfold PyDict.mem. by rewrite Hget. }
    rewrite Hun in Hin. by apply elem_of_nil in Hin.
Qed.

(** In the system returned, whatever conflicts with an incoming package is
    itself incoming: the installed packages in conflict with the plan have
    been removed. *)
Theorem hypothetical_append_removes_conflicting_packages fuel l self packages
    S' p q :
  mkSystem l = Done self ->
  hypothetical_append_packages_to_system fuel self packages = Done S' ->
  p ∈ packages -> q ∈ conflicting_with S' p -> q ∈ packages.
Proof.
  intros HS Hret Hp Hq.
  pose proof (hypothetical_append_ok fuel l self packages HS) as Hok.
  rewrite Hret in Hok. destruct Hok as (_ & L' & HL' & _ & _ & Hconf).
  pose proof (conflicting_with_sound _ _ _ _ HL' Hq) as [Hq' Hc]. eauto.
Qed.

(** Appending no package to a system built by the constructor gives that
    system back. *)
Theorem hypothetical_append_of_nothing fuel l self :
  mkSystem l = Done self ->
  hypothetical_append_packages_to_system (S fuel) self [] = Done self.
Proof.
  intros HS. unfold hypothetical_append_packages_to_system.
  cbn [displace mbind outcome_bind].
  rewrite (mkSystem_values _ _ HS), HS. cbn [mbind outcome_bind].
  rewrite (append_packages_mkSystem _ _ _ HS), app_nil_r, HS. done.
Qed.


(** ** What the solver does to a solution *)

Lemma solution_extends_refl s : solution_extends s s.
Proof. split; [done|]. split; [done|]. by split. Qed.

Lemma solution_extends_trans s1 s2 s3 :
  solution_extends s1 s2 -> solution_extends s2 s3 -> solution_extends s1 s3.
Proof.
  intros (H1 & H2 & H3 & H4) (H1' & H2' & H3' & H4').
  split; [set_solver|]. split; [auto|]. split; by etrans.
Qed.

Lemma solution_extends_push self b s : solution_extends s (push_self self b s).
Proof.
  unfold push_self. split; [done|]. simpl. split; [by destruct b|].
  split; [done|by apply prefix_app_r].
Qed.

Lemma solution_extends_flag dep s : solution_extends s (flag_not_provided dep s).
Proof.
  unfold flag_not_provided. case_bool_decide; [apply solution_extends_refl|].
  split; [simpl; set_solver|]. simpl. split; [done|]. by split.
Qed.

Lemma solution_extends_learn dep s : solution_extends s (learn_dep dep s).
Proof.
  unfold learn_dep. split; [simpl; set_solver|]. simpl. split; [done|].
  by split.
Qed.

Lemma solution_extends_select self s : solution_extends s (select_self self s).
Proof.
  unfold select_self. split; [done|]. simpl. split; [done|].
  split; [by apply prefix_app_r|done].
Qed.

Lemma extends_rules installed_system upstream_system only_unfulfilled_deps :
  solver_rules installed_system upstream_system only_unfulfilled_deps
    (fun _ _ _ => True) (fun _ _ s s' => solution_extends s s')
    (fun _ _ s _ cur => solution_extends s cur) (fun _ => True).
Proof.
  split.
  - intros. apply solution_extends_refl.
  - intros. apply solution_extends_refl.
  - intros. apply solution_extends_push.
  - intros St self s seen dep cur Hinv _ _. exact Hinv.
  - intros St self s seen dep cur Hinv _.
    eapply solution_extends_trans; [done|apply solution_extends_flag].
  - intros St self s seen dep cur Hinv _. exact Hinv.
  - intros St self s seen dep cur sys Hinv _ _ _.
    eapply solution_extends_trans; [done|apply solution_extends_learn].
  - done.
  - intros St self s seen dep cur q s' Hinv _ _ _ Hpost.
    eapply solution_extends_trans; [done|].
    eapply solution_extends_trans; [apply solution_extends_learn|done].
  - intros St self s cur Hinv.
    eapply solution_extends_trans; [done|apply solution_extends_select].
  - done.
  - done.
  - done.
  - done.
Qed.

(** Every solution the solver returns for a package extends the solution it
    was given: the packages selected and visited so far stay as a prefix,
    no known dependency is forgotten, and an invalid solution is never
    turned into a valid one. *)
Theorem solver_only_extends_solutions installed_system upstream_system
    only_unfulfilled_deps deps_to_deep_check fuel self s fp sols fp' :
  solutions_for_dep_problem installed_system upstream_system
    only_unfulfilled_deps deps_to_deep_check fuel self s fp = Done (sols, fp') ->
  Forall (solution_extends s) sols.
Proof.
  intros Hrun.
  by eapply (solver_ok _ _ _ deps_to_deep_check _ _ _ _
               (extends_rules installed_system upstream_system
                  only_unfulfilled_deps) fuel [] self s fp) in Hrun as [? _].
Qed.

(** ** The plans of [dep_solving] *)

Lemma pkg_eqb_trans p q r :
  pkg_eqb p q = true -> pkg_eqb q r = true -> pkg_eqb p r = true.
Proof. rewrite !pkg_eqb_true. intros [-> ->] [-> ->]. done. Qed.

Lemma pkg_in_eqb p q l :
  pkg_eqb p q = true -> pkg_in q l = true -> pkg_in p l = true.
Proof.
  intros Heq (x & Hx & Hqx)%pkg_in_true. apply pkg_in_true. exists x.
  split; [done|]. by eapply pkg_eqb_trans.
Qed.

Lemma pkg_in_subseteq p (l1 l2 : list Package) :
  (forall x, x ∈ l1 -> x ∈ l2) -> pkg_in p l1 = true -> pkg_in p l2 = true.
Proof.
  intros Hsub (x & Hx & Hpx)%pkg_in_true. apply pkg_in_true. exists x. auto.
Qed.

Lemma plan_state_same St s s' :
  packages_in_solution s' = packages_in_solution s ->
  visited_packages s' = visited_packages s ->
  (is_valid s' = true -> is_valid s = true) ->
  plan_state St s -> plan_state St s'.
Proof.
  intros Hp Hv Hval (HV & HS & HN & HP).
  unfold plan_state, plan_visited, plan_selected, plan_names, plan_peace.
  rewrite Hp, Hv. repeat split; auto; apply HS.
Qed.

Lemma plan_fresh_same s cur cur' :
  packages_in_solution cur' = packages_in_solution cur ->
  plan_fresh s cur -> plan_fresh s cur'.
Proof. unfold plan_fresh. by intros ->. Qed.

Lemma plan_inv_same St self s seen seen' cur cur' :
  packages_in_solution cur' = packages_in_solution cur ->
  visited_packages cur' = visited_packages cur ->
  (is_valid cur' = true -> is_valid cur = true) ->
  visited_names cur ⊆ visited_names cur' ->
  plan_inv St self s seen cur -> plan_inv St self s seen' cur'.
Proof.
  intros Hp Hv Hval Hn (Hst & Hext & Hfr & Hs & Hin & Hout).
  unfold plan_inv. rewrite Hp, Hv.
  split; [by eapply plan_state_same|]. split.
  { eapply solution_extends_trans; [done|]. unfold solution_extends.
    rewrite Hp, Hv. done. }
  split; [by eapply plan_fresh_same|done].
Qed.

Lemma plan_rules installed_system upstream_system only_unfulfilled_deps :
  solver_rules installed_system upstream_system only_unfulfilled_deps
    plan_pre plan_post plan_inv (fun _ => True).
Proof.
  split; [| | | | | | | | | |done|done|done|done].
  - (* already selected *)
    intros St self s Hpre Hsel. split; [done|].
    split; [apply solution_extends_refl|]. split; [|by left].
    intros p Hp. left. by apply pkg_in_elem.
  - (* a repo package met again *)
    intros St self s Hpre Hsel Hvis _. split; [done|].
    split; [apply solution_extends_refl|]. split.
    { intros p Hp. left. by apply pkg_in_elem. }
    right. destruct Hpre as (HV & _).
    apply pkg_in_true in Hvis as (v & Hv & Heq).
    destruct (HV v Hv) as [Hv'|Hv'].
    + assert (pkg_in self (packages_in_solution s) = true); [|congruence].
      apply pkg_in_true. by exists v.
    + apply pkg_in_true. by exists v.
  - (* push *)
    intros St self s sys (HV & [HA HB] & HN & HP) Hvis Hsys.
    pose proof (mkSystem_all_packages_dict _ _ Hsys) as [_ Hnd].
    assert (Hcalm : nonempty (conflicting_with sys self) = false ->
                    forall q, q ∈ visited_packages s -> in_conflict self q = false).
    { intros Hne q Hq. destruct (in_conflict self q) eqn:Hc; [|done].
      pose proof (conflicting_with_complete _ _ _ _ Hsys Hq Hc) as Hin.
      destruct (conflicting_with sys self); [by apply elem_of_nil in Hin|done]. }
    unfold plan_inv, plan_state, plan_visited, plan_selected, plan_names,
      plan_peace, push_self. simpl.
    split; [split; [|split; [|split]]|].
    + intros p [Hp|Hp%list_elem_of_singleton]%elem_of_app.
      * destruct (HV p Hp); [by left|]. right. apply elem_of_app. by left.
      * subst. right. apply elem_of_app. right. left.
    + split; [done|]. intros p Hp. apply elem_of_app. left. by apply HB.
    + destruct (nonempty (conflicting_with sys self)) eqn:Hne; [done|].
      intros Hval. rewrite map_app. apply NoDup_app. split; [done|].
      split; [|apply NoDup_singleton].
      intros n Hn Hn'%list_elem_of_singleton. subst n.
      apply list_elem_of_fmap in Hn as (q & Hn & Hq).
      pose proof (Hcalm eq_refl q Hq) as Hc. unfold in_conflict in Hc.
      apply orb_false_iff in Hc as [[Hc _]%orb_false_iff _].
      rewrite Hn, bool_decide_true in Hc by done. simpl in Hc.
      apply negb_false_iff, bool_decide_eq_true in Hc.
      assert (pkg_in self (visited_packages s) = true); [|congruence].
      apply pkg_in_true. exists q. split; [done|]. by apply pkg_eqb_true.
    + destruct (nonempty (conflicting_with sys self)) eqn:Hne; [done|].
      intros Hval p q [Hp|Hp%list_elem_of_singleton]%elem_of_app
        [Hq|Hq%list_elem_of_singleton]%elem_of_app Hpq.
      * by apply HP.
      * subst q. rewrite in_conflict_sym. by apply Hcalm.
      * subst p. by apply Hcalm.
      * congruence.
    + split; [apply (solution_extends_push self _ s)|].
      split; [intros p Hp; left; by apply pkg_in_elem|].
      split; [done|]. split; [apply elem_of_app; right; left|].
      destruct (pkg_in self (packages_in_solution s)) eqn:Hin; [|done].
      rewrite <- Hvis. symmetry. by eapply pkg_in_subseteq.
  - (* fulfilled by the installed system *)
    intros St self s seen dep cur Hinv _ _. by eapply plan_inv_same.
  - (* no provider *)
    intros St self s seen dep cur Hinv _.
    unfold flag_not_provided. case_bool_decide; [by eapply plan_inv_same|].
    eapply plan_inv_same; [..|exact Hinv]; simpl; [done|done|done|set_solver].
  - (* known *)
    intros St self s seen dep cur Hinv _. by eapply plan_inv_same.
  - (* provided by a selected package *)
    intros St self s seen dep cur sys Hinv _ _ _.
    eapply plan_inv_same; [..|exact Hinv]; simpl; [done|done|done|set_solver].
  - (* the recursive call *)
    intros St self s seen dep cur q (Hst & _) _ _ _.
    by eapply plan_state_same.
  - (* and its return *)
    intros St self s seen dep cur q s'
      (Hst & Hext & Hfr & Hs & Hin & Hout) _ _ _ (Hst' & Hext' & Hfr' & _).
    assert (Hext2 : solution_extends cur s').
    { eapply solution_extends_trans; [apply (solution_extends_learn dep)|done]. }
    split; [done|]. split; [by eapply solution_extends_trans|].
    split; [|split; [done|split]].
    + intros p Hp. destruct (Hfr' p Hp) as [Hp'|Hp']; simpl in Hp'.
      * apply pkg_in_true in Hp' as (x & Hx & Heq).
        destruct (Hfr x Hx) as [Hx'|Hx'].
        -- left. by eapply pkg_in_eqb.
        -- right. destruct (pkg_in p (visited_packages s)) eqn:Hpv; [|done].
           rewrite <- Hx'. symmetry. eapply pkg_in_eqb; [|done].
           by rewrite pkg_eqb_sym.
      * right. destruct (pkg_in p (visited_packages s)) eqn:Hpv; [|done].
        rewrite <- Hp'. symmetry. eapply pkg_in_prefix; [|done].
        apply Hext.
    + eapply elem_of_prefix; [apply Hext2|done].
    + destruct (pkg_in self (packages_in_solution s')) eqn:Hsel; [|done].
      apply pkg_in_true in Hsel as (x & Hx & Heq).
      destruct (Hfr' x Hx) as [Hx'|Hx']; simpl in Hx'.
      * rewrite <- Hout. symmetry. by eapply pkg_in_eqb.
      * rewrite <- Hx'. symmetry. apply pkg_in_true. exists self.
        split; [done|]. by rewrite pkg_eqb_sym.
  - (* select *)
    intros St self s cur ((HV & [HA HB] & HN & HP) & Hext & Hfr & Hs & Hin & Hout).
    unfold plan_post, plan_state, plan_visited, plan_selected, plan_names,
      plan_peace, select_self. simpl.
    split; [split; [|split; [|split]]|]; [| |done|done|].
    + intros p Hp. destruct (HV p Hp) as [Hp'|Hp'].
      * left. apply elem_of_app. by left.
      * apply elem_of_app in Hp' as [Hp'|Hp'%list_elem_of_singleton];
          [by right|]. subst. left. apply elem_of_app. right. left.
    + split.
      * rewrite map_app. apply NoDup_app. split; [done|].
        split; [|apply NoDup_singleton].
        intros k Hk Hk'%list_elem_of_singleton. subst k.
        by apply (pkg_in_false_key _ _ Hout).
      * intros p [Hp|Hp%list_elem_of_singleton]%elem_of_app; [by apply HB|].
        by subst.
    + split.
      { eapply solution_extends_trans; [done|].
        apply (solution_extends_select self cur). }
      split.
      * intros p [Hp|Hp%list_elem_of_singleton]%elem_of_app; [by apply Hfr|].
        subst. by right.
      * left. rewrite pkg_in_app. simpl. by rewrite pkg_eqb_refl, orb_true_r.
Qed.

Lemma plan_state_initial : plan_state [] initial_solution.
Proof.
  repeat split; simpl.
  - intros p Hp. by apply elem_of_nil in Hp.
  - apply NoDup_nil_2.
  - intros p Hp. by apply elem_of_nil in Hp.
  - intros _. apply NoDup_nil_2.
  - intros _ p q Hp. by apply elem_of_nil in Hp.
Qed.

Section PlanLoops.
Variables installed_system upstream_system : System.
Variable only_unfulfilled_deps : bool.

Lemma expand_package_plan deep fuel p handled curs :
  forall acc fp acc' fp',
  Forall (plan_top handled) curs -> Forall (plan_top (handled ++ [p])) acc ->
  expand_package installed_system upstream_system only_unfulfilled_deps
    deep fuel p curs acc fp = Done (acc', fp') ->
  Forall (plan_top (handled ++ [p])) acc'.
Proof.
  induction curs as [|s curs IH]; intros acc fp acc' fp' Hcurs Hacc; simpl.
  - by intros [= <- <-].
  - intros ([sols fp1] & Hrun & Hk)%bind_Done.
    apply Forall_cons in Hcurs as [[Hs Hh] Hcurs].
    eapply (solver_ok _ _ _ deep _ _ _ _
              (plan_rules installed_system upstream_system
                 only_unfulfilled_deps) fuel [] p s fp) in Hrun as [Hsols _];
      [|done|done].
    eapply IH; [done| |exact Hk].
    apply Forall_app. split; [done|].
    eapply Forall_impl; [exact Hsols|]. simpl.
    intros s' (Hst & Hext & _ & Hsel). split; [done|].
    intros x [Hx|Hx%list_elem_of_singleton]%elem_of_app.
    + eapply pkg_in_prefix; [apply Hext|]. by apply Hh.
    + subst x. by destruct Hsel.
Qed.

Lemma calc_solutions_plan deep fuel ps :
  forall handled curs fp curs' fp',
  Forall (plan_top handled) curs ->
  calc_solutions installed_system upstream_system only_unfulfilled_deps
    deep fuel ps curs fp = Done (curs', fp') ->
  Forall (plan_top (handled ++ ps)) curs'.
Proof.
  induction ps as [|p ps IH]; intros handled curs fp curs' fp' Hcurs; simpl.
  - intros [= <- <-]. by rewrite app_nil_r.
  - intros ([curs1 fp1] & Hexp & Hk)%bind_Done.
    eapply expand_package_plan in Hexp; [|done|constructor].
    eapply IH in Hk; [|done]. by rewrite <- app_assoc in Hk.
Qed.

Lemma dep_solving_loop_plan passes fuel packages :
  forall curs fp deep curs' fp',
  Forall (plan_top []) curs ->
  dep_solving_loop passes fuel packages installed_system upstream_system
    only_unfulfilled_deps curs fp deep = Done (curs', fp') ->
  Forall (fun s => plan_top packages s /\ is_valid s = true) curs'.
Proof.
  induction passes as [|passes IH]; intros curs fp deep curs' fp' Hcurs; simpl;
    [done|].
  intros ([curs1 fp1] & Hcalc & Hrest)%bind_Done.
  eapply calc_solutions_plan in Hcalc; [|done]. simpl in Hcalc.
  assert (Hfilter : Forall (fun s => plan_top packages s /\ is_valid s = true)
                      (filter (fun s => is_valid s = true) curs1)).
  { apply Forall_forall. intros x [Hv Hx]%list_elem_of_filter. split; [|done].
    rewrite Forall_forall in Hcalc. by apply Hcalc. }
  destruct (nonempty (filter (fun s => is_valid s = true) curs1)).
  { by injection Hrest as <- <-. }
  case_bool_decide.
  { by injection Hrest as <- <-. }
  eapply IH; [|exact Hrest]. apply Forall_singleton. split.
  - apply plan_state_initial.
  - intros x Hx. by apply elem_of_nil in Hx.
Qed.

Lemma dep_solving_plan passes fuel packages r P :
  dep_solving passes fuel packages installed_system upstream_system
    only_unfulfilled_deps = Done r ->
  P ∈ plans r ->
  exists s, P = packages_in_solution s /\ plan_top packages s
            /\ is_valid s = true.
Proof.
  unfold dep_solving. intros ([curs fp] & Hloop & Hr)%bind_Done.
  injection Hr as <-. simpl. intros (s & -> & Hs)%list_elem_of_fmap.
  eapply dep_solving_loop_plan in Hloop.
  - rewrite Forall_forall in Hloop. destruct (Hloop s Hs). by exists s.
  - apply Forall_singleton. split; [apply plan_state_initial|].
    intros x Hx. by apply elem_of_nil in Hx.
Qed.

Lemma plan_NoDup s : plan_state [] s -> NoDup (packages_in_solution s).
Proof. intros (_ & [HA _] & _). by eapply NoDup_fmap_1. Qed.

Lemma plan_distinct_names s :
  plan_state [] s -> is_valid s = true ->
  NoDup (map name (packages_in_solution s)).
Proof.
  intros Hst Hv. pose proof (plan_NoDup _ Hst) as Hnd.
  destruct Hst as (_ & [_ HB] & HN & _).
  apply NoDup_fmap_2_strong; [|done].
  intros x y Hx Hy Hn. eapply NoDup_name_inj; eauto.
Qed.

(** Every plan [dep_solving] returns contains every requested package. *)
Theorem plans_contain_the_requested_packages passes fuel packages r P p :
  dep_solving passes fuel packages installed_system upstream_system
    only_unfulfilled_deps = Done r ->
  P ∈ plans r -> p ∈ packages -> pkg_in p P = true.
Proof.
  intros Hrun HP Hp.
  destruct (dep_solving_plan _ _ _ _ _ Hrun HP) as (s & -> & [_ Hall] & _).
  by apply Hall.
Qed.

(** The packages of a returned plan have pairwise distinct names: no plan
    holds a package twice, or two versions of one package, so that a system
    can be built from it. *)
Theorem plans_have_distinct_names passes fuel packages r P :
  dep_solving passes fuel packages installed_system upstream_system
    only_unfulfilled_deps = Done r ->
  P ∈ plans r -> NoDup (map name P) /\ exists S, mkSystem P = Done S.
Proof.
  intros Hrun HP.
  destruct (dep_solving_plan _ _ _ _ _ Hrun HP) as (s & -> & [Hst _] & Hv).
  pose proof (plan_distinct_names _ Hst Hv) as Hnd.
  split; [done|by apply mkSystem_NoDup].
Qed.

(** No two packages of a returned plan are in conflict with each other. *)
Theorem plans_are_free_of_conflicts passes fuel packages r P i j p q :
  dep_solving passes fuel packages installed_system upstream_system
    only_unfulfilled_deps = Done r ->
  P ∈ plans r -> P !! i = Some p -> P !! j = Some q -> i <> j ->
  in_conflict p q = false.
Proof.
  intros Hrun HP Hi Hj Hij.
  destruct (dep_solving_plan _ _ _ _ _ Hrun HP) as (s & -> & [Hst _] & Hv).
  pose proof (plan_NoDup _ Hst) as Hnd.
  destruct Hst as (_ & [_ HB] & _ & Hpeace).
  apply Hpeace; [done| | |].
  - apply HB. by eapply list_elem_of_lookup_2.
  - apply HB. by eapply list_elem_of_lookup_2.
  - intros ->. apply Hij. by eapply NoDup_lookup.
Qed.
End PlanLoops.


(** ** What the plan selector returns *)

Lemma find_valid_systems_indices needed_packages new_systems :
  forall i,
  length (find_valid_systems i new_systems needed_packages).1
  = length (find_valid_systems i new_systems needed_packages).2
  /\ forall k, k ∈ (find_valid_systems i new_systems needed_packages).2 ->
       i <= k
       /\ exists sys, new_systems !! (k - i) = Some sys
                      /\ contains_needed needed_packages sys = true.
Proof.
  induction new_systems as [|sys0 rest IH]; intros i; simpl.
  - split; [done|]. intros k Hk. by apply elem_of_nil in Hk.
  - specialize (IH (S i)).
    destruct (find_valid_systems (S i) rest needed_packages) as [vs idxs].
    simpl in IH. destruct IH as [Hlen Hidx].
    fold (contains_needed needed_packages sys0).
    assert (Hrest : forall k, k ∈ idxs ->
              i <= k /\ exists sys, (sys0 :: rest) !! (k - i) = Some sys
                /\ contains_needed needed_packages sys = true).
    { intros k Hk. destruct (Hidx k Hk) as (Hle & sys & Hsys & Hv).
      split; [lia|]. exists sys. split; [|done].
      replace (k - i) with (S (k - S i)) by lia. done. }
    destruct (contains_needed needed_packages sys0) eqn:Hv0; simpl.
    + split; [by rewrite Hlen|]. intros k [->|Hk]%elem_of_cons; [|by apply Hrest].
      split; [done|]. exists sys0. by rewrite Nat.sub_diag.
    + done.
Qed.

Lemma delete_duplicates_indices valid_systems :
  forall indices differences diff_set k,
  k ∈ (delete_duplicates valid_systems indices differences diff_set).2 ->
  k ∈ indices.
Proof.
  induction valid_systems as [|sys vs IH]; intros indices differences diff_set k;
    simpl; [intros Hk; by apply elem_of_nil in Hk|].
  destruct indices as [|i indices]; [intros Hk; by apply elem_of_nil in Hk|].
  destruct differences as [|d differences];
    [intros Hk; by apply elem_of_nil in Hk|].
  destruct (existsb (pkg_set_eqb (pkg_set_union d.1 d.2)) diff_set).
  - intros Hk%IH. by right.
  - specialize (IH indices differences
                  (diff_set ++ [pkg_set_union d.1 d.2]) k).
    destruct (delete_duplicates vs indices differences
                (diff_set ++ [pkg_set_union d.1 d.2])) as [vs' idxs'].
    simpl in *. intros [->|Hk]%elem_of_cons; [left|right; by apply IH].
Qed.

Lemma choose_picks solutions indices differences inputs :
  forall trace plan,
  (choose solutions indices differences inputs trace).1 = Done plan ->
  exists k, k ∈ indices /\ plan = nth k solutions [].
Proof.
  induction inputs as [|input inputs IH]; intros trace plan; simpl; [done|].
  destruct input as [user_input|]; [|apply IH].
  case_bool_decide as Hrange; [|apply IH].
  simpl. intros [= <-].
  exists (nth (Z.to_nat (user_input - 1)) indices 0). split; [|done].
  apply list_elem_of_In, nth_In. lia.
Qed.

(** Whatever [validate_and_choose_solution] returns, through any of its
    branches and whatever the user enters, is one of the given plans, and
    the hypothetical append of that plan is a system containing every
    needed name. *)
Theorem validate_returns_a_valid_plan fuel self solutions needed_packages
    inputs plan :
  (validate_and_choose_solution fuel self solutions needed_packages inputs).1
  = Done plan ->
  exists i sys,
    solutions !! i = Some plan
    /\ hypothetical_append_packages_to_system fuel self plan = Done sys
    /\ contains_needed needed_packages sys = true.
Proof.
  unfold validate_and_choose_solution.
  destruct (new_systems_of fuel self solutions) as [ns|e|] eqn:Hns;
    [|done|done].
  apply new_systems_of_Forall2 in Hns.
  pose proof (find_valid_systems_indices needed_packages ns 0) as [Hlen Hidx].
  destruct (find_valid_systems 0 ns needed_packages) as [vs idxs].
  simpl in Hlen, Hidx.
  assert (Hpick : forall k, k ∈ idxs ->
            exists i sys,
              solutions !! i = Some (nth k solutions [])
              /\ hypothetical_append_packages_to_system fuel self
                   (nth k solutions []) = Done sys
              /\ contains_needed needed_packages sys = true).
  { intros k Hk. destruct (Hidx k Hk) as (_ & sys & Hsys & Hv).
    rewrite Nat.sub_0_r in Hsys.
    destruct (Forall2_lookup_r _ _ _ _ _ Hns Hsys) as (p & Hp & Hrun).
    rewrite (nth_lookup_Some _ _ [] _ Hp). by exists k, sys. }
  assert (Hfirst : vs <> [] -> nth 0 idxs 0 ∈ idxs).
  { intros Hvs. destruct idxs as [|k idxs]; [|left].
    destruct vs; [done|]. simpl in Hlen. lia. }
  destruct vs as [|sys0 vs]; cbn [nonempty negb]; [done|].
  case_bool_decide.
  { simpl. intros [= <-]. by apply Hpick, Hfirst. }
  case_bool_decide.
  { simpl. intros [= <-]. by apply Hpick, Hfirst. }
  match goal with
  | |- context [delete_duplicates ?a ?b ?c ?d] =>
      pose proof (delete_duplicates_indices a b c d) as Hsub;
      destruct (delete_duplicates a b c d) as [vs' idxs']
  end.
  intros (k & Hk & ->)%choose_picks. apply Hpick, Hsub. exact Hk.
Qed.

(** ** Differences between systems *)

Lemma pkg_in_eqb_eq x y l : pkg_eqb x y = true -> pkg_in x l = pkg_in y l.
Proof.
  intros Heq. destruct (pkg_in y l) eqn:Hy.
  - by eapply pkg_in_eqb.
  - destruct (pkg_in x l) eqn:Hx; [|done]. rewrite <- Hy. symmetry.
    eapply pkg_in_eqb; [|done]. by rewrite pkg_eqb_sym.
Qed.

Lemma pkg_in_filter (f : Package -> bool) b l p :
  (forall x y, pkg_eqb x y = true -> f x = f y) ->
  pkg_in p (filter (fun x => f x = b) l) = true
  <-> pkg_in p l = true /\ f p = b.
Proof.
  intros Hf. rewrite !pkg_in_true. split.
  - intros (x & [Hx Hl]%list_elem_of_filter & Heq).
    split; [by exists x|]. by rewrite (Hf _ _ Heq).
  - intros [(x & Hx & Heq) Hp]. exists x. split; [|done].
    apply list_elem_of_filter. split; [|done]. by rewrite <- (Hf _ _ Heq).
Qed.

Lemma forallb_pkg_in_eqb x y (sets : list (list Package)) :
  pkg_eqb x y = true -> forallb (pkg_in x) sets = forallb (pkg_in y) sets.
Proof.
  intros Heq. induction sets as [|s sets IH]; simpl; [done|].
  by rewrite IH, (pkg_in_eqb_eq _ _ _ Heq).
Qed.

Lemma pkg_in_symdiff p s1 s2 :
  pkg_in p (pkg_set_symdiff s1 s2) = true
  <-> (pkg_in p s1 = true /\ pkg_in p s2 = false)
      \/ (pkg_in p s2 = true /\ pkg_in p s1 = false).
Proof.
  unfold pkg_set_symdiff. rewrite pkg_in_app, orb_true_iff.
  rewrite (pkg_in_filter (fun x => pkg_in x s2) false s1 p)
    by (intros x y Heq; by apply pkg_in_eqb_eq).
  rewrite (pkg_in_filter (fun x => pkg_in x s1) false s2 p)
    by (intros x y Heq; by apply pkg_in_eqb_eq).
  done.
Qed.

Lemma pkg_in_intersection p (sets : list (list Package)) :
  sets <> [] ->
  pkg_in p (pkg_set_intersection sets) = true
  <-> forall s, s ∈ sets -> pkg_in p s = true.
Proof.
  destruct sets as [|s0 rest]; [done|]. intros _. simpl.
  rewrite (pkg_in_filter (fun x => forallb (pkg_in x) rest) true s0 p)
    by (intros x y Heq; by apply forallb_pkg_in_eqb).
  rewrite forallb_forall. split.
  - intros [H0 Hrest] s [->|Hs]%elem_of_cons; [done|].
    by apply Hrest, list_elem_of_In.
  - intros Hall. split; [apply Hall; left|].
    intros s Hs%list_elem_of_In. apply Hall. by right.
Qed.

Lemma Forall2_map_diag {A B} (P : A -> B -> Prop) (f : A -> B) (l : list A) :
  (forall x, x ∈ l -> P x (f x)) -> Forall2 P l (map f l).
Proof.
  induction l as [|x l IH]; intros HP; simpl; constructor.
  - apply HP. left.
  - apply IH. intros y Hy. apply HP. by right.
Qed.

(** The packages another system has and this one lacks, and the packages
    this system has and the other lacks. *)
Lemma difference_tuple_spec own other p :
  (pkg_in p (filter (fun differ => pkg_in differ own = false)
               (pkg_set_symdiff own other)) = true
   <-> pkg_in p other = true /\ pkg_in p own = false)
  /\ (pkg_in p (filter (fun differ => pkg_in differ own = true)
                  (pkg_set_symdiff own other)) = true
      <-> pkg_in p own = true /\ pkg_in p other = false).
Proof.
  rewrite (pkg_in_filter (fun x => pkg_in x own) false _ p)
    by (intros x y Heq; by apply pkg_in_eqb_eq).
  rewrite (pkg_in_filter (fun x => pkg_in x own) true _ p)
    by (intros x y Heq; by apply pkg_in_eqb_eq).
  rewrite pkg_in_symdiff. split; split; naive_solver.
Qed.

(** [differences_between_systems] against at least one other system: the
    first pair holds what every other system has and this one lacks, and
    what this system has and every other lacks; the pair of the i-th system
    holds what that system has and this one lacks, and what this one has and
    that system lacks, without what the first pair holds already. *)
Theorem differences_between_systems_spec self other_systems :
  other_systems <> [] ->
  let own := PyDict.values (all_packages_dict self) in
  let common := (differences_between_systems self other_systems).1 in
  (forall p,
     pkg_in p common.1 = true
     <-> pkg_in p own = false
         /\ forall other, other ∈ other_systems ->
              pkg_in p (PyDict.values (all_packages_dict other)) = true)
  /\ (forall p,
        pkg_in p common.2 = true
        <-> pkg_in p own = true
            /\ forall other, other ∈ other_systems ->
                 pkg_in p (PyDict.values (all_packages_dict other)) = false)
  /\ Forall2 (fun other single =>
       forall p,
         (pkg_in p single.1 = true
          <-> pkg_in p (PyDict.values (all_packages_dict other)) = true
              /\ pkg_in p own = false /\ pkg_in p common.1 = false)
         /\ (pkg_in p single.2 = true
             <-> pkg_in p own = true
                 /\ pkg_in p (PyDict.values (all_packages_dict other)) = false
                 /\ pkg_in p common.2 = false))
       other_systems (differences_between_systems self other_systems).2.
Proof.
  intros Hne own common. subst common. unfold differences_between_systems.
  cbv zeta. cbn [fst snd].
  set (tuple := fun other_system : System =>
    (filter (fun differ => pkg_in differ
               (pkg_set (PyDict.values (all_packages_dict self))) = false)
       (pkg_set_symdiff (pkg_set (PyDict.values (all_packages_dict self)))
          (pkg_set (PyDict.values (all_packages_dict other_system)))),
     filter (fun differ => pkg_in differ
               (pkg_set (PyDict.values (all_packages_dict self))) = true)
       (pkg_set_symdiff (pkg_set (PyDict.values (all_packages_dict self)))
          (pkg_set (PyDict.values (all_packages_dict other_system)))))).
  assert (Htuple : forall other p,
    (pkg_in p (tuple other).1 = true
     <-> pkg_in p (PyDict.values (all_packages_dict other)) = true
         /\ pkg_in p own = false)
    /\ (pkg_in p (tuple other).2 = true
        <-> pkg_in p own = true
            /\ pkg_in p (PyDict.values (all_packages_dict other)) = false)).
  { intros other p. subst tuple. cbn [fst snd].
    pose proof (difference_tuple_spec
                  (pkg_set (PyDict.values (all_packages_dict self)))
                  (pkg_set (PyDict.values (all_packages_dict other))) p) as H'.
    by rewrite !pkg_in_pkg_set in H'. }
  assert (Hne1 : map fst (map tuple other_systems) <> [])
    by by destruct other_systems.
  assert (Hne2 : map snd (map tuple other_systems) <> [])
    by by destruct other_systems.
  assert (Hc1 : forall p,
    pkg_in p (pkg_set_intersection (map fst (map tuple other_systems))) = true
    <-> pkg_in p own = false
        /\ forall other, other ∈ other_systems ->
             pkg_in p (PyDict.values (all_packages_dict other)) = true).
  { intros p. rewrite (pkg_in_intersection _ _ Hne1). split.
    - intros Hall. split.
      + destruct other_systems as [|o rest]; [done|].
        apply (Htuple o p), Hall. left.
      + intros o Ho. apply (Htuple o p), Hall.
        rewrite map_map. apply list_elem_of_fmap. by exists o.
    - intros [Hown Hall] s Hs. rewrite map_map in Hs.
      apply list_elem_of_fmap in Hs as (o & -> & Ho). apply (Htuple o p). auto. }
  assert (Hc2 : forall p,
    pkg_in p (pkg_set_intersection (map snd (map tuple other_systems))) = true
    <-> pkg_in p own = true
        /\ forall other, other ∈ other_systems ->
             pkg_in p (PyDict.values (all_packages_dict other)) = false).
  { intros p. rewrite (pkg_in_intersection _ _ Hne2). split.
    - intros Hall. split.
      + destruct other_systems as [|o rest]; [done|].
        apply (Htuple o p), Hall. left.
      + intros o Ho. apply (Htuple o p), Hall.
        rewrite map_map. apply list_elem_of_fmap. by exists o.
    - intros [Hown Hall] s Hs. rewrite map_map in Hs.
      apply list_elem_of_fmap in Hs as (o & -> & Ho). apply (Htuple o p). auto. }
  set (c1 := pkg_set_intersection (map fst (map tuple other_systems))) in *.
  set (c2 := pkg_set_intersection (map snd (map tuple other_systems))) in *.
  clearbody c1 c2.
  split; [exact Hc1|]. split; [exact Hc2|].
  rewrite map_map. apply Forall2_map_diag.
  intros o _ p. cbn [fst snd]. split.
  - rewrite (pkg_in_filter (fun x => pkg_in x _) false _ p)
      by (intros x y Heq; by apply pkg_in_eqb_eq).
    pose proof (Htuple o p) as [-> _]. naive_solver.
  - rewrite (pkg_in_filter (fun x => pkg_in x _) false _ p)
      by (intros x y Heq; by apply pkg_in_eqb_eq).
    pose proof (Htuple o p) as [_ ->]. naive_solver.
Qed.


(** ** Further properties of the plans *)

(** When no package offered by the upstream system depends on itself
    through the providers of its dependencies, every returned plan is in
    topological order: each dependency of a package is fulfilled by the
    installed system (when only unfulfilled dependencies are asked for) or
    provided by a package earlier in the plan. *)
Theorem plans_sorted_when_upstream_is_acyclic passes fuel packages ups
    installed_system upstream_system only_unfulfilled_deps r :
  mkSystem ups = Done upstream_system ->
  (forall p q, p ∈ ups ++ packages -> q ∈ ups ++ packages ->
               pkg_eqb p q = true -> p = q) ->
  (forall p q, dep_edge upstream_system p q ->
               ~ depends_on upstream_system q p) ->
  dep_solving passes fuel packages installed_system upstream_system
    only_unfulfilled_deps = Done r ->
  forall P i p a,
    P ∈ plans r -> P !! i = Some p -> a ∈ relevant_deps p ->
    satisfied_by_installed installed_system only_unfulfilled_deps a
    \/ (exists j q, j < i /\ P !! j = Some q /\ provides_dep q a = true).
Proof.
  intros Hups Hid Hacyclic. unfold dep_solving.
  intros ([curs fp] & Hloop & Hr)%bind_Done. injection Hr as <-. simpl.
  intros P i p a HP Hi Ha.
  apply list_elem_of_fmap in HP as (s & -> & Hs).
  eapply (order_loop installed_system upstream_system only_unfulfilled_deps
            ups (ups ++ packages) Hups) in Hloop.
  - rewrite Forall_forall in Hloop. destruct (Hloop s Hs) as [(_ & _ & _ & HO) Hv].
    destruct (HO Hv i p a Hi Ha)
      as [?|[?|(q & Hq & Hr & _)]]; [by left|by right|].
    exfalso. apply (Hacyclic p q); [|done]. by exists a.
  - intros q Hq. apply elem_of_app. by left.
  - done.
  - intros q Hq. apply elem_of_app. by right.
  - apply Forall_singleton, order_top_initial.
Qed.

Section PlanUniverse.
Variables installed_system upstream_system : System.
Variable only_unfulfilled_deps : bool.
Variable packages : list Package.

Lemma dep_solving_loop_wf passes fuel :
  forall curs fp deep curs' fp',
  Forall (wf_solution (universe upstream_system packages)) curs ->
  wf_problems (universe upstream_system packages) fp ->
  dep_solving_loop passes fuel packages installed_system upstream_system
    only_unfulfilled_deps curs fp deep = Done (curs', fp') ->
  Forall (wf_solution (universe upstream_system packages)) curs'.
Proof.
  induction passes as [|passes IH]; intros curs fp deep curs' fp' Hcurs Hfp;
    simpl; [done|].
  intros ([curs1 fp1] & Hcalc & Hrest)%bind_Done.
  eapply (calc_solutions_ok _ _ _ _ _ _ _ _
            (wf_rules installed_system upstream_system only_unfulfilled_deps
               _ (universe_upstream upstream_system packages))
            _ packages (wf_top_pre upstream_system packages)
            (wf_top_post upstream_system packages)) in Hcalc as [Hcurs1 _];
    [|done|done|done].
  assert (Hfilter : Forall (wf_solution (universe upstream_system packages))
                      (filter (fun s => is_valid s = true) curs1)).
  { apply Forall_forall. intros x [_ Hx]%list_elem_of_filter.
    rewrite Forall_forall in Hcurs1. by apply Hcurs1. }
  destruct (nonempty (filter (fun s => is_valid s = true) curs1)).
  { by injection Hrest as <- <-. }
  case_bool_decide.
  { by injection Hrest as <- <-. }
  eapply IH; [| |exact Hrest].
  - apply Forall_singleton, wf_initial_solution.
  - apply wf_problems_nil.
Qed.

(** The solver invents no package: every package of a returned plan is one
    of the requested packages or a package the upstream system holds. *)
Theorem plans_draw_from_request_and_upstream passes fuel r P p :
  dep_solving passes fuel packages installed_system upstream_system
    only_unfulfilled_deps = Done r ->
  P ∈ plans r -> p ∈ P ->
  p ∈ packages \/ p ∈ system_packages upstream_system.
Proof.
  unfold dep_solving. intros ([curs fp] & Hloop & Hr)%bind_Done.
  injection Hr as <-. simpl. intros (s & -> & Hs)%list_elem_of_fmap Hp.
  pose proof (dep_solving_loop_plan installed_system upstream_system
                only_unfulfilled_deps _ _ _ _ _ _ _ _
                (proj2 (Forall_singleton _ _)
                   (conj plan_state_initial
                      (fun x (Hx : x ∈ []) =>
                         False_ind _ (not_elem_of_nil x Hx))))
                Hloop) as Hplan.
  eapply dep_solving_loop_wf in Hloop;
    [|apply Forall_singleton, wf_initial_solution|apply wf_problems_nil].
  rewrite Forall_forall in Hloop, Hplan.
  destruct (Hloop s Hs) as [Hsub _].
  destruct (Hplan s Hs) as [[(_ & [_ HB] & _) _] _].
  assert (Hu : p ∈ universe upstream_system packages) by by apply Hsub, HB.
  apply elem_of_app in Hu as [?|?]; [by right|by left].
Qed.
End PlanUniverse.

(** Asking for nothing gives one empty plan and no problem. *)
Example dep_solving_of_nothing passes fuel installed_system upstream_system
    only_unfulfilled_deps :
  dep_solving (S passes) fuel [] installed_system upstream_system
    only_unfulfilled_deps
  = Done (mkSolvingResult [[]] None []).
Proof. reflexivity. Qed.

(** ** Equality of problems *)

Lemma pkg_list_eqb_sym l1 l2 : pkg_list_eqb l1 l2 = pkg_list_eqb l2 l1.
Proof.
  revert l2. induction l1 as [|p l1 IH]; intros [|q l2]; simpl; try done.
  by rewrite IH, pkg_eqb_sym.
Qed.

Lemma pkg_list_eqb_trans l1 l2 l3 :
  pkg_list_eqb l1 l2 = true -> pkg_list_eqb l2 l3 = true ->
  pkg_list_eqb l1 l3 = true.
Proof.
  revert l2 l3. induction l1 as [|p l1 IH]; intros [|q l2] [|r l3]; simpl;
    try done.
  intros [H1 H2]%andb_true_iff [H3 H4]%andb_true_iff.
  by rewrite (pkg_eqb_trans _ _ _ H1 H3), (IH _ _ H2 H4).
Qed.

Lemma pkg_set_eqb_sym s1 s2 : pkg_set_eqb s1 s2 = pkg_set_eqb s2 s1.
Proof. unfold pkg_set_eqb. apply andb_comm. Qed.

Lemma pkg_set_subset_trans (s1 s2 s3 : list Package) :
  forallb (fun p => pkg_in p s2) s1 = true ->
  forallb (fun p => pkg_in p s3) s2 = true ->
  forallb (fun p => pkg_in p s3) s1 = true.
Proof.
  rewrite !forallb_forall. intros H12 H23 p Hp.
  specialize (H12 p Hp). apply pkg_in_true in H12 as (q & Hq & Heq).
  eapply pkg_in_eqb; [done|]. by apply H23, list_elem_of_In.
Qed.

Lemma pkg_set_eqb_trans s1 s2 s3 :
  pkg_set_eqb s1 s2 = true -> pkg_set_eqb s2 s3 = true ->
  pkg_set_eqb s1 s3 = true.
Proof.
  unfold pkg_set_eqb. intros [H1 H2]%andb_true_iff [H3 H4]%andb_true_iff.
  apply andb_true_iff. split; by eapply pkg_set_subset_trans.
Qed.

(** The [__eq__] of the problem classes is an equivalence relation, so that
    membership in the set of found problems does not depend on the
    representative compared with. *)
Theorem problem_eq_is_an_equivalence :
  (forall x, problem_eqb x x = true)
  /\ (forall x y, problem_eqb x y = problem_eqb y x)
  /\ (forall x y z, problem_eqb x y = true -> problem_eqb y z = true ->
                    problem_eqb x z = true).
Proof.
  split; [apply problem_eqb_refl|]. split.
  - intros [l1|s1 w1|d1 p1] [l2|s2 w2|d2 p2]; simpl; try done.
    + apply pkg_list_eqb_sym.
    + by rewrite pkg_set_eqb_sym, pkg_list_eqb_sym.
    + rewrite pkg_eqb_sym. f_equal. apply bool_decide_ext. split; congruence.
  - intros [l1|s1 w1|d1 p1] [l2|s2 w2|d2 p2] [l3|s3 w3|d3 p3]; simpl; try done.
    + apply pkg_list_eqb_trans.
    + intros [H1 H2]%andb_true_iff [H3 H4]%andb_true_iff.
      by rewrite (pkg_set_eqb_trans _ _ _ H1 H3), (pkg_list_eqb_trans _ _ _ H2 H4).
    + intros [H1%bool_decide_eq_true H2]%andb_true_iff
        [H3%bool_decide_eq_true H4]%andb_true_iff.
      rewrite (pkg_eqb_trans _ _ _ H2 H4), bool_decide_true; [done|congruence].
Qed.

(** ** Sorting the user's input *)

Lemma categories_fold (found : gset string) (l : list string) :
  forall us pac,
  fold_left (fun '(for_us, for_pacman) _user_input =>
    if bool_decide (_user_input ∈ found)
    then (for_us ++ [_user_input], for_pacman)
    else (for_us, for_pacman ++ [_user_input])) l (us, pac)
  = (us ++ filter (fun n => n ∈ found) l,
     pac ++ filter (fun n => n ∉ found) l).
Proof using Type.
  induction l as [|n l IH]; intros us pac; simpl.
  - by rewrite !filter_nil, !app_nil_r.
  - case_bool_decide as Hn; rewrite IH.
    + rewrite filter_cons_True by done.
      rewrite filter_cons_False by (intros H'; by apply H').
      by rewrite <- app_assoc.
    + rewrite filter_cons_False by done. rewrite filter_cons_True by done.
      by rewrite <- app_assoc.
Qed.

(** [user_input_to_categories] splits the names entered, each taken once,
    in two: the names of the packages the AUR answered with, and the
    others; no name is lost and none lands on both sides. *)
Theorem user_input_to_categories_partitions get_packages_from_aur user_input :
  let answer :=
    map name (get_packages_from_aur
                (elements (list_to_set user_input : gset string))) in
  let for_us := (user_input_to_categories get_packages_from_aur user_input).1 in
  let for_pacman :=
    (user_input_to_categories get_packages_from_aur user_input).2 in
  (forall n, n ∈ for_us <-> n ∈ user_input /\ n ∈ answer)
  /\ (forall n, n ∈ for_pacman <-> n ∈ user_input /\ n ∉ answer)
  /\ NoDup (for_us ++ for_pacman).
Proof using Type.
  clear split_name_with_versioning version_comparison.
  intros answer for_us for_pacman. subst for_us for_pacman.
  unfold user_input_to_categories. cbv zeta. rewrite categories_fold. simpl.
  fold answer.
  pose proof (NoDup_elements (list_to_set user_input : gset string)) as Hnd.
  assert (Hel : forall n, n ∈ elements (list_to_set user_input : gset string)
                          <-> n ∈ user_input).
  { intros n. by rewrite elem_of_elements, elem_of_list_to_set. }
  split; [|split].
  - intros n. rewrite list_elem_of_filter, elem_of_list_to_set, Hel. tauto.
  - intros n. rewrite list_elem_of_filter, elem_of_list_to_set, Hel. tauto.
  - apply NoDup_app. split; [by apply NoDup_filter|].
    split; [|by apply NoDup_filter].
    intros n [Hn _]%list_elem_of_filter [Hn' _]%list_elem_of_filter. done.
Qed.


(** ** From the solver to the selector *)

Lemma hypothetical_append_Done fuel l self packages :
  mkSystem l = Done self -> NoDup (map name packages) ->
  2 * (length (all_packages_dict self) + length packages) + 1 < fuel ->
  exists S', hypothetical_append_packages_to_system fuel self packages = Done S'.
Proof.
  intros HS Hnd Hfuel.
  pose proof (hypothetical_append_ok fuel l self packages HS) as Hok.
  pose proof (hypothetical_append_terminates fuel self packages Hfuel) as Ht.
  destruct (hypothetical_append_packages_to_system fuel self packages)
    as [S'|e|]; [by exists S'|done|done].
Qed.

Lemma new_systems_of_Done fuel l self solutions :
  mkSystem l = Done self ->
  (forall plan, plan ∈ solutions ->
     NoDup (map name plan)
     /\ 2 * (length (all_packages_dict self) + length plan) + 1 < fuel) ->
  exists new_systems, new_systems_of fuel self solutions = Done new_systems.
Proof.
  intros HS. induction solutions as [|plan rest IH]; intros Hall; simpl.
  - by eexists.
  - destruct (Hall plan) as [Hnd Hfuel]; [left|].
    destruct (hypothetical_append_Done fuel l self plan HS Hnd Hfuel)
      as [S' ->].
    destruct IH as [ns ->]; [intros p Hp; apply Hall; by right|].
    simpl. by eexists.
Qed.

Lemma choose_raises solutions indices differences inputs :
  forall trace e,
  (choose solutions indices differences inputs trace).1 = Raised e ->
  e = EOFError.
Proof.
  induction inputs as [|input inputs IH]; intros trace e; simpl.
  - by intros [= <-].
  - destruct input as [user_input|]; [|apply IH].
    case_bool_decide; [done|apply IH].
Qed.

(** The plans [dep_solving] returns can be handed to
    [validate_and_choose_solution] of any system built by the constructor:
    with a budget above twice the number of packages involved, the
    hypothetical append of every plan returns a system, and the selection
    fails only with "No valid solutions found", or when the user's input
    ends. *)
Theorem returned_plans_pass_validation passes fuel packages installed_system
    upstream_system only_unfulfilled_deps r fuel' l self needed_packages inputs :
  dep_solving passes fuel packages installed_system upstream_system
    only_unfulfilled_deps = Done r ->
  mkSystem l = Done self ->
  (forall plan, plan ∈ plans r ->
     2 * (length (all_packages_dict self) + length plan) + 1 < fuel') ->
  (exists new_systems, new_systems_of fuel' self (plans r) = Done new_systems)
  /\ forall e,
       (validate_and_choose_solution fuel' self (plans r) needed_packages
          inputs).1 = Raised e ->
       e = NoValidSolutionsFound \/ e = EOFError.
Proof.
  intros Hrun HS Hfuel.
  assert (Hns : exists new_systems,
            new_systems_of fuel' self (plans r) = Done new_systems).
  { apply (new_systems_of_Done fuel' l); [done|].
    intros plan Hplan. split; [|by apply Hfuel].
    destruct (dep_solving_plan _ _ _ _ _ _ _ _ Hrun Hplan)
      as (s & -> & [Hst _] & Hv).
    by apply plan_distinct_names. }
  split; [exact Hns|]. destruct Hns as [ns Hns].
  intros e. unfold validate_and_choose_solution. rewrite Hns.
  destruct (find_valid_systems 0 ns needed_packages) as [vs idxs].
  destruct (negb (nonempty vs)); [intros [= <-]; by left|].
  case_bool_decide; [done|]. case_bool_decide; [done|].
  match goal with
  | |- context [delete_duplicates ?a ?b ?c ?d] =>
      destruct (delete_duplicates a b c d) as [vs' idxs']
  end.
  intros He%choose_raises. by right.
Qed.

(** ** The selector on the plans of the solver *)

Lemma choose_raises_eof solutions indices differences inputs :
  forall trace e,
  (choose solutions indices differences inputs trace).1 = Raised e ->
  e = EOFError
  /\ forall k, Some k ∈ inputs ->
       ~ (1 ≤ k ≤ Z.of_nat (length indices))%Z.
Proof.
  induction inputs as [|input inputs IH]; intros trace e; simpl.
  - intros [= <-]. split; [done|]. intros k Hk. by apply elem_of_nil in Hk.
  - destruct input as [user_input|].
    + case_bool_decide as Hrange; [done|].
      intros [He Hin]%IH. split; [done|].
      intros k [[= ->]|Hk]%elem_of_cons; [done|by apply Hin].
    + intros [He Hin]%IH. split; [done|].
      intros k [[=]|Hk]%elem_of_cons. by apply Hin.
Qed.

Lemma delete_duplicates_first valid_system systems i indices d differences :
  (delete_duplicates (valid_system :: systems) (i :: indices)
     (d :: differences) []).2 <> [].
Proof.
  simpl.
  match goal with
  | |- context [delete_duplicates ?a ?b ?c ?e] =>
      by destruct (delete_duplicates a b c e)
  end.
Qed.

Lemma differences_between_systems_cons self other_system other_systems :
  exists d ds,
    (differences_between_systems self (other_system :: other_systems)).2
    = d :: ds.
Proof. unfold differences_between_systems. simpl. by eexists _, _. Qed.

(** The ways [validate_and_choose_solution] fails: on a plan whose
    hypothetical append fails, with "No valid solutions found", or at the
    prompt, when the user's input ends without the choice [1]. *)
Lemma validate_raises fuel self solutions needed_packages inputs e :
  (validate_and_choose_solution fuel self solutions needed_packages inputs).1
  = Raised e ->
  new_systems_of fuel self solutions = Raised e
  \/ e = NoValidSolutionsFound
  \/ (e = EOFError /\ Some 1%Z ∉ inputs).
Proof.
  unfold validate_and_choose_solution.
  destruct (new_systems_of fuel self solutions) as [ns|e'|];
    [|intros [= <-]; by left|done].
  pose proof (find_valid_systems_indices needed_packages ns 0) as [Hlen _].
  destruct (find_valid_systems 0 ns needed_packages) as [vs idxs].
  simpl in Hlen.
  destruct vs as [|sys0 vs]; cbn [nonempty negb];
    [intros [= <-]; right; by left|].
  destruct idxs as [|i0 idxs]; [done|].
  case_bool_decide; [done|]. case_bool_decide; [done|].
  destruct (differences_between_systems_cons self sys0 vs) as (d & ds & ->).
  pose proof (delete_duplicates_first sys0 vs i0 idxs d ds) as Hfirst.
  destruct (delete_duplicates (sys0 :: vs) (i0 :: idxs) (d :: ds) [])
    as [vs' idxs'].
  simpl in Hfirst.
  intros [He Hin]%choose_raises_eof. right; right. split; [done|].
  intros H1. apply (Hin 1%Z H1). destruct idxs'; [done|]. simpl. lia.
Qed.

(** C9.  Let the plans be those [dep_solving] returned, and the system one
    built by the constructor.  Then, with a budget above twice the number
    of packages involved, the hypothetical append of every plan returns a
    system, and [validate_and_choose_solution] raises "No valid solutions
    found" exactly when none of these systems contains every needed name.
    It raises nothing else, unless several plans are left to choose from and
    the user's input ends without a valid choice; so for a user who enters
    the choice [1] at some point the call fails exactly when no system
    contains every needed name.  When exactly one system contains every
    needed name, the plan of that system is returned with nothing printed
    and nothing asked. *)
Theorem validate_and_choose_solution_on_solver_plans passes fuel packages
    installed_system upstream_system only_unfulfilled_deps r fuel' l self
    needed_packages inputs :
  dep_solving passes fuel packages installed_system upstream_system
    only_unfulfilled_deps = Done r ->
  mkSystem l = Done self ->
  (forall plan, plan ∈ plans r ->
     2 * (length (all_packages_dict self) + length plan) + 1 < fuel') ->
  exists new_systems,
    Forall2 (fun plan sys =>
               hypothetical_append_packages_to_system fuel' self plan
               = Done sys) (plans r) new_systems
    /\ ((validate_and_choose_solution fuel' self (plans r) needed_packages
           inputs).1 = Raised NoValidSolutionsFound
        <-> Forall (fun sys => contains_needed needed_packages sys = false)
              new_systems)
    /\ (forall e,
          (validate_and_choose_solution fuel' self (plans r) needed_packages
             inputs).1 = Raised e ->
          e = NoValidSolutionsFound \/ (e = EOFError /\ Some 1%Z ∉ inputs))
    /\ (Some 1%Z ∈ inputs ->
        (exists e,
           (validate_and_choose_solution fuel' self (plans r) needed_packages
              inputs).1 = Raised e)
        <-> Forall (fun sys => contains_needed needed_packages sys = false)
              new_systems)
    /\ (forall i plan sys,
          plans r !! i = Some plan -> new_systems !! i = Some sys ->
          contains_needed needed_packages sys = true ->
          (forall j sys', new_systems !! j = Some sys' ->
                          contains_needed needed_packages sys' = true ->
                          j = i) ->
          validate_and_choose_solution fuel' self (plans r) needed_packages
            inputs = (Done plan, [])).
Proof.
  intros Hrun HS Hfuel.
  destruct (new_systems_of_Done fuel' l self (plans r) HS) as [ns Hns].
  { intros plan Hplan. split; [|by apply Hfuel].
    destruct (dep_solving_plan _ _ _ _ _ _ _ _ Hrun Hplan)
      as (s & -> & [Hst _] & Hv).
    by apply plan_distinct_names. }
  exists ns.
  pose proof (proj1 (new_systems_of_Forall2 _ _ _ _) Hns) as Hall.
  assert (Hbudget : Forall (fun plan =>
            2 * (length (all_packages_dict self) + length plan) + 1 < fuel')
            (plans r)) by by apply Forall_forall.
  destruct (validate_and_choose_solution_spec fuel' self (plans r)
              needed_packages inputs Hbudget) as (_ & _ & Hspec).
  destruct (Hspec ns Hall) as [Hnone Hone].
  assert (Hraise : forall e,
            (validate_and_choose_solution fuel' self (plans r) needed_packages
               inputs).1 = Raised e ->
            e = NoValidSolutionsFound \/ (e = EOFError /\ Some 1%Z ∉ inputs)).
  { intros e [Hbad|He]%validate_raises; [congruence|done]. }
  split; [done|]. split; [done|]. split; [done|]. split; [|done].
  intros Hone1. split.
  - intros [e He]. destruct (Hraise e He) as [->|[_ Hno]]; [|done].
    by apply Hnone.
  - intros Hinvalid. exists NoValidSolutionsFound. by apply Hnone.
Qed.


(** ** The solver raises nothing when names are unique *)

Lemma bind_never_raises {A B} (o : outcome A) (k : A -> outcome B) :
  never_raises o -> (forall a, o = Done a -> never_raises (k a)) ->
  never_raises (o ≫= k).
Proof.
  intros Ho Hk. destruct o as [a|e|]; simpl.
  - by apply Hk.
  - by destruct (Ho e).
  - done.
Qed.

Lemma flag_not_provided_learns dep c :
  dep ∈ visited_names (flag_not_provided dep c).
Proof.
  unfold flag_not_provided. case_bool_decide; [done|]. simpl. set_solver.
Qed.

Section SolverSafety.
Variables installed_system upstream_system : System.
Variable only_unfulfilled_deps : bool.
Variable deps_to_deep_check : gset string.
Variable Pre : list Package -> Package -> DepAlgoSolution -> Prop.
Variable Post :
  list Package -> Package -> DepAlgoSolution -> DepAlgoSolution -> Prop.
Variable Inv :
  list Package -> Package -> DepAlgoSolution -> list string ->
  DepAlgoSolution -> Prop.
Variable R : list DepAlgoFoundProblems -> Prop.
Hypothesis rules :
  solver_rules installed_system upstream_system only_unfulfilled_deps
    Pre Post Inv R.
Hypothesis safe_visited : forall St self s,
  Pre St self s -> pkg_in self (visited_packages s) = false ->
  exists sys, mkSystem (visited_packages s) = Done sys.
Hypothesis safe_selected : forall St self s seen cur,
  Inv St self s seen cur ->
  exists sys, mkSystem (packages_in_solution cur) = Done sys.

Lemma split_not_finished_never_raises dep nf :
  forall fin nnf,
  (forall cur, cur ∈ nf ->
     exists sys, mkSystem (packages_in_solution cur) = Done sys) ->
  never_raises (split_not_finished dep nf fin nnf).
Proof.
  induction nf as [|cur nf IH]; intros fin nnf Hnf; simpl; [done|].
  destruct (Hnf cur) as [sys Hsys]; [left|]. simpl. rewrite Hsys. simpl.
  destruct (nonempty (provided_by sys dep)); apply IH;
    intros c Hc; apply Hnf; by right.
Qed.

Section SafeLoops.
Variable rec : rec_call.
Hypothesis Hrec : rec_ok Pre Post R rec.
Hypothesis Hsafe : rec_safe Pre R rec.

Lemma extend_with_providers_never_raises St s providers :
  forall acc fp,
  (forall q, q ∈ providers -> Pre St q s) -> R fp ->
  never_raises (extend_with_providers rec s providers acc fp).
Proof.
  induction providers as [|q providers IH]; intros acc fp HPre HR; simpl;
    [done|].
  apply bind_never_raises; [apply (Hsafe St); [apply HPre; left|done]|].
  intros [new fp1] Hcall.
  apply (Hrec St) in Hcall as [_ HR1]; [|apply HPre; left|done].
  apply IH; [|done]. intros q' Hq'. apply HPre. by right.
Qed.

Lemma extend_solutions_never_raises St nnf providers :
  forall acc fp,
  (forall s q, s ∈ nnf -> q ∈ providers -> Pre St q s) -> R fp ->
  never_raises (extend_solutions rec nnf providers acc fp).
Proof.
  induction nnf as [|s nnf IH]; intros acc fp HPre HR; simpl; [done|].
  apply bind_never_raises.
  { apply (extend_with_providers_never_raises St); [|done].
    intros q Hq. apply HPre; [left|done]. }
  intros [acc1 fp1] Hext.
  eapply (extend_with_providers_ok Pre Post R rec Hrec (fun _ => True))
    in Hext as [_ HR1]; [| |done|by apply Forall_true|done].
  - apply IH; [|done]. intros s' q Hs'. apply HPre. by right.
  - intros q Hq. apply HPre; [left|done].
Qed.

Lemma dep_step_never_raises St self s seen dep curs fp :
  Pre St self s -> dep ∈ relevant_deps self ->
  Forall (Inv St self s seen) curs -> R fp ->
  never_raises (dep_step installed_system upstream_system
                  only_unfulfilled_deps deps_to_deep_check rec self dep curs fp).
Proof.
  intros HPre Hdep Hcurs HR. unfold dep_step.
  destruct (only_unfulfilled_deps
            && nonempty (provided_by installed_system dep)) eqn:Hskip; [done|].
  set (providers := provided_by upstream_system dep).
  set (state := if nonempty providers then (curs, fp)
                else (map (flag_not_provided dep) curs,
                      fp_add (DepAlgoNotProvided dep self) fp)).
  assert (Hstate :
    Forall (fun c => dep ∉ visited_names c -> Inv St self s seen c) state.1
    /\ R state.2).
  { subst state. destruct (nonempty providers) eqn:Hne; simpl.
    - split; [|done]. eapply Forall_impl; [exact Hcurs|]. auto.
    - assert (Hnil : providers = []) by by destruct providers.
      split.
      + apply Forall_fmap, Forall_true. intros c Hn. simpl in Hn. exfalso.
        apply Hn, flag_not_provided_learns.
      + by eapply rule_not_provided. }
  destruct state as [curs1 fp1]. simpl in Hstate. destruct Hstate as [Hcurs1 HR1].
  set (providers' :=
    if bool_decide (strip_versioning_from_name dep ∈ map name providers)
       && negb (bool_decide (dep ∈ deps_to_deep_check))
    then filter (fun package => name package = strip_versioning_from_name dep)
           providers
    else providers).
  assert (Hsub : forall q, q ∈ providers' -> q ∈ provided_by upstream_system dep).
  { subst providers'. intros q.
    destruct (bool_decide _ && negb _); [|intros Hq; exact Hq].
    intros Hq. apply list_elem_of_filter in Hq. tauto. }
  clearbody providers'.
  assert (Hnf : forall cur,
            cur ∈ filter (fun solution => dep ∉ visited_names solution) curs1 ->
            Inv St self s seen cur /\ dep ∉ visited_names cur).
  { intros cur [Hn Hcur]%list_elem_of_filter.
    rewrite Forall_forall in Hcurs1. split; [by apply Hcurs1|done]. }
  apply bind_never_raises.
  { apply split_not_finished_never_raises. intros cur [Hcur _]%Hnf.
    by eapply safe_selected. }
  intros [fin nnf] Hsplit.
  eapply (split_not_finished_ok (fun _ => True)
            (fun x => exists cur, x = learn_dep dep cur
                                  /\ Inv St self s seen cur
                                  /\ dep ∉ visited_names cur))
    in Hsplit as [_ Hnnf]; [|done| |by apply Forall_true|done].
  - apply (extend_solutions_never_raises (St ++ [self])); [|done].
    intros s' q Hs' Hq.
    rewrite Forall_forall in Hnnf. apply Hnnf in Hs' as (cur & -> & Hcur & Hn).
    eapply rule_call; [done..|by apply Hsub].
  - intros cur [Hcur Hn]%Hnf. by exists cur.
Qed.

Lemma deps_loop_never_raises St self s rest :
  forall seen curs fp,
  Pre St self s -> relevant_deps self = seen ++ rest ->
  Forall (Inv St self s seen) curs -> R fp ->
  never_raises (deps_loop installed_system upstream_system
                  only_unfulfilled_deps deps_to_deep_check rec self rest curs
                  fp).
Proof.
  induction rest as [|dep rest IH]; intros seen curs fp HPre Hdeps Hcurs HR;
    simpl; [done|].
  assert (Hdep : dep ∈ relevant_deps self).
  { rewrite Hdeps. apply elem_of_app. right. left. }
  apply bind_never_raises; [by eapply dep_step_never_raises|].
  intros [curs1 fp1] Hstep.
  eapply (dep_step_ok installed_system upstream_system only_unfulfilled_deps
            deps_to_deep_check Pre Post Inv R rules rec Hrec)
    in Hstep as [Hcurs1 HR1]; [|done..].
  eapply IH; [done| |done|done]. rewrite Hdeps. by rewrite <- app_assoc.
Qed.
End SafeLoops.

Lemma solver_never_raises fuel :
  rec_safe Pre R
    (solutions_for_dep_problem installed_system upstream_system
       only_unfulfilled_deps deps_to_deep_check fuel).
Proof.
  induction fuel as [|fuel IH]; intros St self s fp HPre HR; simpl; [done|].
  destruct (pkg_in self (packages_in_solution s)) eqn:Hsel; [done|].
  destruct (pkg_in self (visited_packages s)) eqn:Hvis; simpl.
  { by destruct (is_repo self). }
  destruct (safe_visited St self s HPre Hvis) as [sys Hsys].
  rewrite Hsys. simpl.
  apply bind_never_raises; [|by intros [? ?] _].
  eapply (deps_loop_never_raises _
            (solver_ok installed_system upstream_system only_unfulfilled_deps
               deps_to_deep_check Pre Post Inv R rules fuel)
            IH St self s _ []); [done|done| |].
  - apply Forall_singleton. by eapply rule_push.
  - destruct (nonempty (conflicting_with sys self)) eqn:Hc; simpl; [|done].
    destruct (is_valid s) eqn:Hv; [by eapply rule_conflict|done].
Qed.

Section SafeTop.
Variable T : DepAlgoSolution -> Prop.
Variable packages : list Package.
Hypothesis top_pre : forall p s, p ∈ packages -> T s -> Pre [] p s.
Hypothesis top_post :
  forall p s s', p ∈ packages -> T s -> Post [] p s s' -> T s'.

Lemma expand_package_never_raises fuel p curs :
  forall acc fp,
  p ∈ packages -> Forall T curs -> R fp ->
  never_raises (expand_package installed_system upstream_system
                  only_unfulfilled_deps deps_to_deep_check fuel p curs acc fp).
Proof.
  induction curs as [|s curs IH]; intros acc fp Hp Hcurs HR; simpl; [done|].
  apply Forall_cons in Hcurs as [Hs Hcurs].
  apply bind_never_raises.
  { apply (solver_never_raises fuel []); [by apply top_pre|done]. }
  intros [sols fp1] Hcall.
  apply (solver_ok installed_system upstream_system only_unfulfilled_deps
           deps_to_deep_check Pre Post Inv R rules fuel [])
    in Hcall as [_ HR1]; [|by apply top_pre|done].
  by apply IH.
Qed.

Lemma calc_solutions_never_raises fuel ps :
  forall curs fp,
  ps ⊆ packages -> Forall T curs -> R fp ->
  never_raises (calc_solutions installed_system upstream_system
                  only_unfulfilled_deps deps_to_deep_check fuel ps curs fp).
Proof.
  induction ps as [|p ps IH]; intros curs fp Hps Hcurs HR; simpl; [done|].
  apply bind_never_raises.
  { apply expand_package_never_raises; [apply Hps; left|done|done]. }
  intros [curs1 fp1] Hexp.
  eapply (expand_package_ok installed_system upstream_system
            only_unfulfilled_deps deps_to_deep_check Pre Post Inv R rules T
            packages top_pre top_post)
    in Hexp as [Hcurs1 HR1]; [|apply Hps; left|done|constructor|done].
  apply IH; [|done|done]. intros q Hq. apply Hps. by right.
Qed.
End SafeTop.
End SolverSafety.

(** Two sets of proof rules hold together. *)
Lemma solver_rules_conj installed_system upstream_system only_unfulfilled_deps
    Pre1 Post1 Inv1 R1 Pre2 Post2 Inv2 R2 :
  solver_rules installed_system upstream_system only_unfulfilled_deps
    Pre1 Post1 Inv1 R1 ->
  solver_rules installed_system upstream_system only_unfulfilled_deps
    Pre2 Post2 Inv2 R2 ->
  solver_rules installed_system upstream_system only_unfulfilled_deps
    (fun St p s => Pre1 St p s /\ Pre2 St p s)
    (fun St p s s' => Post1 St p s s' /\ Post2 St p s s')
    (fun St p s seen cur => Inv1 St p s seen cur /\ Inv2 St p s seen cur)
    (fun fp => R1 fp /\ R2 fp).
Proof.
  intros r1 r2. split.
  - intros St self s [H1 H2] Hsel.
    split; eapply rule_selected; eauto.
  - intros St self s [H1 H2] Hsel Hvis Hrepo.
    split; eapply rule_revisit; eauto.
  - intros St self s sys [H1 H2] Hvis Hsys.
    split; eapply rule_push; eauto.
  - intros St self s seen dep cur [H1 H2] Hou Hne.
    split; eapply rule_skip; eauto.
  - intros St self s seen dep cur [H1 H2] Hnil.
    split; eapply rule_unprovided; eauto.
  - intros St self s seen dep cur [H1 H2] Hk.
    split; eapply rule_known; eauto.
  - intros St self s seen dep cur sys [H1 H2] Hn Hsys Hne.
    split; eapply rule_in_solution; eauto.
  - intros St self s seen dep cur q [H1 H2] Hn Hdep Hq.
    split; eapply rule_call; eauto.
  - intros St self s seen dep cur q s' [H1 H2] Hn Hdep Hq [HP1 HP2].
    split; eapply rule_return; eauto.
  - intros St self s cur [H1 H2].
    split; eapply rule_select; eauto.
  - intros St self s fp [H1 H2] [HR1 HR2] Hsel Hvis Hrepo Hv.
    split; eapply rule_cycle; eauto.
  - intros St self s fp sys [H1 H2] [HR1 HR2] Hvis Hsys Hne Hv.
    split; eapply rule_conflict; eauto.
  - intros St self s fp dep [H1 H2] [HR1 HR2] Hdep Hnil.
    split; eapply rule_not_provided; eauto.
  - intros St self s cur fp [H1 H2] Hv [HR1 HR2].
    split; eapply rule_clear; eauto.
Qed.

Section DepSolvingReturns.
Variables installed_system upstream_system : System.
Variable only_unfulfilled_deps : bool.
Variable packages : list Package.
Variable ups : list Package.
Hypothesis upstream_built : mkSystem ups = Done upstream_system.
Hypothesis unique_names : forall p q,
  p ∈ ups ++ packages -> q ∈ ups ++ packages -> name p = name q -> p = q.

Lemma universe_known q :
  q ∈ universe upstream_system packages -> q ∈ ups ++ packages.
Proof.
  unfold universe, system_packages.
  intros [[Hq|Hq]%elem_of_app|Hq]%elem_of_app; apply elem_of_app;
    [left|left|by right].
  - by rewrite (mkSystem_values _ _ upstream_built) in Hq.
  - apply list_elem_of_In, in_concat in Hq as (l & Hl & Hq).
    apply list_elem_of_In, list_elem_of_fmap in Hl as ([k l'] & -> & Hkl).
    apply (proj1 (mkSystem_listed _ _ upstream_built)). exists k, l'.
    split; [done|by apply list_elem_of_In].
Qed.

Lemma universe_names_NoDup (l : list Package) :
  (forall p, p ∈ l -> p ∈ universe upstream_system packages) ->
  NoDup (map key l) -> NoDup (map name l).
Proof.
  intros Hsub Hk. apply NoDup_fmap_2_strong; [|by eapply NoDup_fmap_1].
  intros x y Hx Hy Hn. apply unique_names; [| |done]; by apply universe_known, Hsub.
Qed.

Lemma returns_rules :
  solver_rules installed_system upstream_system only_unfulfilled_deps
    (fun St p s =>
       wf_pre (universe upstream_system packages) St p s /\ plan_pre St p s)
    (fun St p s s' =>
       wf_post (universe upstream_system packages) St p s s'
       /\ plan_post St p s s')
    (fun St p s seen cur =>
       wf_inv (universe upstream_system packages) St p s seen cur
       /\ plan_inv St p s seen cur)
    (fun fp => wf_problems (universe upstream_system packages) fp /\ True).
Proof.
  apply solver_rules_conj.
  - apply wf_rules, universe_upstream.
  - apply plan_rules.
Qed.

Lemma dep_solving_loop_never_raises passes fuel :
  forall curs fp deep,
  Forall (fun s => wf_solution (universe upstream_system packages) s
                   /\ plan_state [] s) curs ->
  wf_problems (universe upstream_system packages) fp ->
  never_raises (dep_solving_loop passes fuel packages installed_system
                  upstream_system only_unfulfilled_deps curs fp deep).
Proof.
  induction passes as [|passes IH]; intros curs fp deep Hcurs Hfp; simpl;
    [done|].
  apply bind_never_raises.
  { eapply (calc_solutions_never_raises installed_system upstream_system
              only_unfulfilled_deps deep _ _ _ _ returns_rules)
      with (T := fun s => wf_solution (universe upstream_system packages) s
                          /\ plan_state [] s)
           (packages := packages); [| | | |done|exact Hcurs|by split].
    - intros St self s [(_ & [Hsub Hnd] & _) _] _.
      apply mkSystem_NoDup. by apply universe_names_NoDup.
    - intros St self s seen cur
        [(_ & [Hsub _] & _) ((_ & [Hnd HB] & _) & _)].
      apply mkSystem_NoDup. apply universe_names_NoDup; [|done].
      intros p Hp. by apply Hsub, HB.
    - intros p s Hp [Hwf Hst]. split; [by apply wf_top_pre|done].
    - intros p s s' Hp [Hwf Hst] [Hpost (Hst' & _)].
      split; [by eapply wf_top_post|done]. }
  intros [curs1 fp1] _.
  destruct (nonempty (filter (fun s => is_valid s = true) curs1)); [done|].
  case_bool_decide; [done|].
  apply IH.
  - apply Forall_singleton. split;
      [apply wf_initial_solution|apply plan_state_initial].
  - apply wf_problems_nil.
Qed.
End DepSolvingReturns.

(** Let the upstream system be built from packages, and let no two
    different packages among these and the requested ones share a name.
    Then [dep_solving] returns: within a recursion depth above the number of
    packages of the universe and a number of passes above the number of
    their names it neither runs out of budget nor raises. *)
Theorem dep_solving_returns_a_result passes fuel packages ups installed_system
    upstream_system only_unfulfilled_deps :
  mkSystem ups = Done upstream_system ->
  (forall p q, p ∈ ups ++ packages -> q ∈ ups ++ packages ->
               name p = name q -> p = q) ->
  size (universe_names upstream_system packages) < passes ->
  length (universe upstream_system packages) < fuel ->
  exists r,
    dep_solving passes fuel packages installed_system upstream_system
      only_unfulfilled_deps = Done r.
Proof.
  intros Hups Hnames Hpasses Hfuel. unfold dep_solving.
  assert (Hinit : Forall (fun s =>
            wf_solution (universe upstream_system packages) s
            /\ plan_state [] s) [initial_solution]).
  { apply Forall_singleton. split;
      [apply wf_initial_solution|apply plan_state_initial]. }
  pose proof (dep_solving_loop_never_raises installed_system upstream_system
                only_unfulfilled_deps packages ups Hups Hnames passes fuel
                [initial_solution] [] ∅ Hinit
                (wf_problems_nil _)) as Hsafe.
  assert (Hterm : terminates
            (dep_solving_loop passes fuel packages installed_system
               upstream_system only_unfulfilled_deps [initial_solution] [] ∅)).
  { apply dep_solving_loop_terminates; [done| | | |].
    - apply Forall_singleton, wf_initial_solution.
    - apply wf_problems_nil.
    - apply empty_subseteq.
    - rewrite size_empty. lia. }
  destruct (dep_solving_loop passes fuel packages installed_system
              upstream_system only_unfulfilled_deps [initial_solution] [] ∅)
    as [[curs fp]|e|]; simpl; [by eexists|by destruct (Hsafe e)|done].
Qed.

End Core.

(** ** The properties at work on concrete packages *)

Abbreviation split_nv := Utilities.split_name_with_versioning (only parsing).
Abbreviation vercmp := Utilities.version_comparison (only parsing).

(** C7 on a repo package, as [expac] gives it, and on an AUR package with a
    make-dependency, as the AUR gives it. *)
Lemma relevant_deps_follows_classification_witness :
  loaded (fun _ => false) Examples.mesa_repo
  /\ relevant_deps Examples.mesa_repo = ["libglvnd"]
  /\ loaded (fun _ => false)
       (mkPackage "yay" "9" (Some ["pacman"]) [] None [] (Some ["go"])
          (Some []) AUR_PACKAGE)
  /\ relevant_deps
       (mkPackage "yay" "9" (Some ["pacman"]) [] None [] (Some ["go"])
          (Some []) AUR_PACKAGE)
     = ["pacman"; "go"].
Proof.
  assert (Hmesa : loaded (fun _ => false) Examples.mesa_repo).
  { right. exists REPO_PACKAGE,
      [mkExpacLine "mesa" "1" ["libglvnd"] [] [] None]. left. }
  assert (Hyay : loaded (fun _ => false)
                   (mkPackage "yay" "9" (Some ["pacman"]) [] None []
                      (Some ["go"]) (Some []) AUR_PACKAGE)).
  { left. exists [mkAurInfo "yay" "9" (Some ["pacman"]) None None
                    (Some ["go"]) None]. left. }
  split; [exact Hmesa|]. split.
  - exact (relevant_deps_follows_classification (fun _ => false)
             Examples.mesa_repo Hmesa).
  - split; [exact Hyay|].
    exact (relevant_deps_follows_classification (fun _ => false) _ Hyay).
Defined.

(** C4: a package with two provides that match the atom is returned twice. *)
Theorem provided_by_repeats_a_package :
  provided_by split_nv vercmp (system_of split_nv [Examples.jre]) "java-runtime"
  = [Examples.jre; Examples.jre].
Proof. vm_compute. reflexivity. Qed.

(** C3 on two requested packages that depend on each other. *)
Lemma dep_solving_terminates_witness :
  size (universe_names
          (system_of split_nv [Examples.a_cyclic; Examples.b_cyclic])
          [Examples.a_cyclic]) < 3
  /\ length (universe
               (system_of split_nv [Examples.a_cyclic; Examples.b_cyclic])
               [Examples.a_cyclic]) < 4
  /\ terminates
       (dep_solving split_nv vercmp 3 4 [Examples.a_cyclic] empty_system
          (system_of split_nv [Examples.a_cyclic; Examples.b_cyclic]) true).
Proof.
  assert (Hpasses :
    size (universe_names
            (system_of split_nv [Examples.a_cyclic; Examples.b_cyclic])
            [Examples.a_cyclic]) < 3) by (vm_compute; lia).
  assert (Hfuel :
    length (universe
              (system_of split_nv [Examples.a_cyclic; Examples.b_cyclic])
              [Examples.a_cyclic]) < 4) by (vm_compute; lia).
  split; [exact Hpasses|]. split; [exact Hfuel|].
  exact (proj1 (dep_solving_terminates split_nv vercmp [Examples.a_cyclic]
                  empty_system
                  (system_of split_nv [Examples.a_cyclic; Examples.b_cyclic])
                  true 3 4 Hpasses Hfuel)).
Defined.

(** C10 and C6 on the same packages: the cycle found is closed, and closed by
    a package that is not a repo package. *)
Lemma recorded_cycles_are_closed_witness :
  exists r,
    dep_solving split_nv vercmp 3 4 [Examples.a_cyclic] empty_system
      (system_of split_nv [Examples.a_cyclic; Examples.b_cyclic]) true = Done r
    /\ final_problems r
       = [DepAlgoCycle [Examples.a_cyclic; Examples.b_cyclic; Examples.a_cyclic]]
    /\ Forall closed_cycle (final_problems r).
Proof.
  assert (Hr : exists r,
    dep_solving split_nv vercmp 3 4 [Examples.a_cyclic] empty_system
      (system_of split_nv [Examples.a_cyclic; Examples.b_cyclic]) true = Done r
    /\ final_problems r
       = [DepAlgoCycle [Examples.a_cyclic; Examples.b_cyclic; Examples.a_cyclic]]).
  { eexists. split; vm_compute; reflexivity. }
  destruct Hr as (r & Hr & Hfp). exists r. split; [exact Hr|]. split; [exact Hfp|].
  exact (proj2 (recorded_cycles_are_closed split_nv vercmp empty_system
                  (system_of split_nv [Examples.a_cyclic; Examples.b_cyclic])
                  true) 3 4 [Examples.a_cyclic] r Hr).
Defined.

Lemma repo_packages_are_exempt_from_cycles_witness :
  let s := mkSolution [] [Examples.mesa_repo; Examples.libglvnd_repo] ∅ true in
  solutions_for_dep_problem split_nv vercmp empty_system
    (system_of split_nv [Examples.mesa_repo; Examples.libglvnd_repo]) true ∅ 1
    Examples.mesa_repo s []
  = Done ([s], []).
Proof.
  intros s.
  apply (proj1 (repo_packages_are_exempt_from_cycles split_nv vercmp
                  empty_system
                  (system_of split_nv [Examples.mesa_repo; Examples.libglvnd_repo])
                  true ∅)); reflexivity.
Defined.

(** C5 does not hold as worded: for a solution that is invalid already the
    conflict between [b] and [c] is not recorded. *)
Lemma conflict_not_recorded_for_invalid_solution :
  conflicting_with split_nv vercmp (system_of split_nv [Examples.c]) Examples.b
  = [Examples.c]
  /\ solutions_for_dep_problem split_nv vercmp empty_system empty_system true ∅
       1 Examples.b Examples.invalid_after_c []
     = Done ([mkSolution [Examples.c; Examples.b] [Examples.c; Examples.b]
                ∅ false], [])
  /\ ~ conflict_always_recorded split_nv vercmp.
Proof.
  split; [reflexivity|]. split; [reflexivity|].
  intros H.
  specialize (H empty_system empty_system true ∅ 1 Examples.b
                Examples.invalid_after_c []
                (system_of split_nv [Examples.c])
                [mkSolution [Examples.c; Examples.b] [Examples.c; Examples.b]
                   ∅ false] []).
  unfold recorded in H. simpl in H. discriminate H; reflexivity.
Qed.

Lemma conflict_recorded_for_valid_solution_witness :
  nonempty (conflicting_with split_nv vercmp (system_of split_nv [Examples.c])
              Examples.b) = true
  /\ exists sols fp',
       solutions_for_dep_problem split_nv vercmp empty_system empty_system true
         ∅ 1 Examples.b Examples.valid_after_c [] = Done (sols, fp')
       /\ Forall (fun s' => is_valid s' = false) sols
       /\ recorded
            (DepAlgoConflict [Examples.c; Examples.b] [Examples.c; Examples.b])
            fp'.
Proof.
  split; [reflexivity|].
  assert (Hr : exists sols fp',
    solutions_for_dep_problem split_nv vercmp empty_system empty_system true
      ∅ 1 Examples.b Examples.valid_after_c [] = Done (sols, fp')).
  { eexists _, _. vm_compute. reflexivity. }
  destruct Hr as (sols & fp' & Hr). exists sols, fp'. split; [exact Hr|].
  destruct (proj2 (proj2 (conflict_recorded_for_valid_solution split_nv vercmp
                            empty_system empty_system true ∅ 0 Examples.b
                            Examples.valid_after_c []
                            (system_of split_nv [Examples.c])
                            eq_refl eq_refl eq_refl eq_refl)) sols fp' Hr)
    as [Hinv Hrec].
  split; [exact Hinv|exact (Hrec eq_refl)].
Defined.

(** The local [found_problems] itself need not be empty when a plan is
    returned: [app] and [tool] are both requested, the branch through [p2]
    is abandoned for its conflict with [tool], the plan through [p1] is
    returned, and the conflict is still in the set.  It is not shown:
    [printed] is [None]. *)
Example problems_left_with_a_plan :
  dep_solving split_nv vercmp 1 3 [Examples.app; Examples.tool] empty_system
    (system_of split_nv [Examples.app; Examples.p1; Examples.p2; Examples.tool])
    true
  = Done (mkSolvingResult [[Examples.p1; Examples.app; Examples.tool]] None
            [DepAlgoConflict [Examples.p2; Examples.tool]
               [Examples.p2; Examples.tool]])
  /\ ~ problems_empty_when_solved split_nv vercmp.
Proof.
  split; [vm_compute; reflexivity|].
  intros H.
  specialize (H 1 3 [Examples.app; Examples.tool] empty_system
                (system_of split_nv
                   [Examples.app; Examples.p1; Examples.p2; Examples.tool])
                true).
  vm_compute in H. specialize (H _ eq_refl). discriminate H. discriminate.
Qed.

Lemma no_problem_reported_with_a_plan_witness :
  exists r,
    dep_solving split_nv vercmp 1 3 [Examples.app] empty_system
      (system_of split_nv
         [Examples.app; Examples.p1; Examples.p2; Examples.tool]) true
    = Done r
    /\ plans r = [[Examples.p1; Examples.app]; [Examples.p2; Examples.app]]
    /\ printed r = None /\ final_problems r = [].
Proof.
  assert (Hr : exists r,
    dep_solving split_nv vercmp 1 3 [Examples.app] empty_system
      (system_of split_nv
         [Examples.app; Examples.p1; Examples.p2; Examples.tool]) true
    = Done r
    /\ plans r = [[Examples.p1; Examples.app]; [Examples.p2; Examples.app]]).
  { eexists. split; vm_compute; reflexivity. }
  destruct Hr as (r & Hr & Hplans). exists r.
  split; [exact Hr|]. split; [exact Hplans|].
  assert (Hne : plans r <> []) by (rewrite Hplans; discriminate).
  destruct (no_problem_reported_with_a_plan split_nv vercmp 1 3 [Examples.app]
              empty_system
              (system_of split_nv
                 [Examples.app; Examples.p1; Examples.p2; Examples.tool])
              true r Hr Hne) as [Hp Hf].
  split; [exact Hp|exact (Hf Examples.app eq_refl)].
Defined.

(** C8 on an installed system of [x] and [y], to which [z] is appended. *)
Lemma hypothetical_append_is_pure_witness :
  exists h' r,
    hypothetical_append_packages_to_system_at split_nv vercmp 5 0
      [Examples.z_new]
      [system_of split_nv [Examples.x_installed; Examples.y_installed]]
    = (h', r)
    /\ (forall l,
          l < length [system_of split_nv
                        [Examples.x_installed; Examples.y_installed]] ->
          h' !! l
          = [system_of split_nv [Examples.x_installed; Examples.y_installed]]
              !! l)
    /\ match r with
       | Done new_system =>
           exists s',
             hypothetical_append_packages_to_system split_nv vercmp 5
               (system_of split_nv [Examples.x_installed; Examples.y_installed])
               [Examples.z_new] = Done s'
             /\ h' !! new_system = Some s'
             /\ length [system_of split_nv
                          [Examples.x_installed; Examples.y_installed]]
                <= new_system
       | Raised e =>
           hypothetical_append_packages_to_system split_nv vercmp 5
             (system_of split_nv [Examples.x_installed; Examples.y_installed])
             [Examples.z_new] = Raised e
       | OutOfFuel =>
           hypothetical_append_packages_to_system split_nv vercmp 5
             (system_of split_nv [Examples.x_installed; Examples.y_installed])
             [Examples.z_new] = OutOfFuel
       end.
Proof.
  apply (hypothetical_append_is_pure split_nv vercmp 5
           [system_of split_nv [Examples.x_installed; Examples.y_installed]] 0
           (system_of split_nv [Examples.x_installed; Examples.y_installed])
           [Examples.z_new]).
  reflexivity.
Defined.

(** The hypothetical system of that example: [x] is removed for its conflict
    with [z], and [y] with it. *)
Example hypothetical_append_cascade :
  hypothetical_append_packages_to_system split_nv vercmp 5
    (system_of split_nv [Examples.x_installed; Examples.y_installed])
    [Examples.z_new]
  = Done (system_of split_nv [Examples.z_new]).
Proof. vm_compute. reflexivity. Qed.

(** C9 on the two plans for [app], of which only the first contains the
    needed [p1]: it is returned without a question. *)
Lemma validate_and_choose_solution_on_solver_plans_witness :
  exists r,
    dep_solving split_nv vercmp 1 3 [Examples.app] empty_system
      (system_of split_nv
         [Examples.app; Examples.p1; Examples.p2; Examples.tool]) true
    = Done r
    /\ plans r = [[Examples.p1; Examples.app]; [Examples.p2; Examples.app]]
    /\ mkSystem split_nv [Examples.low] = Done (system_of split_nv [Examples.low])
    /\ (forall plan, plan ∈ plans r ->
          2 * (length (all_packages_dict (system_of split_nv [Examples.low]))
               + length plan) + 1 < 10)
    /\ validate_and_choose_solution split_nv vercmp 10
         (system_of split_nv [Examples.low]) (plans r) [Examples.p1] [Some 1%Z]
       = (Done [Examples.p1; Examples.app], [])
    /\ exists new_systems,
         Forall2 (fun plan sys =>
                    hypothetical_append_packages_to_system split_nv vercmp 10
                      (system_of split_nv [Examples.low]) plan = Done sys)
           (plans r) new_systems
         /\ ((validate_and_choose_solution split_nv vercmp 10
                (system_of split_nv [Examples.low]) (plans r) [Examples.p1]
                [Some 1%Z]).1 = Raised NoValidSolutionsFound
             <-> Forall (fun sys => contains_needed [Examples.p1] sys = false)
                   new_systems)
         /\ (forall e,
               (validate_and_choose_solution split_nv vercmp 10
                  (system_of split_nv [Examples.low]) (plans r) [Examples.p1]
                  [Some 1%Z]).1 = Raised e ->
               e = NoValidSolutionsFound \/ (e = EOFError /\ Some 1%Z ∉ [Some 1%Z]))
         /\ (Some 1%Z ∈ [Some 1%Z] ->
             (exists e,
                (validate_and_choose_solution split_nv vercmp 10
                   (system_of split_nv [Examples.low]) (plans r)
                   [Examples.p1] [Some 1%Z]).1 = Raised e)
             <-> Forall (fun sys => contains_needed [Examples.p1] sys = false)
                   new_systems)
         /\ (forall i plan sys,
               plans r !! i = Some plan -> new_systems !! i = Some sys ->
               contains_needed [Examples.p1] sys = true ->
               (forall j sys', new_systems !! j = Some sys' ->
                               contains_needed [Examples.p1] sys' = true ->
                               j = i) ->
               validate_and_choose_solution split_nv vercmp 10
                 (system_of split_nv [Examples.low]) (plans r) [Examples.p1]
                 [Some 1%Z]
               = (Done plan, [])).
Proof.
  assert (Hr : exists r,
    dep_solving split_nv vercmp 1 3 [Examples.app] empty_system
      (system_of split_nv
         [Examples.app; Examples.p1; Examples.p2; Examples.tool]) true
    = Done r
    /\ plans r = [[Examples.p1; Examples.app]; [Examples.p2; Examples.app]]).
  { eexists. split; vm_compute; reflexivity. }
  destruct Hr as (r & Hr & Hplans). exists r.
  assert (HS : mkSystem split_nv [Examples.low]
               = Done (system_of split_nv [Examples.low]))
    by (vm_compute; reflexivity).
  assert (Hfuel : forall plan, plan ∈ plans r ->
            2 * (length (all_packages_dict (system_of split_nv [Examples.low]))
                 + length plan) + 1 < 10).
  { rewrite Hplans. intros plan Hplan.
    repeat (apply elem_of_cons in Hplan as [->|Hplan]);
      try (by apply elem_of_nil in Hplan); vm_compute; lia. }
  split; [exact Hr|]. split; [exact Hplans|]. split; [exact HS|].
  split; [exact Hfuel|].
  split; [rewrite Hplans; vm_compute; reflexivity|].
  exact (validate_and_choose_solution_on_solver_plans split_nv vercmp _ _ _ _
           _ _ _ 10 _ _ [Examples.p1] [Some 1%Z] Hr HS Hfuel).
Defined.

(** C1 does not hold as worded: of two repo packages that depend on each
    other the plan lists [libglvnd] first, whose dependency [mesa] nothing
    installed and nothing earlier in the plan provides. *)
Lemma repo_cycle_is_not_sorted :
  dep_solving split_nv vercmp 1 3 [Examples.mesa_repo] empty_system
    (system_of split_nv [Examples.mesa_repo; Examples.libglvnd_repo]) true
  = Done (mkSolvingResult [[Examples.libglvnd_repo; Examples.mesa_repo]] None [])
  /\ relevant_deps Examples.libglvnd_repo = ["mesa"]
  /\ provided_by split_nv vercmp empty_system "mesa" = []
  /\ ~ plans_topologically_sorted split_nv vercmp.
Proof.
  split; [vm_compute; reflexivity|]. split; [reflexivity|].
  split; [reflexivity|].
  intros H.
  destruct (H 1 3 [Examples.mesa_repo] empty_system
              (system_of split_nv [Examples.mesa_repo; Examples.libglvnd_repo])
              true
              (mkSolvingResult [[Examples.libglvnd_repo; Examples.mesa_repo]]
                 None [])
              [Examples.libglvnd_repo; Examples.mesa_repo] 0
              Examples.libglvnd_repo "mesa")
    as [[_ Hinst]|(j & q & Hj & _)].
  - vm_compute. reflexivity.
  - left.
  - reflexivity.
  - left.
  - discriminate Hinst.
  - lia.
Qed.

(** A cycle of AUR packages is not always recorded.  When it closes through
    a dependency the solution knows already, [helper] is planned before
    [impl], the provider of its dependency, and no problem is reported: for
    such a cycle the plan is not "topologically sorted", as the source says
    it always is. *)
Example hidden_cycle_is_not_sorted :
  dep_solving split_nv vercmp 1 4 [Examples.front] empty_system
    (system_of split_nv [Examples.front; Examples.impl; Examples.helper]) true
  = Done (mkSolvingResult [[Examples.helper; Examples.impl; Examples.front]]
            None [])
  /\ relevant_deps Examples.helper = ["virt"]
  /\ provided_by split_nv vercmp
       (system_of split_nv [Examples.front; Examples.impl; Examples.helper])
       "virt" = [Examples.impl]
  /\ is_repo Examples.impl = false.
Proof.
  split; [vm_compute; reflexivity|]. split; [reflexivity|].
  split; [vm_compute; reflexivity|reflexivity].
Qed.

(** C1 on the repo packages [mesa] and [libglvnd], which depend on each
    other, requested through the AUR package [game]: [libglvnd] comes first,
    and its dependency [mesa] is provided by the repo package after it. *)
Lemma plans_in_post_order_up_to_repo_cycles_witness :
  mkSystem split_nv [Examples.mesa_repo; Examples.libglvnd_repo]
  = Done (system_of split_nv [Examples.mesa_repo; Examples.libglvnd_repo])
  /\ (forall p q,
        p ∈ [Examples.mesa_repo; Examples.libglvnd_repo] ++ [Examples.game] ->
        q ∈ [Examples.mesa_repo; Examples.libglvnd_repo] ++ [Examples.game] ->
        pkg_eqb p q = true -> p = q)
  /\ (forall p q,
        dep_edge split_nv vercmp
          (system_of split_nv [Examples.mesa_repo; Examples.libglvnd_repo])
          p q ->
        depends_on split_nv vercmp
          (system_of split_nv [Examples.mesa_repo; Examples.libglvnd_repo])
          q p ->
        is_repo q = true)
  /\ dep_solving split_nv vercmp 1 4 [Examples.game] empty_system
       (system_of split_nv [Examples.mesa_repo; Examples.libglvnd_repo]) true
     = Done (mkSolvingResult
               [[Examples.libglvnd_repo; Examples.mesa_repo; Examples.game]]
               None [])
  /\ (satisfied_by_installed split_nv vercmp empty_system true "mesa"
      \/ (exists j q,
            j < 0
            /\ [Examples.libglvnd_repo; Examples.mesa_repo; Examples.game] !! j
               = Some q
            /\ provides_dep split_nv vercmp q "mesa" = true)
      \/ (exists j q,
            0 <= j
            /\ [Examples.libglvnd_repo; Examples.mesa_repo; Examples.game] !! j
               = Some q
            /\ is_repo q = true
            /\ q ∈ provided_by split_nv vercmp
                     (system_of split_nv
                        [Examples.mesa_repo; Examples.libglvnd_repo]) "mesa"
            /\ depends_on split_nv vercmp
                 (system_of split_nv
                    [Examples.mesa_repo; Examples.libglvnd_repo])
                 q Examples.libglvnd_repo)).
Proof.
  assert (Hups : mkSystem split_nv [Examples.mesa_repo; Examples.libglvnd_repo]
                 = Done (system_of split_nv
                           [Examples.mesa_repo; Examples.libglvnd_repo]))
    by (vm_compute; reflexivity).
  assert (Hid : forall p q,
            p ∈ [Examples.mesa_repo; Examples.libglvnd_repo] ++ [Examples.game] ->
            q ∈ [Examples.mesa_repo; Examples.libglvnd_repo] ++ [Examples.game] ->
            pkg_eqb p q = true -> p = q).
  { intros p q Hp Hq Heq.
    repeat (apply elem_of_cons in Hp as [->|Hp]);
      try (by apply elem_of_nil in Hp);
      repeat (apply elem_of_cons in Hq as [->|Hq]);
      try (by apply elem_of_nil in Hq);
      first [reflexivity|discriminate Heq]. }
  assert (Hcycles : forall p q,
            dep_edge split_nv vercmp
              (system_of split_nv [Examples.mesa_repo; Examples.libglvnd_repo])
              p q ->
            depends_on split_nv vercmp
              (system_of split_nv [Examples.mesa_repo; Examples.libglvnd_repo])
              q p ->
            is_repo q = true).
  { intros p q (a & _ & Hq) _.
    destruct (provided_by_sound split_nv vercmp _ _ a q Hups Hq) as [Hin _].
    repeat (apply elem_of_cons in Hin as [->|Hin]);
      try (by apply elem_of_nil in Hin); reflexivity. }
  assert (Hr : dep_solving split_nv vercmp 1 4 [Examples.game] empty_system
                 (system_of split_nv
                    [Examples.mesa_repo; Examples.libglvnd_repo]) true
               = Done (mkSolvingResult
                         [[Examples.libglvnd_repo; Examples.mesa_repo;
                           Examples.game]] None []))
    by (vm_compute; reflexivity).
  split; [exact Hups|]. split; [exact Hid|]. split; [exact Hcycles|].
  split; [exact Hr|].
  apply (plans_in_post_order_up_to_repo_cycles split_nv vercmp 1 4
           [Examples.game] [Examples.mesa_repo; Examples.libglvnd_repo]
           empty_system
           (system_of split_nv [Examples.mesa_repo; Examples.libglvnd_repo])
           true
           (mkSolvingResult
              [[Examples.libglvnd_repo; Examples.mesa_repo; Examples.game]]
              None [])
           Hups Hid Hcycles Hr)
    with (P := [Examples.libglvnd_repo; Examples.mesa_repo; Examples.game])
         (i := 0) (p := Examples.libglvnd_repo).
  - left.
  - reflexivity.
  - left.
Defined.


(** ** Further properties at work *)

Lemma System_lookup_round_trip_witness :
  mkSystem split_nv [Examples.top; Examples.mid; Examples.low]
  = Done (system_of split_nv [Examples.top; Examples.mid; Examples.low])
  /\ (PyDict.get
        (all_packages_dict
           (system_of split_nv [Examples.top; Examples.mid; Examples.low]))
        "mid" = Some Examples.mid
      <-> Examples.mid ∈ [Examples.top; Examples.mid; Examples.low]
          /\ name Examples.mid = "mid").
Proof.
  assert (H : mkSystem split_nv [Examples.top; Examples.mid; Examples.low]
              = Done (system_of split_nv
                        [Examples.top; Examples.mid; Examples.low]))
    by (vm_compute; reflexivity).
  split; [exact H|].
  exact (System_lookup_round_trip split_nv vercmp _ _ "mid" Examples.mid H).
Defined.

Lemma append_packages_after_init_witness :
  mkSystem split_nv [Examples.top] = Done (system_of split_nv [Examples.top])
  /\ append_packages split_nv (system_of split_nv [Examples.top])
       [Examples.mid; Examples.low]
     = mkSystem split_nv ([Examples.top] ++ [Examples.mid; Examples.low]).
Proof.
  assert (H : mkSystem split_nv [Examples.top]
              = Done (system_of split_nv [Examples.top]))
    by (vm_compute; reflexivity).
  split; [exact H|].
  exact (append_packages_after_init split_nv vercmp _
           [Examples.mid; Examples.low] _ H).
Defined.

Lemma System_init_sorts_by_type_witness :
  mkSystem split_nv [Examples.mesa_repo; Examples.app; Examples.libglvnd_repo]
  = Done (system_of split_nv
            [Examples.mesa_repo; Examples.app; Examples.libglvnd_repo])
  /\ repo_packages_list
       (system_of split_nv
          [Examples.mesa_repo; Examples.app; Examples.libglvnd_repo])
     = filter (fun p => type_of p = REPO_PACKAGE)
         [Examples.mesa_repo; Examples.app; Examples.libglvnd_repo].
Proof.
  assert (H : mkSystem split_nv
                [Examples.mesa_repo; Examples.app; Examples.libglvnd_repo]
              = Done (system_of split_nv
                        [Examples.mesa_repo; Examples.app;
                         Examples.libglvnd_repo]))
    by (vm_compute; reflexivity).
  split; [exact H|].
  exact (proj1 (System_init_sorts_by_type split_nv _ _ H)).
Defined.

Lemma System_index_dicts_exact_witness :
  mkSystem split_nv [Examples.app; Examples.p1; Examples.p2]
  = Done (system_of split_nv [Examples.app; Examples.p1; Examples.p2])
  /\ (Examples.p1
        ∈ default []
            (PyDict.get
               (provides_dict
                  (system_of split_nv [Examples.app; Examples.p1; Examples.p2]))
               "x")
      <-> Examples.p1 ∈ [Examples.app; Examples.p1; Examples.p2]
          /\ exists v, v ∈ provides Examples.p1
                       /\ strip_versioning_from_name split_nv v = "x").
Proof.
  assert (H : mkSystem split_nv [Examples.app; Examples.p1; Examples.p2]
              = Done (system_of split_nv
                        [Examples.app; Examples.p1; Examples.p2]))
    by (vm_compute; reflexivity).
  split; [exact H|].
  exact (proj1 (System_index_dicts_exact split_nv vercmp _ _ "x" Examples.p1 H)).
Defined.

Lemma provided_by_exact_witness :
  mkSystem split_nv [Examples.app; Examples.p1; Examples.p2]
  = Done (system_of split_nv [Examples.app; Examples.p1; Examples.p2])
  /\ (Examples.p2
        ∈ provided_by split_nv vercmp
            (system_of split_nv [Examples.app; Examples.p1; Examples.p2]) "x"
      <-> Examples.p2 ∈ [Examples.app; Examples.p1; Examples.p2]
          /\ provides_dep split_nv vercmp Examples.p2 "x" = true).
Proof.
  assert (H : mkSystem split_nv [Examples.app; Examples.p1; Examples.p2]
              = Done (system_of split_nv
                        [Examples.app; Examples.p1; Examples.p2]))
    by (vm_compute; reflexivity).
  split; [exact H|].
  exact (provided_by_exact split_nv vercmp _ _ "x" Examples.p2 H).
Defined.

Lemma provided_by_name_match_first_witness :
  mkSystem split_nv [Examples.top; Examples.mid; Examples.low]
  = Done (system_of split_nv [Examples.top; Examples.mid; Examples.low])
  /\ Examples.mid ∈ [Examples.top; Examples.mid; Examples.low]
  /\ provides_by_name split_nv vercmp Examples.mid "mid" = true
  /\ head (provided_by split_nv vercmp
             (system_of split_nv [Examples.top; Examples.mid; Examples.low])
             "mid") = Some Examples.mid.
Proof.
  assert (H : mkSystem split_nv [Examples.top; Examples.mid; Examples.low]
              = Done (system_of split_nv
                        [Examples.top; Examples.mid; Examples.low]))
    by (vm_compute; reflexivity).
  assert (Hin : Examples.mid ∈ [Examples.top; Examples.mid; Examples.low])
    by (right; left).
  assert (Hn : provides_by_name split_nv vercmp Examples.mid "mid" = true)
    by reflexivity.
  split; [exact H|]. split; [exact Hin|]. split; [exact Hn|].
  exact (provided_by_name_match_first split_nv vercmp _ _ "mid" Examples.mid
           H Hin Hn).
Defined.

Lemma provided_by_monotone_witness :
  mkSystem split_nv [Examples.p1] = Done (system_of split_nv [Examples.p1])
  /\ append_packages split_nv (system_of split_nv [Examples.p1]) [Examples.p2]
     = Done (system_of split_nv [Examples.p1; Examples.p2])
  /\ Examples.p1
       ∈ provided_by split_nv vercmp (system_of split_nv [Examples.p1]) "x"
  /\ Examples.p1
       ∈ provided_by split_nv vercmp
           (system_of split_nv [Examples.p1; Examples.p2]) "x".
Proof.
  assert (H : mkSystem split_nv [Examples.p1]
              = Done (system_of split_nv [Examples.p1]))
    by (vm_compute; reflexivity).
  assert (H' : append_packages split_nv (system_of split_nv [Examples.p1])
                 [Examples.p2]
               = Done (system_of split_nv [Examples.p1; Examples.p2]))
    by (vm_compute; reflexivity).
  assert (Hq : Examples.p1
                 ∈ provided_by split_nv vercmp
                     (system_of split_nv [Examples.p1]) "x").
  { assert (Hl : provided_by split_nv vercmp
                   (system_of split_nv [Examples.p1]) "x" = [Examples.p1])
      by (vm_compute; reflexivity).
    rewrite Hl. left. }
  split; [exact H|]. split; [exact H'|]. split; [exact Hq|].
  exact (provided_by_monotone split_nv vercmp _ _ _ _ "x" Examples.p1 H H' Hq).
Defined.

Lemma are_all_deps_fulfilled_exact_witness :
  mkSystem split_nv [Examples.top; Examples.mid; Examples.low]
  = Done (system_of split_nv [Examples.top; Examples.mid; Examples.low])
  /\ (are_all_deps_fulfilled split_nv vercmp
        (system_of split_nv [Examples.top; Examples.mid; Examples.low])
        Examples.top = true
      <-> forall dep, dep ∈ relevant_deps Examples.top ->
            exists q, q ∈ [Examples.top; Examples.mid; Examples.low]
                      /\ provides_dep split_nv vercmp q dep = true).
Proof.
  assert (H : mkSystem split_nv [Examples.top; Examples.mid; Examples.low]
              = Done (system_of split_nv
                        [Examples.top; Examples.mid; Examples.low]))
    by (vm_compute; reflexivity).
  split; [exact H|].
  exact (are_all_deps_fulfilled_exact split_nv vercmp _ _ Examples.top H).
Defined.

Lemma conflicting_with_exact_witness :
  mkSystem split_nv [Examples.c] = Done (system_of split_nv [Examples.c])
  /\ (Examples.c
        ∈ conflicting_with split_nv vercmp (system_of split_nv [Examples.c])
            Examples.b
      <-> Examples.c ∈ [Examples.c]
          /\ in_conflict split_nv vercmp Examples.b Examples.c = true).
Proof.
  assert (H : mkSystem split_nv [Examples.c]
              = Done (system_of split_nv [Examples.c]))
    by (vm_compute; reflexivity).
  split; [exact H|].
  exact (conflicting_with_exact split_nv vercmp _ _ Examples.b Examples.c H).
Defined.

Lemma conflicting_with_symmetric_witness :
  mkSystem split_nv [Examples.c] = Done (system_of split_nv [Examples.c])
  /\ mkSystem split_nv [Examples.b] = Done (system_of split_nv [Examples.b])
  /\ Examples.c ∈ [Examples.c] /\ Examples.b ∈ [Examples.b]
  /\ (Examples.c
        ∈ conflicting_with split_nv vercmp (system_of split_nv [Examples.c])
            Examples.b
      <-> Examples.b
            ∈ conflicting_with split_nv vercmp
                (system_of split_nv [Examples.b]) Examples.c).
Proof.
  assert (H1 : mkSystem split_nv [Examples.c]
               = Done (system_of split_nv [Examples.c]))
    by (vm_compute; reflexivity).
  assert (H2 : mkSystem split_nv [Examples.b]
               = Done (system_of split_nv [Examples.b]))
    by (vm_compute; reflexivity).
  assert (Hc : Examples.c ∈ [Examples.c]) by left.
  assert (Hb : Examples.b ∈ [Examples.b]) by left.
  split; [exact H1|]. split; [exact H2|]. split; [exact Hc|].
  split; [exact Hb|].
  exact (conflicting_with_symmetric split_nv vercmp _ _ _ _ Examples.b
           Examples.c H1 H2 Hc Hb).
Defined.

(** The installed system of [x] and [y], to which two packages named [a]
    are appended: the call raises for the second. *)
Lemma hypothetical_append_returns_iff_distinct_names_witness :
  mkSystem split_nv [Examples.x_installed; Examples.y_installed]
  = Done (system_of split_nv [Examples.x_installed; Examples.y_installed])
  /\ 2 * (length (all_packages_dict
                    (system_of split_nv
                       [Examples.x_installed; Examples.y_installed]))
          + length [Examples.a1; Examples.a2]) + 1 < 10
  /\ hypothetical_append_packages_to_system split_nv vercmp 10
       (system_of split_nv [Examples.x_installed; Examples.y_installed])
       [Examples.a1; Examples.a2]
     = Raised (PackageAlreadyKnown Examples.a2)
  /\ ((exists S',
         hypothetical_append_packages_to_system split_nv vercmp 10
           (system_of split_nv [Examples.x_installed; Examples.y_installed])
           [Examples.a1; Examples.a2] = Done S')
      <-> NoDup (map name [Examples.a1; Examples.a2]))
  /\ (forall e,
        hypothetical_append_packages_to_system split_nv vercmp 10
          (system_of split_nv [Examples.x_installed; Examples.y_installed])
          [Examples.a1; Examples.a2] = Raised e ->
        exists l1 p l2,
          [Examples.a1; Examples.a2] = l1 ++ p :: l2
          /\ e = PackageAlreadyKnown p
          /\ NoDup (map name l1) /\ name p ∈ map name l1)
  /\ (forall k,
        hypothetical_append_packages_to_system split_nv vercmp 10
          (system_of split_nv [Examples.x_installed; Examples.y_installed])
          [Examples.a1; Examples.a2] <> Raised (KeyError k)).
Proof.
  assert (H : mkSystem split_nv [Examples.x_installed; Examples.y_installed]
              = Done (system_of split_nv
                        [Examples.x_installed; Examples.y_installed]))
    by (vm_compute; reflexivity).
  assert (Hfuel : 2 * (length (all_packages_dict
                                 (system_of split_nv
                                    [Examples.x_installed;
                                     Examples.y_installed]))
                       + length [Examples.a1; Examples.a2]) + 1 < 10)
    by (vm_compute; lia).
  split; [exact H|]. split; [exact Hfuel|].
  split; [vm_compute; reflexivity|].
  exact (hypothetical_append_returns_iff_distinct_names split_nv vercmp 10 _ _
           [Examples.a1; Examples.a2] H Hfuel).
Defined.

Lemma hypothetical_append_builds_a_system_witness :
  mkSystem split_nv [Examples.x_installed; Examples.y_installed]
  = Done (system_of split_nv [Examples.x_installed; Examples.y_installed])
  /\ hypothetical_append_packages_to_system split_nv vercmp 10
       (system_of split_nv [Examples.x_installed; Examples.y_installed])
       [Examples.z_new] = Done (system_of split_nv [Examples.z_new])
  /\ mkSystem split_nv
       (PyDict.values (all_packages_dict (system_of split_nv [Examples.z_new])))
     = Done (system_of split_nv [Examples.z_new])
  /\ PyDict.values (all_packages_dict (system_of split_nv [Examples.z_new]))
       `sublist_of`
       (filter (fun q => name q ∉ map name [Examples.z_new])
          [Examples.x_installed; Examples.y_installed] ++ [Examples.z_new]).
Proof.
  assert (H : mkSystem split_nv [Examples.x_installed; Examples.y_installed]
              = Done (system_of split_nv
                        [Examples.x_installed; Examples.y_installed]))
    by (vm_compute; reflexivity).
  assert (Hrun : hypothetical_append_packages_to_system split_nv vercmp 10
                   (system_of split_nv
                      [Examples.x_installed; Examples.y_installed])
                   [Examples.z_new] = Done (system_of split_nv [Examples.z_new]))
    by (vm_compute; reflexivity).
  split; [exact H|]. split; [exact Hrun|].
  exact (hypothetical_append_builds_a_system split_nv vercmp 10 _ _ _ _ H Hrun).
Defined.

Lemma hypothetical_append_keeps_fulfilled_packages_witness :
  mkSystem split_nv [Examples.x_installed; Examples.y_installed]
  = Done (system_of split_nv [Examples.x_installed; Examples.y_installed])
  /\ hypothetical_append_packages_to_system split_nv vercmp 10
       (system_of split_nv [Examples.x_installed; Examples.y_installed])
       [Examples.z_new] = Done (system_of split_nv [Examples.z_new])
  /\ Examples.z_new ∈ [Examples.z_new]
  /\ PyDict.get (all_packages_dict (system_of split_nv [Examples.z_new]))
       (name Examples.z_new) = Some Examples.z_new
  /\ Examples.z_new = Examples.z_new
  /\ are_all_deps_fulfilled split_nv vercmp
       (system_of split_nv [Examples.z_new]) Examples.z_new = true.
Proof.
  assert (H : mkSystem split_nv [Examples.x_installed; Examples.y_installed]
              = Done (system_of split_nv
                        [Examples.x_installed; Examples.y_installed]))
    by (vm_compute; reflexivity).
  assert (Hrun : hypothetical_append_packages_to_system split_nv vercmp 10
                   (system_of split_nv
                      [Examples.x_installed; Examples.y_installed])
                   [Examples.z_new] = Done (system_of split_nv [Examples.z_new]))
    by (vm_compute; reflexivity).
  assert (Hin : Examples.z_new ∈ [Examples.z_new]) by left.
  assert (Hget : PyDict.get
                   (all_packages_dict (system_of split_nv [Examples.z_new]))
                   (name Examples.z_new) = Some Examples.z_new)
    by reflexivity.
  split; [exact H|]. split; [exact Hrun|]. split; [exact Hin|].
  split; [exact Hget|].
  exact (hypothetical_append_keeps_fulfilled_packages split_nv vercmp 10 _ _ _ _
           Examples.z_new Examples.z_new H Hrun Hin Hget).
Defined.

(** Two incoming packages of which one conflicts with the other: both stay,
    and the conflict found in the new system is between incoming packages. *)
Lemma hypothetical_append_removes_conflicting_packages_witness :
  mkSystem split_nv [Examples.low] = Done (system_of split_nv [Examples.low])
  /\ hypothetical_append_packages_to_system split_nv vercmp 10
       (system_of split_nv [Examples.low]) [Examples.b; Examples.c]
     = Done (system_of split_nv [Examples.low; Examples.b; Examples.c])
  /\ Examples.b ∈ [Examples.b; Examples.c]
  /\ Examples.c
       ∈ conflicting_with split_nv vercmp
           (system_of split_nv [Examples.low; Examples.b; Examples.c])
           Examples.b
  /\ Examples.c ∈ [Examples.b; Examples.c].
Proof.
  assert (H : mkSystem split_nv [Examples.low]
              = Done (system_of split_nv [Examples.low]))
    by (vm_compute; reflexivity).
  assert (Hrun : hypothetical_append_packages_to_system split_nv vercmp 10
                   (system_of split_nv [Examples.low]) [Examples.b; Examples.c]
                 = Done (system_of split_nv
                           [Examples.low; Examples.b; Examples.c]))
    by (vm_compute; reflexivity).
  assert (Hin : Examples.b ∈ [Examples.b; Examples.c]) by left.
  assert (Hc : Examples.c
                 ∈ conflicting_with split_nv vercmp
                     (system_of split_nv [Examples.low; Examples.b; Examples.c])
                     Examples.b).
  { assert (Hl : conflicting_with split_nv vercmp
                   (system_of split_nv [Examples.low; Examples.b; Examples.c])
                   Examples.b = [Examples.c])
      by (vm_compute; reflexivity).
    rewrite Hl. left. }
  split; [exact H|]. split; [exact Hrun|]. split; [exact Hin|].
  split; [exact Hc|].
  exact (hypothetical_append_removes_conflicting_packages split_nv vercmp 10 _ _
           _ _ Examples.b Examples.c H Hrun Hin Hc).
Defined.

Lemma hypothetical_append_of_nothing_witness :
  mkSystem split_nv [Examples.top; Examples.mid; Examples.low]
  = Done (system_of split_nv [Examples.top; Examples.mid; Examples.low])
  /\ hypothetical_append_packages_to_system split_nv vercmp 1
       (system_of split_nv [Examples.top; Examples.mid; Examples.low]) []
     = Done (system_of split_nv [Examples.top; Examples.mid; Examples.low]).
Proof.
  assert (H : mkSystem split_nv [Examples.top; Examples.mid; Examples.low]
              = Done (system_of split_nv
                        [Examples.top; Examples.mid; Examples.low]))
    by (vm_compute; reflexivity).
  split; [exact H|].
  exact (hypothetical_append_of_nothing split_nv vercmp 0 _ _ H).
Defined.

(** The solver on [app], whose dependency has two providers. *)
Lemma solver_only_extends_solutions_witness :
  exists sols fp',
    solutions_for_dep_problem split_nv vercmp empty_system
      (system_of split_nv
         [Examples.app; Examples.p1; Examples.p2; Examples.tool])
      true ∅ 3 Examples.app initial_solution [] = Done (sols, fp')
    /\ length sols = 2
    /\ Forall (solution_extends initial_solution) sols.
Proof.
  assert (Hr : exists sols fp',
    solutions_for_dep_problem split_nv vercmp empty_system
      (system_of split_nv
         [Examples.app; Examples.p1; Examples.p2; Examples.tool])
      true ∅ 3 Examples.app initial_solution [] = Done (sols, fp')
    /\ length sols = 2).
  { eexists. eexists. split; vm_compute; reflexivity. }
  destruct Hr as (sols & fp' & Hr & Hlen). exists sols, fp'.
  split; [exact Hr|]. split; [exact Hlen|].
  exact (solver_only_extends_solutions split_nv vercmp _ _ _ _ _ _ _ _ _ _ Hr).
Defined.

Lemma plans_contain_the_requested_packages_witness :
  exists r,
    dep_solving split_nv vercmp 1 3 [Examples.app] empty_system
      (system_of split_nv
         [Examples.app; Examples.p1; Examples.p2; Examples.tool]) true
    = Done r
    /\ [Examples.p1; Examples.app] ∈ plans r
    /\ Examples.app ∈ [Examples.app]
    /\ pkg_in Examples.app [Examples.p1; Examples.app] = true.
Proof.
  assert (Hr : exists r,
    dep_solving split_nv vercmp 1 3 [Examples.app] empty_system
      (system_of split_nv
         [Examples.app; Examples.p1; Examples.p2; Examples.tool]) true
    = Done r
    /\ plans r = [[Examples.p1; Examples.app]; [Examples.p2; Examples.app]]).
  { eexists. split; vm_compute; reflexivity. }
  destruct Hr as (r & Hr & Hplans). exists r.
  assert (HP : [Examples.p1; Examples.app] ∈ plans r) by (rewrite Hplans; left).
  assert (Hp : Examples.app ∈ [Examples.app]) by left.
  split; [exact Hr|]. split; [exact HP|]. split; [exact Hp|].
  exact (plans_contain_the_requested_packages split_nv vercmp _ _ _ _ _ _ _ _
           Examples.app Hr HP Hp).
Defined.

Lemma plans_have_distinct_names_witness :
  exists r,
    dep_solving split_nv vercmp 1 3 [Examples.app] empty_system
      (system_of split_nv
         [Examples.app; Examples.p1; Examples.p2; Examples.tool]) true
    = Done r
    /\ [Examples.p2; Examples.app] ∈ plans r
    /\ NoDup (map name [Examples.p2; Examples.app])
    /\ exists S, mkSystem split_nv [Examples.p2; Examples.app] = Done S.
Proof.
  assert (Hr : exists r,
    dep_solving split_nv vercmp 1 3 [Examples.app] empty_system
      (system_of split_nv
         [Examples.app; Examples.p1; Examples.p2; Examples.tool]) true
    = Done r
    /\ plans r = [[Examples.p1; Examples.app]; [Examples.p2; Examples.app]]).
  { eexists. split; vm_compute; reflexivity. }
  destruct Hr as (r & Hr & Hplans). exists r.
  assert (HP : [Examples.p2; Examples.app] ∈ plans r)
    by (rewrite Hplans; right; left).
  split; [exact Hr|]. split; [exact HP|].
  exact (plans_have_distinct_names split_nv vercmp _ _ _ _ _ _ _ _ Hr HP).
Defined.

(** [tool] conflicts with [p2]: the plan for [app] and [tool] takes [p1]. *)
Lemma plans_are_free_of_conflicts_witness :
  exists r,
    dep_solving split_nv vercmp 1 3 [Examples.app; Examples.tool] empty_system
      (system_of split_nv
         [Examples.app; Examples.p1; Examples.p2; Examples.tool]) true
    = Done r
    /\ [Examples.p1; Examples.app; Examples.tool] ∈ plans r
    /\ in_conflict split_nv vercmp Examples.p1 Examples.tool = false.
Proof.
  assert (Hr : exists r,
    dep_solving split_nv vercmp 1 3 [Examples.app; Examples.tool] empty_system
      (system_of split_nv
         [Examples.app; Examples.p1; Examples.p2; Examples.tool]) true
    = Done r
    /\ plans r = [[Examples.p1; Examples.app; Examples.tool]]).
  { eexists. split; vm_compute; reflexivity. }
  destruct Hr as (r & Hr & Hplans). exists r.
  assert (HP : [Examples.p1; Examples.app; Examples.tool] ∈ plans r)
    by (rewrite Hplans; left).
  split; [exact Hr|]. split; [exact HP|].
  apply (plans_are_free_of_conflicts split_nv vercmp _ _ _ _ _ _ _ _ 0 2
           Examples.p1 Examples.tool Hr HP); [reflexivity|reflexivity|lia].
Defined.

Lemma validate_returns_a_valid_plan_witness :
  (validate_and_choose_solution split_nv vercmp 10 empty_system
     [[Examples.a1]; [Examples.c]] [Examples.c] []).1 = Done [Examples.c]
  /\ exists i sys,
       [[Examples.a1]; [Examples.c]] !! i = Some [Examples.c]
       /\ hypothetical_append_packages_to_system split_nv vercmp 10
            empty_system [Examples.c] = Done sys
       /\ contains_needed [Examples.c] sys = true.
Proof.
  assert (H : (validate_and_choose_solution split_nv vercmp 10 empty_system
                 [[Examples.a1]; [Examples.c]] [Examples.c] []).1
              = Done [Examples.c])
    by (vm_compute; reflexivity).
  split; [exact H|].
  exact (validate_returns_a_valid_plan split_nv vercmp 10 empty_system _ _ []
           _ H).
Defined.

Lemma differences_between_systems_spec_witness :
  [system_of split_nv [Examples.z_new]] <> []
  /\ forall p,
       pkg_in p
         (differences_between_systems
            (system_of split_nv [Examples.x_installed; Examples.y_installed])
            [system_of split_nv [Examples.z_new]]).1.1 = true
       <-> pkg_in p
             (PyDict.values
                (all_packages_dict
                   (system_of split_nv
                      [Examples.x_installed; Examples.y_installed]))) = false
           /\ forall other,
                other ∈ [system_of split_nv [Examples.z_new]] ->
                pkg_in p (PyDict.values (all_packages_dict other)) = true.
Proof.
  assert (H : [system_of split_nv [Examples.z_new]] <> []) by discriminate.
  split; [exact H|].
  exact (proj1 (differences_between_systems_spec
                  (system_of split_nv
                     [Examples.x_installed; Examples.y_installed])
                  [system_of split_nv [Examples.z_new]] H)).
Defined.

(** [mid] needs [low], which needs nothing: the upstream system of [low]
    alone has no dependency cycle. *)
Lemma plans_sorted_when_upstream_is_acyclic_witness :
  mkSystem split_nv [Examples.low] = Done (system_of split_nv [Examples.low])
  /\ (forall p q, p ∈ [Examples.low] ++ [Examples.mid] ->
                  q ∈ [Examples.low] ++ [Examples.mid] ->
                  pkg_eqb p q = true -> p = q)
  /\ (forall p q,
        dep_edge split_nv vercmp (system_of split_nv [Examples.low]) p q ->
        ~ depends_on split_nv vercmp (system_of split_nv [Examples.low]) q p)
  /\ dep_solving split_nv vercmp 1 3 [Examples.mid] empty_system
       (system_of split_nv [Examples.low]) true
     = Done (mkSolvingResult [[Examples.low; Examples.mid]] None [])
  /\ (satisfied_by_installed split_nv vercmp empty_system true "low"
      \/ (exists j q,
            j < 1 /\ [Examples.low; Examples.mid] !! j = Some q
            /\ provides_dep split_nv vercmp q "low" = true)).
Proof.
  assert (Hups : mkSystem split_nv [Examples.low]
                 = Done (system_of split_nv [Examples.low]))
    by (vm_compute; reflexivity).
  assert (Hid : forall p q, p ∈ [Examples.low] ++ [Examples.mid] ->
                            q ∈ [Examples.low] ++ [Examples.mid] ->
                            pkg_eqb p q = true -> p = q).
  { intros p q Hp Hq Heq.
    repeat (apply elem_of_cons in Hp as [->|Hp]);
      try (by apply elem_of_nil in Hp);
      repeat (apply elem_of_cons in Hq as [->|Hq]);
      try (by apply elem_of_nil in Hq);
      first [reflexivity|discriminate Heq]. }
  assert (Hlow : forall a q,
            q ∈ provided_by split_nv vercmp
                  (system_of split_nv [Examples.low]) a -> q = Examples.low).
  { intros a q Hq.
    destruct (provided_by_sound split_nv vercmp _ _ a q Hups Hq) as [Hin _].
    apply elem_of_cons in Hin as [->|Hin]; [reflexivity|].
    by apply elem_of_nil in Hin. }
  assert (Hnone : forall y,
            ~ dep_edge split_nv vercmp (system_of split_nv [Examples.low])
                Examples.low y).
  { intros y (a & Ha & _). simpl in Ha. by apply elem_of_nil in Ha. }
  assert (Hacyclic : forall p q,
            dep_edge split_nv vercmp (system_of split_nv [Examples.low]) p q ->
            ~ depends_on split_nv vercmp (system_of split_nv [Examples.low])
                q p).
  { intros p q Hedge Hdep.
    assert (Hq : q = Examples.low).
    { destruct Hedge as (a & _ & Hq). by apply (Hlow a). }
    subst q. unfold depends_on in Hdep.
    apply rtc_inv in Hdep as [<-|(y & Hstep & _)].
    - by apply (Hnone Examples.low).
    - by apply (Hnone y). }
  assert (Hr : dep_solving split_nv vercmp 1 3 [Examples.mid] empty_system
                 (system_of split_nv [Examples.low]) true
               = Done (mkSolvingResult [[Examples.low; Examples.mid]] None []))
    by (vm_compute; reflexivity).
  split; [exact Hups|]. split; [exact Hid|]. split; [exact Hacyclic|].
  split; [exact Hr|].
  apply (plans_sorted_when_upstream_is_acyclic split_nv vercmp 1 3
           [Examples.mid] [Examples.low] empty_system
           (system_of split_nv [Examples.low]) true
           (mkSolvingResult [[Examples.low; Examples.mid]] None [])
           Hups Hid Hacyclic Hr [Examples.low; Examples.mid] 1 Examples.mid);
    [left|reflexivity|left].
Defined.

Lemma plans_draw_from_request_and_upstream_witness :
  exists r,
    dep_solving split_nv vercmp 1 3 [Examples.app] empty_system
      (system_of split_nv
         [Examples.app; Examples.p1; Examples.p2; Examples.tool]) true
    = Done r
    /\ [Examples.p1; Examples.app] ∈ plans r
    /\ Examples.p1 ∈ [Examples.p1; Examples.app]
    /\ (Examples.p1 ∈ [Examples.app]
        \/ Examples.p1
             ∈ system_packages
                 (system_of split_nv
                    [Examples.app; Examples.p1; Examples.p2; Examples.tool])).
Proof.
  assert (Hr : exists r,
    dep_solving split_nv vercmp 1 3 [Examples.app] empty_system
      (system_of split_nv
         [Examples.app; Examples.p1; Examples.p2; Examples.tool]) true
    = Done r
    /\ plans r = [[Examples.p1; Examples.app]; [Examples.p2; Examples.app]]).
  { eexists. split; vm_compute; reflexivity. }
  destruct Hr as (r & Hr & Hplans). exists r.
  assert (HP : [Examples.p1; Examples.app] ∈ plans r) by (rewrite Hplans; left).
  assert (Hp : Examples.p1 ∈ [Examples.p1; Examples.app]) by left.
  split; [exact Hr|]. split; [exact HP|]. split; [exact Hp|].
  exact (plans_draw_from_request_and_upstream split_nv vercmp _ _ _ _ _ _ _ _
           Examples.p1 Hr HP Hp).
Defined.

Lemma returned_plans_pass_validation_witness :
  exists r,
    dep_solving split_nv vercmp 1 3 [Examples.app] empty_system
      (system_of split_nv
         [Examples.app; Examples.p1; Examples.p2; Examples.tool]) true
    = Done r
    /\ mkSystem split_nv [Examples.low] = Done (system_of split_nv [Examples.low])
    /\ (forall plan, plan ∈ plans r ->
          2 * (length (all_packages_dict (system_of split_nv [Examples.low]))
               + length plan) + 1 < 10)
    /\ (exists new_systems,
          new_systems_of split_nv vercmp 10 (system_of split_nv [Examples.low])
            (plans r) = Done new_systems)
    /\ forall e,
         (validate_and_choose_solution split_nv vercmp 10
            (system_of split_nv [Examples.low]) (plans r) [Examples.app] []).1
         = Raised e ->
         e = NoValidSolutionsFound \/ e = EOFError.
Proof.
  assert (Hr : exists r,
    dep_solving split_nv vercmp 1 3 [Examples.app] empty_system
      (system_of split_nv
         [Examples.app; Examples.p1; Examples.p2; Examples.tool]) true
    = Done r
    /\ plans r = [[Examples.p1; Examples.app]; [Examples.p2; Examples.app]]).
  { eexists. split; vm_compute; reflexivity. }
  destruct Hr as (r & Hr & Hplans). exists r.
  assert (HS : mkSystem split_nv [Examples.low]
               = Done (system_of split_nv [Examples.low]))
    by (vm_compute; reflexivity).
  assert (Hfuel : forall plan, plan ∈ plans r ->
            2 * (length (all_packages_dict (system_of split_nv [Examples.low]))
                 + length plan) + 1 < 10).
  { rewrite Hplans. intros plan Hplan.
    repeat (apply elem_of_cons in Hplan as [->|Hplan]);
      try (by apply elem_of_nil in Hplan); vm_compute; lia. }
  split; [exact Hr|]. split; [exact HS|]. split; [exact Hfuel|].
  exact (returned_plans_pass_validation split_nv vercmp _ _ _ _ _ _ _ 10 _ _
           [Examples.app] [] Hr HS Hfuel).
Defined.

Lemma dep_solving_returns_a_result_witness :
  mkSystem split_nv [Examples.app; Examples.p1; Examples.p2; Examples.tool]
  = Done (system_of split_nv
            [Examples.app; Examples.p1; Examples.p2; Examples.tool])
  /\ (forall p q,
        p ∈ [Examples.app; Examples.p1; Examples.p2; Examples.tool]
            ++ [Examples.app; Examples.tool] ->
        q ∈ [Examples.app; Examples.p1; Examples.p2; Examples.tool]
            ++ [Examples.app; Examples.tool] ->
        name p = name q -> p = q)
  /\ size (universe_names
             (system_of split_nv
                [Examples.app; Examples.p1; Examples.p2; Examples.tool])
             [Examples.app; Examples.tool]) < 5
  /\ length (universe
               (system_of split_nv
                  [Examples.app; Examples.p1; Examples.p2; Examples.tool])
               [Examples.app; Examples.tool]) < 9
  /\ exists r,
       dep_solving split_nv vercmp 5 9 [Examples.app; Examples.tool]
         empty_system
         (system_of split_nv
            [Examples.app; Examples.p1; Examples.p2; Examples.tool]) true
       = Done r.
Proof.
  assert (Hups : mkSystem split_nv
                   [Examples.app; Examples.p1; Examples.p2; Examples.tool]
                 = Done (system_of split_nv
                           [Examples.app; Examples.p1; Examples.p2;
                            Examples.tool]))
    by (vm_compute; reflexivity).
  assert (Hnames : forall p q,
            p ∈ [Examples.app; Examples.p1; Examples.p2; Examples.tool]
                ++ [Examples.app; Examples.tool] ->
            q ∈ [Examples.app; Examples.p1; Examples.p2; Examples.tool]
                ++ [Examples.app; Examples.tool] ->
            name p = name q -> p = q).
  { intros p q Hp Hq Hn.
    repeat (apply elem_of_cons in Hp as [->|Hp]);
      try (by apply elem_of_nil in Hp);
      repeat (apply elem_of_cons in Hq as [->|Hq]);
      try (by apply elem_of_nil in Hq);
      first [reflexivity|discriminate Hn]. }
  assert (Hpasses :
    size (universe_names
            (system_of split_nv
               [Examples.app; Examples.p1; Examples.p2; Examples.tool])
            [Examples.app; Examples.tool]) < 5) by (vm_compute; lia).
  assert (Hfuel :
    length (universe
              (system_of split_nv
                 [Examples.app; Examples.p1; Examples.p2; Examples.tool])
              [Examples.app; Examples.tool]) < 9) by (vm_compute; lia).
  split; [exact Hups|]. split; [exact Hnames|]. split; [exact Hpasses|].
  split; [exact Hfuel|].
  exact (dep_solving_returns_a_result split_nv vercmp 5 9
           [Examples.app; Examples.tool]
           [Examples.app; Examples.p1; Examples.p2; Examples.tool] empty_system
           (system_of split_nv
              [Examples.app; Examples.p1; Examples.p2; Examples.tool])
           true Hups Hnames Hpasses Hfuel).
Defined.

